(** * The formula engine of the spreadsheet (src/utils/formulas.ts)

    A shallow embedding of [calculateDisplayCells] and of everything it
    calls: the number and string primitives of the host language it relies
    on, the lexer, the recursive-descent parser, the reference resolver, the
    dependency collector, the Kahn scheduler, the evaluator and the
    formatter.

    The engine keeps the rows and columns of references as exact integers.
    The module [Binary64] has the reference resolver once more on the
    numbers of the source, with its loops and its array; the two agree for
    references with row and column numbers below 2^53 and ranges of at
    most 2^32 - 1 keys, and beyond that the source returns no keys.

    With it, shallow embeddings of two users of the keys of the cells: the
    import and export of delimited text (src/utils/csv.ts), that is
    [cellsToCsv] and [csvToCells] and everything they call, and the
    functions by which the grid component pastes text into the store and
    takes a change back or makes it again.

    Conventions of the embedding.
    - A JavaScript [number] is an IEEE 754 binary64 value: Rocq's primitive
      [float].  [Number.parseFloat] and [String(number)] are written out on
      exact integer arithmetic so that they can be run.
    - A JavaScript string is a [string]; each character stands for one code
      unit in the range U+0000..U+00FF.
    - Row and column numbers are integers.  They are kept as exact integers
      ([Z]); the source holds them in a [number], which is exact below 2^53,
      so the embedding is that of the source for references whose row and
      column numbers stay below 2^53.
    - [Map] and [Set] iterate in insertion order, which the scheduler
      observes, so both are lists: association lists without duplicate keys
      for [Map], duplicate-free lists for [Set]. *)

From Stdlib Require Import Bool List String Ascii ZArith Lia Floats Sorted.
Import ListNotations.

Local Open Scope string_scope.
Local Open Scope list_scope.
Local Open Scope Z_scope.

(** ** Characters and strings *)

Module JsString.

Definition code (c : ascii) : Z := Z.of_N (N_of_ascii c).

Definition between (lo hi : Z) (c : ascii) : bool :=
  (lo <=? code c) && (code c <=? hi).

(** [/[0-9]/.test(char)] *)
Definition isDigit (c : ascii) : bool := between 48 57 c.

(** [/[a-zA-Z]/.test(char)] *)
Definition isAlpha (c : ascii) : bool := between 97 122 c || between 65 90 c.

(** White space and line terminators below U+0100, as [trim] strips them:
    TAB, LF, VT, FF, CR, SP and NBSP. *)
Definition isWhiteSpace (c : ascii) : bool :=
  between 9 13 c || (code c =? 32) || (code c =? 160).

Definition chars (s : string) : list ascii := list_ascii_of_string s.
Definition text (cs : list ascii) : string := string_of_list_ascii cs.

Fixpoint dropWhile (p : ascii -> bool) (cs : list ascii) : list ascii :=
  match cs with
  | [] => []
  | c :: rest => if p c then dropWhile p rest else cs
  end.

Fixpoint takeWhile (p : ascii -> bool) (cs : list ascii) : list ascii :=
  match cs with
  | [] => []
  | c :: rest => if p c then c :: takeWhile p rest else []
  end.

(** [s.trim()] *)
Definition trim (s : string) : string :=
  text (rev (dropWhile isWhiteSpace (rev (dropWhile isWhiteSpace (chars s))))).

(** [s.toUpperCase()] on the letters a-z.  The engine applies it to the
    letters of a reference and to the name of a function, which the lexer
    makes of ASCII letters only; on any text of the character range it
    agrees with the host's on whether the result is one of the five function
    names the evaluator knows. *)
Definition upperChar (c : ascii) : ascii :=
  if between 97 122 c then ascii_of_N (N_of_ascii c - 32) else c.

Definition toUpperCase (s : string) : string := text (map upperChar (chars s)).

(** [s.startsWith('=')] *)
Definition startsWithEq (s : string) : bool :=
  match s with
  | String c _ => Ascii.eqb c "="
  | EmptyString => false
  end.

(** [s.slice(1)] *)
Definition slice1 (s : string) : string :=
  match s with
  | String _ rest => rest
  | EmptyString => EmptyString
  end.

Definition digitValue (c : ascii) : Z := code c - 48.

(** The integer a run of decimal digits denotes. *)
Definition digitsValue (ds : list ascii) : Z :=
  fold_left (fun acc d => acc * 10 + digitValue d) ds 0.

Definition digitChar (d : Z) : ascii := ascii_of_N (Z.to_N (48 + d)).

Fixpoint natDigits (fuel : nat) (z : Z) (acc : list ascii) : list ascii :=
  match fuel with
  | O => acc
  | S fuel' =>
      let acc' := digitChar (z mod 10) :: acc in
      if z <? 10 then acc' else natDigits fuel' (z / 10) acc'
  end.

(** Decimal digits of a non-negative integer, most significant first. *)
Definition decimalDigits (z : Z) : list ascii :=
  natDigits (S (Z.to_nat (Z.log2 z))) z [].

(** [String(z)] for an integer-valued number. *)
Definition ofInteger (z : Z) : string :=
  if z <? 0 then String "-" (text (decimalDigits (- z)))
  else text (decimalDigits z).

End JsString.

(** ** Numbers *)

Module JsNumber.

Import JsString.

Definition isFinite (x : float) : bool := PrimFloat.is_finite x.

(** The binary64 value nearest to [n / d] (ties to even), for [0 <= n] and
    [0 < d]: the quotient is computed with more than 60 extra bits and a
    sticky bit, then rounded once. *)
Definition roundQuotient (neg : bool) (n d : Z) : float :=
  if n =? 0 then (if neg then neg_zero else zero)
  else
    let s := Z.max 0 (64 + Z.log2 d - Z.log2 n) in
    let (q, r) := Z.div_eucl (Z.shiftl n s) d in
    let m := 2 * q + (if r =? 0 then 0 else 1) in
    SF2Prim (binary_normalize prec emax (if neg then - m else m) (- s - 1) false).

(** The binary64 value nearest to [s * 10^e]. *)
Definition ofDecimal (neg : bool) (s e : Z) : float :=
  if 0 <=? e then roundQuotient neg (s * 10 ^ e) 1
  else roundQuotient neg s (10 ^ (- e)).

(** [Number.parseFloat(s)] on text over the alphabet of white space, sign,
    digits and the dot: the longest prefix that is a decimal literal.  The
    exponent and [Infinity] forms of the literal are left out: the two call
    sites pass text made of [-], [.] and digits only. *)
Definition parseFloat (s : string) : float :=
  let cs := dropWhile isWhiteSpace (chars s) in
  let '(neg, cs) :=
    match cs with
    | c :: rest =>
        if Ascii.eqb c "-" then (true, rest)
        else if Ascii.eqb c "+" then (false, rest)
        else (false, cs)
    | [] => (false, cs)
    end in
  let ip := takeWhile isDigit cs in
  let fp :=
    match dropWhile isDigit cs with
    | c :: rest => if Ascii.eqb c "." then takeWhile isDigit rest else []
    | [] => []
    end in
  match ip ++ fp with
  | [] => nan
  | ds => roundQuotient neg (digitsValue ds) (10 ^ Z.of_nat (List.length fp))
  end.

(** *** [String(number)]: the shortest decimal that reads back as the
    number *)

(** The least [j >= 1] with [q <= p * 10^j], for [0 < p < q]; it is at most
    324 for a binary64 value. *)
Fixpoint scaleUp (fuel : nat) (p q j : Z) : Z :=
  match fuel with
  | O => j
  | S fuel' => if q <=? p * 10 ^ j then j else scaleUp fuel' p q (j + 1)
  end.

(** The [k] with [10^(k-1) <= p/q < 10^k], for positive [p] and [q]. *)
Definition decimalExponent (p q : Z) : Z :=
  if q <=? p then Z.of_nat (List.length (decimalDigits (p / q)))
  else 1 - scaleUp 400 p q 1.

(** For [n] digits: the integers just below and above [x * 10^(n-k)] that
    read back as [x], the nearer one first. *)
Definition candidate (x : float) (p q k n : Z) : option Z :=
  let num := if k <=? n then p * 10 ^ (n - k) else p in
  let den := if k <=? n then q else q * 10 ^ (k - n) in
  let lo := num / den in
  let hi := lo + 1 in
  let okLo := (ofDecimal false lo (k - n) =? x)%float in
  let okHi := (ofDecimal false hi (k - n) =? x)%float in
  let twice := 2 * num - (2 * lo + 1) * den in
  let preferLo := (twice <? 0) || ((twice =? 0) && Z.even lo) in
  match okLo, okHi with
  | true, true => Some (if preferLo then lo else hi)
  | true, false => Some lo
  | false, true => Some hi
  | false, false => None
  end.

(** The least number of digits that reads back as [x], with the digits as
    an integer; 17 digits always do for a binary64 value. *)
Fixpoint shortest (fuel : nat) (x : float) (p q k n : Z) : Z * Z :=
  match fuel with
  | O => (0, n)
  | S fuel' =>
      match candidate x p q k n with
      | Some s => (s, n)
      | None => shortest fuel' x p q k (n + 1)
      end
  end.

Definition zeros (n : Z) : list ascii := repeat "0"%char (Z.to_nat n).

(** The layout rules of [Number::toString] for digits [ds] ([n] of them)
    and decimal exponent [k]. *)
Definition layout (ds : list ascii) (k : Z) : list ascii :=
  let n := Z.of_nat (List.length ds) in
  if (n <=? k) && (k <=? 21) then ds ++ zeros (k - n)
  else if (0 <? k) && (k <=? 21) then
    firstn (Z.to_nat k) ds ++ "."%char :: skipn (Z.to_nat k) ds
  else if (-6 <? k) && (k <=? 0) then
    "0"%char :: "."%char :: zeros (- k) ++ ds
  else
    let e := k - 1 in
    let expo := (if e <? 0 then "-"%char else "+"%char) :: decimalDigits (Z.abs e) in
    match ds with
    | [d] => d :: "e"%char :: expo
    | d :: rest => d :: "."%char :: rest ++ "e"%char :: expo
    | [] => []
    end.

Definition positiveToString (x : float) (m : positive) (e : Z) : list ascii :=
  let p := if 0 <=? e then Z.pos m * 2 ^ e else Z.pos m in
  let q := if 0 <=? e then 1 else 2 ^ (- e) in
  let k := decimalExponent p q in
  let '(s, n) := shortest 17 x p q k 1 in
  if s =? 10 ^ n then layout ["1"%char] (k + 1)
  else layout (decimalDigits s) k.

(** [String(x)] *)
Definition toString (x : float) : string :=
  match Prim2SF x with
  | S754_nan => "NaN"
  | S754_zero _ => "0"
  | S754_infinity sign => if sign then "-Infinity" else "Infinity"
  | S754_finite sign m e =>
      let body := text (positiveToString (abs x) m e) in
      if sign then String "-" body else body
  end.

End JsNumber.

(** ** [Map] and [Set] in insertion order *)

Module JsMap.

Section Ops.
Context {V : Type}.

(** [m.get(key)] *)
Fixpoint get (key : string) (m : list (string * V)) : option V :=
  match m with
  | [] => None
  | (k, v) :: rest => if String.eqb k key then Some v else get key rest
  end.

(** [m.has(key)] *)
Definition has (key : string) (m : list (string * V)) : bool :=
  match get key m with Some _ => true | None => false end.

(** [m.set(key, v)]: an existing key keeps its place, a new one goes last. *)
Fixpoint set (key : string) (v : V) (m : list (string * V)) : list (string * V) :=
  match m with
  | [] => [(key, v)]
  | (k, v0) :: rest =>
      if String.eqb k key then (k, v) :: rest else (k, v0) :: set key v rest
  end.

(** [m.keys()] *)
Definition keys (m : list (string * V)) : list string := map fst m.

End Ops.

(** [s.has(key)] for a [Set] *)
Definition mem (key : string) (s : list string) : bool :=
  existsb (String.eqb key) s.

(** [s.add(key)] *)
Definition add (key : string) (s : list string) : list string :=
  if mem key s then s else s ++ [key].

End JsMap.

(** ** Syntax *)

Inductive TokenType : Type :=
| TNumber | TIdentifier | TCell | TOperator | TParen | TComma | TColon | TEof.

Record Token : Type := mkToken { tokType : TokenType; tokValue : string }.

Inductive BinaryOp : Type := OpAdd | OpSub | OpMul | OpDiv.
Inductive UnaryOp : Type := OpPlus | OpMinus.

#[warnings="-register-all"]
Inductive FormulaNode : Type :=
| NNumber (value : float)
| NCell (ref : string)
| NBinary (op : BinaryOp) (lhs rhs : FormulaNode)
| NUnary (op : UnaryOp) (operand : FormulaNode)
| NFunction (name : string) (args : list FormulaNode)
| NRange (start end_ : string).

Record ParseResult : Type := mkParseResult { ok : bool; ast : option FormulaNode }.

Record CellCoords : Type := mkCoords { row : Z; col : Z }.

(** [type FormulaValue = number | string | null] *)
Inductive FormulaValue : Type :=
| VNumber (n : float)
| VString (s : string)
| VNull.

Definition tokenTypeEqb (a b : TokenType) : bool :=
  match a, b with
  | TNumber, TNumber | TIdentifier, TIdentifier | TCell, TCell
  | TOperator, TOperator | TParen, TParen | TComma, TComma
  | TColon, TColon | TEof, TEof => true
  | _, _ => false
  end.

(** ** Lexer *)

Definition charToken (t : TokenType) (c : ascii) : Token :=
  mkToken t (String c EmptyString).

Definition eofToken : Token := mkToken TEof "".

Definition isBlank (c : ascii) : bool :=
  Ascii.eqb c " " || (JsString.code c =? 9) || (JsString.code c =? 10)
  || (JsString.code c =? 13).

Definition isOperatorChar (c : ascii) : bool :=
  Ascii.eqb c "+" || Ascii.eqb c "-" || Ascii.eqb c "*" || Ascii.eqb c "/".

Definition isParenChar (c : ascii) : bool := Ascii.eqb c "(" || Ascii.eqb c ")".

Definition isDigitOrDot (c : ascii) : bool := JsString.isDigit c || Ascii.eqb c ".".

(** [isDigit(input[i + 1] ?? '')] *)
Definition nextIsDigit (rest : list ascii) : bool :=
  match rest with
  | c :: _ => JsString.isDigit c
  | [] => false
  end.

(** The [while (i < input.length)] loop of [tokenize]; [input] is what lies
    at and after index [i].  Every turn consumes a character, so the length
    of the input is fuel enough ([tokenizeFrom_fuel]). *)
Fixpoint tokenizeFrom (fuel : nat) (input : list ascii) : list Token :=
  match fuel, input with
  | O, _ | _, [] => [eofToken]
  | S fuel', char :: rest =>
      if isBlank char then tokenizeFrom fuel' rest
      else if isOperatorChar char then
        charToken TOperator char :: tokenizeFrom fuel' rest
      else if isParenChar char then
        charToken TParen char :: tokenizeFrom fuel' rest
      else if Ascii.eqb char "," then
        charToken TComma char :: tokenizeFrom fuel' rest
      else if Ascii.eqb char ":" then
        charToken TColon char :: tokenizeFrom fuel' rest
      else if JsString.isDigit char || (Ascii.eqb char "." && nextIsDigit rest) then
        let value := char :: JsString.takeWhile isDigitOrDot rest in
        mkToken TNumber (JsString.text value)
          :: tokenizeFrom fuel' (JsString.dropWhile isDigitOrDot rest)
      else if JsString.isAlpha char then
        let letters := char :: JsString.takeWhile JsString.isAlpha rest in
        let rest1 := JsString.dropWhile JsString.isAlpha rest in
        let digits := JsString.takeWhile JsString.isDigit rest1 in
        let rest2 := JsString.dropWhile JsString.isDigit rest1 in
        match digits with
        | _ :: _ => mkToken TCell (JsString.text (letters ++ digits))
        | [] => mkToken TIdentifier (JsString.text letters)
        end :: tokenizeFrom fuel' rest2
      else tokenizeFrom fuel' rest
  end.

Definition tokenize (input : string) : list Token :=
  tokenizeFrom (String.length input) (JsString.chars input).

(** ** Parser

    The parser object holds the token array and an index.  Here the state is
    the part of the array at and after the index; the array always ends with
    the end-of-input token, which [advance] never passes. *)

(** [this.peek()] *)
Definition peek (ts : list Token) : Token := hd eofToken ts.

(** [this.peekNext()]: [tokens[index + 1] ?? tokens[index]] *)
Definition peekNext (ts : list Token) : Token :=
  match ts with
  | _ :: t :: _ => t
  | _ => peek ts
  end.

(** [this.isAtEnd()] *)
Definition isAtEnd (ts : list Token) : bool := tokenTypeEqb (tokType (peek ts)) TEof.

(** [this.advance()]; its result, [previous()], is the token passed over. *)
Definition advance (ts : list Token) : list Token :=
  if isAtEnd ts then ts else tl ts.

(** [this.check(type)] *)
Definition check (t : TokenType) (ts : list Token) : bool :=
  tokenTypeEqb (tokType (peek ts)) t.

(** [this.checkParen(value)] *)
Definition checkParen (v : string) (ts : list Token) : bool :=
  tokenTypeEqb (tokType (peek ts)) TParen && String.eqb (tokValue (peek ts)) v.

(** [this.match(type)]: on success the token passed over and the new state. *)
Definition matchType (t : TokenType) (ts : list Token) : option (Token * list Token) :=
  if check t ts then Some (peek ts, advance ts) else None.

(** [this.matchOperator(...ops)] *)
Definition matchOperator (ops : list string) (ts : list Token)
  : option (Token * list Token) :=
  if negb (tokenTypeEqb (tokType (peek ts)) TOperator) then None
  else if negb (JsMap.mem (tokValue (peek ts)) ops) then None
  else Some (peek ts, advance ts).

(** [this.matchParen(value)] *)
Definition matchParen (v : string) (ts : list Token) : option (list Token) :=
  if negb (tokenTypeEqb (tokType (peek ts)) TParen) then None
  else if negb (String.eqb (tokValue (peek ts)) v) then None
  else Some (advance ts).

(** [previous().value as '+' | '-' | '*' | '/'] *)
Definition binaryOpOf (v : string) : BinaryOp :=
  if String.eqb v "+" then OpAdd
  else if String.eqb v "-" then OpSub
  else if String.eqb v "*" then OpMul
  else OpDiv.

(** [previous().value as '+' | '-'] *)
Definition unaryOpOf (v : string) : UnaryOp :=
  if String.eqb v "-" then OpMinus else OpPlus.

(** What a parsing method leaves: its result ([None] for [null]) and the
    state after it. *)
Definition Parsed : Type := option FormulaNode * list Token.

(** The methods call each other recursively; [fuel] bounds the depth of the
    calls, and [None] is returned only when it runs out, which
    [parseExpression_total] excludes for the fuel [parseFormula] gives. *)
Definition andThen {A B : Type} (m : option A) (k : A -> option B) : option B :=
  match m with
  | Some a => k a
  | None => None
  end.

Notation "' pat <- m ;; k" := (andThen m (fun x => match x with pat => k end))
  (at level 61, pat pattern, m at next level, right associativity).

Fixpoint parseExpression (fuel : nat) (ts : list Token) : option Parsed :=
  match fuel with
  | O => None
  | S fuel =>
      '(node, ts) <- parseTerm fuel ts ;;
      expressionLoop fuel node ts
  end

with expressionLoop (fuel : nat) (node : option FormulaNode) (ts : list Token)
  : option Parsed :=
  match fuel with
  | O => None
  | S fuel =>
      match matchOperator ["+"; "-"] ts with
      | None => Some (node, ts)
      | Some (prev, ts) =>
          '(rhs, ts) <- parseTerm fuel ts ;;
          match node, rhs with
          | Some l, Some r =>
              expressionLoop fuel (Some (NBinary (binaryOpOf (tokValue prev)) l r)) ts
          | _, _ => Some (None, ts)
          end
      end
  end

with parseTerm (fuel : nat) (ts : list Token) : option Parsed :=
  match fuel with
  | O => None
  | S fuel =>
      '(node, ts) <- parseUnary fuel ts ;;
      termLoop fuel node ts
  end

with termLoop (fuel : nat) (node : option FormulaNode) (ts : list Token)
  : option Parsed :=
  match fuel with
  | O => None
  | S fuel =>
      match matchOperator ["*"; "/"] ts with
      | None => Some (node, ts)
      | Some (prev, ts) =>
          '(rhs, ts) <- parseUnary fuel ts ;;
          match node, rhs with
          | Some l, Some r =>
              termLoop fuel (Some (NBinary (binaryOpOf (tokValue prev)) l r)) ts
          | _, _ => Some (None, ts)
          end
      end
  end

with parseUnary (fuel : nat) (ts : list Token) : option Parsed :=
  match fuel with
  | O => None
  | S fuel =>
      match matchOperator ["+"; "-"] ts with
      | Some (prev, ts) =>
          '(operand, ts) <- parseUnary fuel ts ;;
          match operand with
          | None => Some (None, ts)
          | Some o => Some (Some (NUnary (unaryOpOf (tokValue prev)) o), ts)
          end
      | None => parsePrimary fuel ts
      end
  end

with parsePrimary (fuel : nat) (ts : list Token) : option Parsed :=
  match fuel with
  | O => None
  | S fuel =>
      match matchType TNumber ts with
      | Some (prev, ts) =>
          Some (Some (NNumber (JsNumber.parseFloat (tokValue prev))), ts)
      | None =>
      match matchType TCell ts with
      | Some (prev, ts) => Some (Some (NCell (tokValue prev)), ts)
      | None =>
      match matchType TIdentifier ts with
      | Some (prev, ts) =>
          let name := tokValue prev in
          match matchParen "(" ts with
          | None => Some (None, ts)
          | Some ts =>
              '(args, ts) <-
                (if checkParen ")" ts then Some (Some [], ts)
                 else parseArguments fuel [] ts) ;;
              match args with
              | None => Some (None, ts)
              | Some args =>
                  match matchParen ")" ts with
                  | None => Some (None, ts)
                  | Some ts => Some (Some (NFunction name args), ts)
                  end
              end
          end
      | None =>
      match matchParen "(" ts with
      | Some ts =>
          '(expr, ts) <- parseExpression fuel ts ;;
          match expr with
          | None => Some (None, ts)
          | Some e =>
              match matchParen ")" ts with
              | None => Some (None, ts)
              | Some ts => Some (Some e, ts)
              end
          end
      | None => Some (None, ts)
      end end end end
  end

(** The [do { ... } while (this.match('comma'))] loop of [parsePrimary];
    [None] as list when an argument is [null]. *)
with parseArguments (fuel : nat) (args : list FormulaNode) (ts : list Token)
  : option (option (list FormulaNode) * list Token) :=
  match fuel with
  | O => None
  | S fuel =>
      '(arg, ts) <- parseArgument fuel ts ;;
      match arg with
      | None => Some (None, ts)
      | Some a =>
          match matchType TComma ts with
          | Some (_, ts) => parseArguments fuel (args ++ [a]) ts
          | None => Some (Some (args ++ [a]), ts)
          end
      end
  end

with parseArgument (fuel : nat) (ts : list Token) : option Parsed :=
  match fuel with
  | O => None
  | S fuel =>
      if tokenTypeEqb (tokType (peek ts)) TCell
         && tokenTypeEqb (tokType (peekNext ts)) TColon
      then
        let start := tokValue (peek ts) in
        let ts := advance (advance ts) in
        match matchType TCell ts with
        | None => Some (None, ts)
        | Some (prev, ts) => Some (Some (NRange start (tokValue prev)), ts)
        end
      else parseExpression fuel ts
  end.

Definition parseFuel (tokens : list Token) : nat := 4 * List.length tokens + 4.

(** [new Parser(tokens).parseFormula()] *)
Definition parseFormula (tokens : list Token) : ParseResult :=
  if tokenTypeEqb (tokType (peek tokens)) TEof then mkParseResult false None
  else
    match parseExpression (parseFuel tokens) tokens with
    | Some (Some ast, rest) =>
        if negb (tokenTypeEqb (tokType (peek rest)) TEof) then mkParseResult false None
        else mkParseResult true (Some ast)
    | _ => mkParseResult false None
    end.

(** ** Values: coercion and formatting *)

Definition nonEmpty {A : Type} (l : list A) : bool :=
  match l with [] => false | _ :: _ => true end.

(** [NUMBER_RE.test(s)] for [NUMBER_RE = /^-?\d+(\.\d+)?$/] *)
Definition NUMBER_RE_test (s : string) : bool :=
  let cs := JsString.chars s in
  let cs :=
    match cs with
    | c :: rest => if Ascii.eqb c "-" then rest else cs
    | [] => cs
    end in
  let whole := JsString.takeWhile JsString.isDigit cs in
  nonEmpty whole &&
  match JsString.dropWhile JsString.isDigit cs with
  | [] => true
  | c :: fraction =>
      Ascii.eqb c "." && nonEmpty fraction && forallb JsString.isDigit fraction
  end.

Definition isNumericValue (value : FormulaValue) : bool :=
  match value with
  | VNumber n => JsNumber.isFinite n
  | VString s => NUMBER_RE_test (JsString.trim s)
  | VNull => false
  end.

Definition toNumber (value : FormulaValue) : float :=
  match value with
  | VNumber n => n
  | VString s =>
      let trimmed := JsString.trim s in
      if negb (NUMBER_RE_test trimmed) then 0%float
      else JsNumber.parseFloat trimmed
  | VNull => 0%float
  end.

Definition formatValue (value : FormulaValue) : string :=
  match value with
  | VNull => ""
  | VNumber n => if JsNumber.isFinite n then JsNumber.toString n else "#ERROR"
  | VString s => s
  end.

(** ** Reference resolver *)

(** [getCellKey(row, col)].  The module [cellKey] it is imported from is not
    among the source files; the grid component defines the same function by
    the template [`${row}:${col}`], which is taken here, and the CSV code
    splits keys at the colon.  Rows and columns are integers here and
    print as their decimal digits; [Binary64.getCellKey] below prints the
    numbers of the source as [String] does, and the two agree on whole
    numbers below 2^53 ([getCellKey_whole]). *)
Definition getCellKey (row col : Z) : string :=
  (JsString.ofInteger row ++ ":" ++ JsString.ofInteger col)%string.

(** [upper.charCodeAt(i) - 64] accumulated in base 26 over the letters *)
Definition columnNumber (colLabel : list ascii) : Z :=
  fold_left (fun col c => col * 26 + (JsString.code (JsString.upperChar c) - 64))
            colLabel 0.

(** [parseCellRef(ref)]; the pattern is [/^([a-zA-Z]+)([0-9]+)$/].  Row
    and column are exact integers here, so the finiteness test on [row]
    always holds and is left out; the source agrees as long as the digit run
    and the letter run denote numbers below 2^53, beyond which its numbers
    are rounded.  [Binary64.parseCellRef] below is the function on the
    numbers of the source, finiteness test included, and
    [parseCellRef_whole] relates the two. *)
Definition parseCellRef (ref : string) : option CellCoords :=
  let cs := JsString.chars ref in
  let colLabel := JsString.takeWhile JsString.isAlpha cs in
  let rowText := JsString.dropWhile JsString.isAlpha cs in
  if nonEmpty colLabel && nonEmpty rowText && forallb JsString.isDigit rowText then
    let col := columnNumber colLabel - 1 in
    let row := JsString.digitsValue rowText - 1 in
    if (row <? 0) || (col <? 0) then None else Some (mkCoords row col)
  else None.

(** The values a [for (let i = lo; i <= hi; i += 1)] loop visits. *)
Definition upto (lo hi : Z) : list Z :=
  map (fun i => lo + Z.of_nat i) (seq 0 (Z.to_nat (hi - lo + 1))).

(** [expandRange(start, end)], as the list of the keys of the rectangle.
    [Binary64.expandRange] below has the two loops over numbers and the
    array the keys are pushed onto; it returns this list for references
    below 2^53 and at most 2^32 - 1 keys ([expandRange_returns]). *)
Definition expandRange (start end_ : string) : list string :=
  match parseCellRef start, parseCellRef end_ with
  | Some startCell, Some endCell =>
      let rowStart := Z.min (row startCell) (row endCell) in
      let rowEnd := Z.max (row startCell) (row endCell) in
      let colStart := Z.min (col startCell) (col endCell) in
      let colEnd := Z.max (col startCell) (col endCell) in
      flat_map (fun row => map (fun col => getCellKey row col) (upto colStart colEnd))
               (upto rowStart rowEnd)
  | _, _ => []
  end.

(** ** Dependency collector *)

Fixpoint collectDependencies (node : FormulaNode) (deps : list string) : list string :=
  match node with
  | NCell ref =>
      match parseCellRef ref with
      | Some coords => JsMap.add (getCellKey (row coords) (col coords)) deps
      | None => deps
      end
  | NRange start end_ =>
      fold_left (fun deps key => JsMap.add key deps) (expandRange start end_) deps
  | NBinary _ lhs rhs => collectDependencies rhs (collectDependencies lhs deps)
  | NUnary _ operand => collectDependencies operand deps
  | NFunction _ args =>
      fold_left (fun deps arg => collectDependencies arg deps) args deps
  | NNumber _ => deps
  end.

(** ** Evaluator *)

(** [FormulaValue | FormulaValue[]] *)
Inductive Evaluated : Type :=
| One (value : FormulaValue)
| Many (values : list FormulaValue).

(** [Array.isArray(value) ? value[0] ?? 0 : value] *)
Definition operandValue (value : Evaluated) : FormulaValue :=
  match value with
  | One v => v
  | Many (VNull :: _) | Many [] => VNumber 0
  | Many (v :: _) => v
  end.

(** [Array.isArray(value) ? value : [value]] *)
Definition argumentValues (value : Evaluated) : list FormulaValue :=
  match value with
  | One v => [v]
  | Many vs => vs
  end.

Definition isNegativeZero (x : float) : bool :=
  match classify x with NZero => true | _ => false end.

Definition isPositiveZero (x : float) : bool :=
  match classify x with PZero => true | _ => false end.

(** [Math.min(...numbers)] *)
Definition Math_min (numbers : list float) : float :=
  fold_left
    (fun lowest x =>
       if is_nan lowest || is_nan x then nan
       else if isNegativeZero x && isPositiveZero lowest then x
       else if (x <? lowest)%float then x else lowest)
    numbers infinity.

(** [Math.max(...numbers)] *)
Definition Math_max (numbers : list float) : float :=
  fold_left
    (fun highest x =>
       if is_nan highest || is_nan x then nan
       else if isPositiveZero x && isNegativeZero highest then x
       else if (highest <? x)%float then x else highest)
    numbers neg_infinity.

(** [numbers.reduce((total, value) => total + value, 0)] *)
Definition sum (numbers : list float) : float :=
  fold_left (fun total value => (total + value)%float) numbers 0%float.

(** [numbers.length] as a number *)
Definition count (numbers : list float) : float :=
  JsNumber.ofDecimal false (Z.of_nat (List.length numbers)) 0.

Definition applyFunction (name : string) (numbers : list float) : FormulaValue :=
  if String.eqb name "SUM" then VNumber (sum numbers)
  else if String.eqb name "AVERAGE" then
    VNumber (if nonEmpty numbers then (sum numbers / count numbers)%float else 0%float)
  else if String.eqb name "MIN" then
    VNumber (if nonEmpty numbers then Math_min numbers else 0%float)
  else if String.eqb name "MAX" then
    VNumber (if nonEmpty numbers then Math_max numbers else 0%float)
  else if String.eqb name "COUNT" then VNumber (count numbers)
  else VString "#ERROR".

Fixpoint evaluateNode (node : FormulaNode) (getCellValue : string -> FormulaValue)
  : Evaluated :=
  match node with
  | NNumber value => One (VNumber value)
  | NCell ref =>
      match parseCellRef ref with
      | None => One VNull
      | Some coords => One (getCellValue (getCellKey (row coords) (col coords)))
      end
  | NRange start end_ => Many (map getCellValue (expandRange start end_))
  | NUnary op operand =>
      let value := evaluateNode operand getCellValue in
      let numeric := toNumber (operandValue value) in
      One (VNumber match op with OpMinus => (- numeric)%float | OpPlus => numeric end)
  | NBinary op lhs rhs =>
      let leftNum := toNumber (operandValue (evaluateNode lhs getCellValue)) in
      let rightNum := toNumber (operandValue (evaluateNode rhs getCellValue)) in
      match op with
      | OpAdd => One (VNumber (leftNum + rightNum)%float)
      | OpSub => One (VNumber (leftNum - rightNum)%float)
      | OpMul => One (VNumber (leftNum * rightNum)%float)
      | OpDiv =>
          if (rightNum =? 0)%float then One (VString "#DIV/0!")
          else One (VNumber (leftNum / rightNum)%float)
      end
  | NFunction name args =>
      let rawArgs :=
        flat_map (fun arg => argumentValues (evaluateNode arg getCellValue)) args in
      let numbers := map toNumber (filter isNumericValue rawArgs) in
      One (applyFunction (JsString.toUpperCase name) numbers)
  end.

(** ** The engine: [calculateDisplayCells] *)

(** The four collections the first loop fills. *)
Record Scan : Type := mkScan {
  display : list (string * string);
  formulas : list (string * FormulaNode);
  formulaErrors : list string;
  dependencies : list (string * list string)
}.

(** One turn of [for (const [key, value] of cells.entries())]. *)
Definition scanCell (s : Scan) (entry : string * string) : Scan :=
  let '(key, value) := entry in
  if negb (JsString.startsWithEq value) then
    mkScan (JsMap.set key value (display s)) (formulas s) (formulaErrors s)
           (dependencies s)
  else
    let tokens := tokenize (JsString.slice1 value) in
    let result := parseFormula tokens in
    match ok result, ast result with
    | true, Some tree =>
        mkScan (display s) (JsMap.set key tree (formulas s)) (formulaErrors s)
               (JsMap.set key (collectDependencies tree []) (dependencies s))
    | _, _ =>
        mkScan (display s) (formulas s) (JsMap.add key (formulaErrors s))
               (dependencies s)
    end.

(** The first loop, over [cells.entries()], from four empty collections. *)
Definition scanCells (cells : list (string * string)) : Scan :=
  fold_left scanCell cells (mkScan [] [] [] []).

(** [adjacency]: for each formula cell the set of formula cells that read
    it; [indegree]: for each formula cell the number of formula cells it
    reads. *)
Record Graph : Type := mkGraph {
  adjacency : list (string * list string);
  indegree : list (string * Z)
}.

(** [o ?? d] *)
Definition orElse {A : Type} (o : option A) (d : A) : A :=
  match o with Some a => a | None => d end.

(** The body of [for (const key of formulas.keys())]. *)
Definition addNode (g : Graph) (key : string) : Graph :=
  mkGraph (JsMap.set key [] (adjacency g)) (JsMap.set key 0 (indegree g)).

(** The body of [for (const dep of deps)]. *)
Definition addEdge (formulas : list (string * FormulaNode)) (cell : string)
    (g : Graph) (dep : string) : Graph :=
  if negb (JsMap.has dep formulas) then g
  else
    mkGraph
      match JsMap.get dep (adjacency g) with
      | Some readers => JsMap.set dep (JsMap.add cell readers) (adjacency g)
      | None => adjacency g
      end
      (JsMap.set cell (orElse (JsMap.get cell (indegree g)) 0 + 1) (indegree g)).

(** The loop over [formulas.keys()], then the loop over
    [dependencies.entries()] and, inside it, over each dependency set. *)
Definition buildGraph (formulas : list (string * FormulaNode))
    (dependencies : list (string * list string)) : Graph :=
  fold_left
    (fun g entry => fold_left (addEdge formulas (fst entry)) (snd entry) g)
    dependencies
    (fold_left addNode (JsMap.keys formulas) (mkGraph [] [])).

(** The queue the Kahn pass starts from. *)
Definition seedQueue (indegree : list (string * Z)) : list string :=
  map fst (filter (fun entry => snd entry =? 0) indegree).

(** The body of [for (const next of adjacency.get(current) ?? [])]. *)
Definition relax (st : list string * list (string * Z)) (next : string)
  : list string * list (string * Z) :=
  let '(queue, indegree) := st in
  let nextCount := orElse (JsMap.get next indegree) 0 - 1 in
  (if nextCount =? 0 then queue ++ [next] else queue,
   JsMap.set next nextCount indegree).

(** The [while (queue.length > 0)] loop; it returns [ordered].  A turn moves
    one key to [ordered], and no key is moved twice, so the number of formula
    cells is fuel enough ([kahnLoop_fuel]). *)
Fixpoint kahnLoop (fuel : nat) (adjacency : list (string * list string))
    (queue : list string) (indegree : list (string * Z)) (ordered : list string)
  : list string :=
  match fuel, queue with
  | O, _ | _, [] => ordered
  | S fuel', current :: queue' =>
      if String.eqb current "" then ordered
      else
        let '(queue'', indegree') :=
          fold_left relax (orElse (JsMap.get current adjacency) []) (queue', indegree) in
        kahnLoop fuel' adjacency queue'' indegree' (ordered ++ [current])
  end.

(** The graph, the queue and the Kahn pass: the list [ordered]. *)
Definition schedule (s : Scan) : list string :=
  let g := buildGraph (formulas s) (dependencies s) in
  kahnLoop (List.length (formulas s)) (adjacency g) (seedQueue (indegree g))
           (indegree g) [].

(** The closure [getCellValue] over [computed], [display] and [cells]. *)
Definition getCellValue (computed : list (string * FormulaValue))
    (display cells : list (string * string)) (key : string) : FormulaValue :=
  match JsMap.get key computed with
  | Some v => v
  | None =>
      match JsMap.get key display with
      | Some s => VString s
      | None =>
          match JsMap.get key cells with
          | Some s => VString s
          | None => VNull
          end
      end
  end.

(** [evaluateNode(ast, getCellValue) as FormulaValue].  The parser yields a
    range in argument position only ([parseFormula_not_range]), so the tree
    of a cell never evaluates to an array. *)
Definition asFormulaValue (value : Evaluated) : FormulaValue :=
  match value with
  | One v => v
  | Many _ => VNull
  end.

(** The body of [for (const key of ordered)]. *)
Definition evaluateCell (cells : list (string * string)) (s : Scan)
    (computed : list (string * FormulaValue)) (key : string)
  : list (string * FormulaValue) :=
  if JsMap.mem key (formulaErrors s) then JsMap.set key (VString "#ERROR") computed
  else
    match JsMap.get key (formulas s) with
    | None => JsMap.set key (VString "#ERROR") computed
    | Some tree =>
        JsMap.set key
          (asFormulaValue (evaluateNode tree (getCellValue computed (display s) cells)))
          computed
    end.

(** The loop over [ordered], from an empty [computed]. *)
Definition evaluateAll (cells : list (string * string)) (s : Scan)
    (ordered : list string) : list (string * FormulaValue) :=
  fold_left (evaluateCell cells s) ordered [].

(** The loop over [formulas.entries()]: #CYCLE for each formula cell with
    no computed value. *)
Definition markCycles (formulas : list (string * FormulaNode))
    (computed : list (string * FormulaValue)) : list (string * FormulaValue) :=
  fold_left
    (fun computed key =>
       if JsMap.has key computed then computed
       else JsMap.set key (VString "#CYCLE") computed)
    (JsMap.keys formulas) computed.

(** The loop over [computed.entries()]: each value formatted into
    [display]. *)
Definition publish (computed : list (string * FormulaValue))
    (display : list (string * string)) : list (string * string) :=
  fold_left (fun display entry => JsMap.set (fst entry) (formatValue (snd entry)) display)
            computed display.

(** The loop over [formulaErrors]: #ERROR for each key with no display
    entry. *)
Definition markErrors (formulaErrors : list string)
    (display : list (string * string)) : list (string * string) :=
  fold_left
    (fun display key =>
       if JsMap.has key display then display else JsMap.set key "#ERROR" display)
    formulaErrors display.

(** Everything after the first loop, for the collections [s] it filled. *)
Definition finish (cells : list (string * string)) (s : Scan)
  : list (string * string) :=
  let computed := markCycles (formulas s) (evaluateAll cells s (schedule s)) in
  markErrors (formulaErrors s) (publish computed (display s)).

(** [calculateDisplayCells(cells)] *)
Definition calculateDisplayCells (cells : list (string * string))
  : list (string * string) :=
  finish cells (scanCells cells).

(** ** Arrays and whole numbers *)

(** An array holds at most 2^32 - 1 elements: a push onto an array that
    holds as many throws. *)
Definition ARRAY_MAX : Z := 2 ^ 32 - 1.

(** The number a whole [r] is held as: the nearest binary64 value. *)
Definition whole (r : Z) : float := JsNumber.roundQuotient false r 1.

(** ** The reference resolver on the numbers of the source

    [parseCellRef], [getCellKey], [expandRange], [collectDependencies]
    and [evaluateNode] once more, with the arithmetic of the source on
    rows and columns written out: rows and columns are binary64 numbers,
    the counters of the two loops of [expandRange] are numbers, and the
    keys are pushed onto an array, which holds at most 2^32 - 1 elements.
    The definitions of the engine above keep rows and columns as exact
    integers.  The two agree as long as the row and column numbers of the
    references are below 2^53, a range has no more keys than an array
    holds, and a function is given no more values than that; beyond that
    the source does not return a list of keys. *)

Module Binary64.

Record CellCoords : Type := mkCoords { row : float; col : float }.

(** [Number.parseInt(rowText, 10)] for a text of digits: the number nearest
    to the integer the digits denote. *)
Definition parseInt (rowText : list ascii) : float :=
  whole (JsString.digitsValue rowText).

(** [upper.charCodeAt(i)] *)
Definition charCodeAt (c : ascii) : float := whole (JsString.code c).

(** The loop over the letters: [col = col * 26 + (upper.charCodeAt(i) - 64)],
    from 0. *)
Definition columnNumber (colLabel : list ascii) : float :=
  fold_left
    (fun col c => (col * 26 + (charCodeAt (JsString.upperChar c) - 64))%float)
    colLabel 0%float.

(** [parseCellRef(ref)] *)
Definition parseCellRef (ref : string) : option CellCoords :=
  let cs := JsString.chars ref in
  let colLabel := JsString.takeWhile JsString.isAlpha cs in
  let rowText := JsString.dropWhile JsString.isAlpha cs in
  if nonEmpty colLabel && nonEmpty rowText && forallb JsString.isDigit rowText then
    let col := (columnNumber colLabel - 1)%float in
    let row := (parseInt rowText - 1)%float in
    if negb (JsNumber.isFinite row) || (row <? 0)%float || (col <? 0)%float then None
    else Some (mkCoords row col)
  else None.

(** [getCellKey(row, col)]: the template literal prints the two numbers as
    [String] does. *)
Definition getCellKey (row col : float) : string :=
  (JsNumber.toString row ++ ":" ++ JsNumber.toString col)%string.

(** How a run of a loop ends: it returns, or a push onto a full array
    throws, or the fuel given to the run is used up before either. *)
Inductive Run (A : Type) : Type :=
| Returned (value : A)
| Thrown
| Unfinished.

Arguments Returned {A} value.
Arguments Thrown {A}.
Arguments Unfinished {A}.

(** What follows a run that returned. *)
Definition andThen {A B : Type} (run : Run A) (next : A -> Run B) : Run B :=
  match run with
  | Returned value => next value
  | Thrown => Thrown
  | Unfinished => Unfinished
  end.

(** The loop [for (let col = colStart; col <= colEnd; col += 1)] of
    [expandRange] in the row [row], from [col] on; [keys] is the array. *)
Fixpoint expandCols (fuel : nat) (row colEnd col : float) (keys : list string)
  : Run (list string) :=
  match fuel with
  | O => Unfinished
  | S fuel' =>
      if (col <=? colEnd)%float then
        if ARRAY_MAX <=? Z.of_nat (List.length keys) then Thrown
        else expandCols fuel' row colEnd (col + 1)%float (keys ++ [getCellKey row col])
      else Returned keys
  end.

(** The loop [for (let row = rowStart; row <= rowEnd; row += 1)], from
    [row] on. *)
Fixpoint expandRows (fuel : nat) (rowEnd colStart colEnd row : float)
    (keys : list string) : Run (list string) :=
  match fuel with
  | O => Unfinished
  | S fuel' =>
      if (row <=? rowEnd)%float then
        andThen (expandCols fuel' row colEnd colStart keys)
                (expandRows fuel' rowEnd colStart colEnd (row + 1)%float)
      else Returned keys
  end.

(** [expandRange(start, end)] *)
Definition expandRange (fuel : nat) (start end_ : string) : Run (list string) :=
  match parseCellRef start, parseCellRef end_ with
  | Some startCell, Some endCell =>
      let rowStart := Math_min [row startCell; row endCell] in
      let rowEnd := Math_max [row startCell; row endCell] in
      let colStart := Math_min [col startCell; col endCell] in
      let colEnd := Math_max [col startCell; col endCell] in
      expandRows fuel rowEnd colStart colEnd rowStart []
  | _, _ => Returned []
  end.

(** [collectDependencies(node, deps)]; it returns the set [deps] it has
    added to. *)
Fixpoint collectDependencies (fuel : nat) (node : FormulaNode) (deps : list string)
  : Run (list string) :=
  match node with
  | NCell ref =>
      Returned
        match parseCellRef ref with
        | Some coords => JsMap.add (getCellKey (row coords) (col coords)) deps
        | None => deps
        end
  | NRange start end_ =>
      andThen (expandRange fuel start end_)
              (fun keys => Returned (fold_left (fun deps key => JsMap.add key deps) keys deps))
  | NBinary _ lhs rhs =>
      andThen (collectDependencies fuel lhs deps) (collectDependencies fuel rhs)
  | NUnary _ operand => collectDependencies fuel operand deps
  | NFunction _ args =>
      fold_left (fun run arg => andThen run (collectDependencies fuel arg))
                args (Returned deps)
  | NNumber _ => Returned deps
  end.

(** [args.flatMap(f)] for an [f] that gives a value or an array of values:
    the values are gathered in one array.  Writing past the last index of
    an array, 2^32 - 2, adds no element to it, so the array holds the first
    2^32 - 1 of the values. *)
Definition flatMap {A : Type} (f : A -> Run Evaluated) (args : list A)
  : Run (list FormulaValue) :=
  fold_left
    (fun run arg =>
       andThen run (fun values =>
       andThen (f arg) (fun value =>
       Returned (firstn (Z.to_nat ARRAY_MAX) (values ++ argumentValues value)))))
    args (Returned []).

(** [evaluateNode(node, getCellValue)] *)
Fixpoint evaluateNode (fuel : nat) (node : FormulaNode)
    (getCellValue : string -> FormulaValue) : Run Evaluated :=
  match node with
  | NNumber value => Returned (One (VNumber value))
  | NCell ref =>
      Returned
        match parseCellRef ref with
        | None => One VNull
        | Some coords => One (getCellValue (getCellKey (row coords) (col coords)))
        end
  | NRange start end_ =>
      andThen (expandRange fuel start end_)
              (fun keys => Returned (Many (map getCellValue keys)))
  | NUnary op operand =>
      andThen (evaluateNode fuel operand getCellValue) (fun value =>
      let numeric := toNumber (operandValue value) in
      Returned
        (One (VNumber match op with OpMinus => (- numeric)%float | OpPlus => numeric end)))
  | NBinary op lhs rhs =>
      andThen (evaluateNode fuel lhs getCellValue) (fun left =>
      andThen (evaluateNode fuel rhs getCellValue) (fun right =>
      let leftNum := toNumber (operandValue left) in
      let rightNum := toNumber (operandValue right) in
      Returned
        match op with
        | OpAdd => One (VNumber (leftNum + rightNum)%float)
        | OpSub => One (VNumber (leftNum - rightNum)%float)
        | OpMul => One (VNumber (leftNum * rightNum)%float)
        | OpDiv =>
            if (rightNum =? 0)%float then One (VString "#DIV/0!")
            else One (VNumber (leftNum / rightNum)%float)
        end))
  | NFunction name args =>
      andThen (flatMap (fun arg => evaluateNode fuel arg getCellValue) args)
              (fun rawArgs =>
       let numbers := map toNumber (filter isNumericValue rawArgs) in
       Returned (One (applyFunction (JsString.toUpperCase name) numbers)))
  end.

End Binary64.

(** ** Import and export of delimited text (src/utils/csv.ts) *)

Module Csv.

Import JsString.

Definition quote : ascii := "034"%char.
Definition LF : ascii := "010"%char.
Definition CR : ascii := "013"%char.
Definition TAB : ascii := "009"%char.

(** The string of one character. *)
Definition char (c : ascii) : string := String c EmptyString.

(** The test of [needsQuotes]: the value has a double quote, a comma, a
    line feed or a carriage return. *)
Definition needsQuotes (value : string) : bool :=
  existsb
    (fun c => Ascii.eqb c quote || Ascii.eqb c "," || Ascii.eqb c LF || Ascii.eqb c CR)
    (chars value).

(** The [replace] of [escapeCsvValue]: every double quote is doubled. *)
Definition doubleQuotes (cs : list ascii) : list ascii :=
  flat_map (fun c => if Ascii.eqb c quote then [quote; quote] else [c]) cs.

Definition escapeCsvValue (value : string) : string :=
  if String.eqb value "" then ""
  else if negb (needsQuotes value) then value
  else text (quote :: doubleQuotes (chars value) ++ [quote]).

(** [pieces.join(separator)] *)
Fixpoint join (separator : string) (pieces : list string) : string :=
  match pieces with
  | [] => ""
  | [piece] => piece
  | piece :: rest => (piece ++ separator ++ join separator rest)%string
  end.

(** [text.split(separator)] for a separator of one character *)
Fixpoint split (separator : ascii) (cs : list ascii) : list string :=
  match cs with
  | [] => [""]
  | c :: rest =>
      if Ascii.eqb c separator then "" :: split separator rest
      else
        match split separator rest with
        | piece :: pieces => String c piece :: pieces
        | [] => [char c]
        end
  end.

(** *** [Number(text)]: the conversion of a string to a number *)

(** The value of a digit in base 16. *)
Definition hexDigit (c : ascii) : option Z :=
  if isDigit c then Some (code c - 48)
  else if between 97 102 c then Some (code c - 87)
  else if between 65 70 c then Some (code c - 55)
  else None.

(** The integer a run of digits of the radix denotes; [None] for an empty
    run and for a run with a character that is no digit of the radix. *)
Definition radixValue (radix : Z) (cs : list ascii) : option Z :=
  match cs with
  | [] => None
  | _ :: _ =>
      fold_left
        (fun acc c =>
           match acc, hexDigit c with
           | Some a, Some d => if d <? radix then Some (a * radix + d) else None
           | _, _ => None
           end)
        cs (Some 0)
  end.

(** The character is the lower-case letter or its capital. *)
Definition isLetter (lower c : ascii) : bool :=
  Ascii.eqb c lower || Ascii.eqb c (upperChar lower).

(** What may follow the digits of a decimal literal: nothing, or [e] or [E],
    an optional sign and one or more digits.  [None] when the text is
    neither. *)
Definition exponentPart (cs : list ascii) : option Z :=
  match cs with
  | [] => Some 0
  | c :: rest =>
      if isLetter "e" c then
        let '(neg, ds) :=
          match rest with
          | s :: ds' =>
              if Ascii.eqb s "-" then (true, ds')
              else if Ascii.eqb s "+" then (false, ds')
              else (false, rest)
          | [] => (false, rest)
          end in
        if nonEmpty ds && forallb isDigit ds
        then Some (if neg then - digitsValue ds else digitsValue ds)
        else None
      else None
  end.

(** The unsigned decimal literals: [Infinity], or digits with an optional
    dot, at least one digit before or after it, and an optional exponent. *)
Definition decimalLiteral (neg : bool) (cs : list ascii) : float :=
  if String.eqb (text cs) "Infinity" then (if neg then neg_infinity else infinity)
  else
    let ip := takeWhile isDigit cs in
    let rest := dropWhile isDigit cs in
    let '(fp, rest) :=
      match rest with
      | c :: rest' =>
          if Ascii.eqb c "." then (takeWhile isDigit rest', dropWhile isDigit rest')
          else ([], rest)
      | [] => ([], rest)
      end in
    if nonEmpty (ip ++ fp) then
      match exponentPart rest with
      | Some e =>
          JsNumber.ofDecimal neg (digitsValue (ip ++ fp)) (e - Z.of_nat (List.length fp))
      | None => nan
      end
    else nan.

Definition signedLiteral (cs : list ascii) : float :=
  match cs with
  | c :: rest =>
      if Ascii.eqb c "-" then decimalLiteral true rest
      else if Ascii.eqb c "+" then decimalLiteral false rest
      else decimalLiteral false cs
  | [] => nan
  end.

Definition radixLiteral (radix : Z) (cs : list ascii) : float :=
  match radixValue radix cs with
  | Some n => JsNumber.roundQuotient false n 1
  | None => nan
  end.

(** [Number(text)]: white space is trimmed; the empty text is 0; the text
    is a hexadecimal, octal or binary integer with its prefix, or a signed
    decimal literal; any other text is NaN. *)
Definition stringToNumber (s : string) : float :=
  match chars (trim s) with
  | [] => 0%float
  | z :: x :: ds =>
      if Ascii.eqb z "0" && isLetter "x" x then radixLiteral 16 ds
      else if Ascii.eqb z "0" && isLetter "o" x then radixLiteral 8 ds
      else if Ascii.eqb z "0" && isLetter "b" x then radixLiteral 2 ds
      else signedLiteral (z :: x :: ds)
  | cs => signedLiteral cs
  end.

(** *** [cellsToCsv] *)

(** [const [rowText, colText] = key.split(':')], then [Number] of each;
    [Number(undefined)] is NaN. *)
Definition keyNumbers (key : string) : float * float :=
  match split ":" (chars key) with
  | rowText :: colText :: _ => (stringToNumber rowText, stringToNumber colText)
  | [rowText] => (stringToNumber rowText, nan)
  | [] => (nan, nan)
  end.

(** The body of [for (const key of cells.keys())]. *)
Definition widen (maxima : float * float) (key : string) : float * float :=
  let '(maxRow, maxCol) := maxima in
  let '(row, col) := keyNumbers key in
  if JsNumber.isFinite row && JsNumber.isFinite col then
    (if (maxRow <? row)%float then row else maxRow,
     if (maxCol <? col)%float then col else maxCol)
  else maxima.

(** [maxRow] and [maxCol] after the loop over the keys. *)
Definition maxima (cells : list (string * string)) : float * float :=
  fold_left widen (JsMap.keys cells) (0%float, 0%float).

(** The integer part of a positive finite number. *)
Definition floor (m : positive) (e : Z) : Z :=
  if 0 <=? e then Z.pos m * 2 ^ e else Z.pos m / 2 ^ (- e).

(** The values [for (let i = 0; i <= limit; i += 1)] visits when every turn
    pushes one element onto an array that was empty before the loop, as the
    two loops of [cellsToCsv] do.  The counter is a number; it is exact up
    to 2^53, far beyond the size of an array, so the loop ends: either with
    its last turn, or with the push that throws because the array is full.
    [None] stands for the loop that throws. *)
Definition countTo (limit : float) : option (list Z) :=
  match Prim2SF limit with
  | S754_nan => Some []
  | S754_zero _ => Some [0]
  | S754_infinity sign => if sign then Some [] else None
  | S754_finite sign m e =>
      if sign then Some []
      else if floor m e <? ARRAY_MAX then Some (upto 0 (floor m e)) else None
  end.

(** One line of the output: the cells of a row, escaped, between commas. *)
Definition csvRow (cells : list (string * string)) (cols : list Z) (row : Z) : string :=
  join ","
    (map (fun col => escapeCsvValue (orElse (JsMap.get (getCellKey row col) cells) ""))
         cols).

(** [cellsToCsv(cells)]: the text, or [None] when a push throws and no text
    is returned. *)
Definition cellsToCsv (cells : list (string * string)) : option string :=
  match cells with
  | [] => Some ""
  | _ :: _ =>
      let '(maxRow, maxCol) := maxima cells in
      match countTo maxRow, countTo maxCol with
      | Some rows, Some cols => Some (join (char LF) (map (csvRow cells cols) rows))
      | _, _ => None
      end
  end.

(** *** [csvToCells] *)

Definition DELIMITER_CANDIDATES : list string := [","; char TAB; ";"; "|"].

Definition pickDelimiter (counts : list (string * Z)) : option string :=
  let '(best, bestCount) :=
    fold_left
      (fun (state : option string * Z) delimiter =>
         let '(best, bestCount) := state in
         let count := orElse (JsMap.get delimiter counts) 0 in
         if bestCount <? count then (Some delimiter, count) else (best, bestCount))
      DELIMITER_CANDIDATES (None, 0) in
  if 0 <? bestCount then best else None.

(** [resetCounts()]: a new map with every candidate at 0. *)
Definition resetCounts : list (string * Z) :=
  fold_left (fun counts delimiter => JsMap.set delimiter 0 counts) DELIMITER_CANDIDATES [].

(** The [while (i < text.length && lineCount < 5)] loop of
    [detectDelimiter] and the return after it; [text] is what lies at and
    after index [i]. *)
Fixpoint detectFrom (inQuotes : bool) (lineCount : Z) (counts : list (string * Z))
    (text : list ascii) : string :=
  match text with
  | [] => orElse (pickDelimiter counts) ","
  | c :: rest =>
      if negb (lineCount <? 5) then orElse (pickDelimiter counts) ","
      else if Ascii.eqb c quote then
        match rest with
        | nextChar :: rest' =>
            if inQuotes && Ascii.eqb nextChar quote
            then detectFrom inQuotes lineCount counts rest'
            else detectFrom (negb inQuotes) lineCount counts rest
        | [] => detectFrom (negb inQuotes) lineCount counts rest
        end
      else if negb inQuotes && (Ascii.eqb c LF || Ascii.eqb c CR) then
        match pickDelimiter counts with
        | Some best => best
        | None =>
            match rest with
            | nextChar :: rest' =>
                if Ascii.eqb c CR && Ascii.eqb nextChar LF
                then detectFrom inQuotes (lineCount + 1) resetCounts rest'
                else detectFrom inQuotes (lineCount + 1) resetCounts rest
            | [] => detectFrom inQuotes (lineCount + 1) resetCounts rest
            end
        end
      else if negb inQuotes then
        detectFrom inQuotes lineCount
          (if JsMap.has (char c) counts
           then JsMap.set (char c) (orElse (JsMap.get (char c) counts) 0 + 1) counts
           else counts)
          rest
      else detectFrom inQuotes lineCount counts rest
  end.

Definition detectDelimiter (text : string) : string :=
  detectFrom false 0 resetCounts (chars text).

Record CsvParseState : Type := mkState {
  rows : list (list string);
  row : list string;
  field : string;
  inQuotes : bool
}.

Definition finalizeField (state : CsvParseState) : CsvParseState :=
  mkState (rows state) (row state ++ [field state]) "" (inQuotes state).

Definition finalizeRow (state : CsvParseState) : CsvParseState :=
  let state := finalizeField state in
  mkState (rows state ++ [row state]) [] (field state) (inQuotes state).

(** [state.field += char] *)
Definition addChar (state : CsvParseState) (c : ascii) : CsvParseState :=
  mkState (rows state) (row state) (field state ++ char c) (inQuotes state).

(** [state.inQuotes = value] *)
Definition setQuotes (state : CsvParseState) (value : bool) : CsvParseState :=
  mkState (rows state) (row state) (field state) value.

(** The [while (i < text.length)] loop of [parseCsv]; [text] is what lies at
    and after index [i]. *)
Fixpoint parseFrom (delimiter : string) (state : CsvParseState) (text : list ascii)
  : CsvParseState :=
  match text with
  | [] => state
  | c :: rest =>
      if inQuotes state then
        if Ascii.eqb c quote then
          match rest with
          | nextChar :: rest' =>
              if Ascii.eqb nextChar quote
              then parseFrom delimiter (addChar state quote) rest'
              else parseFrom delimiter (setQuotes state false) rest
          | [] => parseFrom delimiter (setQuotes state false) rest
          end
        else parseFrom delimiter (addChar state c) rest
      else if Ascii.eqb c quote then parseFrom delimiter (setQuotes state true) rest
      else if String.eqb (char c) delimiter then parseFrom delimiter (finalizeField state) rest
      else if Ascii.eqb c LF then parseFrom delimiter (finalizeRow state) rest
      else if Ascii.eqb c CR then
        match rest with
        | nextChar :: rest' =>
            if Ascii.eqb nextChar LF
            then parseFrom delimiter (finalizeRow state) rest'
            else parseFrom delimiter (finalizeRow state) rest
        | [] => parseFrom delimiter (finalizeRow state) rest
        end
      else parseFrom delimiter (addChar state c) rest
  end.

Definition parseCsv (text delimiter : string) : list (list string) :=
  let state := parseFrom delimiter (mkState [] [] "" false) (chars text) in
  let state := if inQuotes state then setQuotes state false else state in
  let state :=
    if (0 <? Z.of_nat (String.length (field state)))
       || (0 <? Z.of_nat (List.length (row state)))
    then finalizeRow state else state in
  rows state.

(** The entries of an array with their indices. *)
Definition indexed {A : Type} (l : list A) : list (Z * A) :=
  combine (map Z.of_nat (seq 0 (List.length l))) l.

(** The entries of an array a loop [for (i = 0; i < l.length && i < limit;
    i += 1)] visits, with their indices; [limit] is a whole number. *)
Definition below {A : Type} (limit : Z) (l : list A) : list (Z * A) :=
  indexed (firstn (Z.to_nat limit) l).

Definition csvToCells (text : string) (maxRows maxCols : Z) : list (string * string) :=
  let delimiter := detectDelimiter text in
  let rows := parseCsv text delimiter in
  fold_left
    (fun cells '(row, rowValues) =>
       fold_left
         (fun cells '(col, value) =>
            if negb (String.eqb value "") then JsMap.set (getCellKey row col) value cells
            else cells)
         (below maxCols rowValues) cells)
    (below maxRows rows) [].

End Csv.

(** ** Vocabulary of the statements *)

(** A literal cell: [!value.startsWith('=')]. *)
Definition isLiteral (value : string) : bool := negb (JsString.startsWithEq value).

(** The tree of a formula cell whose text parses, [None] for a literal cell
    and for a formula cell whose text does not parse. *)
Definition cellFormula (value : string) : option FormulaNode :=
  if JsString.startsWithEq value then
    let result := parseFormula (tokenize (JsString.slice1 value)) in
    match ok result, ast result with
    | true, Some tree => Some tree
    | _, _ => None
    end
  else None.

(** A formula cell whose text fails to parse. *)
Definition parseFails (value : string) : bool :=
  JsString.startsWithEq value &&
  match cellFormula value with Some _ => false | None => true end.

(** The entries of the literal cells, in the order of the store. *)
Definition literalCells (cells : list (string * string)) : list (string * string) :=
  filter (fun entry => isLiteral (snd entry)) cells.

(** The formula cells whose text parses, each with its tree. *)
Definition parsedCells (cells : list (string * string))
  : list (string * FormulaNode) :=
  flat_map
    (fun entry =>
       match cellFormula (snd entry) with
       | Some tree => [(fst entry, tree)]
       | None => []
       end)
    cells.

(** The keys of the formula cells whose text fails to parse. *)
Definition failedCells (cells : list (string * string)) : list string :=
  map fst (filter (fun entry => parseFails (snd entry)) cells).

(** Each parsed cell with the set of keys its tree names. *)
Definition dependenciesOf (parsed : list (string * FormulaNode))
  : list (string * list string) :=
  map (fun entry => (fst entry, collectDependencies (snd entry) [])) parsed.

(** The formula cells a formula cell names: its precedents in the graph. *)
Definition precedents (formulas : list (string * FormulaNode)) (cell : string)
  : list string :=
  match JsMap.get cell formulas with
  | Some tree => filter (fun dep => JsMap.has dep formulas) (collectDependencies tree [])
  | None => []
  end.

(** [reads cells k d]: the formula cell [k] names the formula cell [d]; an
    edge of the dependency graph, [d] being a precedent of [k]. *)
Definition reads (cells : list (string * string)) (k d : string) : Prop :=
  In d (precedents (parsedCells cells) k).

(** A walk of one or more edges along [preds]. *)
Inductive chain (preds : string -> list string) : string -> string -> Prop :=
| chain_one v u : In u (preds v) -> chain preds v u
| chain_more v m u : In m (preds v) -> chain preds m u -> chain preds v u.

(** Reading through one or more formula cells. *)
Definition readsThrough (cells : list (string * string)) : string -> string -> Prop :=
  chain (precedents (parsedCells cells)).

(** [k] lies on a cycle of formula cells. *)
Definition onCycle (cells : list (string * string)) (k : string) : Prop :=
  readsThrough cells k k.

(** [k] lies on a cycle or reads, through formula cells, a cell on one. *)
Definition reachesCycle (cells : list (string * string)) (k : string) : Prop :=
  onCycle cells k \/ exists d, readsThrough cells k d /\ onCycle cells d.

(** The computed-value store when the evaluation loop ends. *)
Definition computedValues (cells : list (string * string))
  : list (string * FormulaValue) :=
  evaluateAll cells (scanCells cells) (schedule (scanCells cells)).

(** The closure [getCellValue] when the evaluation loop ends. *)
Definition finalLookup (cells : list (string * string)) : string -> FormulaValue :=
  getCellValue (computedValues cells) (display (scanCells cells)) cells.

(** The node is a range. *)
Definition isRange (node : FormulaNode) : bool :=
  match node with NRange _ _ => true | _ => false end.

(** A decidable test for lists without repeats. *)
Fixpoint distinct (l : list string) : bool :=
  match l with
  | [] => true
  | a :: rest => negb (JsMap.mem a rest) && distinct rest
  end.

(** The store without the cell at [key]. *)
Definition removeKey (key : string) (cells : list (string * string))
  : list (string * string) :=
  filter (fun entry => negb (String.eqb (fst entry) key)) cells.

(** The formula of cell [k] names the key [d], whatever [d] holds. *)
Definition names (cells : list (string * string)) (k d : string) : Prop :=
  exists tree,
    JsMap.get k (parsedCells cells) = Some tree /\
    In d (collectDependencies tree []).

(** [k] names [d], or names a cell that depends on [d]. *)
Inductive dependsOn (cells : list (string * string)) : string -> string -> Prop :=
| dependsDirectly k d : names cells k d -> dependsOn cells k d
| dependsFurther k m d :
    names cells k m -> dependsOn cells m d -> dependsOn cells k d.

(** The positions of the inclusive rectangle, row by row. *)
Definition rectangle (rowStart rowEnd colStart colEnd : Z) : list (Z * Z) :=
  list_prod (upto rowStart rowEnd) (upto colStart colEnd).

(** Row-major order on positions. *)
Definition rowMajor (p q : Z * Z) : Prop :=
  fst p < fst q \/ (fst p = fst q /\ snd p < snd q).

(** What follows the whole part of a decimal: nothing, or a dot and the
    digits of the fraction. *)
Definition fractionTail (fraction : option (list ascii)) : list ascii :=
  match fraction with
  | Some digits => "."%char :: digits
  | None => []
  end.

(** One or more digits. *)
Definition digitRun (cs : list ascii) : Prop :=
  cs <> [] /\ forallb JsString.isDigit cs = true.

(** The texts of the pattern [-?\d+(\.\d+)?], given by their parts: an
    optional minus sign, the digits of the whole part, and optionally a dot
    with the digits of the fraction. *)
Definition signedDecimal (minus : bool) (whole : list ascii)
    (fraction : option (list ascii)) (cs : list ascii) : Prop :=
  cs = (if minus then ["-"%char] else []) ++ whole ++ fractionTail fraction /\
  digitRun whole /\
  match fraction with
  | Some digits => digitRun digits
  | None => True
  end.

(** One or more letters. *)
Definition letterRun (cs : list ascii) : Prop :=
  cs <> [] /\ forallb JsString.isAlpha cs = true.

(** Two stores hold the same mapping: each key has the same text in both,
    in whatever order the entries were inserted. *)
Definition sameMapping (cells cells' : list (string * string)) : Prop :=
  forall k, JsMap.get k cells = JsMap.get k cells'.

(** The keys of a [Map] are distinct. *)
Definition wellFormed (cells : list (string * string)) : Prop :=
  NoDup (JsMap.keys cells).

(** ** Notions the proofs use *)

(** The pairs (cell, dep) the two nested loops visit, in order. *)
Definition edgeList (dependencies : list (string * list string))
  : list (string * string) :=
  flat_map (fun entry => map (fun dep => (fst entry, dep)) (snd entry)) dependencies.

(** The graph after the loop over [formulas.keys()]: every formula cell a
    node, no edge yet. *)
Definition emptyGraph (formulas : list (string * FormulaNode)) : Graph :=
  fold_left addNode (JsMap.keys formulas) (mkGraph [] []).

(** How many of the visited pairs raise the count of [cell]. *)
Definition countedEdges (formulas : list (string * FormulaNode)) (cell : string)
    (edges : list (string * string)) : list (string * string) :=
  filter (fun edge => String.eqb (fst edge) cell && JsMap.has (snd edge) formulas) edges.

Section KahnState.

Variable nodes : list string.
Variable preds : string -> list string.

(** The precedents of [v] not yet moved to [ordered]. *)
Definition pending (ordered : list string) (v : string) : list string :=
  filter (fun u => negb (JsMap.mem u ordered)) (preds v).

(** What holds of the loop's variables each time its test is reached. *)
Record KahnInv (queue : list string) (indegree : list (string * Z))
    (ordered : list string) : Prop := {
  inv_NoDup : NoDup (ordered ++ queue);
  inv_nodes : incl (ordered ++ queue) nodes;
  inv_count : forall v, In v nodes ->
      JsMap.get v indegree = Some (Z.of_nat (List.length (pending ordered v)));
  inv_ready : forall v, In v nodes ->
      (In v (ordered ++ queue) <-> pending ordered v = []);
  inv_before : forall l1 v l2, ordered = l1 ++ v :: l2 -> incl (preds v) l1
}.

(** A walk from [v] along precedents that were never moved to [ordered]. *)
Fixpoint walk (ordered : list string) (v : string) (p : list string) : Prop :=
  match p with
  | [] => True
  | u :: p' => In u (preds v) /\ ~ In u ordered /\ walk ordered u p'
  end.

End KahnState.

Section Fill.
Context {V : Type}.

(** Give [dflt] to each of [ks] that has no entry yet. *)
Definition fill (dflt : V) (ks : list string) (m : list (string * V))
  : list (string * V) :=
  fold_left (fun m key => if JsMap.has key m then m else JsMap.set key dflt m) ks m.

End Fill.

(** A parsing method returns, leaving at most [n] tokens. *)
Definition Runs {A : Type} (r : option (A * list Token)) (n : nat) : Prop :=
  exists a ts', r = Some (a, ts') /\ (List.length ts' <= n)%nat.

(** With fuel in proportion to the tokens left, every parsing method
    returns and leaves no more tokens than it found. *)
Definition parserTotal (fuel : nat) : Prop :=
  (forall ts, (4 * List.length ts + 4 <= fuel)%nat ->
     Runs (parseExpression fuel ts) (List.length ts)) /\
  (forall node ts, (4 * List.length ts + 3 <= fuel)%nat ->
     Runs (expressionLoop fuel node ts) (List.length ts)) /\
  (forall ts, (4 * List.length ts + 3 <= fuel)%nat ->
     Runs (parseTerm fuel ts) (List.length ts)) /\
  (forall node ts, (4 * List.length ts + 2 <= fuel)%nat ->
     Runs (termLoop fuel node ts) (List.length ts)) /\
  (forall ts, (4 * List.length ts + 2 <= fuel)%nat ->
     Runs (parseUnary fuel ts) (List.length ts)) /\
  (forall ts, (4 * List.length ts + 1 <= fuel)%nat ->
     Runs (parsePrimary fuel ts) (List.length ts)) /\
  (forall args ts, (4 * List.length ts + 8 <= fuel)%nat ->
     Runs (parseArguments fuel args ts) (List.length ts)) /\
  (forall ts, (4 * List.length ts + 5 <= fuel)%nat ->
     Runs (parseArgument fuel ts) (List.length ts)).

(** What a parsing method returns with some fuel it returns with any more. *)
Definition parserStable (fuel fuel' : nat) : Prop :=
  (forall ts r, parseExpression fuel ts = Some r -> parseExpression fuel' ts = Some r) /\
  (forall node ts r,
     expressionLoop fuel node ts = Some r -> expressionLoop fuel' node ts = Some r) /\
  (forall ts r, parseTerm fuel ts = Some r -> parseTerm fuel' ts = Some r) /\
  (forall node ts r, termLoop fuel node ts = Some r -> termLoop fuel' node ts = Some r) /\
  (forall ts r, parseUnary fuel ts = Some r -> parseUnary fuel' ts = Some r) /\
  (forall ts r, parsePrimary fuel ts = Some r -> parsePrimary fuel' ts = Some r) /\
  (forall args ts r,
     parseArguments fuel args ts = Some r -> parseArguments fuel' args ts = Some r) /\
  (forall ts r, parseArgument fuel ts = Some r -> parseArgument fuel' ts = Some r).

(** The result of a parsing method is not a range. *)
Definition noRange (node : option FormulaNode) : Prop :=
  forall n, node = Some n -> isRange n = false.

(** No method that parses an expression yields a range; [parseArgument]
    alone does. *)
Definition parserNoRange (fuel : nat) : Prop :=
  (forall ts node ts', parseExpression fuel ts = Some (node, ts') -> noRange node) /\
  (forall node0 ts node ts',
     expressionLoop fuel node0 ts = Some (node, ts') -> noRange node0 -> noRange node) /\
  (forall ts node ts', parseTerm fuel ts = Some (node, ts') -> noRange node) /\
  (forall node0 ts node ts',
     termLoop fuel node0 ts = Some (node, ts') -> noRange node0 -> noRange node) /\
  (forall ts node ts', parseUnary fuel ts = Some (node, ts') -> noRange node) /\
  (forall ts node ts', parsePrimary fuel ts = Some (node, ts') -> noRange node).

(** The text, if not empty, does not begin with the character [#]. *)
Definition headNotHash (cs : list ascii) : Prop :=
  forall c, hd_error cs = Some c -> c <> "#"%char.

(** ** The grid: paste and history (the component CanvasGrid)

    The component keeps the store in its state and changes it with
    functions from the store to the next store, which it hands to
    [setCells].  These functions are embedded here, each as run once on a
    store; the rows that are pasted come from [parseDelimitedText], which
    is given. *)

Module Grid.

(** [GRID_CONFIG.rows] and [GRID_CONFIG.cols] *)
Definition GRID_rows : Z := 1000.
Definition GRID_cols : Z := 200.

(** [string | null] is [option string]. *)
Record HistoryEntry : Type := mkEntry {
  key : string;
  prev : option string;
  next : option string
}.

(** ['prev' | 'next'] *)
Inductive HistoryMode : Type :=
| ModePrev
| ModeNext.

(** [entry[mode]] *)
Definition entryValue (mode : HistoryMode) (entry : HistoryEntry) : option string :=
  match mode with
  | ModePrev => prev entry
  | ModeNext => next entry
  end.

(** [if (value === null) next.delete(key) else next.set(key, value)] *)
Definition write (key : string) (value : option string) (cells : list (string * string))
  : list (string * string) :=
  match value with
  | None => removeKey key cells
  | Some text => JsMap.set key text cells
  end.

(** The function [applyHistoryBatch(batch, mode)] hands to [setCells]. *)
Definition applyHistoryBatch (batch : list HistoryEntry) (mode : HistoryMode)
    (cells : list (string * string)) : list (string * string) :=
  fold_left (fun cells entry => write (key entry) (entryValue mode entry) cells)
            batch cells.

(** [prevValue === nextValue] *)
Definition sameValue (a b : option string) : bool :=
  match a, b with
  | None, None => true
  | Some x, Some y => String.eqb x y
  | _, _ => false
  end.

(** The loop over [colIndex] in [pasteText], from [colIndex] on; [values]
    is what is left of the row.  The state is the copy [next] of the store
    and [historyEntries]. *)
Fixpoint pasteValues (row focusCol colIndex : Z) (values : list string)
    (state : list (string * string) * list HistoryEntry)
  : list (string * string) * list HistoryEntry :=
  match values with
  | [] => state
  | value :: rest =>
      let col := focusCol + colIndex in
      if GRID_cols <=? col then state
      else
        let key := getCellKey row col in
        let prevValue := JsMap.get key (fst state) in
        let nextValue := if String.eqb value "" then None else Some value in
        pasteValues row focusCol (colIndex + 1) rest
          (if sameValue prevValue nextValue then state
           else (write key nextValue (fst state),
                 snd state ++ [mkEntry key prevValue nextValue]))
  end.

(** The loop over [rowIndex] in [pasteText], from [rowIndex] on. *)
Fixpoint pasteRows (focusRow focusCol rowIndex : Z) (rows : list (list string))
    (state : list (string * string) * list HistoryEntry)
  : list (string * string) * list HistoryEntry :=
  match rows with
  | [] => state
  | values :: rest =>
      let row := focusRow + rowIndex in
      if GRID_rows <=? row then state
      else
        pasteRows focusRow focusCol (rowIndex + 1) rest
          (pasteValues row focusCol 0 values state)
  end.

(** The function [pasteText] hands to [setCells], for the parsed [rows] and
    the focus of the selection: the next store, and with it the entries the
    function adds to [historyEntries]. *)
Definition pasteText (rows : list (list string)) (focusRow focusCol : Z)
    (cells : list (string * string))
  : list (string * string) * list HistoryEntry :=
  pasteRows focusRow focusCol 0 rows (cells, []).

End Grid.

(** ** Further vocabulary and notions *)

(** *** The engine *)

(** The keys the content of [k] can reach: [k] and what it depends on. *)
Definition cone (cells : list (string * string)) (k d : string) : Prop :=
  d = k \/ dependsOn cells k d.

(** The row number and the column number the reference denotes are below
    2^53, where the numbers of the source hold every whole number. *)
Definition smallReference (ref : string) : bool :=
  let cs := JsString.chars ref in
  (JsString.digitsValue (JsString.dropWhile JsString.isAlpha cs) <? 2 ^ 53)
  && (columnNumber (JsString.takeWhile JsString.isAlpha cs) <? 2 ^ 53).

(** The number of keys of a range: its rows times its columns. *)
Definition rangeSize (start end_ : string) : Z :=
  match parseCellRef start, parseCellRef end_ with
  | Some startCell, Some endCell =>
      (Z.abs (row startCell - row endCell) + 1) * (Z.abs (col startCell - col endCell) + 1)
  | _, _ => 0
  end.

(** The number of values an argument gives to its function: the keys of a
    range, one value for any other argument. *)
Definition valueCount (arg : FormulaNode) : Z :=
  match arg with
  | NRange start end_ => rangeSize start end_
  | _ => 1
  end.

(** The references of the tree are small, no range of it has more keys
    than an array holds, and no function of it gets more values than that. *)
Fixpoint smallTree (node : FormulaNode) : bool :=
  match node with
  | NNumber _ => true
  | NCell ref => smallReference ref
  | NRange start end_ =>
      smallReference start && smallReference end_ && (rangeSize start end_ <=? ARRAY_MAX)
  | NBinary _ lhs rhs => smallTree lhs && smallTree rhs
  | NUnary _ operand => smallTree operand
  | NFunction _ args =>
      forallb smallTree args
      && (fold_left (fun total arg => total + valueCount arg) args 0 <=? ARRAY_MAX)
  end.

(** The trees of the formula cells of the store are small. *)
Definition smallStore (cells : list (string * string)) : bool :=
  forallb
    (fun entry =>
       match cellFormula (snd entry) with
       | Some tree => smallTree tree
       | None => true
       end)
    cells.

(** *** The lexer and the parser *)

(** The tokens of the characters of a text. *)
Definition tokensOf (input : list ascii) : list Token :=
  tokenizeFrom (List.length input) input.

(** A character the lexer passes over without a token of its own and that
    ends a number, a name or a reference: not a blank, and of none of the
    classes the lexer looks for. *)
Definition isStray (c : ascii) : bool :=
  negb (isBlank c || isOperatorChar c || isParenChar c || Ascii.eqb c ","
        || Ascii.eqb c ":" || JsString.isDigit c || Ascii.eqb c "."
        || JsString.isAlpha c).

(** What a token of each type holds. *)
Definition tokenShape (t : Token) : Prop :=
  let cs := JsString.chars (tokValue t) in
  match tokType t with
  | TNumber =>
      exists c rest,
        cs = c :: rest /\ forallb isDigitOrDot cs = true /\
        (JsString.isDigit c = true \/ nextIsDigit rest = true)
  | TIdentifier => letterRun cs
  | TCell => exists letters digits, letterRun letters /\ digitRun digits /\ cs = letters ++ digits
  | TOperator => In (tokValue t) ["+"; "-"; "*"; "/"]
  | TParen => In (tokValue t) ["("; ")"]
  | TComma => tokValue t = ","
  | TColon => tokValue t = ":"
  | TEof => False
  end.

(** A text of the form the resolver asks for: letters, then digits. *)
Definition isReference (ref : string) : Prop :=
  exists letters digits,
    letterRun letters /\ digitRun digits /\ JsString.chars ref = letters ++ digits.

(** A range stands only where the grammar puts it: as an argument of a
    function, never as an operand and never inside parentheses. *)
Fixpoint rangesAsArguments (node : FormulaNode) : bool :=
  match node with
  | NNumber _ | NCell _ => true
  | NRange _ _ => false
  | NBinary _ lhs rhs => rangesAsArguments lhs && rangesAsArguments rhs
  | NUnary _ operand => rangesAsArguments operand
  | NFunction _ args => forallb (fun arg => isRange arg || rangesAsArguments arg) args
  end.

(** The references of a tree: those of its cells and the two ends of its
    ranges. *)
Fixpoint references (node : FormulaNode) : list string :=
  match node with
  | NNumber _ => []
  | NCell ref => [ref]
  | NRange start end_ => [start; end_]
  | NBinary _ lhs rhs => references lhs ++ references rhs
  | NUnary _ operand => references operand
  | NFunction _ args => flat_map references args
  end.

(** The names of the functions of a tree. *)
Fixpoint functionNames (node : FormulaNode) : list string :=
  match node with
  | NNumber _ | NCell _ | NRange _ _ => []
  | NBinary _ lhs rhs => functionNames lhs ++ functionNames rhs
  | NUnary _ operand => functionNames operand
  | NFunction name args => name :: flat_map functionNames args
  end.

(** Formulas in writing. *)

Definition opToken (op : BinaryOp) : Token :=
  mkToken TOperator
    match op with OpAdd => "+" | OpSub => "-" | OpMul => "*" | OpDiv => "/" end.

Definition signToken (op : UnaryOp) : Token :=
  mkToken TOperator match op with OpPlus => "+" | OpMinus => "-" end.

(** How tightly the top of a tree binds: sums and differences least, then
    products and quotients, then signs, then everything else. *)
Definition level (node : FormulaNode) : nat :=
  match node with
  | NBinary (OpAdd | OpSub) _ _ => 0
  | NBinary (OpMul | OpDiv) _ _ => 1
  | NUnary _ _ => 2
  | _ => 3
  end.

(** The tokens of a tree written where a tree of level [p] or more is
    expected, with parentheses only where the tree binds less tightly: the
    left operand of an operator is written at the level of the operator, the
    right operand one level higher, the operand of a sign at the level of
    signs, arguments between commas.  [spell] gives the text of a number. *)
Fixpoint written (spell : float -> string) (p : nat) (node : FormulaNode) : list Token :=
  let body :=
    match node with
    | NNumber value => [mkToken TNumber (spell value)]
    | NCell ref => [mkToken TCell ref]
    | NRange start end_ => [mkToken TCell start; mkToken TColon ":"; mkToken TCell end_]
    | NUnary op operand => signToken op :: written spell 2 operand
    | NBinary op lhs rhs =>
        written spell (level node) lhs ++ opToken op :: written spell (S (level node)) rhs
    | NFunction name args =>
        mkToken TIdentifier name :: mkToken TParen "("
          :: (fix list (args : list FormulaNode) : list Token :=
                match args with
                | [] => []
                | arg :: rest =>
                    match rest with
                    | [] => written spell 0 arg
                    | _ :: _ => written spell 0 arg ++ mkToken TComma "," :: list rest
                    end
                end) args
          ++ [mkToken TParen ")"]
    end in
  if (level node <? p)%nat
  then mkToken TParen "(" :: body ++ [mkToken TParen ")"]
  else body.

(** The tree with every number read from its text. *)
Fixpoint reread (spell : float -> string) (node : FormulaNode) : FormulaNode :=
  match node with
  | NNumber value => NNumber (JsNumber.parseFloat (spell value))
  | NCell ref => NCell ref
  | NRange start end_ => NRange start end_
  | NUnary op operand => NUnary op (reread spell operand)
  | NBinary op lhs rhs => NBinary op (reread spell lhs) (reread spell rhs)
  | NFunction name args => NFunction name (map (reread spell) args)
  end.

(** A reference token holds a reference and a name token letters, as the
    lexer makes them. *)
Definition goodToken (t : Token) : Prop :=
  match tokType t with
  | TCell => isReference (tokValue t)
  | TIdentifier => letterRun (JsString.chars (tokValue t))
  | _ => True
  end.

(** The references of the tree have the form the resolver asks for and the
    names of its functions are letters. *)
Definition fine (node : FormulaNode) : Prop :=
  Forall isReference (references node) /\
  Forall (fun name => letterRun (JsString.chars name)) (functionNames node).

(** What a method that parses an expression may return. *)
Definition exprFine (result : option FormulaNode) : Prop :=
  forall n, result = Some n -> rangesAsArguments n = true /\ fine n.

(** What the method that parses an argument may return. *)
Definition argFine (n : FormulaNode) : Prop :=
  (isRange n || rangesAsArguments n) = true /\ fine n.

(** From good tokens every parsing method leaves good tokens and returns a
    tree that is fine, with its ranges in argument position. *)
Definition parserShaped (fuel : nat) : Prop :=
  (forall ts node ts',
     Forall goodToken ts -> parseExpression fuel ts = Some (node, ts') ->
     Forall goodToken ts' /\ exprFine node) /\
  (forall node0 ts node ts',
     Forall goodToken ts -> exprFine node0 ->
     expressionLoop fuel node0 ts = Some (node, ts') ->
     Forall goodToken ts' /\ exprFine node) /\
  (forall ts node ts',
     Forall goodToken ts -> parseTerm fuel ts = Some (node, ts') ->
     Forall goodToken ts' /\ exprFine node) /\
  (forall node0 ts node ts',
     Forall goodToken ts -> exprFine node0 ->
     termLoop fuel node0 ts = Some (node, ts') ->
     Forall goodToken ts' /\ exprFine node) /\
  (forall ts node ts',
     Forall goodToken ts -> parseUnary fuel ts = Some (node, ts') ->
     Forall goodToken ts' /\ exprFine node) /\
  (forall ts node ts',
     Forall goodToken ts -> parsePrimary fuel ts = Some (node, ts') ->
     Forall goodToken ts' /\ exprFine node) /\
  (forall args0 ts args ts',
     Forall goodToken ts -> Forall argFine args0 ->
     parseArguments fuel args0 ts = Some (args, ts') ->
     Forall goodToken ts' /\ forall l, args = Some l -> Forall argFine l) /\
  (forall ts node ts',
     Forall goodToken ts -> parseArgument fuel ts = Some (node, ts') ->
     Forall goodToken ts' /\ forall n, node = Some n -> argFine n).

(** The arguments of a call in writing, between commas. *)
Fixpoint writtenArgs (spell : float -> string) (args : list FormulaNode) : list Token :=
  match args with
  | [] => []
  | arg :: rest =>
      match rest with
      | [] => written spell 0 arg
      | _ :: _ => written spell 0 arg ++ mkToken TComma "," :: writtenArgs spell rest
      end
  end.

(** The method returns [r] when given fuel enough. *)
Definition Ends {A : Type} (f : nat -> list Token -> option A) (ts : list Token) (r : A)
  : Prop :=
  exists n, f n ts = Some r.

(** The tokens are the whole of a tree in writing for each way the parser
    may come to them: as a primary, as the operand of a sign, as a term
    before what the loop over products goes on with, and as an expression
    before what the loop over sums goes on with. *)
Record ReadBack (spell : float -> string) (t : FormulaNode) : Prop := {
  asPrimary : forall rest,
    Ends parsePrimary (written spell 3 t ++ rest) (Some (reread spell t), rest);
  asUnary : forall rest,
    Ends parseUnary (written spell 2 t ++ rest) (Some (reread spell t), rest);
  asTerm : forall rest r,
    Ends (fun fuel => termLoop fuel (Some (reread spell t))) rest r ->
    Ends parseTerm (written spell 1 t ++ rest) r;
  asExpression : forall rest r,
    matchOperator ["*"; "/"] rest = None ->
    Ends (fun fuel => expressionLoop fuel (Some (reread spell t))) rest r ->
    Ends parseExpression (written spell 0 t ++ rest) r
}.

(** What may follow an argument: no operator and no colon. *)
Definition afterArgument (rest : list Token) : Prop :=
  matchOperator ["*"; "/"] rest = None /\ matchOperator ["+"; "-"] rest = None /\
  tokType (peek rest) <> TColon.

(** A token a tree in writing may begin with. *)
Definition opens (t : Token) : bool :=
  match tokType t with
  | TNumber | TCell | TIdentifier | TOperator => true
  | TParen => String.eqb (tokValue t) "("
  | _ => false
  end.

(** An argument in writing is read back: a range by the branch for ranges,
    any other tree as an expression. *)
Definition ReadArgument (spell : float -> string) (t : FormulaNode) : Prop :=
  forall rest,
    afterArgument rest ->
    Ends parseArgument (written spell 0 t ++ rest) (Some (reread spell t), rest).

(** The tree with the letters of its references and of its function names
    as capitals. *)
Fixpoint capitals (node : FormulaNode) : FormulaNode :=
  match node with
  | NNumber value => NNumber value
  | NCell ref => NCell (JsString.toUpperCase ref)
  | NRange start end_ => NRange (JsString.toUpperCase start) (JsString.toUpperCase end_)
  | NBinary op lhs rhs => NBinary op (capitals lhs) (capitals rhs)
  | NUnary op operand => NUnary op (capitals operand)
  | NFunction name args => NFunction (JsString.toUpperCase name) (map capitals args)
  end.

(** *** Delimited text *)

(** The parts of the number a whole [r] below 2^53 is held as: for a
    positive [r] the 53 bits of the mantissa and the exponent of its last
    bit. *)
Definition wholeSF (r : Z) : spec_float :=
  if r =? 0 then S754_zero false
  else S754_finite false (Z.to_pos (r * 2 ^ (52 - Z.log2 r))) (Z.log2 r - 52).

(** The characters of the text of a whole number: a minus sign if it is
    negative, and the decimal digits of its magnitude. *)
Definition integerChars (z : Z) : list ascii :=
  if z <? 0 then "-"%char :: JsString.decimalDigits (- z) else JsString.decimalDigits z.

(** The text with every line break written as a line feed: a carriage
    return with the line feed after it, or alone, becomes a line feed. *)
Fixpoint unixLines (cs : list ascii) : list ascii :=
  match cs with
  | [] => []
  | c :: rest =>
      if Ascii.eqb c Csv.CR then
        match rest with
        | nextChar :: rest' =>
            if Ascii.eqb nextChar Csv.LF then Csv.LF :: unixLines rest'
            else Csv.LF :: unixLines rest
        | [] => Csv.LF :: unixLines rest
        end
      else c :: unixLines rest
  end.

(** No double quote in the text. *)
Definition quoteFree (cs : list ascii) : bool :=
  forallb (fun c => negb (Ascii.eqb c Csv.quote)) cs.

(** A character that is written as it is, outside quotes. *)
Definition isPlain (c : ascii) : bool :=
  negb (Ascii.eqb c Csv.quote || Ascii.eqb c "," || Ascii.eqb c Csv.LF
        || Ascii.eqb c Csv.CR).

(** Where a field may end: at the end of the text, at a comma or at a line
    feed. *)
Definition fieldEnd (rest : list ascii) : Prop :=
  match rest with
  | [] => True
  | c :: _ => c = ","%char \/ c = Csv.LF
  end.

(** Where a line may end: at the end of the text or at a line feed. *)
Definition lineEnd (rest : list ascii) : Prop :=
  match rest with
  | [] => True
  | c :: _ => c = Csv.LF
  end.

(** The state with [value] added to the pending field. *)
Definition addText (state : Csv.CsvParseState) (value : string) : Csv.CsvParseState :=
  Csv.mkState (Csv.rows state) (Csv.row state) (Csv.field state ++ value)
              (Csv.inQuotes state).

(** A line of delimited text: the escaped values between commas. *)
Definition csvLine (values : list string) : string :=
  Csv.join "," (map Csv.escapeCsvValue values).

(** The text of a table: its lines between line feeds. *)
Definition csvText (table : list (list string)) : string :=
  Csv.join (Csv.char Csv.LF) (map csvLine table).

(** The state after the values of a line were read: the last value is the
    pending field. *)
Fixpoint afterLine (state : Csv.CsvParseState) (values : list string)
  : Csv.CsvParseState :=
  match values with
  | [] => state
  | [value] => addText state value
  | value :: rest => afterLine (Csv.finalizeField (addText state value)) rest
  end.

(** The state after the lines of a table were read: the last line is
    pending. *)
Fixpoint afterTable (state : Csv.CsvParseState) (table : list (list string))
  : Csv.CsvParseState :=
  match table with
  | [] => state
  | [values] => afterLine state values
  | values :: rest => afterTable (Csv.finalizeRow (afterLine state values)) rest
  end.

(** The last line of the table is a single empty value. *)
Definition endsBlank (table : list (list string)) : bool :=
  match last table [] with
  | [value] => String.eqb value ""
  | _ => false
  end.

(** No tab, semicolon or bar. *)
Definition isQuiet (c : ascii) : bool :=
  negb (Ascii.eqb c Csv.TAB || Ascii.eqb c ";" || Ascii.eqb c "|").

(** A value that is written in quotes, or has no tab, semicolon or bar. *)
Definition isTame (value : string) : bool :=
  Csv.needsQuotes value || forallb isQuiet (JsString.chars value).

(** The counts when only commas were counted. *)
Definition commaCounts (n : Z) : list (string * Z) :=
  [(",", n); (Csv.char Csv.TAB, 0); (";", 0); ("|", 0)].

(** From the text on, the scan ends with the comma whatever the line and
    however many commas were counted. *)
Definition endsComma (rest : list ascii) : Prop :=
  forall quotes lineCount n,
    quotes = false -> 0 <= n ->
    Csv.detectFrom quotes lineCount (commaCounts n) rest = ",".

(** The entry a value gives: none for the empty value. *)
Definition valueEntry (row col : Z) (value : string) : list (string * string) :=
  if negb (String.eqb value "") then [(getCellKey row col, value)] else [].

(** The entries of the values of a table within the limits, row by row. *)
Definition tableEntries (table : list (list string)) (maxRows maxCols : Z)
  : list (string * string) :=
  flat_map
    (fun line => flat_map (fun item => valueEntry (fst line) (fst item) (snd item))
                          (Csv.below maxCols (snd line)))
    (Csv.below maxRows table).

(** The cells the loops of [csvToCells] make of the rows. *)
Definition cellsOf (table : list (list string)) (maxRows maxCols : Z)
  : list (string * string) :=
  fold_left
    (fun cells '(row, rowValues) =>
       fold_left
         (fun cells '(col, value) =>
            if negb (String.eqb value "") then JsMap.set (getCellKey row col) value cells
            else cells)
         (Csv.below maxCols rowValues) cells)
    (Csv.below maxRows table) [].

(** Writing entries one after the other. *)
Definition setAll (entries cells : list (string * string)) : list (string * string) :=
  fold_left (fun cells entry => JsMap.set (fst entry) (snd entry) cells) entries cells.

(** What the cell at a position holds, the empty text if it holds nothing:
    the value [cellsToCsv] writes for the position. *)
Definition gridValue (cells : list (string * string)) (row col : Z) : string :=
  orElse (JsMap.get (getCellKey row col) cells) "".

(** The values of the positions up to a last row and a last column. *)
Definition grid (cells : list (string * string)) (lastRow lastCol : Z)
  : list (list string) :=
  map (fun row => map (gridValue cells row) (upto 0 lastCol)) (upto 0 lastRow).

(** A store the grid can hold and the export can write: every key is the
    key of a position within the limits, and every text is non-empty and is
    written in quotes or has no tab, semicolon or bar. *)
Definition exportable (maxRows maxCols : Z) (cells : list (string * string)) : Prop :=
  forall k v,
    In (k, v) cells ->
    v <> "" /\ isTame v = true /\
    exists r c, k = getCellKey r c /\ 0 <= r < maxRows /\ 0 <= c < maxCols.

(** Every key of the store is the key of a position within the limits. *)
Definition positioned (maxRows maxCols : Z) (cells : list (string * string)) : Prop :=
  forall k, In k (JsMap.keys cells) ->
    exists r c, k = getCellKey r c /\ 0 <= r < maxRows /\ 0 <= c < maxCols.

(** What the scan does at a line break outside quotes, given how it goes on
    after the break. *)
Definition atBreak (lineCount : Z) (counts : list (string * Z)) (next : string)
  : string :=
  if negb (lineCount <? 5) then orElse (Csv.pickDelimiter counts) ","
  else match Csv.pickDelimiter counts with
       | Some best => best
       | None => next
       end.

(** What [parseCsv] does after its loop. *)
Definition closeRows (state : Csv.CsvParseState) : list (list string) :=
  let state := if Csv.inQuotes state then Csv.setQuotes state false else state in
  let state :=
    if (0 <? Z.of_nat (String.length (Csv.field state)))
       || (0 <? Z.of_nat (List.length (Csv.row state)))
    then Csv.finalizeRow state else state in
  Csv.rows state.

(** *** The grid *)

(** The entry was made at a position before [(row, col)] in the order of
    the loops. *)
Definition madeBefore (row col : Z) (entry : Grid.HistoryEntry) : Prop :=
  exists r c, Grid.key entry = getCellKey r c /\ (r < row \/ (r = row /\ c < col)).

(** What the loops of [pasteText] keep, for the store [cells] they began
    with, when they are at [(row, col)]. *)
Definition pasteKeeps (cells : list (string * string)) (row col : Z)
    (state : list (string * string) * list Grid.HistoryEntry) : Prop :=
  NoDup (map Grid.key (snd state)) /\
  Forall (fun entry =>
            Grid.prev entry = JsMap.get (Grid.key entry) cells /\
            Grid.next entry = JsMap.get (Grid.key entry) (fst state) /\
            Grid.prev entry <> Grid.next entry /\
            madeBefore row col entry)
         (snd state) /\
  (forall k, ~ In k (map Grid.key (snd state)) ->
             JsMap.get k (fst state) = JsMap.get k cells).

(** * Properties *)

(** ** Maps and sets *)

Section MapFacts.
Context {V : Type}.
Implicit Types (m : list (string * V)) (k : string) (v : V).

Lemma get_set_same k v m : JsMap.get k (JsMap.set k v m) = Some v.
Proof.
  induction m as [|[k0 v0] m IH]; simpl.
  - now rewrite String.eqb_refl.
  - destruct (String.eqb k0 k) eqn:E; simpl; rewrite E; auto.
Qed.

Lemma get_set_other k k' v m :
  k <> k' -> JsMap.get k (JsMap.set k' v m) = JsMap.get k m.
Proof.
  intros N. induction m as [|[k0 v0] m IH]; simpl.
  - destruct (String.eqb k' k) eqn:E; auto.
    apply String.eqb_eq in E. congruence.
  - destruct (String.eqb k0 k') eqn:E; simpl.
    + apply String.eqb_eq in E. subst k0.
      destruct (String.eqb k' k) eqn:E'; auto.
      apply String.eqb_eq in E'. congruence.
    + now rewrite IH.
Qed.

Lemma get_In k m : (exists v, JsMap.get k m = Some v) <-> In k (JsMap.keys m).
Proof.
  induction m as [|[k0 v0] m IH]; simpl.
  - split; [intros [v H]; discriminate | tauto].
  - destruct (String.eqb k0 k) eqn:E.
    + apply String.eqb_eq in E. split; eauto.
    + apply String.eqb_neq in E. rewrite IH. tauto.
Qed.

Lemma has_In k m : JsMap.has k m = true <-> In k (JsMap.keys m).
Proof.
  rewrite <- get_In. unfold JsMap.has.
  destruct (JsMap.get k m); split; eauto; try discriminate.
  intros [v H]. discriminate.
Qed.

Lemma get_None k m : JsMap.get k m = None <-> ~ In k (JsMap.keys m).
Proof.
  rewrite <- get_In. destruct (JsMap.get k m) as [v0|].
  - split; [discriminate|]. intros H. exfalso. eauto.
  - split; auto. intros _ [v0 H]. discriminate.
Qed.

Lemma get_In_entry k v m : JsMap.get k m = Some v -> In (k, v) m.
Proof.
  induction m as [|[k0 v0] m IH]; simpl; [discriminate|].
  destruct (String.eqb k0 k) eqn:E.
  - apply String.eqb_eq in E. intros [= ->]. subst. auto.
  - auto.
Qed.

Lemma In_entry_get k v m : NoDup (JsMap.keys m) -> In (k, v) m -> JsMap.get k m = Some v.
Proof.
  induction m as [|[k0 v0] m IH]; simpl; [tauto|].
  intros ND [H|H].
  - inversion H; subst. now rewrite String.eqb_refl.
  - inversion ND; subst.
    destruct (String.eqb k0 k) eqn:E; auto.
    apply String.eqb_eq in E. subst. exfalso. apply H2.
    change k with (fst (k, v)). now apply in_map.
Qed.

Lemma set_fresh k v m : ~ In k (JsMap.keys m) -> JsMap.set k v m = m ++ [(k, v)].
Proof.
  induction m as [|[k0 v0] m IH]; simpl; auto.
  intros N. destruct (String.eqb k0 k) eqn:E.
  - apply String.eqb_eq in E. tauto.
  - rewrite IH; tauto.
Qed.

Lemma keys_set k v m :
  JsMap.keys (JsMap.set k v m)
  = if JsMap.has k m then JsMap.keys m else JsMap.keys m ++ [k].
Proof.
  unfold JsMap.has. induction m as [|[k0 v0] m IH]; simpl; auto.
  destruct (String.eqb k0 k) eqn:E; simpl; auto.
  rewrite IH. now destruct (JsMap.get k m).
Qed.

Lemma keys_set_In k k' v m :
  In k (JsMap.keys (JsMap.set k' v m)) <-> k = k' \/ In k (JsMap.keys m).
Proof.
  rewrite keys_set. destruct (JsMap.has k' m) eqn:H.
  - apply has_In in H. split; auto. intros [->|]; auto.
  - rewrite in_app_iff. simpl. intuition.
Qed.

Lemma keys_set_NoDup k v m : NoDup (JsMap.keys m) -> NoDup (JsMap.keys (JsMap.set k v m)).
Proof.
  intros ND. rewrite keys_set. destruct (JsMap.has k m) eqn:H; auto.
  apply NoDup_app; auto.
  - repeat constructor. simpl. tauto.
  - intros x Hx [<-|[]]. apply has_In in Hx. congruence.
Qed.

Lemma get_app k m m' :
  JsMap.get k (m ++ m')
  = match JsMap.get k m with Some v => Some v | None => JsMap.get k m' end.
Proof.
  induction m as [|[k0 v0] m IH]; simpl; auto.
  now destruct (String.eqb k0 k).
Qed.

End MapFacts.

Lemma mem_In k s : JsMap.mem k s = true <-> In k s.
Proof.
  unfold JsMap.mem. rewrite existsb_exists. split.
  - intros [x [H E]]. apply String.eqb_eq in E. now subst.
  - intros H. exists k. split; auto. apply String.eqb_refl.
Qed.

Lemma mem_false k s : JsMap.mem k s = false <-> ~ In k s.
Proof.
  rewrite <- mem_In. destruct (JsMap.mem k s); split; congruence.
Qed.

Lemma add_In x k s : In x (JsMap.add k s) <-> x = k \/ In x s.
Proof.
  unfold JsMap.add. destruct (JsMap.mem k s) eqn:E.
  - apply mem_In in E. split; auto. intros [->|]; auto.
  - rewrite in_app_iff. simpl. intuition.
Qed.

Lemma add_NoDup k s : NoDup s -> NoDup (JsMap.add k s).
Proof.
  intros ND. unfold JsMap.add. destruct (JsMap.mem k s) eqn:E; auto.
  apply mem_false in E. apply NoDup_app; auto.
  - repeat constructor. simpl. tauto.
  - intros x Hx [<-|[]]. tauto.
Qed.

Lemma add_fresh k s : ~ In k s -> JsMap.add k s = s ++ [k].
Proof.
  intros N. unfold JsMap.add. apply mem_false in N. now rewrite N.
Qed.

(** ** The first loop: literal cells, parsed formulas, parse errors *)

Lemma literalCells_keys k cells :
  In k (JsMap.keys (literalCells cells)) -> In k (JsMap.keys cells).
Proof.
  unfold JsMap.keys, literalCells. rewrite !in_map_iff.
  intros [e [H1 H2]]. apply filter_In in H2. exists e. tauto.
Qed.

Lemma parsedCells_In k tree cells :
  In (k, tree) (parsedCells cells)
  <-> exists v, In (k, v) cells /\ cellFormula v = Some tree.
Proof.
  unfold parsedCells. rewrite in_flat_map. split.
  - intros [[k0 v] [H1 H2]]. simpl in H2.
    destruct (cellFormula v) eqn:E; simpl in H2; [|tauto].
    destruct H2 as [H2|[]]. inversion H2; subst. eauto.
  - intros [v [H1 H2]]. exists (k, v). simpl. rewrite H2. simpl. auto.
Qed.

Lemma parsedCells_keys k cells :
  In k (JsMap.keys (parsedCells cells)) -> In k (JsMap.keys cells).
Proof.
  unfold JsMap.keys. rewrite !in_map_iff. intros [[k0 t] [H1 H2]].
  simpl in H1. subst k0. apply parsedCells_In in H2. destruct H2 as [v [H2 _]].
  exists (k, v). auto.
Qed.

Lemma failedCells_keys k cells : In k (failedCells cells) -> In k (JsMap.keys cells).
Proof.
  unfold JsMap.keys, failedCells. rewrite !in_map_iff.
  intros [e [H1 H2]]. apply filter_In in H2. exists e. tauto.
Qed.

Lemma dependenciesOf_keys parsed : JsMap.keys (dependenciesOf parsed) = JsMap.keys parsed.
Proof.
  unfold JsMap.keys, dependenciesOf. rewrite map_map. now apply map_ext.
Qed.

Lemma wellFormed_snoc cells k v :
  wellFormed (cells ++ [(k, v)]) -> wellFormed cells /\ ~ In k (JsMap.keys cells).
Proof.
  unfold wellFormed, JsMap.keys. rewrite map_app. simpl. intros ND. split.
  - now apply NoDup_app_remove_r in ND.
  - apply NoDup_remove_2 in ND. now rewrite app_nil_r in ND.
Qed.

Lemma scanCells_spec cells :
  wellFormed cells ->
  scanCells cells
  = mkScan (literalCells cells) (parsedCells cells) (failedCells cells)
           (dependenciesOf (parsedCells cells)).
Proof.
  induction cells as [|[k v] cells IH] using rev_ind; intros WF; [reflexivity|].
  apply wellFormed_snoc in WF. destruct WF as [WF N].
  unfold scanCells in *. rewrite fold_left_app. simpl. rewrite (IH WF). clear IH.
  unfold literalCells, parsedCells, failedCells, dependenciesOf.
  rewrite !filter_app, flat_map_app, !map_app. simpl.
  unfold scanCell, isLiteral, parseFails, cellFormula. simpl.
  destruct (JsString.startsWithEq v); simpl.
  - destruct (ok (parseFormula (tokenize (JsString.slice1 v))));
      destruct (ast (parseFormula (tokenize (JsString.slice1 v)))) as [tree|];
      simpl; rewrite ?app_nil_r.
    + rewrite !set_fresh; auto.
      * intros H. apply N. fold (dependenciesOf (parsedCells cells)) in H.
        rewrite dependenciesOf_keys in H. now apply parsedCells_keys.
      * intros H. apply N. now apply parsedCells_keys.
    + rewrite add_fresh; auto. intros H. apply N. now apply failedCells_keys.
    + rewrite add_fresh; auto. intros H. apply N. now apply failedCells_keys.
    + rewrite add_fresh; auto. intros H. apply N. now apply failedCells_keys.
  - rewrite ?app_nil_r. rewrite set_fresh; auto.
    intros H. apply N. now apply literalCells_keys.
Qed.

(** Each key of a well-formed store is of exactly one kind. *)
Lemma literalCells_get k cells :
  wellFormed cells ->
  JsMap.get k (literalCells cells)
  = match JsMap.get k cells with
    | Some v => if isLiteral v then Some v else None
    | None => None
    end.
Proof.
  unfold wellFormed, literalCells.
  induction cells as [|[k0 v0] cells IH]; simpl; auto.
  intros ND. inversion ND; subst.
  destruct (String.eqb k0 k) eqn:E.
  - apply String.eqb_eq in E. subst k0.
    destruct (isLiteral v0) eqn:L; simpl.
    + now rewrite String.eqb_refl.
    + apply get_None. intros H. apply H1.
      now apply (literalCells_keys k cells).
  - destruct (isLiteral v0); simpl; rewrite ?E; auto.
Qed.

Lemma parsedCells_get k cells :
  wellFormed cells ->
  JsMap.get k (parsedCells cells)
  = match JsMap.get k cells with
    | Some v => cellFormula v
    | None => None
    end.
Proof.
  unfold wellFormed.
  induction cells as [|[k0 v0] cells IH]; simpl; auto.
  intros ND. inversion ND; subst.
  change (parsedCells ((k0, v0) :: cells))
    with (match cellFormula v0 with Some tree => [(k0, tree)] | None => [] end
          ++ parsedCells cells).
  rewrite get_app.
  destruct (String.eqb k0 k) eqn:E.
  - apply String.eqb_eq in E. subst k0.
    destruct (cellFormula v0); simpl.
    + now rewrite String.eqb_refl.
    + apply get_None. intros H. apply H1. now apply parsedCells_keys.
  - destruct (cellFormula v0); simpl; rewrite ?E; auto.
Qed.

Lemma failedCells_mem k cells :
  wellFormed cells ->
  JsMap.mem k (failedCells cells)
  = match JsMap.get k cells with
    | Some v => parseFails v
    | None => false
    end.
Proof.
  unfold wellFormed.
  induction cells as [|[k0 v0] cells IH]; simpl; auto.
  intros ND. inversion ND; subst.
  unfold failedCells. simpl.
  destruct (String.eqb k0 k) eqn:E.
  - apply String.eqb_eq in E. subst k0.
    destruct (parseFails v0) eqn:P; simpl.
    + now rewrite String.eqb_refl.
    + apply mem_false. intros H. apply H1. now apply failedCells_keys.
  - destruct (parseFails v0); simpl; auto.
    rewrite String.eqb_sym, E. simpl. now apply IH.
Qed.

Lemma literalCells_NoDup cells : wellFormed cells -> NoDup (JsMap.keys (literalCells cells)).
Proof.
  unfold wellFormed. induction cells as [|[k v] cells IH]; simpl; auto.
  intros ND. inversion ND; subst. unfold literalCells. simpl.
  destruct (isLiteral v); simpl; auto.
  constructor; auto. intros H. apply H1. now apply literalCells_keys.
Qed.

Lemma parsedCells_NoDup cells : wellFormed cells -> NoDup (JsMap.keys (parsedCells cells)).
Proof.
  unfold wellFormed. induction cells as [|[k v] cells IH]; simpl; auto.
  intros ND. inversion ND; subst.
  change (parsedCells ((k, v) :: cells))
    with (match cellFormula v with Some tree => [(k, tree)] | None => [] end
          ++ parsedCells cells).
  destruct (cellFormula v); simpl; auto.
  constructor; auto. intros H. apply H1. now apply parsedCells_keys.
Qed.

Lemma failedCells_NoDup cells : wellFormed cells -> NoDup (failedCells cells).
Proof.
  unfold wellFormed. induction cells as [|[k v] cells IH]; simpl; auto.
  intros ND. inversion ND; subst. unfold failedCells. simpl.
  destruct (parseFails v); simpl; auto.
  constructor; auto. intros H. apply H1. now apply failedCells_keys.
Qed.

(** ** The dependency graph *)

Lemma buildGraph_edges formulas dependencies :
  buildGraph formulas dependencies
  = fold_left (fun g edge => addEdge formulas (fst edge) g (snd edge))
              (edgeList dependencies) (emptyGraph formulas).
Proof.
  unfold buildGraph, edgeList. fold (emptyGraph formulas).
  generalize (emptyGraph formulas).
  induction dependencies as [|[cell deps] rest IH]; intros g; simpl; auto.
  rewrite fold_left_app, IH. f_equal.
  clear. revert g. induction deps as [|d deps IH]; intros g; simpl; auto.
Qed.

Lemma emptyGraph_spec formulas :
  NoDup (JsMap.keys formulas) ->
  adjacency (emptyGraph formulas) = map (fun k => (k, [])) (JsMap.keys formulas) /\
  indegree (emptyGraph formulas) = map (fun k => (k, 0)) (JsMap.keys formulas).
Proof.
  unfold emptyGraph. generalize (JsMap.keys formulas) as ks.
  induction ks as [|k ks IH] using rev_ind; intros ND; [simpl; auto|].
  assert (ND' : NoDup ks) by now apply NoDup_app_remove_r in ND.
  assert (N : ~ In k ks).
  { apply NoDup_remove_2 in ND. now rewrite app_nil_r in ND. }
  destruct (IH ND') as [A I]. rewrite fold_left_app. simpl.
  set (g := fold_left addNode ks _) in *. unfold addNode. simpl.
  rewrite A, I, !map_app. simpl.
  split; apply set_fresh; unfold JsMap.keys; rewrite map_map; simpl;
    now rewrite map_id.
Qed.

Lemma buildGraph_invariant formulas edges :
  NoDup (JsMap.keys formulas) ->
  (forall c d, In (c, d) edges -> In c (JsMap.keys formulas)) ->
  let g := fold_left (fun g edge => addEdge formulas (fst edge) g (snd edge))
                     edges (emptyGraph formulas) in
  JsMap.keys (indegree g) = JsMap.keys formulas /\
  (forall c, In c (JsMap.keys formulas) ->
     JsMap.get c (indegree g)
     = Some (Z.of_nat (List.length (countedEdges formulas c edges)))) /\
  (forall d, In d (JsMap.keys formulas) ->
     exists readers,
       JsMap.get d (adjacency g) = Some readers /\ NoDup readers /\
       forall c, In c readers <-> In (c, d) edges).
Proof.
  intros ND. induction edges as [|[c0 d0] edges IH] using rev_ind; intros Hc.
  - destruct (emptyGraph_spec formulas ND) as [A I]. simpl. rewrite A, I.
    split; [|split].
    + unfold JsMap.keys. rewrite map_map. simpl. apply map_id.
    + intros c Hc'. apply In_entry_get.
      * unfold JsMap.keys. rewrite map_map. simpl. now rewrite map_id.
      * apply in_map_iff. eauto.
    + intros d Hd. exists []. split; [|split]; [|constructor|simpl; tauto].
      apply In_entry_get.
      * unfold JsMap.keys. rewrite map_map. simpl. now rewrite map_id.
      * apply in_map_iff. eauto.
  - assert (Hc' : forall c d, In (c, d) edges -> In c (JsMap.keys formulas)).
    { intros c d H. apply (Hc c d). apply in_app_iff. auto. }
    assert (Hc0 : In c0 (JsMap.keys formulas)).
    { apply (Hc c0 d0). apply in_app_iff. simpl. auto. }
    specialize (IH Hc'). cbv zeta in IH. destruct IH as [K [I A]].
    cbv zeta. rewrite fold_left_app. simpl.
    set (g := fold_left _ edges _) in *.
    unfold addEdge, countedEdges. setoid_rewrite filter_app. simpl.
    destruct (JsMap.has d0 formulas) eqn:Hd0; simpl.
    + split; [|split].
      * rewrite keys_set. rewrite <- K in Hc0. apply has_In in Hc0.
        now rewrite Hc0.
      * intros c Hcin. destruct (String.eqb c0 c) eqn:E.
        -- apply String.eqb_eq in E. subst c0. rewrite get_set_same.
           rewrite (I c Hcin). simpl. rewrite length_app. simpl.
           f_equal. unfold countedEdges. lia.
        -- apply String.eqb_neq in E. rewrite get_set_other by congruence.
           rewrite (I c Hcin). simpl. now rewrite app_nil_r.
      * intros d Hd. destruct (A d0) as [rs0 [G0 [ND0 M0]]]; [now apply has_In|].
        rewrite G0. destruct (String.eqb d0 d) eqn:E.
        -- apply String.eqb_eq in E. subst d0. rewrite get_set_same.
           exists (JsMap.add c0 rs0). split; [reflexivity|]. split.
           ++ now apply add_NoDup.
           ++ intros c. rewrite add_In, in_app_iff, M0. simpl.
              split; [intros [->|]; auto | intros [|[H|[]]]; auto].
              inversion H. auto.
        -- apply String.eqb_neq in E. rewrite get_set_other by congruence.
           destruct (A d Hd) as [rs [G [NDr M]]]. exists rs.
           split; [assumption|]. split; [assumption|].
           intros c. rewrite M, in_app_iff. simpl.
           split; [auto | intros [|[H|[]]]; auto]. inversion H. congruence.
    + split; [|split]; auto.
      * intros c Hcin. rewrite (I c Hcin), andb_false_r, app_nil_r. reflexivity.
      * intros d Hd. destruct (A d Hd) as [rs [G [NDr M]]]. exists rs.
        split; [assumption|]. split; [assumption|].
        intros c. rewrite M, in_app_iff. simpl.
        split; [auto | intros [|[H|[]]]; auto]. inversion H. subst.
        apply has_In in Hd. congruence.
Qed.

(** ** The Kahn pass *)

Lemma seedQueue_In v (m : list (string * Z)) :
  NoDup (JsMap.keys m) -> (In v (seedQueue m) <-> JsMap.get v m = Some 0).
Proof.
  intros ND. unfold seedQueue. rewrite in_map_iff. split.
  - intros [[k z] [E H]]. simpl in E. subst k. apply filter_In in H.
    destruct H as [H Z0]. simpl in Z0. apply Z.eqb_eq in Z0. subst z.
    now apply In_entry_get.
  - intros H. exists (v, 0). split; auto. apply filter_In. split; auto.
    now apply get_In_entry.
Qed.

Lemma seedQueue_NoDup (m : list (string * Z)) :
  NoDup (JsMap.keys m) -> NoDup (seedQueue m).
Proof.
  unfold seedQueue, JsMap.keys. induction m as [|[k z] m IH]; simpl; auto.
  intros ND. inversion ND; subst. destruct (z =? 0); simpl; auto.
  constructor; auto. intros H. apply H1. apply in_map_iff in H.
  destruct H as [e [E H]]. apply filter_In in H. apply in_map_iff. exists e. tauto.
Qed.

Lemma relax_fold_queue readers queue indegree :
  NoDup readers ->
  fst (fold_left relax readers (queue, indegree))
  = queue ++ filter (fun v => orElse (JsMap.get v indegree) 0 - 1 =? 0) readers.
Proof.
  revert queue indegree.
  induction readers as [|r readers IH]; intros queue indegree ND; simpl.
  - now rewrite app_nil_r.
  - inversion ND; subst. rewrite IH by assumption.
    assert (E : filter (fun v => orElse (JsMap.get v
                  (JsMap.set r (orElse (JsMap.get r indegree) 0 - 1) indegree)) 0 - 1 =? 0)
                  readers
                = filter (fun v => orElse (JsMap.get v indegree) 0 - 1 =? 0) readers).
    { apply filter_ext_in. intros v Hv. rewrite get_set_other; auto.
      intros ->. tauto. }
    rewrite E. destruct (orElse (JsMap.get r indegree) 0 - 1 =? 0); auto.
    now rewrite <- app_assoc.
Qed.

Lemma relax_fold_indegree readers queue indegree v :
  NoDup readers ->
  JsMap.get v (snd (fold_left relax readers (queue, indegree)))
  = if JsMap.mem v readers then Some (orElse (JsMap.get v indegree) 0 - 1)
    else JsMap.get v indegree.
Proof.
  revert queue indegree.
  induction readers as [|r readers IH]; intros queue indegree ND; simpl; auto.
  inversion ND; subst. rewrite IH by assumption.
  destruct (String.eqb v r) eqn:E; simpl.
  - apply String.eqb_eq in E. subst r.
    assert (M : JsMap.mem v readers = false) by now apply mem_false.
    rewrite M. apply get_set_same.
  - apply String.eqb_neq in E.
    rewrite get_set_other by assumption. reflexivity.
Qed.

Lemma repeated_element (l : list string) :
  ~ NoDup l -> exists x l1 l2 l3, l = l1 ++ x :: l2 ++ x :: l3.
Proof.
  induction l as [|a l IH]; intros N.
  - exfalso. apply N. constructor.
  - destruct (in_dec string_dec a l) as [H|H].
    + apply in_split in H. destruct H as [l2 [l3 ->]]. now exists a, [], l2, l3.
    + destruct IH as [x [l1 [l2 [l3 ->]]]].
      * intros ND. apply N. now constructor.
      * now exists x, (a :: l1), l2, l3.
Qed.

Section Kahn.

Variable nodes : list string.
Variable preds : string -> list string.
Variable adj : list (string * list string).

Hypothesis preds_NoDup : forall v, NoDup (preds v).
Hypothesis preds_nodes : forall v u, In u (preds v) -> In u nodes.
Hypothesis adj_spec :
  forall u, In u nodes ->
    exists readers,
      JsMap.get u adj = Some readers /\ NoDup readers /\
      forall c, In c readers <-> In c nodes /\ In u (preds c).

Local Abbreviation pending := (pending preds).
Local Abbreviation KahnInv := (KahnInv nodes preds).
Local Abbreviation walk := (walk preds).

Lemma pending_nil v : pending [] v = preds v.
Proof.
  unfold pending. induction (preds v) as [|u l IH]; simpl; auto.
  f_equal. exact IH.
Qed.

Lemma pending_snoc ordered c v :
  pending (ordered ++ [c]) v
  = filter (fun u => negb (String.eqb u c)) (pending ordered v).
Proof.
  unfold pending. induction (preds v) as [|u l IH]; simpl; auto.
  unfold JsMap.mem in *. rewrite existsb_app. simpl. rewrite orb_false_r.
  destruct (existsb (String.eqb u) ordered); simpl; auto.
  destruct (String.eqb u c); simpl; auto. now rewrite IH.
Qed.

Lemma filter_out_length (l : list string) c :
  NoDup l ->
  List.length l
  = (List.length (filter (fun u => negb (String.eqb u c)) l)
     + if JsMap.mem c l then 1 else 0)%nat.
Proof.
  induction l as [|a l IH]; intros ND; simpl; auto.
  inversion ND; subst. specialize (IH H2).
  rewrite (String.eqb_sym a c).
  destruct (String.eqb c a) eqn:E; simpl.
  - apply String.eqb_eq in E. subst a.
    assert (M : JsMap.mem c l = false) by now apply mem_false.
    rewrite M in IH. lia.
  - lia.
Qed.

Lemma pending_NoDup ordered v : NoDup (pending ordered v).
Proof. apply NoDup_filter, preds_NoDup. Qed.

Lemma pending_In ordered v u :
  In u (pending ordered v) <-> In u (preds v) /\ ~ In u ordered.
Proof.
  unfold pending. rewrite filter_In, negb_true_iff, mem_false. tauto.
Qed.

Lemma KahnInv_start indegree :
  NoDup nodes ->
  JsMap.keys indegree = nodes ->
  (forall v, In v nodes ->
     JsMap.get v indegree = Some (Z.of_nat (List.length (preds v)))) ->
  KahnInv (seedQueue indegree) indegree [].
Proof.
  intros ND K C. assert (NDk : NoDup (JsMap.keys indegree)) by now rewrite K.
  constructor; simpl.
  - now apply seedQueue_NoDup.
  - intros v H. apply seedQueue_In in H; auto. rewrite <- K. apply get_In. eauto.
  - intros v H. rewrite pending_nil. auto.
  - intros v H. rewrite pending_nil, seedQueue_In, (C v H) by assumption.
    destruct (preds v); simpl; split; auto; discriminate.
  - intros l1 v l2 E. destruct l1; discriminate.
Qed.

Lemma KahnInv_step current queue indegree ordered readers :
  KahnInv (current :: queue) indegree ordered ->
  JsMap.get current adj = Some readers ->
  KahnInv (fst (fold_left relax readers (queue, indegree)))
          (snd (fold_left relax readers (queue, indegree)))
          (ordered ++ [current]).
Proof.
  intros [ND IN CNT RDY BEF] G.
  assert (Hc : In current nodes).
  { apply IN. apply in_app_iff. simpl. auto. }
  destruct (adj_spec current Hc) as [rs [G' [NDr M]]].
  rewrite G in G'. injection G' as <-.
  assert (Hco : ~ In current ordered).
  { apply NoDup_remove_2 in ND. intros H. apply ND. apply in_app_iff. auto. }
  assert (Hpc : pending ordered current = []).
  { apply RDY; auto. apply in_app_iff. simpl. auto. }
  assert (LEN : forall v, In v nodes ->
            List.length (pending ordered v)
            = (List.length (pending (ordered ++ [current]) v)
               + if JsMap.mem v readers then 1 else 0)%nat).
  { intros v Hv. rewrite pending_snoc.
    rewrite (filter_out_length (pending ordered v) current (pending_NoDup _ _)).
    f_equal. destruct (JsMap.mem v readers) eqn:E1;
      destruct (JsMap.mem current (pending ordered v)) eqn:E2; auto.
    - apply mem_In in E1. apply M in E1. apply mem_false in E2.
      exfalso. apply E2. apply pending_In. tauto.
    - apply mem_In in E2. apply pending_In in E2. apply mem_false in E1.
      exfalso. apply E1. apply M. tauto. }
  assert (Q : forall v, In v (fst (fold_left relax readers (queue, indegree)))
                <-> In v queue \/
                    (In v readers /\ List.length (pending ordered v) = 1%nat)).
  { intros v. rewrite relax_fold_queue, in_app_iff, filter_In by assumption.
    split; (intros [H|[H1 H2]]; [now left|right; split; auto]).
    - apply M in H1. rewrite (CNT v) in H2 by tauto. simpl in H2.
      apply Z.eqb_eq in H2. lia.
    - apply M in H1. rewrite (CNT v) by tauto. simpl. apply Z.eqb_eq. lia. }
  constructor.
  - rewrite relax_fold_queue by assumption. rewrite app_assoc.
    apply NoDup_app.
    + rewrite <- app_assoc. exact ND.
    + now apply NoDup_filter.
    + intros v H1 H2. apply filter_In in H2. destruct H2 as [H2 H3].
      apply M in H2. rewrite (CNT v) in H3 by tauto. simpl in H3.
      apply Z.eqb_eq in H3.
      assert (E : pending ordered v = []).
      { apply RDY; [tauto|]. rewrite <- app_assoc in H1. exact H1. }
      rewrite E in H3. simpl in H3. lia.
  - intros v H. apply in_app_iff in H. destruct H as [H|H].
    + apply IN. apply in_app_iff in H. apply in_app_iff. simpl in *. tauto.
    + apply Q in H. destruct H as [H|[H _]].
      * apply IN. apply in_app_iff. simpl. auto.
      * apply M in H. tauto.
  - intros v Hv. rewrite relax_fold_indegree, (CNT v Hv) by assumption.
    specialize (LEN v Hv). simpl. destruct (JsMap.mem v readers); f_equal; lia.
  - intros v Hv. specialize (LEN v Hv). rewrite in_app_iff, Q. split.
    + intros [H|[H|[H1 H2]]].
      * assert (E : pending ordered v = []).
        { apply RDY; auto. apply in_app_iff in H. apply in_app_iff. simpl in *. tauto. }
        rewrite pending_snoc, E. reflexivity.
      * assert (E : pending ordered v = []).
        { apply RDY; auto. apply in_app_iff. simpl. auto. }
        rewrite pending_snoc, E. reflexivity.
      * apply mem_In in H1. rewrite H1 in LEN.
        destruct (pending (ordered ++ [current]) v); auto. simpl in LEN. lia.
    + intros E. rewrite E in LEN. simpl in LEN.
      destruct (JsMap.mem v readers) eqn:E1.
      * right. right. split; [now apply mem_In | assumption].
      * assert (E' : pending ordered v = []).
        { destruct (pending ordered v); auto. discriminate. }
        apply RDY in E'; auto. apply in_app_iff in E'. simpl in E'.
        rewrite in_app_iff. simpl. tauto.
  - intros l1 v l2 E. destruct l2 as [|x l2 _] using rev_ind.
    + apply app_inj_tail in E. destruct E as [E1 E2]. subst l1 v.
      intros u Hu. destruct (in_dec string_dec u ordered) as [H|H]; auto.
      assert (Hp : In u (pending ordered current)) by (apply pending_In; tauto).
      rewrite Hpc in Hp. destruct Hp.
    + change (l1 ++ v :: l2 ++ [x]) with (l1 ++ (v :: l2) ++ [x]) in E.
      rewrite app_assoc in E. apply app_inj_tail in E. destruct E as [E _].
      now apply (BEF l1 v l2).
Qed.

Lemma kahnLoop_invariant fuel queue indegree ordered :
  KahnInv queue indegree ordered ->
  exists queue' indegree',
    KahnInv queue' indegree' (kahnLoop fuel adj queue indegree ordered).
Proof.
  revert queue indegree ordered.
  induction fuel as [|fuel IH]; intros queue indegree ordered I; simpl; eauto.
  destruct queue as [|current queue]; eauto.
  destruct (String.eqb current ""); eauto.
  assert (Hc : In current nodes).
  { apply (inv_nodes _ _ _ _ _ I). apply in_app_iff. simpl. auto. }
  destruct (adj_spec current Hc) as [rs [G _]]. rewrite G. simpl.
  pose proof (KahnInv_step _ _ _ _ _ I G) as I'.
  destruct (fold_left relax rs (queue, indegree)) as [queue' indegree'].
  now apply IH.
Qed.

Lemma KahnInv_length queue indegree ordered :
  KahnInv queue indegree ordered ->
  (List.length ordered + List.length queue <= List.length nodes)%nat.
Proof.
  intros I. rewrite <- length_app. apply NoDup_incl_length.
  - apply (inv_NoDup _ _ _ _ _ I).
  - apply (inv_nodes _ _ _ _ _ I).
Qed.

(** With no empty key among the nodes the loop stops on an empty queue. *)
Lemma kahnLoop_complete fuel queue indegree ordered :
  (forall v, In v nodes -> v <> "") ->
  KahnInv queue indegree ordered ->
  (List.length nodes <= fuel + List.length ordered)%nat ->
  exists indegree', KahnInv [] indegree' (kahnLoop fuel adj queue indegree ordered).
Proof.
  intros NE. revert queue indegree ordered.
  induction fuel as [|fuel IH]; intros queue indegree ordered I L; simpl.
  - pose proof (KahnInv_length _ _ _ I). destruct queue; [eauto|simpl in *; lia].
  - destruct queue as [|current queue]; eauto.
    assert (Hc : In current nodes).
    { apply (inv_nodes _ _ _ _ _ I). apply in_app_iff. simpl. auto. }
    destruct (String.eqb current "") eqn:E.
    + apply String.eqb_eq in E. now apply NE in Hc.
    + destruct (adj_spec current Hc) as [rs [G _]]. rewrite G. simpl.
      pose proof (KahnInv_step _ _ _ _ _ I G) as I'.
      destruct (fold_left relax rs (queue, indegree)) as [queue' indegree'].
      apply IH; auto. rewrite length_app. simpl. lia.
Qed.

(** More fuel than the number of nodes changes nothing: the loop has
    stopped by itself. *)
Lemma kahnLoop_enough fuel extra queue indegree ordered :
  KahnInv queue indegree ordered ->
  (List.length nodes <= fuel + List.length ordered)%nat ->
  kahnLoop (fuel + extra) adj queue indegree ordered
  = kahnLoop fuel adj queue indegree ordered.
Proof.
  revert queue indegree ordered.
  induction fuel as [|fuel IH]; intros queue indegree ordered I L; simpl.
  - pose proof (KahnInv_length _ _ _ I). destruct queue; [|simpl in *; lia].
    now destruct extra.
  - destruct queue as [|current queue]; auto.
    destruct (String.eqb current ""); auto.
    assert (Hc : In current nodes).
    { apply (inv_nodes _ _ _ _ _ I). apply in_app_iff. simpl. auto. }
    destruct (adj_spec current Hc) as [rs [G _]]. rewrite G. simpl.
    pose proof (KahnInv_step _ _ _ _ _ I G) as I'.
    destruct (fold_left relax rs (queue, indegree)) as [queue' indegree'].
    apply IH; auto. rewrite length_app. simpl. lia.
Qed.

(** *** The order is topological, and it misses the cells that reach a
    cycle and no others *)

Lemma chain_before indegree queue ordered v d :
  KahnInv queue indegree ordered ->
  chain preds v d ->
  forall l1 l2, ordered = l1 ++ v :: l2 -> In d l1.
Proof.
  intros I C. induction C as [v u H|v m u H C IH]; intros l1 l2 E.
  - now apply (inv_before _ _ _ _ _ I l1 v l2 E).
  - pose proof (inv_before _ _ _ _ _ I l1 v l2 E m H) as Hm.
    apply in_split in Hm. destruct Hm as [a [b ->]].
    rewrite <- app_assoc in E. simpl in E.
    specialize (IH a _ E). apply in_app_iff. auto.
Qed.

Lemma ordered_no_cycle indegree queue ordered v d :
  KahnInv queue indegree ordered ->
  In v ordered -> chain preds v d -> ~ chain preds d d.
Proof.
  intros I Hv C Cd. apply in_split in Hv. destruct Hv as [l1 [l2 E]].
  pose proof (chain_before _ _ _ _ _ I C l1 l2 E) as Hd.
  apply in_split in Hd. destruct Hd as [a [b ->]].
  rewrite <- app_assoc in E. simpl in E.
  pose proof (chain_before _ _ _ _ _ I Cd a _ E) as Hd.
  assert (ND : NoDup ordered).
  { apply (NoDup_app_remove_r _ _ (inv_NoDup _ _ _ _ _ I)). }
  rewrite E in ND. apply NoDup_remove_2 in ND. apply ND. apply in_app_iff. auto.
Qed.

Lemma walk_exists indegree ordered n :
  KahnInv [] indegree ordered ->
  forall v, In v nodes -> ~ In v ordered ->
  exists p, List.length p = n /\ walk ordered v p.
Proof.
  intros I. induction n as [|n IH]; intros v Hv Hn.
  - exists []. simpl. auto.
  - assert (P : pending ordered v <> []).
    { intros E. apply (inv_ready _ _ _ _ _ I v Hv) in E.
      rewrite app_nil_r in E. contradiction. }
    destruct (pending ordered v) as [|u l] eqn:E; [congruence|].
    assert (Hu : In u (pending ordered v)) by (rewrite E; simpl; auto).
    apply pending_In in Hu. destruct Hu as [Hu1 Hu2].
    destruct (IH u (preds_nodes _ _ Hu1) Hu2) as [p [L W]].
    exists (u :: p). simpl. auto.
Qed.

Lemma walk_nodes ordered v p : walk ordered v p -> incl p nodes.
Proof.
  revert v. induction p as [|u p IH]; intros v W x Hx; [destruct Hx|].
  destruct W as [H1 [H2 W]]. destruct Hx as [<-|Hx].
  - eapply preds_nodes; eauto.
  - eapply IH; eauto.
Qed.

Lemma walk_chain ordered v l x : walk ordered v (l ++ [x]) -> chain preds v x.
Proof.
  revert v. induction l as [|u l IH]; intros v W; simpl in W.
  - apply chain_one. tauto.
  - destruct W as [H1 [H2 W]]. eapply chain_more; eauto.
Qed.

Lemma walk_split ordered v l1 x rest :
  walk ordered v (l1 ++ x :: rest) ->
  walk ordered v (l1 ++ [x]) /\ walk ordered x rest.
Proof.
  revert v. induction l1 as [|u l1 IH]; intros v W; simpl in *.
  - tauto.
  - destruct W as [H1 [H2 W]]. apply IH in W. tauto.
Qed.

Lemma unordered_reaches_cycle indegree ordered v :
  KahnInv [] indegree ordered ->
  In v nodes -> ~ In v ordered ->
  exists d, chain preds v d /\ chain preds d d.
Proof.
  intros I Hv Hn.
  destruct (walk_exists indegree ordered (S (List.length nodes)) I v Hv Hn)
    as [p [L W]].
  assert (N : ~ NoDup p).
  { intros ND. pose proof (NoDup_incl_length ND (walk_nodes _ _ _ W)). lia. }
  apply repeated_element in N. destruct N as [x [l1 [l2 [l3 ->]]]].
  apply walk_split in W. destruct W as [W1 W2].
  apply walk_split in W2. destruct W2 as [W2 _].
  exists x. split; eapply walk_chain; eauto.
Qed.

End Kahn.

(** ** Trees and their dependencies *)

Lemma FormulaNode_induction (P : FormulaNode -> Prop) :
  (forall value, P (NNumber value)) ->
  (forall ref, P (NCell ref)) ->
  (forall op lhs rhs, P lhs -> P rhs -> P (NBinary op lhs rhs)) ->
  (forall op operand, P operand -> P (NUnary op operand)) ->
  (forall name args, Forall P args -> P (NFunction name args)) ->
  (forall start end_, P (NRange start end_)) ->
  forall node, P node.
Proof.
  intros HN HC HB HU HF HR. fix IH 1. intros [v|r|op l r|op o|name args|s e].
  - apply HN.
  - apply HC.
  - apply HB; apply IH.
  - apply HU; apply IH.
  - apply HF. induction args as [|a args IHa]; constructor; [apply IH|apply IHa].
  - apply HR.
Qed.

Lemma add_all_In k keys deps :
  In k (fold_left (fun deps key => JsMap.add key deps) keys deps)
  <-> In k deps \/ In k keys.
Proof.
  revert deps. induction keys as [|a keys IH]; intros deps; simpl; [tauto|].
  rewrite IH, add_In. intuition.
Qed.

Lemma add_all_NoDup keys deps :
  NoDup deps -> NoDup (fold_left (fun deps key => JsMap.add key deps) keys deps).
Proof.
  revert deps. induction keys as [|a keys IH]; intros deps ND; simpl; auto.
  apply IH. now apply add_NoDup.
Qed.

Lemma collect_args_In args k :
  Forall (fun arg => forall deps k,
            In k (collectDependencies arg deps)
            <-> In k deps \/ In k (collectDependencies arg [])) args ->
  forall deps,
    In k (fold_left (fun deps arg => collectDependencies arg deps) args deps)
    <-> In k deps \/ exists arg, In arg args /\ In k (collectDependencies arg []).
Proof.
  induction 1 as [|a args Ha _ IH]; intros deps; simpl.
  - split; [auto|]. intros [H|[arg [[] _]]]. exact H.
  - rewrite IH, Ha. split.
    + intros [[H|H]|[arg [H1 H2]]]; eauto.
    + intros [H|[arg [[<-|H1] H2]]]; eauto.
Qed.

Lemma collectDependencies_In node :
  forall deps k,
    In k (collectDependencies node deps)
    <-> In k deps \/ In k (collectDependencies node []).
Proof.
  induction node as [v|r|op l r IHl IHr|op o IHo|name args IHa|s e]
    using FormulaNode_induction; intros deps k; simpl.
  - tauto.
  - destruct (parseCellRef r); simpl; [|tauto]. rewrite !add_In. simpl.
    intuition congruence.
  - rewrite IHr, IHl, (IHr (collectDependencies l [])). tauto.
  - apply IHo.
  - rewrite (collect_args_In args k IHa deps), (collect_args_In args k IHa []).
    simpl. tauto.
  - rewrite !add_all_In. simpl. tauto.
Qed.

Lemma collectDependencies_NoDup node :
  forall deps, NoDup deps -> NoDup (collectDependencies node deps).
Proof.
  induction node as [v|r|op l r IHl IHr|op o IHo|name args IHa|s e]
    using FormulaNode_induction; intros deps ND; simpl; auto.
  - destruct (parseCellRef r); auto. now apply add_NoDup.
  - revert deps ND. induction IHa as [|a args Ha _ IH]; intros deps ND; simpl; auto.
  - now apply add_all_NoDup.
Qed.

Lemma collectDependencies_args name args k :
  In k (collectDependencies (NFunction name args) [])
  <-> exists arg, In arg args /\ In k (collectDependencies arg []).
Proof.
  simpl. rewrite collect_args_In.
  - simpl. tauto.
  - apply Forall_forall. intros arg _. apply collectDependencies_In.
Qed.

(** ** The graph of a store *)

Lemma edgeList_In formulas c d :
  In (c, d) (edgeList (dependenciesOf formulas))
  <-> exists tree, In (c, tree) formulas /\ In d (collectDependencies tree []).
Proof.
  unfold edgeList, dependenciesOf. rewrite in_flat_map. split.
  - intros [[c0 ds] [H1 H2]]. apply in_map_iff in H1.
    destruct H1 as [[c1 tree] [E H1]]. simpl in *. inversion E; subst.
    apply in_map_iff in H2. destruct H2 as [d0 [E2 H2]]. inversion E2; subst.
    eauto.
  - intros [tree [H1 H2]]. exists (c, collectDependencies tree []). split.
    + apply in_map_iff. exists (c, tree). auto.
    + simpl. apply in_map_iff. eauto.
Qed.

Lemma filter_edges_of (p : string -> bool) k c (l : list string) :
  filter (fun edge => String.eqb (fst edge) c && p (snd edge))
         (map (fun d => (k, d)) l)
  = if String.eqb k c then map (fun d => (k, d)) (filter p l) else [].
Proof.
  induction l as [|d l IH]; simpl.
  - now destruct (String.eqb k c).
  - rewrite IH. destruct (String.eqb k c); simpl; auto. now destruct (p d).
Qed.

Lemma counted_length (p : string -> bool) formulas c :
  NoDup (JsMap.keys formulas) ->
  List.length (filter (fun edge => String.eqb (fst edge) c && p (snd edge))
                      (edgeList (dependenciesOf formulas)))
  = List.length match JsMap.get c formulas with
                | Some tree => filter p (collectDependencies tree [])
                | None => []
                end.
Proof.
  induction formulas as [|[k t] formulas IH]; intros ND; simpl; auto.
  inversion ND; subst. specialize (IH H2).
  change (edgeList (dependenciesOf ((k, t) :: formulas)))
    with (map (fun d => (k, d)) (collectDependencies t [])
          ++ edgeList (dependenciesOf formulas)).
  rewrite filter_app, length_app, filter_edges_of, IH.
  destruct (String.eqb k c) eqn:E.
  - apply String.eqb_eq in E. subst k.
    assert (G : JsMap.get c formulas = None) by now apply get_None.
    rewrite G, length_map. simpl. lia.
  - reflexivity.
Qed.

Lemma precedents_In formulas c d :
  NoDup (JsMap.keys formulas) ->
  (In d (precedents formulas c)
   <-> In d (JsMap.keys formulas) /\
       exists tree, In (c, tree) formulas /\ In d (collectDependencies tree [])).
Proof.
  intros ND. unfold precedents. destruct (JsMap.get c formulas) as [tree|] eqn:G.
  - rewrite filter_In, has_In. split.
    + intros [H1 H2]. split; auto. exists tree. split; auto. now apply get_In_entry.
    + intros [H1 [tree' [H2 H3]]]. apply In_entry_get in H2; auto.
      rewrite G in H2. inversion H2; subst. auto.
  - split; [intros []|]. intros [_ [tree [H _]]].
    apply In_entry_get in H; auto. congruence.
Qed.

Lemma precedents_NoDup formulas c : NoDup (precedents formulas c).
Proof.
  unfold precedents. destruct (JsMap.get c formulas); [|constructor].
  apply NoDup_filter, collectDependencies_NoDup. constructor.
Qed.

Lemma precedents_nodes formulas c d :
  In d (precedents formulas c) -> In d (JsMap.keys formulas).
Proof.
  unfold precedents. destruct (JsMap.get c formulas); [|intros []].
  rewrite filter_In, has_In. tauto.
Qed.

Lemma precedents_reader formulas c d :
  In d (precedents formulas c) -> In c (JsMap.keys formulas).
Proof.
  unfold precedents. destruct (JsMap.get c formulas) eqn:G; [|intros []].
  intros _. apply get_In. eauto.
Qed.

Lemma graph_invariant formulas :
  NoDup (JsMap.keys formulas) ->
  let g := buildGraph formulas (dependenciesOf formulas) in
  JsMap.keys (indegree g) = JsMap.keys formulas /\
  (forall v, In v (JsMap.keys formulas) ->
     JsMap.get v (indegree g)
     = Some (Z.of_nat (List.length (precedents formulas v)))) /\
  (forall u, In u (JsMap.keys formulas) ->
     exists readers,
       JsMap.get u (adjacency g) = Some readers /\ NoDup readers /\
       forall c, In c readers
                 <-> In c (JsMap.keys formulas) /\ In u (precedents formulas c)).
Proof.
  intros ND. cbv zeta. rewrite buildGraph_edges.
  destruct (buildGraph_invariant formulas (edgeList (dependenciesOf formulas)) ND)
    as [K [I A]].
  { intros c d H. apply edgeList_In in H. destruct H as [tree [H _]].
    unfold JsMap.keys. apply in_map_iff. exists (c, tree). auto. }
  split; [exact K|]. split.
  - intros v Hv. rewrite (I v Hv). unfold countedEdges.
    rewrite (counted_length (fun d => JsMap.has d formulas)) by assumption.
    reflexivity.
  - intros u Hu. destruct (A u Hu) as [rs [G [NDr M]]]. exists rs.
    split; [exact G|]. split; [exact NDr|].
    intros c. rewrite M, edgeList_In, precedents_In by assumption. split.
    + intros [tree [H1 H2]]. split; [|eauto].
      unfold JsMap.keys. apply in_map_iff. exists (c, tree). auto.
    + intros [_ [_ H]]. exact H.
Qed.

Lemma addEdge_adjacency_keys formulas cell g dep :
  JsMap.keys (adjacency (addEdge formulas cell g dep)) = JsMap.keys (adjacency g).
Proof.
  unfold addEdge. destruct (JsMap.has dep formulas); simpl; auto.
  destruct (JsMap.get dep (adjacency g)) eqn:G; auto.
  rewrite keys_set. unfold JsMap.has. now rewrite G.
Qed.

Lemma graph_adjacency_keys formulas :
  NoDup (JsMap.keys formulas) ->
  JsMap.keys (adjacency (buildGraph formulas (dependenciesOf formulas)))
  = JsMap.keys formulas.
Proof.
  intros ND. rewrite buildGraph_edges.
  assert (G : forall edges g,
             JsMap.keys (adjacency
               (fold_left (fun g edge => addEdge formulas (fst edge) g (snd edge))
                          edges g))
             = JsMap.keys (adjacency g)).
  { induction edges as [|e edges IH]; intros g; simpl; auto.
    now rewrite IH, addEdge_adjacency_keys. }
  rewrite G. destruct (emptyGraph_spec formulas ND) as [-> _].
  unfold JsMap.keys. rewrite map_map. simpl. apply map_id.
Qed.

(** A key that is no formula cell is no node and no reader in the graph. *)
Lemma graph_without_node formulas k :
  NoDup (JsMap.keys formulas) ->
  ~ In k (JsMap.keys formulas) ->
  let g := buildGraph formulas (dependenciesOf formulas) in
  JsMap.get k (adjacency g) = None /\
  JsMap.get k (indegree g) = None /\
  forall d readers, JsMap.get d (adjacency g) = Some readers -> ~ In k readers.
Proof.
  intros ND N g. destruct (graph_invariant formulas ND) as [K [_ A]].
  fold g in K, A. split; [|split].
  - apply get_None. unfold g. now rewrite graph_adjacency_keys.
  - apply get_None. now rewrite K.
  - intros d readers G H.
    assert (Hd : In d (JsMap.keys formulas)).
    { rewrite <- (graph_adjacency_keys formulas ND). apply get_In. eauto. }
    destruct (A d Hd) as [rs [G' [_ M]]]. fold g in G'. rewrite G in G'.
    inversion G'; subst. apply M in H. tauto.
Qed.

(** The tree of each parsed cell and its dependency set, as the first loop
    stores them. *)
Lemma scan_formulas cells :
  wellFormed cells ->
  formulas (scanCells cells) = parsedCells cells /\
  dependencies (scanCells cells) = dependenciesOf (parsedCells cells) /\
  display (scanCells cells) = literalCells cells /\
  formulaErrors (scanCells cells) = failedCells cells.
Proof. intros WF. rewrite (scanCells_spec cells WF). simpl. auto. Qed.

Lemma schedule_invariant cells :
  wellFormed cells ->
  exists queue indegree,
    KahnInv (JsMap.keys (parsedCells cells)) (precedents (parsedCells cells))
            queue indegree (schedule (scanCells cells)).
Proof.
  intros WF. unfold schedule. destruct (scan_formulas cells WF) as [-> [-> _]].
  pose proof (parsedCells_NoDup cells WF) as ND.
  destruct (graph_invariant _ ND) as [K [I A]].
  apply kahnLoop_invariant.
  - apply precedents_NoDup.
  - exact A.
  - now apply KahnInv_start.
Qed.

Lemma schedule_complete cells :
  wellFormed cells ->
  ~ In "" (JsMap.keys cells) ->
  exists indegree,
    KahnInv (JsMap.keys (parsedCells cells)) (precedents (parsedCells cells))
            [] indegree (schedule (scanCells cells)).
Proof.
  intros WF NE. unfold schedule. destruct (scan_formulas cells WF) as [-> [-> _]].
  pose proof (parsedCells_NoDup cells WF) as ND.
  destruct (graph_invariant _ ND) as [K [I A]].
  apply kahnLoop_complete.
  - apply precedents_NoDup.
  - exact A.
  - intros v Hv ->. apply NE. now apply parsedCells_keys.
  - now apply KahnInv_start.
  - unfold JsMap.keys. rewrite length_map. simpl. lia.
Qed.

(** The fuel [schedule] gives the Kahn loop is enough: with any more the
    order is the same. *)
Lemma kahnLoop_fuel cells extra :
  wellFormed cells ->
  let s := scanCells cells in
  let g := buildGraph (formulas s) (dependencies s) in
  kahnLoop (List.length (formulas s) + extra) (adjacency g)
           (seedQueue (indegree g)) (indegree g) []
  = schedule s.
Proof.
  intros WF. cbv zeta. unfold schedule.
  destruct (scan_formulas cells WF) as [-> [-> _]].
  pose proof (parsedCells_NoDup cells WF) as ND.
  destruct (graph_invariant _ ND) as [K [I A]].
  apply kahnLoop_enough
    with (nodes := JsMap.keys (parsedCells cells))
         (preds := precedents (parsedCells cells)).
  - apply precedents_NoDup.
  - exact A.
  - now apply KahnInv_start.
  - unfold JsMap.keys. rewrite length_map. simpl. lia.
Qed.

Lemma schedule_nodes cells k :
  wellFormed cells ->
  In k (schedule (scanCells cells)) -> In k (JsMap.keys (parsedCells cells)).
Proof.
  intros WF H. destruct (schedule_invariant cells WF) as [q [ind I]].
  apply (inv_nodes _ _ _ _ _ I). apply in_app_iff. auto.
Qed.

Lemma schedule_NoDup cells : wellFormed cells -> NoDup (schedule (scanCells cells)).
Proof.
  intros WF. destruct (schedule_invariant cells WF) as [q [ind I]].
  apply (NoDup_app_remove_r _ _ (inv_NoDup _ _ _ _ _ I)).
Qed.

Lemma schedule_before cells l1 k l2 d :
  wellFormed cells ->
  schedule (scanCells cells) = l1 ++ k :: l2 ->
  In d (precedents (parsedCells cells) k) -> In d l1.
Proof.
  intros WF E H. destruct (schedule_invariant cells WF) as [q [ind I]].
  now apply (inv_before _ _ _ _ _ I l1 k l2 E).
Qed.

Lemma onCycle_reachesCycle cells k : onCycle cells k -> reachesCycle cells k.
Proof. intros H. now left. Qed.

(** A scheduled cell reaches no cycle. *)
Lemma scheduled_acyclic cells k :
  wellFormed cells ->
  In k (schedule (scanCells cells)) -> ~ reachesCycle cells k.
Proof.
  intros WF H. destruct (schedule_invariant cells WF) as [q [ind I]].
  intros [C|[d [C Cd]]].
  - exact (ordered_no_cycle _ _ _ _ _ _ _ I H C C).
  - exact (ordered_no_cycle _ _ _ _ _ _ _ I H C Cd).
Qed.

(** A parsed cell left out of the order reaches a cycle. *)
Lemma unscheduled_cyclic cells k :
  wellFormed cells ->
  ~ In "" (JsMap.keys cells) ->
  In k (JsMap.keys (parsedCells cells)) ->
  ~ In k (schedule (scanCells cells)) ->
  reachesCycle cells k.
Proof.
  intros WF NE Hk Hn. destruct (schedule_complete cells WF NE) as [ind I].
  right. eapply unordered_reaches_cycle; eauto.
  apply precedents_nodes.
Qed.

(** ** The evaluation pass *)

Lemma flat_map_ext_Forall {A B : Type} (f g : A -> list B) l :
  Forall (fun a => f a = g a) l -> flat_map f l = flat_map g l.
Proof. induction 1 as [|a l H _ IH]; simpl; congruence. Qed.

(** The evaluator reads the store at the dependencies of the tree only. *)
Lemma evaluateNode_ext node :
  forall g g' : string -> FormulaValue,
    (forall key, In key (collectDependencies node []) -> g key = g' key) ->
    evaluateNode node g = evaluateNode node g'.
Proof.
  induction node as [v|r|op l r IHl IHr|op o IHo|name args IHa|s e]
    using FormulaNode_induction; intros g g' H; simpl.
  - reflexivity.
  - simpl in H. destruct (parseCellRef r) as [c|]; auto.
    rewrite H; auto. simpl. auto.
  - rewrite (IHl g g'), (IHr g g'); auto.
    + intros key Hk. apply H. simpl. apply collectDependencies_In. auto.
    + intros key Hk. apply H. simpl. apply collectDependencies_In. auto.
  - rewrite (IHo g g'); auto.
  - f_equal. f_equal. f_equal. f_equal. apply flat_map_ext_Forall.
    rewrite Forall_forall in *. intros arg Ha. rewrite (IHa arg Ha g g'); auto.
    intros key Hk. apply H. apply collectDependencies_args. eauto.
  - f_equal. apply map_ext_in. intros key Hk. apply H. simpl.
    apply add_all_In. auto.
Qed.

Lemma evaluateCell_keys cells s computed key x :
  In x (JsMap.keys (evaluateCell cells s computed key))
  <-> x = key \/ In x (JsMap.keys computed).
Proof.
  unfold evaluateCell. destruct (JsMap.mem key (formulaErrors s)).
  - apply keys_set_In.
  - destruct (JsMap.get key (formulas s)); apply keys_set_In.
Qed.

Lemma evaluateCell_other cells s computed key x :
  x <> key ->
  JsMap.get x (evaluateCell cells s computed key) = JsMap.get x computed.
Proof.
  intros N. unfold evaluateCell. destruct (JsMap.mem key (formulaErrors s)).
  - now apply get_set_other.
  - destruct (JsMap.get key (formulas s)); now apply get_set_other.
Qed.

Lemma evaluateCell_NoDup cells s computed key :
  NoDup (JsMap.keys computed) ->
  NoDup (JsMap.keys (evaluateCell cells s computed key)).
Proof.
  intros ND. unfold evaluateCell. destruct (JsMap.mem key (formulaErrors s)).
  - now apply keys_set_NoDup.
  - destruct (JsMap.get key (formulas s)); now apply keys_set_NoDup.
Qed.

Lemma evaluate_fold_keys cells s ordered computed x :
  In x (JsMap.keys (fold_left (evaluateCell cells s) ordered computed))
  <-> In x ordered \/ In x (JsMap.keys computed).
Proof.
  revert computed. induction ordered as [|k ordered IH]; intros computed; simpl.
  - tauto.
  - rewrite IH, evaluateCell_keys. intuition.
Qed.

Lemma evaluate_fold_other cells s ordered computed x :
  ~ In x ordered ->
  JsMap.get x (fold_left (evaluateCell cells s) ordered computed)
  = JsMap.get x computed.
Proof.
  revert computed. induction ordered as [|k ordered IH]; intros computed N; simpl.
  - reflexivity.
  - rewrite IH by (simpl in N; tauto). apply evaluateCell_other.
    intros ->. apply N. simpl. auto.
Qed.

Lemma evaluate_fold_NoDup cells s ordered computed :
  NoDup (JsMap.keys computed) ->
  NoDup (JsMap.keys (fold_left (evaluateCell cells s) ordered computed)).
Proof.
  revert computed. induction ordered as [|k ordered IH]; intros computed ND; simpl; auto.
  apply IH. now apply evaluateCell_NoDup.
Qed.

Lemma evaluateAll_keys cells s ordered x :
  In x (JsMap.keys (evaluateAll cells s ordered)) <-> In x ordered.
Proof. unfold evaluateAll. rewrite evaluate_fold_keys. simpl. tauto. Qed.

(** The value of the cell at position [k] of the order is the one computed
    when the loop reached it. *)
Lemma evaluateAll_at cells s l1 k l2 :
  ~ In k l2 ->
  JsMap.get k (evaluateAll cells s (l1 ++ k :: l2))
  = JsMap.get k (evaluateCell cells s (evaluateAll cells s l1) k).
Proof.
  intros N. unfold evaluateAll. rewrite fold_left_app. simpl.
  now apply evaluate_fold_other.
Qed.

Lemma evaluateAll_prefix cells s l1 l2 x :
  ~ In x l2 ->
  JsMap.get x (evaluateAll cells s (l1 ++ l2)) = JsMap.get x (evaluateAll cells s l1).
Proof.
  intros N. unfold evaluateAll. rewrite fold_left_app.
  now apply evaluate_fold_other.
Qed.

Lemma parsed_not_failed cells k tree :
  wellFormed cells ->
  JsMap.get k (parsedCells cells) = Some tree ->
  JsMap.mem k (failedCells cells) = false.
Proof.
  intros WF G. rewrite failedCells_mem by assumption.
  rewrite parsedCells_get in G by assumption.
  destruct (JsMap.get k cells) as [v|]; auto.
  unfold parseFails. rewrite G. apply andb_false_r.
Qed.

(** Each scheduled cell holds the value of its tree under the final
    lookup: what it read had been computed before it and was not written
    again. *)
Lemma computed_at cells k tree :
  wellFormed cells ->
  In k (schedule (scanCells cells)) ->
  JsMap.get k (parsedCells cells) = Some tree ->
  JsMap.get k (computedValues cells)
  = Some (asFormulaValue (evaluateNode tree (finalLookup cells))).
Proof.
  intros WF Hk G. unfold finalLookup, computedValues.
  pose proof (schedule_NoDup cells WF) as ND.
  apply in_split in Hk. destruct Hk as [l1 [l2 E]].
  rewrite E in *. rewrite evaluateAll_at.
  2:{ apply NoDup_remove_2 in ND. intros H. apply ND. apply in_app_iff. auto. }
  unfold evaluateCell. destruct (scan_formulas cells WF) as [Ef [_ [_ Ee]]].
  rewrite Ee, Ef, (parsed_not_failed cells k tree WF G), G, get_set_same.
  f_equal. f_equal. apply evaluateNode_ext. intros key Hkey.
  unfold getCellValue.
  replace (JsMap.get key (evaluateAll cells (scanCells cells) (l1 ++ k :: l2)))
    with (JsMap.get key (evaluateAll cells (scanCells cells) l1)); auto.
  symmetry. apply evaluateAll_prefix. intros Hin.
  assert (Hs : In key (schedule (scanCells cells))).
  { rewrite E. apply in_app_iff. auto. }
  apply schedule_nodes in Hs; auto.
  assert (Hp : In key (precedents (parsedCells cells) k)).
  { unfold precedents. rewrite G. apply filter_In. split; auto. now apply has_In. }
  apply (schedule_before cells l1 k l2 key WF E) in Hp.
  apply in_split in Hp. destruct Hp as [a [b ->]].
  rewrite <- app_assoc in ND. simpl in ND. apply NoDup_remove_2 in ND.
  apply ND. apply in_app_iff. right. apply in_app_iff. auto.
Qed.

Lemma computed_scheduled cells k :
  In k (JsMap.keys (computedValues cells)) <-> In k (schedule (scanCells cells)).
Proof. apply evaluateAll_keys. Qed.

(** ** The last three loops *)

Section FillFacts.
Context {V : Type}.
Implicit Types (dflt : V) (m : list (string * V)).

Lemma fill_get dflt ks m k :
  JsMap.get k (fill dflt ks m)
  = match JsMap.get k m with
    | Some x => Some x
    | None => if JsMap.mem k ks then Some dflt else None
    end.
Proof.
  unfold fill. revert m. induction ks as [|a ks IH]; intros m; simpl.
  - now destruct (JsMap.get k m).
  - rewrite IH. unfold JsMap.has. destruct (String.eqb k a) eqn:E.
    + apply String.eqb_eq in E. subst a.
      destruct (JsMap.get k m) eqn:G; simpl; [now rewrite G|].
      now rewrite get_set_same.
    + apply String.eqb_neq in E. simpl.
      destruct (JsMap.get a m); auto. now rewrite get_set_other.
Qed.

Lemma fill_NoDup dflt ks m :
  NoDup (JsMap.keys m) -> NoDup (JsMap.keys (fill dflt ks m)).
Proof.
  unfold fill. revert m. induction ks as [|a ks IH]; intros m ND; simpl; auto.
  apply IH. destruct (JsMap.has a m); auto. now apply keys_set_NoDup.
Qed.

End FillFacts.

Lemma markCycles_fill formulas computed :
  markCycles formulas computed = fill (VString "#CYCLE") (JsMap.keys formulas) computed.
Proof. reflexivity. Qed.

Lemma markErrors_fill formulaErrors display :
  markErrors formulaErrors display = fill "#ERROR" formulaErrors display.
Proof. reflexivity. Qed.

Lemma publish_get computed display k :
  NoDup (JsMap.keys computed) ->
  JsMap.get k (publish computed display)
  = match JsMap.get k computed with
    | Some v => Some (formatValue v)
    | None => JsMap.get k display
    end.
Proof.
  unfold publish. revert display.
  induction computed as [|[k0 v0] computed IH]; intros display ND; simpl; auto.
  inversion ND; subst. rewrite IH by assumption.
  destruct (String.eqb k0 k) eqn:E.
  - apply String.eqb_eq in E. subst k0.
    assert (G : JsMap.get k computed = None) by now apply get_None.
    rewrite G. apply get_set_same.
  - apply String.eqb_neq in E. destruct (JsMap.get k computed); auto.
    apply get_set_other. congruence.
Qed.

Lemma mem_keys_has {V : Type} k (m : list (string * V)) :
  JsMap.mem k (JsMap.keys m) = JsMap.has k m.
Proof.
  destruct (JsMap.has k m) eqn:H.
  - apply mem_In. now apply has_In.
  - apply mem_false. intros N. apply has_In in N. congruence.
Qed.

(** ** What the engine shows for each key *)

Lemma computedValues_NoDup cells : NoDup (JsMap.keys (computedValues cells)).
Proof. apply evaluate_fold_NoDup. constructor. Qed.

Lemma computed_unscheduled cells k :
  ~ In k (schedule (scanCells cells)) -> JsMap.get k (computedValues cells) = None.
Proof. intros N. apply get_None. now rewrite computed_scheduled. Qed.

Lemma isLiteral_not_formula v : isLiteral v = true -> cellFormula v = None.
Proof.
  unfold isLiteral, cellFormula. now destruct (JsString.startsWithEq v).
Qed.

Lemma parseFails_spec v :
  parseFails v = true <-> isLiteral v = false /\ cellFormula v = None.
Proof.
  unfold parseFails, isLiteral.
  destruct (JsString.startsWithEq v), (cellFormula v); simpl; intuition congruence.
Qed.

Lemma display_get cells k :
  wellFormed cells ->
  JsMap.get k (calculateDisplayCells cells)
  = match JsMap.get k cells with
    | None => None
    | Some v =>
        if isLiteral v then Some v
        else
          match cellFormula v with
          | None => Some "#ERROR"
          | Some tree =>
              if JsMap.mem k (schedule (scanCells cells))
              then Some (formatValue
                           (asFormulaValue (evaluateNode tree (finalLookup cells))))
              else Some "#CYCLE"
          end
    end.
Proof.
  intros WF. unfold calculateDisplayCells, finish.
  destruct (scan_formulas cells WF) as [Ef [_ [Ed Ee]]].
  rewrite markErrors_fill, fill_get, publish_get, markCycles_fill, fill_get,
    mem_keys_has.
  2:{ rewrite markCycles_fill. apply fill_NoDup. apply computedValues_NoDup. }
  fold (computedValues cells). rewrite Ef, Ed, Ee.
  unfold JsMap.has.
  rewrite literalCells_get, parsedCells_get, failedCells_mem by assumption.
  destruct (JsMap.get k cells) as [v|] eqn:G.
  - destruct (isLiteral v) eqn:L.
    + rewrite (isLiteral_not_formula v L).
      rewrite computed_unscheduled; auto.
      intros H. apply schedule_nodes in H; auto. apply get_In in H.
      destruct H as [t H]. rewrite parsedCells_get, G in H by assumption.
      rewrite (isLiteral_not_formula v L) in H. discriminate.
    + destruct (cellFormula v) as [tree|] eqn:C.
      * destruct (JsMap.mem k (schedule (scanCells cells))) eqn:M.
        -- apply mem_In in M. rewrite (computed_at cells k tree); auto.
           rewrite parsedCells_get, G by assumption. exact C.
        -- apply mem_false in M. rewrite computed_unscheduled; auto.
      * rewrite computed_unscheduled.
        -- assert (P : parseFails v = true) by (apply parseFails_spec; auto).
           now rewrite P.
        -- intros H. apply schedule_nodes in H; auto. apply get_In in H.
           destruct H as [t H]. rewrite parsedCells_get, G in H by assumption.
           congruence.
  - rewrite computed_unscheduled; auto.
    intros H. apply schedule_nodes in H; auto. apply get_In in H.
    destruct H as [t H]. rewrite parsedCells_get, G in H by assumption.
    discriminate.
Qed.

(** ** The fuel of the lexer and of the parser is enough *)

Lemma dropWhile_length p cs :
  (List.length (JsString.dropWhile p cs) <= List.length cs)%nat.
Proof.
  induction cs as [|c cs IH]; simpl; auto. destruct (p c); simpl; lia.
Qed.

Lemma tokenizeFrom_any_fuel fuel1 :
  forall fuel2 input,
    (List.length input <= fuel1)%nat -> (List.length input <= fuel2)%nat ->
    tokenizeFrom fuel1 input = tokenizeFrom fuel2 input.
Proof.
  induction fuel1 as [|fuel1 IH]; intros fuel2 input L1 L2.
  - destruct input; [|simpl in L1; lia]. now destruct fuel2.
  - destruct fuel2 as [|fuel2].
    + destruct input; [|simpl in L2; lia]. reflexivity.
    + destruct input as [|char rest]; [reflexivity|]. simpl in L1, L2. simpl.
      pose proof (dropWhile_length isDigitOrDot rest).
      pose proof (dropWhile_length JsString.isAlpha rest).
      pose proof (dropWhile_length JsString.isDigit
                    (JsString.dropWhile JsString.isAlpha rest)).
      repeat match goal with
             | |- context [if ?b then _ else _] => destruct b
             end;
        first [apply IH; lia | f_equal; apply IH; lia].
Qed.

(** The lexer's loop ends by itself: more fuel than the length of the text
    gives the same tokens. *)
Lemma tokenizeFrom_fuel input extra :
  tokenizeFrom (String.length input + extra) (JsString.chars input) = tokenize input.
Proof.
  unfold tokenize. assert (L : List.length (JsString.chars input) = String.length input).
  { unfold JsString.chars. induction input; simpl; auto. }
  apply tokenizeFrom_any_fuel; lia.
Qed.

Lemma matchOperator_length ops ts prev ts' :
  matchOperator ops ts = Some (prev, ts') -> S (List.length ts') = List.length ts.
Proof.
  unfold matchOperator, advance, isAtEnd, peek. destruct ts as [|t ts]; simpl.
  - discriminate.
  - destruct (tokType t); simpl; try discriminate.
    destruct (JsMap.mem (tokValue t) ops); simpl; [|discriminate].
    intros E. now inversion E.
Qed.

Lemma matchType_length t ts prev ts' :
  t <> TEof ->
  matchType t ts = Some (prev, ts') -> S (List.length ts') = List.length ts.
Proof.
  unfold matchType, check, advance, isAtEnd, peek. destruct ts as [|t0 ts]; simpl.
  - destruct t; simpl; congruence.
  - destruct (tokType t0), t; simpl; try discriminate; try congruence;
      intros _ E; now inversion E.
Qed.

Lemma matchParen_length v ts ts' :
  matchParen v ts = Some ts' -> S (List.length ts') = List.length ts.
Proof.
  unfold matchParen, advance, isAtEnd, peek. destruct ts as [|t ts]; simpl.
  - discriminate.
  - destruct (tokType t); simpl; try discriminate.
    destruct (String.eqb (tokValue t) v); simpl; [|discriminate].
    intros E. now inversion E.
Qed.

Lemma advance_length ts : (List.length (advance ts) <= List.length ts)%nat.
Proof.
  unfold advance. destruct (isAtEnd ts); auto. destruct ts; simpl; lia.
Qed.

Lemma Runs_now {A : Type} (a : A) ts n :
  (List.length ts <= n)%nat -> Runs (Some (a, ts)) n.
Proof. intros L. now exists a, ts. Qed.

Lemma Runs_weaken {A : Type} (r : option (A * list Token)) n m :
  Runs r n -> (n <= m)%nat -> Runs r m.
Proof. intros [a [ts [E L]]] H. exists a, ts. split; auto. lia. Qed.

Lemma parser_total fuel : parserTotal fuel.
Proof.
  induction fuel as [|fuel IH].
  - repeat split; intros; lia.
  - destruct IH as (IHe & IHel & IHt & IHtl & IHu & IHp & IHas & IHa).
    repeat split.
    + intros ts L. simpl.
      destruct (IHt ts) as (node & ts1 & -> & L1); [lia|]. simpl.
      eapply Runs_weaken; [apply IHel; lia|lia].
    + intros node ts L. simpl.
      destruct (matchOperator ["+"; "-"] ts) as [[prev ts1]|] eqn:M.
      * apply matchOperator_length in M.
        destruct (IHt ts1) as (rhs & ts2 & -> & L2); [lia|]. simpl.
        destruct node, rhs; try (apply Runs_now; lia).
        eapply Runs_weaken; [apply IHel; lia|lia].
      * apply Runs_now. lia.
    + intros ts L. simpl.
      destruct (IHu ts) as (node & ts1 & -> & L1); [lia|]. simpl.
      eapply Runs_weaken; [apply IHtl; lia|lia].
    + intros node ts L. simpl.
      destruct (matchOperator ["*"; "/"] ts) as [[prev ts1]|] eqn:M.
      * apply matchOperator_length in M.
        destruct (IHu ts1) as (rhs & ts2 & -> & L2); [lia|]. simpl.
        destruct node, rhs; try (apply Runs_now; lia).
        eapply Runs_weaken; [apply IHtl; lia|lia].
      * apply Runs_now. lia.
    + intros ts L. simpl.
      destruct (matchOperator ["+"; "-"] ts) as [[prev ts1]|] eqn:M.
      * apply matchOperator_length in M.
        destruct (IHu ts1) as (operand & ts2 & -> & L2); [lia|]. simpl.
        destruct operand; apply Runs_now; lia.
      * apply IHp. lia.
    + intros ts L. simpl.
      destruct (matchType TNumber ts) as [[prev ts1]|] eqn:M1.
      { apply matchType_length in M1; [|discriminate]. apply Runs_now. lia. }
      destruct (matchType TCell ts) as [[prev ts1]|] eqn:M2.
      { apply matchType_length in M2; [|discriminate]. apply Runs_now. lia. }
      destruct (matchType TIdentifier ts) as [[prev ts1]|] eqn:M3.
      { apply matchType_length in M3; [|discriminate].
        destruct (matchParen "(" ts1) as [ts2|] eqn:M4; [|apply Runs_now; lia].
        apply matchParen_length in M4.
        assert (R : Runs (if checkParen ")" ts2 then Some (Some [], ts2)
                          else parseArguments fuel [] ts2) (List.length ts2)).
        { destruct (checkParen ")" ts2); [apply Runs_now; lia|apply IHas; lia]. }
        destruct R as (args & ts3 & -> & L3). simpl.
        destruct args; [|apply Runs_now; lia].
        destruct (matchParen ")" ts3) as [ts4|] eqn:M5; [|apply Runs_now; lia].
        apply matchParen_length in M5. apply Runs_now. lia. }
      destruct (matchParen "(" ts) as [ts1|] eqn:M4; [|apply Runs_now; lia].
      apply matchParen_length in M4.
      destruct (IHe ts1) as (expr & ts2 & -> & L2); [lia|]. simpl.
      destruct expr; [|apply Runs_now; lia].
      destruct (matchParen ")" ts2) as [ts3|] eqn:M5; [|apply Runs_now; lia].
      apply matchParen_length in M5. apply Runs_now. lia.
    + intros args ts L. simpl.
      destruct (IHa ts) as (arg & ts1 & -> & L1); [lia|]. simpl.
      destruct arg; [|apply Runs_now; lia].
      destruct (matchType TComma ts1) as [[prev ts2]|] eqn:M; [|apply Runs_now; lia].
      apply matchType_length in M; [|discriminate].
      eapply Runs_weaken; [apply IHas; lia|lia].
    + intros ts L. simpl.
      destruct (tokenTypeEqb (tokType (peek ts)) TCell
                && tokenTypeEqb (tokType (peekNext ts)) TColon).
      * pose proof (advance_length ts). pose proof (advance_length (advance ts)).
        destruct (matchType TCell (advance (advance ts))) as [[prev ts1]|] eqn:M.
        -- apply matchType_length in M; [|discriminate]. apply Runs_now. lia.
        -- apply Runs_now. lia.
      * apply IHe. lia.
Qed.

(** The fuel [parseFormula] gives is enough: [parseExpression] returns. *)
Lemma parseExpression_total tokens :
  exists node rest, parseExpression (parseFuel tokens) tokens = Some (node, rest).
Proof.
  destruct (parser_total (parseFuel tokens)) as (H & _).
  destruct (H tokens) as (node & rest & E & _); [unfold parseFuel; lia|]. eauto.
Qed.

Lemma parser_stable fuel : forall fuel', (fuel <= fuel')%nat -> parserStable fuel fuel'.
Proof.
  induction fuel as [|fuel IH]; intros fuel' L.
  - repeat split; intros; discriminate.
  - destruct fuel' as [|fuel']; [lia|].
    destruct (IH fuel' ltac:(lia)) as (IHe & IHel & IHt & IHtl & IHu & IHp & IHas & IHa).
    repeat split.
    + intros ts r. simpl.
      destruct (parseTerm fuel ts) as [[n ts1]|] eqn:E; simpl; [|discriminate].
      rewrite (IHt _ _ E). simpl. apply IHel.
    + intros node ts r. simpl.
      destruct (matchOperator ["+"; "-"] ts) as [[prev ts1]|]; auto.
      destruct (parseTerm fuel ts1) as [[rhs ts2]|] eqn:E; simpl; [|discriminate].
      rewrite (IHt _ _ E). simpl. destruct node, rhs; auto.
    + intros ts r. simpl.
      destruct (parseUnary fuel ts) as [[n ts1]|] eqn:E; simpl; [|discriminate].
      rewrite (IHu _ _ E). simpl. apply IHtl.
    + intros node ts r. simpl.
      destruct (matchOperator ["*"; "/"] ts) as [[prev ts1]|]; auto.
      destruct (parseUnary fuel ts1) as [[rhs ts2]|] eqn:E; simpl; [|discriminate].
      rewrite (IHu _ _ E). simpl. destruct node, rhs; auto.
    + intros ts r. simpl.
      destruct (matchOperator ["+"; "-"] ts) as [[prev ts1]|]; auto.
      destruct (parseUnary fuel ts1) as [[operand ts2]|] eqn:E; simpl; [|discriminate].
      rewrite (IHu _ _ E). simpl. auto.
    + intros ts r. simpl.
      destruct (matchType TNumber ts) as [[prev ts1]|]; auto.
      destruct (matchType TCell ts) as [[prev ts1]|]; auto.
      destruct (matchType TIdentifier ts) as [[prev ts1]|].
      { destruct (matchParen "(" ts1) as [ts2|]; auto.
        destruct (checkParen ")" ts2); auto.
        destruct (parseArguments fuel [] ts2) as [[args ts3]|] eqn:E;
          simpl; [|discriminate].
        rewrite (IHas _ _ _ E). simpl. auto. }
      destruct (matchParen "(" ts) as [ts1|]; auto.
      destruct (parseExpression fuel ts1) as [[expr ts2]|] eqn:E;
        simpl; [|discriminate].
      rewrite (IHe _ _ E). simpl. auto.
    + intros args ts r. simpl.
      destruct (parseArgument fuel ts) as [[arg ts1]|] eqn:E; simpl; [|discriminate].
      rewrite (IHa _ _ E). simpl. destruct arg; auto.
      destruct (matchType TComma ts1) as [[prev ts2]|]; auto.
    + intros ts r. simpl.
      destruct (tokenTypeEqb (tokType (peek ts)) TCell
                && tokenTypeEqb (tokType (peekNext ts)) TColon); auto.
Qed.

(** The parser ends by itself: more fuel than [parseFormula] gives changes
    nothing. *)
Lemma parseExpression_fuel tokens extra :
  parseExpression (parseFuel tokens + extra) tokens
  = parseExpression (parseFuel tokens) tokens.
Proof.
  destruct (parseExpression_total tokens) as [node [rest E]]. rewrite E.
  destruct (parser_stable (parseFuel tokens) (parseFuel tokens + extra)) as (H & _);
    [lia|]. now apply H.
Qed.

(** ** A cell's tree is never a range *)

Lemma noRange_None : noRange None.
Proof. intros n H. discriminate. Qed.

Lemma noRange_Some n : isRange n = false -> noRange (Some n).
Proof. intros H m E. now inversion E; subst. Qed.

Lemma parser_no_range fuel : parserNoRange fuel.
Proof.
  induction fuel as [|fuel IH].
  - repeat split; intros; discriminate.
  - destruct IH as (IHe & IHel & IHt & IHtl & IHu & IHp).
    repeat split.
    + intros ts node ts'. simpl.
      destruct (parseTerm fuel ts) as [[n1 ts1]|] eqn:E; simpl; [|discriminate].
      intros H. eapply IHel; eauto.
    + intros node0 ts node ts'. simpl.
      destruct (matchOperator ["+"; "-"] ts) as [[prev ts1]|].
      * destruct (parseTerm fuel ts1) as [[rhs ts2]|]; simpl; [|discriminate].
        destruct node0, rhs; intros H N;
          try (inversion H; subst; apply noRange_None).
        eapply IHel; eauto. now apply noRange_Some.
      * intros H N. now inversion H; subst.
    + intros ts node ts'. simpl.
      destruct (parseUnary fuel ts) as [[n1 ts1]|] eqn:E; simpl; [|discriminate].
      intros H. eapply IHtl; eauto.
    + intros node0 ts node ts'. simpl.
      destruct (matchOperator ["*"; "/"] ts) as [[prev ts1]|].
      * destruct (parseUnary fuel ts1) as [[rhs ts2]|]; simpl; [|discriminate].
        destruct node0, rhs; intros H N;
          try (inversion H; subst; apply noRange_None).
        eapply IHtl; eauto. now apply noRange_Some.
      * intros H N. now inversion H; subst.
    + intros ts node ts'. simpl.
      destruct (matchOperator ["+"; "-"] ts) as [[prev ts1]|].
      * destruct (parseUnary fuel ts1) as [[operand ts2]|]; simpl; [|discriminate].
        destruct operand; intros H; inversion H; subst;
          [now apply noRange_Some | apply noRange_None].
      * apply IHp.
    + intros ts node ts'. simpl.
      destruct (matchType TNumber ts) as [[prev ts1]|].
      { intros H. inversion H; subst. now apply noRange_Some. }
      destruct (matchType TCell ts) as [[prev ts1]|].
      { intros H. inversion H; subst. now apply noRange_Some. }
      destruct (matchType TIdentifier ts) as [[prev ts1]|].
      { destruct (matchParen "(" ts1) as [ts2|].
        - destruct (if checkParen ")" ts2 then Some (Some [], ts2)
                    else parseArguments fuel [] ts2) as [[args ts3]|];
            simpl; [|discriminate].
          destruct args.
          + destruct (matchParen ")" ts3); intros H; inversion H; subst;
              [now apply noRange_Some | apply noRange_None].
          + intros H. inversion H; subst. apply noRange_None.
        - intros H. inversion H; subst. apply noRange_None. }
      destruct (matchParen "(" ts) as [ts1|].
      * destruct (parseExpression fuel ts1) as [[expr ts2]|] eqn:E;
          simpl; [|discriminate].
        destruct expr as [e|].
        -- destruct (matchParen ")" ts2); intros H; inversion H; subst;
             [|apply noRange_None].
           eapply IHe; eauto.
        -- intros H. inversion H; subst. apply noRange_None.
      * intros H. inversion H; subst. apply noRange_None.
Qed.

Lemma cellFormula_not_range v tree : cellFormula v = Some tree -> isRange tree = false.
Proof.
  unfold cellFormula, parseFormula.
  destruct (JsString.startsWithEq v); [|discriminate].
  destruct (tokenTypeEqb (tokType (peek (tokenize (JsString.slice1 v)))) TEof);
    simpl; [discriminate|].
  destruct (parseExpression _ _) as [[[n|] rest]|] eqn:E; simpl; try discriminate.
  destruct (negb _); simpl; [discriminate|].
  intros H. inversion H; subst.
  destruct (parser_no_range (parseFuel (tokenize (JsString.slice1 v)))) as (He & _).
  eapply He; eauto.
Qed.

(** [parseFormula] never yields a range as the tree of a cell. *)
Lemma parseFormula_not_range tokens tree :
  ast (parseFormula tokens) = Some tree -> isRange tree = false.
Proof.
  unfold parseFormula.
  destruct (tokenTypeEqb (tokType (peek tokens)) TEof); simpl; [discriminate|].
  destruct (parseExpression _ _) as [[[n|] rest]|] eqn:E; simpl; try discriminate.
  destruct (negb _); simpl; [discriminate|].
  intros H. inversion H; subst.
  destruct (parser_no_range (parseFuel tokens)) as (He & _).
  eapply He; eauto.
Qed.

Lemma evaluateNode_single node g :
  isRange node = false -> exists v, evaluateNode node g = One v.
Proof.
  destruct node as [v|r|op l r|op o|name args|s e]; simpl; intros H;
    try discriminate; eauto.
  - destruct (parseCellRef r); eauto.
  - destruct op; eauto. destruct (_ =? _)%float; eauto.
Qed.

(** ** The display map as a whole *)

Lemma distinct_NoDup l : distinct l = true -> NoDup l.
Proof.
  induction l as [|a l IH]; simpl; [constructor|].
  intros H. apply andb_prop in H. destruct H as [H1 H2].
  constructor; auto. apply negb_true_iff in H1. now apply mem_false.
Qed.

Lemma publish_NoDup computed display :
  NoDup (JsMap.keys display) -> NoDup (JsMap.keys (publish computed display)).
Proof.
  unfold publish. revert display.
  induction computed as [|[k v] computed IH]; intros display ND; simpl; auto.
  apply IH. now apply keys_set_NoDup.
Qed.

Lemma display_NoDup cells :
  wellFormed cells -> NoDup (JsMap.keys (calculateDisplayCells cells)).
Proof.
  intros WF. unfold calculateDisplayCells, finish.
  rewrite markErrors_fill. apply fill_NoDup, publish_NoDup.
  destruct (scan_formulas cells WF) as [_ [_ [-> _]]].
  now apply literalCells_NoDup.
Qed.

Lemma display_keys cells k :
  wellFormed cells ->
  (In k (JsMap.keys cells) <-> In k (JsMap.keys (calculateDisplayCells cells))).
Proof.
  intros WF. rewrite <- !get_In, display_get by assumption.
  destruct (JsMap.get k cells) as [v|].
  - split; intros _; [|eauto].
    destruct (isLiteral v); [eauto|].
    destruct (cellFormula v); [|eauto].
    destruct (JsMap.mem k (schedule (scanCells cells))); eauto.
  - split; intros [x H]; discriminate.
Qed.

(** ** A number never formats as [#CYCLE] *)

Lemma digitChar_not_hash d : 0 <= d < 10 -> JsString.digitChar d <> "#"%char.
Proof.
  intros B.
  assert (C : d = 0 \/ d = 1 \/ d = 2 \/ d = 3 \/ d = 4 \/ d = 5 \/ d = 6
              \/ d = 7 \/ d = 8 \/ d = 9) by lia.
  repeat (destruct C as [->|C]; [vm_compute; discriminate|]).
  subst. vm_compute. discriminate.
Qed.

Lemma natDigits_head fuel :
  forall z acc, headNotHash acc -> headNotHash (JsString.natDigits fuel z acc).
Proof.
  induction fuel as [|fuel IH]; intros z acc H; simpl; auto.
  assert (H' : headNotHash (JsString.digitChar (z mod 10) :: acc)).
  { intros c E. simpl in E. inversion E; subst.
    apply digitChar_not_hash. apply Z.mod_pos_bound. lia. }
  destruct (z <? 10); auto.
Qed.

Lemma decimalDigits_head z : headNotHash (JsString.decimalDigits z).
Proof. apply natDigits_head. intros c E. discriminate. Qed.

Lemma layout_head ds k : headNotHash ds -> headNotHash (JsNumber.layout ds k).
Proof.
  intros H. unfold JsNumber.layout.
  destruct (_ && _).
  { destruct ds as [|d ds]; simpl; [|exact H].
    unfold JsNumber.zeros. destruct (Z.to_nat _); simpl; intros c E; inversion E.
    discriminate. }
  destruct (_ && _).
  { destruct ds as [|d ds]; simpl.
    - rewrite firstn_nil. simpl. intros c E. inversion E. discriminate.
    - destruct (Z.to_nat k); simpl.
      + intros c E. inversion E. discriminate.
      + exact H. }
  destruct (_ && _).
  { intros c E. inversion E. discriminate. }
  destruct ds as [|d [|d' ds]]; simpl.
  - intros c E. discriminate.
  - intros c E. apply H. exact E.
  - intros c E. apply H. exact E.
Qed.

Lemma positiveToString_head x m e : headNotHash (JsNumber.positiveToString x m e).
Proof.
  unfold JsNumber.positiveToString.
  destruct (JsNumber.shortest _ _ _ _ _ _) as [s n].
  destruct (s =? 10 ^ n); apply layout_head.
  - intros c E. inversion E. discriminate.
  - apply decimalDigits_head.
Qed.

Lemma toString_not_cycle n : JsNumber.toString n <> "#CYCLE".
Proof.
  unfold JsNumber.toString. destruct (Prim2SF n) as [sign| sign| |sign m e].
  - discriminate.
  - destruct sign; discriminate.
  - discriminate.
  - destruct sign; [discriminate|].
    pose proof (positiveToString_head (abs n) m e) as H.
    destruct (JsNumber.positiveToString (abs n) m e) as [|c cs]; simpl.
    + discriminate.
    + intros E. inversion E. apply (H c); auto.
Qed.

Lemma formatValue_cycle value :
  formatValue value = "#CYCLE" -> value = VString "#CYCLE".
Proof.
  destruct value as [n|s|]; simpl.
  - destruct (JsNumber.isFinite n); [|discriminate].
    intros E. now apply toString_not_cycle in E.
  - now intros ->.
  - discriminate.
Qed.

(** The only tree whose value can be the text [#CYCLE] is a reference to a
    cell whose looked-up value is that text. *)
Lemma evaluateNode_cycle tree g :
  asFormulaValue (evaluateNode tree g) = VString "#CYCLE" ->
  exists ref coords,
    tree = NCell ref /\ parseCellRef ref = Some coords /\
    g (getCellKey (row coords) (col coords)) = VString "#CYCLE".
Proof.
  destruct tree as [v|r|op l r|op o|name args|s e]; simpl; try discriminate.
  - destruct (parseCellRef r) as [c|] eqn:E; simpl; [|discriminate]. eauto.
  - destruct op; simpl; try discriminate.
    destruct (_ =? _)%float; simpl; discriminate.
  - unfold applyFunction.
    repeat (destruct (String.eqb _ _); simpl; try discriminate).
Qed.

Lemma chain_first preds v d : chain preds v d -> exists m, In m (preds v).
Proof. intros [v0 u H|v0 m u H _]; eauto. Qed.

Lemma reachesCycle_parsed cells k :
  reachesCycle cells k -> In k (JsMap.keys (parsedCells cells)).
Proof.
  intros [C|[d [C _]]]; apply chain_first in C; destruct C as [m H];
    eapply precedents_reader; eauto.
Qed.

Lemma scheduled_iff cells k :
  wellFormed cells ->
  ~ In "" (JsMap.keys cells) ->
  (In k (schedule (scanCells cells))
   <-> In k (JsMap.keys (parsedCells cells)) /\ ~ reachesCycle cells k).
Proof.
  intros WF NE. split.
  - intros H. split; [now apply schedule_nodes | now apply scheduled_acyclic].
  - intros [H N]. destruct (in_dec string_dec k (schedule (scanCells cells))); auto.
    exfalso. apply N. now apply unscheduled_cyclic.
Qed.

Lemma parsed_key cells k v :
  wellFormed cells ->
  JsMap.get k cells = Some v ->
  (In k (JsMap.keys (parsedCells cells)) <-> exists tree, cellFormula v = Some tree).
Proof.
  intros WF G. rewrite <- get_In, parsedCells_get, G by assumption. tauto.
Qed.

(** ** A store without one of its cells *)

Lemma removeKey_fresh k cells :
  ~ In k (JsMap.keys cells) -> removeKey k cells = cells.
Proof.
  unfold removeKey. induction cells as [|[k0 v0] cells IH]; simpl; auto.
  intros N. destruct (String.eqb k0 k) eqn:E; simpl.
  - apply String.eqb_eq in E. tauto.
  - rewrite IH; tauto.
Qed.

Lemma removeKey_split k v l1 l2 :
  wellFormed (l1 ++ (k, v) :: l2) -> removeKey k (l1 ++ (k, v) :: l2) = l1 ++ l2.
Proof.
  unfold wellFormed, JsMap.keys. rewrite map_app. simpl. intros ND.
  apply NoDup_remove_2 in ND. rewrite in_app_iff in ND.
  unfold removeKey. rewrite filter_app. simpl. rewrite String.eqb_refl. simpl.
  fold (removeKey k l1). fold (removeKey k l2).
  rewrite !removeKey_fresh; tauto.
Qed.

Lemma wellFormed_remove k v l1 l2 :
  wellFormed (l1 ++ (k, v) :: l2) -> wellFormed (l1 ++ l2).
Proof.
  unfold wellFormed, JsMap.keys. rewrite !map_app. simpl. apply NoDup_remove_1.
Qed.

Lemma get_split k (v : string) cells :
  JsMap.get k cells = Some v -> exists l1 l2, cells = l1 ++ (k, v) :: l2.
Proof. intros G. apply get_In_entry in G. now apply in_split. Qed.

Lemma removeKey_get k k' cells :
  k' <> k -> JsMap.get k' (removeKey k cells) = JsMap.get k' cells.
Proof.
  intros N. unfold removeKey. induction cells as [|[k0 v0] cells IH]; simpl; auto.
  destruct (String.eqb k0 k) eqn:E; simpl.
  - apply String.eqb_eq in E. subst k0.
    destruct (String.eqb k k') eqn:E'; auto.
    apply String.eqb_eq in E'. congruence.
  - now rewrite IH.
Qed.

(** Taking a cell whose text does not parse out of the store changes none of
    the collections the graph is built from. *)
Lemma scan_without_failed cells k v :
  wellFormed cells ->
  JsMap.get k cells = Some v ->
  parseFails v = true ->
  wellFormed (removeKey k cells) /\
  literalCells (removeKey k cells) = literalCells cells /\
  parsedCells (removeKey k cells) = parsedCells cells /\
  (forall k', k' <> k ->
     JsMap.mem k' (failedCells (removeKey k cells)) = JsMap.mem k' (failedCells cells)).
Proof.
  intros WF G P. destruct (get_split k v cells G) as [l1 [l2 ->]].
  rewrite (removeKey_split k v l1 l2 WF).
  pose proof (wellFormed_remove k v l1 l2 WF) as WF'.
  apply parseFails_spec in P. destruct P as [L C].
  split; [exact WF'|]. split; [|split].
  - unfold literalCells. rewrite !filter_app. simpl. now rewrite L.
  - unfold parsedCells. rewrite !flat_map_app. simpl. now rewrite C.
  - intros k' N. rewrite !failedCells_mem by assumption.
    rewrite <- (removeKey_split k v l1 l2 WF). now rewrite removeKey_get.
Qed.

Lemma evaluateAll_same cells s s' ordered :
  formulas s' = formulas s ->
  display s' = display s ->
  (forall key, In key ordered ->
     JsMap.mem key (formulaErrors s') = JsMap.mem key (formulaErrors s)) ->
  evaluateAll cells s' ordered = evaluateAll cells s ordered.
Proof.
  intros Ef Ed. unfold evaluateAll. generalize (@nil (string * FormulaValue)).
  induction ordered as [|key ordered IH]; intros computed H; simpl; auto.
  rewrite IH by (intros; apply H; simpl; auto). f_equal.
  unfold evaluateCell. rewrite Ef, Ed, (H key) by (simpl; auto). reflexivity.
Qed.

Section WithoutFailed.

Variable cells : list (string * string).
Variable k v : string.
Hypothesis WF : wellFormed cells.
Hypothesis stored : JsMap.get k cells = Some v.
Hypothesis failed : parseFails v = true.

Let bare := removeKey k cells.

Lemma bare_scan :
  wellFormed bare /\
  formulas (scanCells bare) = formulas (scanCells cells) /\
  dependencies (scanCells bare) = dependencies (scanCells cells) /\
  display (scanCells bare) = display (scanCells cells) /\
  (forall k', k' <> k ->
     JsMap.mem k' (formulaErrors (scanCells bare))
     = JsMap.mem k' (formulaErrors (scanCells cells))).
Proof.
  destruct (scan_without_failed cells k v WF stored failed) as [WF' [L [P F]]].
  fold bare in WF', L, P, F.
  rewrite (scanCells_spec bare WF'), (scanCells_spec cells WF). simpl.
  rewrite L, P. auto.
Qed.

Lemma bare_schedule : schedule (scanCells bare) = schedule (scanCells cells).
Proof.
  destruct bare_scan as [_ [Ef [Ed _]]]. unfold schedule. now rewrite Ef, Ed.
Qed.

Lemma bare_parsed : parsedCells bare = parsedCells cells.
Proof.
  destruct (scan_without_failed cells k v WF stored failed) as [_ [_ [P _]]].
  exact P.
Qed.

Lemma failed_not_parsed : ~ In k (JsMap.keys (parsedCells cells)).
Proof.
  rewrite (parsed_key cells k v WF stored). intros [tree C].
  apply parseFails_spec in failed. destruct failed as [_ C']. congruence.
Qed.

Lemma failed_not_scheduled : ~ In k (schedule (scanCells cells)).
Proof. intros H. apply failed_not_parsed. now apply schedule_nodes. Qed.

(** The lookups of the two stores agree away from [k], once the computed
    values do. *)
Lemma bare_lookup_tiers e :
  e <> k ->
  JsMap.get e (computedValues cells) = JsMap.get e (computedValues bare) ->
  finalLookup cells e = finalLookup bare e.
Proof.
  intros N E. unfold finalLookup, getCellValue. rewrite <- E.
  destruct bare_scan as [_ [_ [_ [-> _]]]].
  unfold bare. now rewrite removeKey_get.
Qed.

Lemma bare_computed l1 :
  forall l2, schedule (scanCells cells) = l1 ++ l2 ->
  forall d, In d l1 -> ~ dependsOn cells d k ->
  JsMap.get d (computedValues cells) = JsMap.get d (computedValues bare).
Proof.
  destruct bare_scan as [WF' _].
  induction l1 as [|x l1 IH] using rev_ind; intros l2 E d Hd Clean;
    [destruct Hd|].
  rewrite <- app_assoc in E. simpl in E.
  apply in_app_iff in Hd. destruct Hd as [Hd|[<-|[]]].
  { now apply (IH (x :: l2)). }
  assert (Hx : In x (schedule (scanCells cells))).
  { rewrite E. apply in_app_iff. simpl. auto. }
  pose proof (schedule_nodes cells x WF Hx) as Px.
  apply get_In in Px. destruct Px as [tree G].
  rewrite (computed_at cells x tree WF Hx G).
  rewrite (computed_at bare x tree WF').
  2:{ now rewrite bare_schedule. }
  2:{ now rewrite bare_parsed. }
  f_equal. f_equal. apply evaluateNode_ext. intros e He.
  assert (Ne : e <> k).
  { intros ->. apply Clean. apply dependsDirectly. exists tree. auto. }
  apply bare_lookup_tiers; auto.
  destruct (in_dec string_dec e (schedule (scanCells cells))) as [S|S].
  - apply (IH (x :: l2)); auto.
    + apply (schedule_before cells l1 x l2 e WF E).
      unfold precedents. rewrite G. apply filter_In. split; auto.
      apply has_In. now apply schedule_nodes.
    + intros D. apply Clean. eapply dependsFurther; eauto. exists tree. auto.
  - rewrite !computed_unscheduled; auto. now rewrite bare_schedule.
Qed.

Lemma bare_lookup e :
  e <> k -> ~ dependsOn cells e k -> finalLookup cells e = finalLookup bare e.
Proof.
  intros N Clean. apply bare_lookup_tiers; auto.
  destruct (in_dec string_dec e (schedule (scanCells cells))) as [S|S].
  - apply (bare_computed (schedule (scanCells cells)) []); auto.
    now rewrite app_nil_r.
  - rewrite !computed_unscheduled; auto. now rewrite bare_schedule.
Qed.

(** A cell that does not depend on [k] shows the same with [k] in the store
    and without it. *)
Lemma bare_display k' :
  k' <> k -> ~ dependsOn cells k' k ->
  JsMap.get k' (calculateDisplayCells cells)
  = JsMap.get k' (calculateDisplayCells bare).
Proof.
  intros N Clean. destruct bare_scan as [WF' _].
  rewrite !display_get by assumption.
  unfold bare at 1. rewrite removeKey_get by assumption.
  destruct (JsMap.get k' cells) as [v'|] eqn:G; auto.
  destruct (isLiteral v'); auto.
  destruct (cellFormula v') as [tree|] eqn:C; auto.
  rewrite bare_schedule.
  destruct (JsMap.mem k' (schedule (scanCells cells))); auto.
  f_equal. f_equal. f_equal. apply evaluateNode_ext. intros e He.
  assert (Gp : JsMap.get k' (parsedCells cells) = Some tree).
  { now rewrite parsedCells_get, G. }
  apply bare_lookup.
  - intros ->. apply Clean. apply dependsDirectly. exists tree. auto.
  - intros D. apply Clean. eapply dependsFurther; eauto. exists tree. auto.
Qed.

(** Whatever a cell reads, it shows what the remaining loops give on the
    collections of the store without [k]. *)
Lemma bare_finish k' :
  k' <> k ->
  JsMap.get k' (calculateDisplayCells cells)
  = JsMap.get k' (finish cells (scanCells bare)).
Proof.
  intros N. destruct bare_scan as [_ [Ef [_ [Ed Ee]]]].
  unfold calculateDisplayCells, finish.
  rewrite markErrors_fill, fill_get, markErrors_fill, fill_get.
  rewrite bare_schedule, Ef, Ed, (Ee k' N).
  rewrite (evaluateAll_same cells (scanCells cells) (scanCells bare)); auto.
  intros key Hk. apply Ee. intros ->. now apply failed_not_scheduled.
Qed.

End WithoutFailed.

(** ** Ranges *)

Lemma upto_In z lo hi : In z (upto lo hi) <-> lo <= z <= hi.
Proof.
  unfold upto. rewrite in_map_iff. split.
  - intros [i [<- H]]. apply in_seq in H. lia.
  - intros H. exists (Z.to_nat (z - lo)). split; [lia|]. apply in_seq. lia.
Qed.

Lemma upto_sorted lo hi : StronglySorted Z.lt (upto lo hi).
Proof.
  unfold upto. generalize (Z.to_nat (hi - lo + 1)) as n. generalize 0%nat as s.
  intros s n. revert s. induction n as [|n IH]; intros s; simpl; constructor.
  - apply IH.
  - apply Forall_forall. intros z H. apply in_map_iff in H.
    destruct H as [i [<- H]]. apply in_seq in H. lia.
Qed.

Lemma StronglySorted_app {A : Type} (R : A -> A -> Prop) l l' :
  StronglySorted R l -> StronglySorted R l' ->
  (forall x y, In x l -> In y l' -> R x y) ->
  StronglySorted R (l ++ l').
Proof.
  induction l as [|a l IH]; intros S S' H; simpl; auto.
  inversion S; subst. constructor.
  - apply IH; auto. intros x y Hx Hy. apply H; simpl; auto.
  - apply Forall_app. split; auto.
    apply Forall_forall. intros y Hy. apply H; simpl; auto.
Qed.

Lemma rectangle_In r c rowStart rowEnd colStart colEnd :
  In (r, c) (rectangle rowStart rowEnd colStart colEnd)
  <-> rowStart <= r <= rowEnd /\ colStart <= c <= colEnd.
Proof. unfold rectangle. now rewrite in_prod_iff, !upto_In. Qed.

Lemma list_prod_sorted rows cols :
  StronglySorted Z.lt rows -> StronglySorted Z.lt cols ->
  StronglySorted rowMajor (list_prod rows cols).
Proof.
  intros Sr Sc. induction Sr as [|r rows Sr IH F]; simpl; [constructor|].
  apply StronglySorted_app; auto.
  - clear -Sc. induction Sc as [|c cols Sc IH F]; simpl; constructor; auto.
    apply Forall_forall. intros [r' c'] H. apply in_map_iff in H.
    destruct H as [c0 [E H]]. inversion E; subst.
    rewrite Forall_forall in F. right. simpl. split; auto.
  - intros [r1 c1] [r2 c2] H1 H2. apply in_map_iff in H1.
    destruct H1 as [c0 [E _]]. inversion E; subst.
    apply in_prod_iff in H2. destruct H2 as [H2 _].
    rewrite Forall_forall in F. left. simpl. auto.
Qed.

Lemma rectangle_sorted rowStart rowEnd colStart colEnd :
  StronglySorted rowMajor (rectangle rowStart rowEnd colStart colEnd).
Proof. apply list_prod_sorted; apply upto_sorted. Qed.

Lemma flat_map_prod {B : Type} (f : Z -> Z -> B) rows cols :
  flat_map (fun r => map (fun c => f r c) cols) rows
  = map (fun p => f (fst p) (snd p)) (list_prod rows cols).
Proof.
  induction rows as [|r rows IH]; simpl; auto.
  rewrite map_app, map_map, IH. reflexivity.
Qed.

Lemma expandRange_swap a b : expandRange a b = expandRange b a.
Proof.
  unfold expandRange. destruct (parseCellRef a) as [ca|], (parseCellRef b) as [cb|]; auto.
  now rewrite (Z.min_comm (row ca)), (Z.max_comm (row ca)),
    (Z.min_comm (col ca)), (Z.max_comm (col ca)).
Qed.

Lemma chain_same_start preds v w d :
  preds v = preds w -> chain preds v d -> chain preds w d.
Proof.
  intros E C. destruct C as [v u H|v m u H C].
  - apply chain_one. now rewrite <- E.
  - eapply chain_more; eauto. now rewrite <- E.
Qed.

Lemma reachesCycle_same_start cells k1 k2 :
  precedents (parsedCells cells) k1 = precedents (parsedCells cells) k2 ->
  reachesCycle cells k1 -> reachesCycle cells k2.
Proof.
  intros E [C|[d [C Cd]]]; right.
  - exists k1. split; auto. eapply chain_same_start; eauto.
  - exists d. split; auto. eapply chain_same_start; eauto.
Qed.

Lemma cellFormula_not_literal v tree : cellFormula v = Some tree -> isLiteral v = false.
Proof.
  unfold cellFormula, isLiteral. destruct (JsString.startsWithEq v); [auto|discriminate].
Qed.

(** Two cells whose trees name the same cells and have the same value under
    every lookup show the same. *)
Lemma same_tree_same_display cells k1 k2 v1 v2 t1 t2 :
  wellFormed cells ->
  ~ In "" (JsMap.keys cells) ->
  JsMap.get k1 cells = Some v1 -> cellFormula v1 = Some t1 ->
  JsMap.get k2 cells = Some v2 -> cellFormula v2 = Some t2 ->
  collectDependencies t1 [] = collectDependencies t2 [] ->
  (forall g, evaluateNode t1 g = evaluateNode t2 g) ->
  JsMap.get k1 (calculateDisplayCells cells)
  = JsMap.get k2 (calculateDisplayCells cells).
Proof.
  intros WF NE G1 C1 G2 C2 Ed Ev.
  rewrite !display_get, G1, G2, C1, C2 by assumption.
  rewrite (cellFormula_not_literal v1 t1 C1), (cellFormula_not_literal v2 t2 C2).
  assert (P : precedents (parsedCells cells) k1 = precedents (parsedCells cells) k2).
  { unfold precedents. rewrite !parsedCells_get, G1, G2, C1, C2 by assumption.
    now rewrite Ed. }
  assert (S : In k1 (schedule (scanCells cells)) <-> In k2 (schedule (scanCells cells))).
  { rewrite !scheduled_iff by assumption.
    assert (P1 : In k1 (JsMap.keys (parsedCells cells))).
    { apply (parsed_key cells k1 v1 WF G1). eauto. }
    assert (P2 : In k2 (JsMap.keys (parsedCells cells))).
    { apply (parsed_key cells k2 v2 WF G2). eauto. }
    split.
    - intros [_ N]. split; [exact P2|]. intros R. apply N.
      apply (reachesCycle_same_start cells k2 k1); auto.
    - intros [_ N]. split; [exact P1|]. intros R. apply N.
      apply (reachesCycle_same_start cells k1 k2); auto. }
  destruct (JsMap.mem k1 (schedule (scanCells cells))) eqn:M1;
    destruct (JsMap.mem k2 (schedule (scanCells cells))) eqn:M2; auto.
  - now rewrite Ev.
  - apply mem_In in M1. apply mem_false in M2. tauto.
  - apply mem_In in M2. apply mem_false in M1. tauto.
Qed.

(** ** The pattern of numeric text *)

Lemma takeWhile_dropWhile p cs :
  JsString.takeWhile p cs ++ JsString.dropWhile p cs = cs.
Proof.
  induction cs as [|c cs IH]; simpl; auto.
  destruct (p c); simpl; auto. now rewrite IH.
Qed.

Lemma takeWhile_all p cs : forallb p (JsString.takeWhile p cs) = true.
Proof.
  induction cs as [|c cs IH]; simpl; auto.
  destruct (p c) eqn:E; simpl; auto. now rewrite E.
Qed.

Lemma run_then_stop p run rest :
  forallb p run = true ->
  match rest with c :: _ => p c = false | [] => True end ->
  JsString.takeWhile p (run ++ rest) = run /\
  JsString.dropWhile p (run ++ rest) = rest.
Proof.
  intros A S. induction run as [|c run IH]; simpl in *.
  - destruct rest as [|c rest]; simpl; auto. now rewrite S.
  - apply andb_prop in A. destruct A as [A1 A2]. rewrite A1.
    destruct (IH A2) as [-> ->]. auto.
Qed.

Lemma digit_not_sign c :
  JsString.isDigit c = true ->
  Ascii.eqb c "-" = false /\ Ascii.eqb c "+" = false /\
  JsString.isWhiteSpace c = false.
Proof.
  destruct c as [[] [] [] [] [] [] [] []]; vm_compute; intros H;
    try discriminate; auto.
Qed.

Lemma nonEmpty_true {A : Type} (l : list A) : nonEmpty l = true <-> l <> [].
Proof. destruct l; simpl; split; congruence. Qed.

Lemma chars_text cs : JsString.chars (JsString.text cs) = cs.
Proof. apply list_ascii_of_string_of_list_ascii. Qed.

Lemma text_chars s : JsString.text (JsString.chars s) = s.
Proof. apply string_of_list_ascii_of_string. Qed.

Lemma NUMBER_RE_test_spec s :
  NUMBER_RE_test s = true
  <-> exists minus whole fraction,
        signedDecimal minus whole fraction (JsString.chars s).
Proof.
  unfold NUMBER_RE_test. set (cs := JsString.chars s). clearbody cs. split.
  - intros H.
    set (body := match cs with
                 | c :: rest => if Ascii.eqb c "-" then rest else cs
                 | [] => cs
                 end) in *.
    assert (Ecs : exists minus : bool,
               cs = (if minus then ["-"%char] else []) ++ body).
    { unfold body. destruct cs as [|c rest]; [now exists false|].
      destruct (Ascii.eqb c "-") eqn:E.
      - apply Ascii.eqb_eq in E. subst c. now exists true.
      - now exists false. }
    destruct Ecs as [minus Ecs].
    apply andb_prop in H. destruct H as [Hw Ht].
    apply nonEmpty_true in Hw.
    pose proof (takeWhile_dropWhile JsString.isDigit body) as Split.
    pose proof (takeWhile_all JsString.isDigit body) as All.
    destruct (JsString.dropWhile JsString.isDigit body) as [|c fraction] eqn:D.
    + exists minus, (JsString.takeWhile JsString.isDigit body), None.
      unfold signedDecimal, digitRun. simpl. rewrite Split. auto.
    + apply andb_prop in Ht. destruct Ht as [Ht Hf].
      apply andb_prop in Ht. destruct Ht as [Hd Hn].
      apply Ascii.eqb_eq in Hd. subst c. apply nonEmpty_true in Hn.
      exists minus, (JsString.takeWhile JsString.isDigit body), (Some fraction).
      unfold signedDecimal, digitRun. simpl. rewrite Split. auto.
  - intros [minus [whole [fraction [E [[Wn Wd] F]]]]].
    assert (Stop : match fractionTail fraction with
                   | c :: _ => JsString.isDigit c = false
                   | [] => True
                   end).
    { destruct fraction; simpl; auto. }
    destruct (run_then_stop JsString.isDigit whole (fractionTail fraction) Wd Stop)
      as [T D].
    assert (B : match cs with
                | c :: rest => if Ascii.eqb c "-" then rest else cs
                | [] => cs
                end = whole ++ fractionTail fraction).
    { rewrite E. destruct minus; simpl; auto.
      destruct whole as [|d whole]; [congruence|]. simpl.
      simpl in Wd. apply andb_prop in Wd. destruct Wd as [Wd _].
      apply digit_not_sign in Wd. destruct Wd as [-> _]. reflexivity. }
    rewrite B, T, D. apply andb_true_intro. split; [now apply nonEmpty_true|].
    destruct fraction as [digits|]; simpl; auto.
    destruct F as [Fn Fd]. rewrite Fd. apply nonEmpty_true in Fn. now rewrite Fn.
Qed.

(** The number a numeric text reads as: the binary64 value nearest to the
    decimal it spells. *)
Lemma parseFloat_signedDecimal minus whole fraction s :
  signedDecimal minus whole fraction (JsString.chars s) ->
  JsNumber.parseFloat s
  = JsNumber.roundQuotient minus
      (JsString.digitsValue
         (whole ++ match fraction with Some digits => digits | None => [] end))
      (10 ^ Z.of_nat
              (List.length match fraction with Some digits => digits | None => [] end)).
Proof.
  intros [E [[Wn Wd] F]]. unfold JsNumber.parseFloat. rewrite E.
  destruct whole as [|d whole]; [congruence|].
  pose proof Wd as Wd'. simpl in Wd'. apply andb_prop in Wd'.
  destruct Wd' as [Dd _]. destruct (digit_not_sign d Dd) as [Nm [Np Nw]].
  assert (Stop : match fractionTail fraction with
                 | c :: _ => JsString.isDigit c = false
                 | [] => True
                 end).
  { destruct fraction; simpl; auto. }
  destruct (run_then_stop JsString.isDigit (d :: whole) (fractionTail fraction)
              Wd Stop) as [T D].
  assert (Fp : match fractionTail fraction with
               | c :: rest =>
                   if Ascii.eqb c "." then JsString.takeWhile JsString.isDigit rest
                   else []
               | [] => []
               end = match fraction with Some digits => digits | None => [] end).
  { destruct fraction as [digits|]; simpl; auto. destruct F as [_ Fd].
    destruct (run_then_stop JsString.isDigit digits [] Fd I) as [T' _].
    now rewrite app_nil_r in T'. }
  destruct minus.
  - change (JsString.dropWhile JsString.isWhiteSpace
              (["-"%char] ++ (d :: whole) ++ fractionTail fraction))
      with ("-"%char :: (d :: whole) ++ fractionTail fraction).
    cbv iota beta. change (Ascii.eqb "-" "-") with true. cbv iota.
    rewrite T, D, Fp. reflexivity.
  - change ([] ++ (d :: whole) ++ fractionTail fraction)
      with (d :: whole ++ fractionTail fraction).
    change (JsString.dropWhile JsString.isWhiteSpace
              (d :: whole ++ fractionTail fraction))
      with (if JsString.isWhiteSpace d
            then JsString.dropWhile JsString.isWhiteSpace
                   (whole ++ fractionTail fraction)
            else d :: whole ++ fractionTail fraction).
    rewrite Nw. cbv iota beta. rewrite Nm, Np.
    change (d :: whole ++ fractionTail fraction)
      with ((d :: whole) ++ fractionTail fraction).
    rewrite T, D, Fp. reflexivity.
Qed.

(** ** References *)

Lemma alpha_class c :
  JsString.isAlpha c = true ->
  isBlank c = false /\ isOperatorChar c = false /\ isParenChar c = false /\
  Ascii.eqb c "," = false /\ Ascii.eqb c ":" = false /\
  JsString.isDigit c = false /\ Ascii.eqb c "." = false.
Proof.
  destruct c as [[] [] [] [] [] [] [] []]; vm_compute; intros H;
    try discriminate; repeat split.
Qed.

Lemma digit_not_alpha c : JsString.isDigit c = true -> JsString.isAlpha c = false.
Proof.
  destruct c as [[] [] [] [] [] [] [] []]; vm_compute; intros H;
    try discriminate; reflexivity.
Qed.

Lemma run_stop_digit digits :
  digitRun digits ->
  match digits with c :: _ => JsString.isAlpha c = false | [] => True end.
Proof.
  intros [N D]. destruct digits as [|d digits]; auto.
  simpl in D. apply andb_prop in D. destruct D as [D _]. now apply digit_not_alpha.
Qed.

Lemma string_length_text cs : String.length (JsString.text cs) = List.length cs.
Proof. induction cs as [|c cs IH]; simpl; auto. Qed.

(** A run of letters followed by a run of digits is one cell token. *)
Lemma tokenize_reference letters digits :
  letterRun letters -> digitRun digits ->
  tokenize (JsString.text (letters ++ digits))
  = [mkToken TCell (JsString.text (letters ++ digits)); eofToken].
Proof.
  intros [Ln La] Dr. pose proof (run_stop_digit digits Dr) as Stop.
  destruct Dr as [Dn Dd].
  unfold tokenize. rewrite chars_text, string_length_text.
  destruct letters as [|c letters]; [congruence|].
  simpl in La. apply andb_prop in La. destruct La as [Ac La].
  destruct (alpha_class c Ac) as (B & O & P & Cm & Cl & Dg & Dt).
  simpl. rewrite B, O, P, Cm, Cl, Dg, Dt, Ac. simpl.
  destruct (run_then_stop JsString.isAlpha letters digits La Stop) as [T D].
  rewrite T, D.
  destruct (run_then_stop JsString.isDigit digits [] Dd I) as [T' D'].
  rewrite app_nil_r in T', D'. rewrite T', D'.
  destruct digits as [|d digits]; [congruence|].
  f_equal. now destruct (List.length (letters ++ d :: digits)).
Qed.

Lemma parseFormula_reference ref :
  parseFormula [mkToken TCell ref; eofToken] = mkParseResult true (Some (NCell ref)).
Proof. reflexivity. Qed.

Lemma cellFormula_reference letters digits :
  letterRun letters -> digitRun digits ->
  cellFormula (String "=" (JsString.text (letters ++ digits)))
  = Some (NCell (JsString.text (letters ++ digits))).
Proof.
  intros L D. unfold cellFormula. simpl JsString.startsWithEq.
  simpl JsString.slice1. cbv iota.
  rewrite (tokenize_reference letters digits L D), parseFormula_reference.
  reflexivity.
Qed.

Lemma parseCellRef_parts letters digits :
  letterRun letters -> digitRun digits ->
  parseCellRef (JsString.text (letters ++ digits))
  = if (JsString.digitsValue digits - 1 <? 0) || (columnNumber letters - 1 <? 0)
    then None
    else Some (mkCoords (JsString.digitsValue digits - 1) (columnNumber letters - 1)).
Proof.
  intros [Ln La] Dr. pose proof (run_stop_digit digits Dr) as Stop.
  destruct Dr as [Dn Dd]. unfold parseCellRef. rewrite chars_text.
  destruct (run_then_stop JsString.isAlpha letters digits La Stop) as [T D].
  rewrite T, D, Dd.
  apply nonEmpty_true in Ln. apply nonEmpty_true in Dn. rewrite Ln, Dn.
  reflexivity.
Qed.

Lemma no_precedents_scheduled cells k v tree :
  wellFormed cells ->
  ~ In "" (JsMap.keys cells) ->
  JsMap.get k cells = Some v ->
  cellFormula v = Some tree ->
  collectDependencies tree [] = [] ->
  In k (schedule (scanCells cells)) /\ forall d, ~ reads cells k d.
Proof.
  intros WF NE G C E.
  assert (P : precedents (parsedCells cells) k = []).
  { unfold precedents. rewrite parsedCells_get, G, C, E by assumption. reflexivity. }
  split.
  - apply scheduled_iff; auto. split.
    + apply (parsed_key cells k v WF G). eauto.
    + intros [R|[d [R _]]]; apply chain_first in R; destruct R as [m R];
        rewrite P in R; destruct R.
  - intros d R. unfold reads in R. rewrite P in R. destruct R.
Qed.

(** ** The order of insertion does not show *)

Lemma chain_ext preds preds' v d :
  (forall x, preds x = preds' x) -> chain preds v d -> chain preds' v d.
Proof.
  intros E C. induction C as [v u H|v m u H C IH].
  - apply chain_one. now rewrite <- E.
  - eapply chain_more; eauto. now rewrite <- E.
Qed.

Section SameMapping.

Variables cells cells' : list (string * string).
Hypothesis WF : wellFormed cells.
Hypothesis WF' : wellFormed cells'.
Hypothesis same : sameMapping cells cells'.

Lemma same_parsed k :
  JsMap.get k (parsedCells cells) = JsMap.get k (parsedCells cells').
Proof. now rewrite !parsedCells_get, same. Qed.

Lemma same_literal k :
  JsMap.get k (literalCells cells) = JsMap.get k (literalCells cells').
Proof. now rewrite !literalCells_get, same. Qed.

Lemma same_precedents k :
  precedents (parsedCells cells) k = precedents (parsedCells cells') k.
Proof.
  unfold precedents. rewrite same_parsed.
  destruct (JsMap.get k (parsedCells cells')); auto.
  apply filter_ext. intros d. unfold JsMap.has. now rewrite same_parsed.
Qed.

Lemma same_reachesCycle k : reachesCycle cells k -> reachesCycle cells' k.
Proof.
  assert (C : forall v d, readsThrough cells v d -> readsThrough cells' v d).
  { intros v d. apply chain_ext. exact same_precedents. }
  intros [R|[d [R Rd]]].
  - left. now apply C.
  - right. exists d. split; now apply C.
Qed.

Lemma same_keys k : In k (JsMap.keys cells) <-> In k (JsMap.keys cells').
Proof. now rewrite <- !get_In, same. Qed.

End SameMapping.

Lemma sameMapping_sym cells cells' : sameMapping cells cells' -> sameMapping cells' cells.
Proof. intros H k. symmetry. apply H. Qed.

Section SameDisplay.

Variables cells cells' : list (string * string).
Hypothesis WF : wellFormed cells.
Hypothesis WF' : wellFormed cells'.
Hypothesis same : sameMapping cells cells'.
Hypothesis keyed : ~ In "" (JsMap.keys cells).

Lemma same_scheduled k :
  In k (schedule (scanCells cells)) <-> In k (schedule (scanCells cells')).
Proof.
  assert (keyed' : ~ In "" (JsMap.keys cells')).
  { now rewrite <- (same_keys cells cells' same). }
  rewrite !scheduled_iff, <- !get_In by assumption.
  rewrite (same_parsed cells cells' WF WF' same). split.
  - intros [P N]. split; auto. intros R. apply N.
    apply (same_reachesCycle cells' cells); auto. now apply sameMapping_sym.
  - intros [P N]. split; auto. intros R. apply N.
    now apply (same_reachesCycle cells cells').
Qed.

Lemma same_lookup_tiers e :
  JsMap.get e (computedValues cells) = JsMap.get e (computedValues cells') ->
  finalLookup cells e = finalLookup cells' e.
Proof.
  intros E. unfold finalLookup, getCellValue. rewrite <- E.
  destruct (scan_formulas cells WF) as [_ [_ [-> _]]].
  destruct (scan_formulas cells' WF') as [_ [_ [-> _]]].
  now rewrite (same_literal cells cells' WF WF' same), same.
Qed.

Lemma same_computed l1 :
  forall l2, schedule (scanCells cells) = l1 ++ l2 ->
  forall d, In d l1 ->
  JsMap.get d (computedValues cells) = JsMap.get d (computedValues cells').
Proof.
  induction l1 as [|x l1 IH] using rev_ind; intros l2 E d Hd; [destruct Hd|].
  rewrite <- app_assoc in E. simpl in E.
  apply in_app_iff in Hd. destruct Hd as [Hd|[<-|[]]].
  { now apply (IH (x :: l2)). }
  assert (Hx : In x (schedule (scanCells cells))).
  { rewrite E. apply in_app_iff. simpl. auto. }
  pose proof (schedule_nodes cells x WF Hx) as Px.
  apply get_In in Px. destruct Px as [tree G].
  rewrite (computed_at cells x tree WF Hx G).
  rewrite (computed_at cells' x tree WF').
  2:{ now apply same_scheduled. }
  2:{ now rewrite <- (same_parsed cells cells' WF WF' same). }
  f_equal. f_equal. apply evaluateNode_ext. intros e He.
  apply same_lookup_tiers.
  destruct (in_dec string_dec e (schedule (scanCells cells))) as [S|S].
  - apply (IH (x :: l2)); auto.
    apply (schedule_before cells l1 x l2 e WF E).
    unfold precedents. rewrite G. apply filter_In. split; auto.
    apply has_In. now apply schedule_nodes.
  - rewrite !computed_unscheduled; auto. now rewrite <- same_scheduled.
Qed.

Lemma same_lookup e : finalLookup cells e = finalLookup cells' e.
Proof.
  apply same_lookup_tiers.
  destruct (in_dec string_dec e (schedule (scanCells cells))) as [S|S].
  - apply (same_computed (schedule (scanCells cells)) []); auto.
    now rewrite app_nil_r.
  - rewrite !computed_unscheduled; auto. now rewrite <- same_scheduled.
Qed.

Lemma same_display k :
  JsMap.get k (calculateDisplayCells cells)
  = JsMap.get k (calculateDisplayCells cells').
Proof.
  rewrite !display_get, <- same by assumption.
  destruct (JsMap.get k cells) as [v|]; auto.
  destruct (isLiteral v); auto.
  destruct (cellFormula v) as [tree|]; auto.
  assert (M : JsMap.mem k (schedule (scanCells cells))
              = JsMap.mem k (schedule (scanCells cells'))).
  { destruct (JsMap.mem k (schedule (scanCells cells'))) eqn:M'.
    - apply mem_In. apply same_scheduled. now apply mem_In.
    - apply mem_false. rewrite same_scheduled. now apply mem_false. }
  rewrite M. destruct (JsMap.mem k (schedule (scanCells cells'))); auto.
  f_equal. f_equal. f_equal. apply evaluateNode_ext. intros e _. apply same_lookup.
Qed.

End SameDisplay.

(** ** References: letters, then digits *)

Lemma letter_index c :
  JsString.isAlpha c = true -> 1 <= JsString.code (JsString.upperChar c) - 64 <= 26.
Proof.
  destruct c as [[] [] [] [] [] [] [] []]; intros H; try discriminate H;
    vm_compute; split; discriminate.
Qed.

Lemma columnNumber_positive letters : letterRun letters -> 1 <= columnNumber letters.
Proof.
  intros [N F]. unfold columnNumber.
  assert (G : forall l acc,
            forallb JsString.isAlpha l = true -> 0 <= acc ->
            acc <= fold_left
                     (fun col c => col * 26 + (JsString.code (JsString.upperChar c) - 64))
                     l acc).
  { induction l as [|c l IH]; intros acc Fl Ha; [simpl; lia|].
    simpl in Fl. apply andb_true_iff in Fl. destruct Fl as [Fc Fl].
    pose proof (letter_index c Fc). cbn [fold_left].
    eapply Z.le_trans; [|apply IH; auto; lia]. lia. }
  destruct letters as [|c l]; [congruence|].
  simpl in F. apply andb_true_iff in F. destruct F as [Fc Fl].
  pose proof (letter_index c Fc). cbn [fold_left].
  eapply Z.le_trans; [|apply G; auto; lia]. lia.
Qed.

Lemma digit_value c : JsString.isDigit c = true -> 0 <= JsString.digitValue c <= 9.
Proof.
  unfold JsString.isDigit, JsString.between, JsString.digitValue. intros H.
  apply andb_true_iff in H. destruct H as [H1 H2]. apply Z.leb_le in H1, H2. lia.
Qed.

Lemma digitsValue_nonneg digits :
  forallb JsString.isDigit digits = true -> 0 <= JsString.digitsValue digits.
Proof.
  unfold JsString.digitsValue.
  assert (G : forall l acc,
            forallb JsString.isDigit l = true -> 0 <= acc ->
            0 <= fold_left (fun acc d => acc * 10 + JsString.digitValue d) l acc).
  { induction l as [|d l IH]; intros acc F Ha; [simpl; lia|].
    simpl in F. apply andb_true_iff in F. destruct F as [Fd F].
    pose proof (digit_value d Fd). cbn [fold_left]. apply IH; auto. lia. }
  intros F. apply G; auto. lia.
Qed.

Lemma reference_resolves letters digits :
  letterRun letters -> digitRun digits ->
  0 <= columnNumber letters - 1 /\
  parseCellRef (JsString.text (letters ++ digits))
  = if JsString.digitsValue digits =? 0 then None
    else Some (mkCoords (JsString.digitsValue digits - 1) (columnNumber letters - 1)).
Proof.
  intros L D. pose proof (columnNumber_positive letters L) as C.
  pose proof (digitsValue_nonneg digits (proj2 D)) as V.
  split; [lia|]. rewrite parseCellRef_parts by assumption.
  replace (columnNumber letters - 1 <? 0) with false by (symmetry; apply Z.ltb_ge; lia).
  rewrite orb_false_r.
  destruct (Z.eqb_spec (JsString.digitsValue digits) 0) as [E|E].
  - rewrite E. reflexivity.
  - replace (JsString.digitsValue digits - 1 <? 0) with false
      by (symmetry; apply Z.ltb_ge; lia).
    reflexivity.
Qed.

Lemma columnNumber_snoc letters c :
  columnNumber (letters ++ [c])
  = columnNumber letters * 26 + (JsString.code (JsString.upperChar c) - 64).
Proof. unfold columnNumber. now rewrite fold_left_app. Qed.

Lemma columnNumber_nonneg letters :
  forallb JsString.isAlpha letters = true -> 0 <= columnNumber letters.
Proof.
  destruct letters as [|c letters]; [intros _; cbn; lia|]. intros F.
  assert (L : letterRun (c :: letters)) by (split; [discriminate|exact F]).
  pose proof (columnNumber_positive _ L). lia.
Qed.

(** ** Whole numbers below 2^53 as binary64 values *)

Lemma digits2_log2 p : Z.pos (digits2_pos p) = Z.log2 (Z.pos p) + 1.
Proof.
  assert (E : forall q, digits2_pos q = Pos.size q).
  { induction q; simpl; congruence. }
  rewrite E. destruct p; simpl; lia.
Qed.

Lemma iter_pos_nat {A : Type} (f : A -> A) p :
  forall x, iter_pos f p x = Nat.iter (Pos.to_nat p) f x.
Proof.
  induction p as [p IH|p IH|]; intros x; cbn [iter_pos].
  - rewrite !IH, Pos2Nat.inj_xI.
    replace (S (2 * Pos.to_nat p)) with (Pos.to_nat p + Pos.to_nat p + 1)%nat by lia.
    rewrite !Nat.iter_add. reflexivity.
  - rewrite !IH, Pos2Nat.inj_xO.
    replace (2 * Pos.to_nat p)%nat with (Pos.to_nat p + Pos.to_nat p)%nat by lia.
    rewrite Nat.iter_add. reflexivity.
  - reflexivity.
Qed.

Lemma shr_exact j :
  forall m, 0 < m ->
  Nat.iter j shr_1 (Build_shr_record (m * 2 ^ Z.of_nat j) false false)
  = Build_shr_record m false false.
Proof.
  induction j as [|j IH]; intros m Hm.
  - simpl. now rewrite Z.mul_1_r.
  - rewrite Nat.iter_succ_r.
    replace (m * 2 ^ Z.of_nat (S j)) with (2 * (m * 2 ^ Z.of_nat j)).
    2:{ rewrite Nat2Z.inj_succ, Z.pow_succ_r by lia. ring. }
    assert (P : 0 < m * 2 ^ Z.of_nat j) by (apply Z.mul_pos_pos; lia).
    destruct (m * 2 ^ Z.of_nat j) as [|p|p] eqn:E; try lia.
    simpl. rewrite <- E. now apply IH.
Qed.

Lemma fexp_small d : 1 <= d <= 53 -> fexp prec emax d = d - 53.
Proof. unfold fexp, emin, prec, emax. lia. Qed.

Lemma normalize_exact (n : positive) k :
  let d := Z.log2 (Z.pos n) + 1 in
  d <= 53 -> 53 - d <= k ->
  binary_normalize prec emax (Z.pos n * 2 ^ k) (- k) false
  = S754_finite false (Z.to_pos (Z.pos n * 2 ^ (53 - d))) (d - 53).
Proof.
  intros d Hd Hk.
  assert (D1 : 1 <= d) by (pose proof (Z.log2_nonneg (Z.pos n)); lia).
  assert (K : 0 <= k) by lia.
  assert (P : 0 < Z.pos n * 2 ^ k) by (apply Z.mul_pos_pos; lia).
  destruct (Z.pos n * 2 ^ k) as [|mx|mx] eqn:M; try lia.
  assert (Dm : Z.pos (digits2_pos mx) = d + k).
  { rewrite digits2_log2, <- M, Z.log2_mul_pow2 by lia. unfold d. lia. }
  unfold binary_normalize, binary_round. rewrite Dm.
  replace (d + k + - k) with d by lia. rewrite fexp_small by lia.
  assert (A : shl_align mx (- k) (d - 53) = (mx, - k)).
  { unfold shl_align. destruct (d - 53 - - k) eqn:E; auto; lia. }
  rewrite A. unfold binary_round_aux, shr_fexp. cbn [Zdigits2]. rewrite Dm.
  replace (d + k + - k) with d by lia. rewrite fexp_small by lia.
  set (m' := Z.pos n * 2 ^ (53 - d)).
  assert (P' : 0 < m') by (apply Z.mul_pos_pos; lia).
  assert (S1 : shr (shr_record_of_loc (Z.pos mx) loc_Exact) (- k) (d - 53 - - k)
               = (Build_shr_record m' false false, d - 53)).
  { unfold shr. cbn [shr_record_of_loc].
    destruct (d - 53 - - k) as [|sh|sh] eqn:E; try lia.
    - f_equal; [|lia]. f_equal. unfold m'. rewrite <- M. f_equal. f_equal. lia.
    - f_equal; [|lia]. rewrite iter_pos_nat.
      replace (Z.pos mx) with (m' * 2 ^ Z.of_nat (Pos.to_nat sh)).
      + now apply shr_exact.
      + rewrite <- M. unfold m'. rewrite <- Z.mul_assoc, <- Z.pow_add_r by lia.
        f_equal. f_equal. lia. }
  rewrite S1. cbn [shr_m loc_of_shr_record round_nearest_even].
  destruct m' as [|pm|pm] eqn:Em; try lia.
  cbn [Zdigits2].
  assert (Dp : Z.pos (digits2_pos pm) = 53).
  { rewrite digits2_log2, <- Em. unfold m'.
    rewrite Z.log2_mul_pow2 by lia. unfold d. lia. }
  rewrite Dp. replace (53 + (d - 53)) with d by lia. rewrite fexp_small by lia.
  replace (d - 53 - (d - 53)) with 0 by lia. cbn [shr shr_record_of_loc shr_m].
  assert (L : (d - 53 <=? emax - prec) = true).
  { apply Z.leb_le. unfold emax, prec. lia. }
  rewrite L. reflexivity.
Qed.

Lemma wholeSF_valid r : 0 <= r < 2 ^ 53 -> valid_binary (wholeSF r) = true.
Proof.
  intros H. unfold wholeSF. destruct (r =? 0) eqn:E; [reflexivity|].
  apply Z.eqb_neq in E. assert (P : 0 < r) by lia.
  assert (L : Z.log2 r < 53) by (apply Z.log2_lt_pow2; lia).
  pose proof (Z.log2_nonneg r) as L0.
  assert (P' : 0 < r * 2 ^ (52 - Z.log2 r)) by (apply Z.mul_pos_pos; lia).
  cbn [valid_binary]. unfold bounded, canonical_mantissa.
  rewrite digits2_log2, Z2Pos.id, Z.log2_mul_pow2 by lia.
  replace (52 - Z.log2 r + Z.log2 r + 1 + (Z.log2 r - 52)) with (Z.log2 r + 1) by lia.
  rewrite fexp_small by lia.
  apply andb_true_iff. split; [apply Z.eqb_eq; lia|].
  apply Z.leb_le. unfold emax, prec. lia.
Qed.

Lemma whole_SF r : 0 <= r < 2 ^ 53 -> Prim2SF (whole r) = wholeSF r.
Proof.
  intros H. unfold whole, wholeSF, JsNumber.roundQuotient.
  destruct (r =? 0) eqn:E; [reflexivity|].
  apply Z.eqb_neq in E. assert (P : 0 < r) by lia.
  assert (L : Z.log2 r < 53) by (apply Z.log2_lt_pow2; lia).
  pose proof (Z.log2_nonneg r) as L0.
  change (Z.log2 1) with 0.
  replace (Z.max 0 (64 + 0 - Z.log2 r)) with (64 - Z.log2 r) by lia.
  set (s := 64 - Z.log2 r).
  destruct (Z.div_eucl (Z.shiftl r s) 1) as [q m] eqn:D.
  assert (Q : q = r * 2 ^ s).
  { change q with (fst (q, m)). rewrite <- D. change (fst (Z.div_eucl ?a ?b)) with (a / b).
    rewrite Z.div_1_r, Z.shiftl_mul_pow2; unfold s; lia. }
  assert (R : m = 0).
  { change m with (snd (q, m)). rewrite <- D.
    change (snd (Z.div_eucl ?a ?b)) with (a mod b). apply Z.mod_1_r. }
  subst q m. cbn [Z.eqb].
  replace (2 * (r * 2 ^ s) + 0) with (r * 2 ^ (s + 1)).
  2:{ rewrite Z.pow_add_r by (unfold s; lia). ring. }
  replace (- s - 1) with (- (s + 1)) by lia.
  destruct r as [|n|n]; try lia.
  rewrite normalize_exact by (unfold s; lia).
  replace (53 - (Z.log2 (Z.pos n) + 1)) with (52 - Z.log2 (Z.pos n)) by lia.
  replace (Z.log2 (Z.pos n) + 1 - 53) with (Z.log2 (Z.pos n) - 52) by lia.
  apply Prim2SF_SF2Prim.
  pose proof (wholeSF_valid (Z.pos n) H) as V. unfold wholeSF in V.
  now rewrite (proj2 (Z.eqb_neq _ _) E) in V.
Qed.

Lemma whole_finite r : 0 <= r < 2 ^ 53 -> JsNumber.isFinite (whole r) = true.
Proof.
  intros H. unfold JsNumber.isFinite, is_finite, is_nan, is_infinity.
  rewrite !eqb_spec, abs_spec, whole_SF by assumption.
  unfold wholeSF. destruct (r =? 0); [reflexivity|].
  cbn [SFabs]. unfold SFeqb. cbn [SFcompare].
  rewrite Z.compare_refl, Pos.compare_cont_refl. reflexivity.
Qed.

Lemma whole_ltb a b :
  0 <= a < 2 ^ 53 -> 0 <= b < 2 ^ 53 -> (whole a <? whole b)%float = (a <? b).
Proof.
  intros Ha Hb. rewrite ltb_spec, !whole_SF by assumption. unfold wholeSF, SFltb.
  destruct (Z.eqb_spec a 0) as [Ea|Ea]; destruct (Z.eqb_spec b 0) as [Eb|Eb];
    cbn [SFcompare].
  - subst. reflexivity.
  - symmetry. apply Z.ltb_lt. lia.
  - symmetry. apply Z.ltb_ge. lia.
  - assert (La : Z.log2 a < 53) by (apply Z.log2_lt_pow2; lia).
    assert (Lb : Z.log2 b < 53) by (apply Z.log2_lt_pow2; lia).
    pose proof (Z.log2_nonneg a). pose proof (Z.log2_nonneg b).
    pose proof (Z.log2_spec a ltac:(lia)) as Sa.
    pose proof (Z.log2_spec b ltac:(lia)) as Sb.
    destruct (Z.compare_spec (Z.log2 a - 52) (Z.log2 b - 52)) as [E|E|E].
    + assert (E' : Z.log2 a = Z.log2 b) by lia.
      rewrite Pos.compare_cont_spec. cbn [Pos.switch_Eq].
      rewrite <- Z2Pos.inj_compare by (apply Z.mul_pos_pos; lia).
      rewrite E'.
      destruct (Z.compare_spec (a * 2 ^ (52 - Z.log2 b)) (b * 2 ^ (52 - Z.log2 b)))
        as [C|C|C]; symmetry.
      * apply Z.ltb_ge. apply Z.mul_cancel_r in C; lia.
      * apply Z.ltb_lt. apply Z.mul_lt_mono_pos_r in C; lia.
      * apply Z.ltb_ge. apply Z.mul_lt_mono_pos_r in C; lia.
    + symmetry. apply Z.ltb_lt.
      assert (2 ^ (Z.log2 a + 1) <= 2 ^ Z.log2 b) by (apply Z.pow_le_mono_r; lia).
      replace (Z.succ (Z.log2 a)) with (Z.log2 a + 1) in Sa by lia. lia.
    + symmetry. apply Z.ltb_ge.
      assert (2 ^ (Z.log2 b + 1) <= 2 ^ Z.log2 a) by (apply Z.pow_le_mono_r; lia).
      replace (Z.succ (Z.log2 b)) with (Z.log2 b + 1) in Sb by lia. lia.
Qed.

Lemma countTo_whole r :
  0 <= r < 2 ^ 53 ->
  Csv.countTo (whole r) = if r <? ARRAY_MAX then Some (upto 0 r) else None.
Proof.
  intros H. unfold Csv.countTo. rewrite whole_SF by assumption. unfold wholeSF.
  destruct (r =? 0) eqn:E.
  - apply Z.eqb_eq in E. now subst.
  - apply Z.eqb_neq in E.
    assert (L : Z.log2 r < 53) by (apply Z.log2_lt_pow2; lia).
    pose proof (Z.log2_nonneg r) as L0.
    assert (F : Csv.floor (Z.to_pos (r * 2 ^ (52 - Z.log2 r))) (Z.log2 r - 52) = r).
    { unfold Csv.floor.
      rewrite Z2Pos.id by (apply Z.mul_pos_pos; lia).
      destruct (0 <=? Z.log2 r - 52) eqn:C.
      - apply Z.leb_le in C. replace (Z.log2 r - 52) with 0 by lia.
        replace (52 - Z.log2 r) with 0 by lia. simpl. lia.
      - replace (- (Z.log2 r - 52)) with (52 - Z.log2 r) by lia.
        apply Z.div_mul. apply Z.pow_nonzero; lia. }
    now rewrite F.
Qed.

(** ** Arithmetic on whole numbers below 2^53 is exact *)

Lemma Prim2SF_eq x y : Prim2SF x = Prim2SF y -> x = y.
Proof. intros E. rewrite <- (SF2Prim_Prim2SF x), <- (SF2Prim_Prim2SF y). now rewrite E. Qed.

Lemma iter_xO m d : Z.pos (Pos.iter xO m d) = Z.pos m * 2 ^ Z.pos d.
Proof.
  assert (G : forall n,
            Z.pos (nat_rect (fun _ => positive) m (fun _ => xO) n)
            = Z.pos m * 2 ^ Z.of_nat n).
  { induction n as [|n IH]; [simpl; lia|].
    cbn [nat_rect]. rewrite Pos2Z.inj_xO, IH, Nat2Z.inj_succ, Z.pow_succ_r by lia.
    ring. }
  rewrite Pos2Nat.inj_iter, G. now rewrite positive_nat_Z.
Qed.

Lemma shl_align_value mx ex ez :
  ez <= ex -> Z.pos (fst (shl_align mx ex ez)) = Z.pos mx * 2 ^ (ex - ez).
Proof.
  intros L. unfold shl_align. destruct (ez - ex) as [|d|d] eqn:E; cbn [fst]; try lia.
  - replace (ex - ez) with 0 by lia. simpl. lia.
  - rewrite iter_xO. f_equal. f_equal. lia.
Qed.

(** The number a positive whole is held as. *)
Lemma wholeSF_pos r :
  0 < r ->
  wholeSF r = S754_finite false (Z.to_pos (r * 2 ^ (52 - Z.log2 r))) (Z.log2 r - 52).
Proof. intros P. unfold wholeSF. now rewrite (proj2 (Z.eqb_neq r 0)) by lia. Qed.

Lemma normalize_whole n k :
  0 < n < 2 ^ 53 -> 52 - Z.log2 n <= k ->
  binary_normalize prec emax (n * 2 ^ k) (- k) false = wholeSF n.
Proof.
  intros H K. destruct n as [|n|n]; try lia.
  assert (L : Z.log2 (Z.pos n) < 53) by (apply Z.log2_lt_pow2; lia).
  rewrite normalize_exact by lia. rewrite wholeSF_pos by lia.
  f_equal; [|lia]. f_equal. f_equal. f_equal. lia.
Qed.

Lemma round_aux_whole n k :
  0 < n < 2 ^ 53 -> 52 - Z.log2 n <= k ->
  binary_round_aux prec emax false (n * 2 ^ k) (- k) loc_Exact = wholeSF n.
Proof.
  intros H K. rewrite <- (normalize_whole n k H K).
  assert (L : Z.log2 n < 53) by (apply Z.log2_lt_pow2; lia).
  pose proof (Z.log2_nonneg n) as L0.
  assert (P : 0 < n * 2 ^ k) by (apply Z.mul_pos_pos; lia).
  destruct (n * 2 ^ k) as [|mx|mx] eqn:M; try lia.
  unfold binary_normalize, binary_round.
  assert (Dm : Z.pos (digits2_pos mx) = Z.log2 n + 1 + k).
  { rewrite digits2_log2, <- M, Z.log2_mul_pow2 by lia. lia. }
  rewrite Dm. replace (Z.log2 n + 1 + k + - k) with (Z.log2 n + 1) by lia.
  rewrite fexp_small by lia.
  unfold shl_align. destruct (Z.log2 n + 1 - 53 - - k) eqn:E; try reflexivity. lia.
Qed.

Lemma normalize_whole_any n k :
  0 < n < 2 ^ 53 -> 0 <= k ->
  binary_normalize prec emax (n * 2 ^ k) (- k) false = wholeSF n.
Proof.
  intros H K.
  destruct (Z_le_gt_dec (52 - Z.log2 n) k) as [G|G]; [now apply normalize_whole|].
  assert (L : Z.log2 n < 53) by (apply Z.log2_lt_pow2; lia).
  pose proof (Z.log2_nonneg n) as L0.
  assert (P : 0 < n * 2 ^ k) by (apply Z.mul_pos_pos; lia).
  destruct (n * 2 ^ k) as [|mx|mx] eqn:M; try lia.
  unfold binary_normalize, binary_round.
  assert (Dm : Z.pos (digits2_pos mx) = Z.log2 n + 1 + k).
  { rewrite digits2_log2, <- M, Z.log2_mul_pow2 by lia. lia. }
  rewrite Dm. replace (Z.log2 n + 1 + k + - k) with (Z.log2 n + 1) by lia.
  rewrite fexp_small by lia.
  unfold shl_align. destruct (Z.log2 n + 1 - 53 - - k) as [|d|d] eqn:E; try lia.
  rewrite iter_xO, <- M.
  replace (n * 2 ^ k * 2 ^ Z.pos d) with (n * 2 ^ (52 - Z.log2 n)).
  2:{ rewrite <- Z.mul_assoc, <- Z.pow_add_r by lia. f_equal. f_equal. lia. }
  replace (Z.log2 n + 1 - 53) with (- (52 - Z.log2 n)) by lia.
  apply round_aux_whole; lia.
Qed.

Lemma log2_sum_bound a b :
  0 < a -> 0 < b -> Z.log2 a <= Z.log2 (a + b) /\ Z.log2 b <= Z.log2 (a + b).
Proof. intros Ha Hb. split; apply Z.log2_le_mono; lia. Qed.

Lemma whole_add a b :
  0 <= a -> 0 <= b -> a + b < 2 ^ 53 -> (whole a + whole b)%float = whole (a + b).
Proof.
  intros Ha Hb H. apply Prim2SF_eq.
  rewrite add_spec, !whole_SF by lia.
  destruct (Z.eq_dec a 0) as [->|Na].
  { rewrite Z.add_0_l. change (wholeSF 0) with (S754_zero false).
    unfold wholeSF. now destruct (b =? 0). }
  destruct (Z.eq_dec b 0) as [->|Nb].
  { rewrite Z.add_0_r. change (wholeSF 0) with (S754_zero false).
    unfold wholeSF. now destruct (a =? 0). }
  rewrite (wholeSF_pos a), (wholeSF_pos b) by lia.
  unfold SF64add. cbn [SFadd cond_Zopp].
  assert (La : Z.log2 a < 53) by (apply Z.log2_lt_pow2; lia).
  assert (Lb : Z.log2 b < 53) by (apply Z.log2_lt_pow2; lia).
  pose proof (Z.log2_nonneg a). pose proof (Z.log2_nonneg b).
  destruct (log2_sum_bound a b ltac:(lia) ltac:(lia)) as [Sa Sb].
  set (ez := Z.min (Z.log2 a - 52) (Z.log2 b - 52)).
  rewrite !shl_align_value by (unfold ez; lia).
  rewrite !Z2Pos.id by (apply Z.mul_pos_pos; lia).
  replace (a * 2 ^ (52 - Z.log2 a) * 2 ^ (Z.log2 a - 52 - ez)
           + b * 2 ^ (52 - Z.log2 b) * 2 ^ (Z.log2 b - 52 - ez))
    with ((a + b) * 2 ^ (- ez)).
  2:{ rewrite <- !Z.mul_assoc, <- !Z.pow_add_r by (unfold ez; lia).
      replace (52 - Z.log2 a + (Z.log2 a - 52 - ez)) with (- ez) by lia.
      replace (52 - Z.log2 b + (Z.log2 b - 52 - ez)) with (- ez) by lia. ring. }
  replace ez with (- - ez) at 2 by lia.
  apply normalize_whole; [lia|]. unfold ez. lia.
Qed.

Lemma whole_mul a b :
  0 <= a < 2 ^ 53 -> 0 <= b < 2 ^ 53 -> a * b < 2 ^ 53 ->
  (whole a * whole b)%float = whole (a * b).
Proof.
  intros Ha Hb H. apply Prim2SF_eq.
  rewrite mul_spec, !whole_SF by nia.
  destruct (Z.eq_dec a 0) as [->|Na].
  { rewrite Z.mul_0_l. change (wholeSF 0) with (S754_zero false).
    unfold wholeSF. now destruct (b =? 0). }
  destruct (Z.eq_dec b 0) as [->|Nb].
  { rewrite Z.mul_0_r. change (wholeSF 0) with (S754_zero false).
    unfold wholeSF. now destruct (a =? 0). }
  rewrite (wholeSF_pos a), (wholeSF_pos b) by lia.
  unfold SF64mul. cbn [SFmul xorb].
  assert (La : Z.log2 a < 53) by (apply Z.log2_lt_pow2; lia).
  assert (Lb : Z.log2 b < 53) by (apply Z.log2_lt_pow2; lia).
  pose proof (Z.log2_nonneg a). pose proof (Z.log2_nonneg b).
  rewrite Pos2Z.inj_mul, !Z2Pos.id by (apply Z.mul_pos_pos; lia).
  set (k := 104 - Z.log2 a - Z.log2 b).
  replace (a * 2 ^ (52 - Z.log2 a) * (b * 2 ^ (52 - Z.log2 b))) with (a * b * 2 ^ k).
  2:{ unfold k. replace (104 - Z.log2 a - Z.log2 b)
        with ((52 - Z.log2 a) + (52 - Z.log2 b)) by lia.
      rewrite Z.pow_add_r by lia. ring. }
  replace (Z.log2 a - 52 + (Z.log2 b - 52)) with (- k) by (unfold k; lia).
  apply round_aux_whole; [nia|].
  assert (Z.log2 a + Z.log2 b <= Z.log2 (a * b)).
  { pose proof (Z.log2_mul_below a b ltac:(lia) ltac:(lia)). lia. }
  unfold k. lia.
Qed.

Lemma whole_sub a b :
  0 <= b <= a -> a < 2 ^ 53 -> (whole a - whole b)%float = whole (a - b).
Proof.
  intros Hb Ha. apply Prim2SF_eq.
  rewrite sub_spec, !whole_SF by lia.
  destruct (Z.eq_dec b 0) as [->|Nb].
  { rewrite Z.sub_0_r. change (wholeSF 0) with (S754_zero false).
    unfold wholeSF. now destruct (a =? 0). }
  rewrite (wholeSF_pos a), (wholeSF_pos b) by lia.
  unfold SF64sub. cbn [SFsub cond_Zopp].
  assert (La : Z.log2 a < 53) by (apply Z.log2_lt_pow2; lia).
  assert (Lb : Z.log2 b < 53) by (apply Z.log2_lt_pow2; lia).
  pose proof (Z.log2_nonneg a). pose proof (Z.log2_nonneg b).
  assert (Lab : Z.log2 b <= Z.log2 a) by (apply Z.log2_le_mono; lia).
  set (ez := Z.min (Z.log2 a - 52) (Z.log2 b - 52)).
  rewrite !shl_align_value by (unfold ez; lia).
  rewrite !Z2Pos.id by (apply Z.mul_pos_pos; lia).
  replace (a * 2 ^ (52 - Z.log2 a) * 2 ^ (Z.log2 a - 52 - ez)
           - b * 2 ^ (52 - Z.log2 b) * 2 ^ (Z.log2 b - 52 - ez))
    with ((a - b) * 2 ^ (- ez)).
  2:{ rewrite <- !Z.mul_assoc, <- !Z.pow_add_r by (unfold ez; lia).
      replace (52 - Z.log2 a + (Z.log2 a - 52 - ez)) with (- ez) by lia.
      replace (52 - Z.log2 b + (Z.log2 b - 52 - ez)) with (- ez) by lia. ring. }
  destruct (Z.eq_dec a b) as [->|Nab].
  { rewrite Z.sub_diag. reflexivity. }
  replace ez with (- - ez) at 2 by lia.
  apply normalize_whole_any; [lia|]. unfold ez. lia.
Qed.

Lemma whole_leb a b :
  0 <= a < 2 ^ 53 -> 0 <= b < 2 ^ 53 -> (whole a <=? whole b)%float = (a <=? b).
Proof.
  intros Ha Hb.
  pose proof (whole_ltb b a Hb Ha) as L.
  rewrite ltb_spec in L. rewrite leb_spec.
  rewrite !whole_SF in * by assumption.
  unfold SFltb in L. unfold SFleb.
  assert (C : SFcompare (wholeSF a) (wholeSF b)
              = option_map CompOpp (SFcompare (wholeSF b) (wholeSF a))).
  { unfold wholeSF. destruct (a =? 0), (b =? 0); cbn [SFcompare option_map CompOpp];
      try reflexivity.
    rewrite (Z.compare_antisym (Z.log2 a - 52) (Z.log2 b - 52)).
    destruct (Z.log2 a - 52 ?= Z.log2 b - 52); cbn [CompOpp]; try reflexivity.
    f_equal. change PosDef.Pos.compare_cont with Pos.compare_cont.
    rewrite !Pos.compare_cont_spec.
    rewrite (Pos.compare_antisym (Z.to_pos (a * 2 ^ (52 - Z.log2 a)))).
    now destruct (_ ?= _)%positive. }
  rewrite C.
  destruct (SFcompare (wholeSF b) (wholeSF a)) as [[| |]|] eqn:E; cbn [option_map CompOpp].
  - symmetry. apply Z.leb_le. apply Z.ltb_ge. now rewrite <- L.
  - symmetry. apply Z.leb_gt. apply Z.ltb_lt. now rewrite <- L.
  - symmetry. apply Z.leb_le. apply Z.ltb_ge. now rewrite <- L.
  - exfalso. unfold wholeSF in E. destruct (a =? 0), (b =? 0); discriminate.
Qed.

Lemma whole_inj a b :
  0 <= a < 2 ^ 53 -> 0 <= b < 2 ^ 53 -> whole a = whole b -> a = b.
Proof.
  intros Ha Hb E.
  pose proof (whole_leb a b Ha Hb) as L1. pose proof (whole_leb b a Hb Ha) as L2.
  rewrite E in L1. rewrite <- E in L2.
  pose proof (whole_leb b b Hb Hb) as L3. rewrite Z.leb_refl in L3.
  pose proof (whole_leb a a Ha Ha) as L4. rewrite Z.leb_refl in L4.
  rewrite L3 in L1. rewrite L4 in L2. symmetry in L1, L2.
  apply Z.leb_le in L1, L2. lia.
Qed.

Lemma whole_not_nan r : 0 <= r < 2 ^ 53 -> is_nan (whole r) = false.
Proof.
  intros H. unfold is_nan. rewrite eqb_spec, whole_SF by assumption.
  unfold wholeSF, SFeqb. destruct (r =? 0); cbn [SFcompare negb]; [reflexivity|].
  now rewrite Z.compare_refl, Pos.compare_cont_refl.
Qed.

Lemma whole_not_negative_zero r : 0 <= r < 2 ^ 53 -> isNegativeZero (whole r) = false.
Proof.
  intros H. unfold isNegativeZero. rewrite classify_spec, whole_SF by assumption.
  unfold wholeSF. destruct (r =? 0); [reflexivity|].
  unfold SF64classify, SFclassify. now destruct (Z.pos _ =? prec).
Qed.

Lemma whole_below_infinity r : 0 <= r < 2 ^ 53 -> (whole r <? infinity)%float = true.
Proof.
  intros H. rewrite ltb_spec, whole_SF by assumption.
  change (Prim2SF infinity) with (S754_infinity false).
  unfold wholeSF. now destruct (r =? 0).
Qed.

Lemma whole_above_neg_infinity r :
  0 <= r < 2 ^ 53 -> (neg_infinity <? whole r)%float = true.
Proof.
  intros H. rewrite ltb_spec, whole_SF by assumption.
  change (Prim2SF neg_infinity) with (S754_infinity true).
  unfold wholeSF. now destruct (r =? 0).
Qed.

(** [Math.min] and [Math.max] of two wholes. *)
Lemma Math_min_whole a b :
  0 <= a < 2 ^ 53 -> 0 <= b < 2 ^ 53 ->
  Math_min [whole a; whole b] = whole (Z.min a b).
Proof.
  intros Ha Hb. unfold Math_min. cbn [fold_left].
  change (is_nan infinity) with false.
  rewrite (whole_not_nan a Ha), (whole_not_nan b Hb).
  rewrite (whole_not_negative_zero a Ha), (whole_not_negative_zero b Hb).
  rewrite (whole_below_infinity a Ha). cbn [orb andb].
  rewrite (whole_not_nan a Ha). cbn [orb]. rewrite whole_ltb by assumption.
  destruct (Z.ltb_spec b a); f_equal; lia.
Qed.

Lemma Math_max_whole a b :
  0 <= a < 2 ^ 53 -> 0 <= b < 2 ^ 53 ->
  Math_max [whole a; whole b] = whole (Z.max a b).
Proof.
  intros Ha Hb. unfold Math_max. cbn [fold_left].
  change (is_nan neg_infinity) with false.
  assert (Pz : forall r, 0 <= r < 2 ^ 53 ->
                 isPositiveZero (whole r) && isNegativeZero (whole a) = false).
  { intros r Hr. rewrite (whole_not_negative_zero a Ha). apply andb_false_r. }
  rewrite (whole_not_nan a Ha), (whole_not_nan b Hb). cbn [orb].
  change (isNegativeZero neg_infinity) with false. rewrite andb_false_r.
  rewrite (whole_above_neg_infinity a Ha).
  rewrite (whole_not_nan a Ha). cbn [orb].
  rewrite Pz by assumption. rewrite whole_ltb by assumption.
  destruct (Z.ltb_spec a b); f_equal; lia.
Qed.

(** ** Whole numbers below 2^53 print as their decimal digits *)

(** *** Comparing wholes *)

Lemma wholeSF_compare a b :
  0 <= a < 2 ^ 53 -> 0 <= b < 2 ^ 53 ->
  SFcompare (wholeSF a) (wholeSF b) = Some (a ?= b).
Proof.
  intros Ha Hb. unfold wholeSF.
  destruct (Z.eqb_spec a 0) as [Ea|Ea]; destruct (Z.eqb_spec b 0) as [Eb|Eb];
    cbn [SFcompare]; f_equal.
  - now subst.
  - symmetry. apply Z.compare_lt_iff. lia.
  - symmetry. apply Z.compare_gt_iff. lia.
  - assert (La : Z.log2 a < 53) by (apply Z.log2_lt_pow2; lia).
    assert (Lb : Z.log2 b < 53) by (apply Z.log2_lt_pow2; lia).
    pose proof (Z.log2_nonneg a). pose proof (Z.log2_nonneg b).
    pose proof (Z.log2_spec a ltac:(lia)) as Sa.
    pose proof (Z.log2_spec b ltac:(lia)) as Sb.
    destruct (Z.compare_spec (Z.log2 a - 52) (Z.log2 b - 52)) as [E|E|E].
    + assert (E' : Z.log2 a = Z.log2 b) by lia.
      change PosDef.Pos.compare_cont with Pos.compare_cont.
      rewrite Pos.compare_cont_spec. cbn [Pos.switch_Eq].
      rewrite <- Z2Pos.inj_compare by (apply Z.mul_pos_pos; lia).
      rewrite E'.
      destruct (Z.compare_spec (a * 2 ^ (52 - Z.log2 b)) (b * 2 ^ (52 - Z.log2 b)))
        as [C|C|C]; symmetry.
      * apply Z.compare_eq_iff. apply Z.mul_cancel_r in C; lia.
      * apply Z.compare_lt_iff. apply Z.mul_lt_mono_pos_r in C; lia.
      * apply Z.compare_gt_iff. apply Z.mul_lt_mono_pos_r in C; lia.
    + symmetry. apply Z.compare_lt_iff.
      assert (2 ^ (Z.log2 a + 1) <= 2 ^ Z.log2 b) by (apply Z.pow_le_mono_r; lia).
      replace (Z.succ (Z.log2 a)) with (Z.log2 a + 1) in Sa by lia. lia.
    + symmetry. apply Z.compare_gt_iff.
      assert (2 ^ (Z.log2 b + 1) <= 2 ^ Z.log2 a) by (apply Z.pow_le_mono_r; lia).
      replace (Z.succ (Z.log2 b)) with (Z.log2 b + 1) in Sb by lia. lia.
Qed.

Lemma whole_eqb a b :
  0 <= a < 2 ^ 53 -> 0 <= b < 2 ^ 53 -> (whole a =? whole b)%float = (a =? b).
Proof.
  intros Ha Hb. rewrite eqb_spec, !whole_SF by assumption.
  unfold SFeqb. rewrite wholeSF_compare by assumption.
  rewrite Z.eqb_compare. now destruct (a ?= b).
Qed.

Lemma whole_abs r : 0 <= r < 2 ^ 53 -> abs (whole r) = whole r.
Proof.
  intros H. apply Prim2SF_eq. rewrite abs_spec, whole_SF by assumption.
  unfold wholeSF. now destruct (r =? 0).
Qed.

(** *** The even numbers from 2^53 to 2^54 *)

Lemma fexp_mid d : 1 <= d <= 1000 -> fexp prec emax d = d - 53.
Proof. unfold fexp, emin, prec, emax. lia. Qed.

Lemma normalize_shifted (n : positive) k t :
  let d := Z.log2 (Z.pos n) + 1 in
  d <= 53 -> 53 - d <= k -> 0 <= t <= 900 ->
  binary_normalize prec emax (Z.pos n * 2 ^ k) (t - k) false
  = S754_finite false (Z.to_pos (Z.pos n * 2 ^ (53 - d))) (d - 53 + t).
Proof.
  intros d Hd Hk Ht.
  assert (D1 : 1 <= d) by (pose proof (Z.log2_nonneg (Z.pos n)); lia).
  assert (K : 0 <= k) by lia.
  assert (P : 0 < Z.pos n * 2 ^ k) by (apply Z.mul_pos_pos; lia).
  destruct (Z.pos n * 2 ^ k) as [|mx|mx] eqn:M; try lia.
  assert (Dm : Z.pos (digits2_pos mx) = d + k).
  { rewrite digits2_log2, <- M, Z.log2_mul_pow2 by lia. unfold d. lia. }
  unfold binary_normalize, binary_round. rewrite Dm.
  replace (d + k + (t - k)) with (d + t) by lia. rewrite fexp_mid by lia.
  assert (A : shl_align mx (t - k) (d + t - 53) = (mx, t - k)).
  { unfold shl_align. destruct (d + t - 53 - (t - k)) eqn:E; auto; lia. }
  rewrite A. unfold binary_round_aux, shr_fexp. cbn [Zdigits2]. rewrite Dm.
  replace (d + k + (t - k)) with (d + t) by lia. rewrite fexp_mid by lia.
  set (m' := Z.pos n * 2 ^ (53 - d)).
  assert (P' : 0 < m') by (apply Z.mul_pos_pos; lia).
  assert (S1 : shr (shr_record_of_loc (Z.pos mx) loc_Exact) (t - k) (d + t - 53 - (t - k))
               = (Build_shr_record m' false false, d - 53 + t)).
  { unfold shr. cbn [shr_record_of_loc].
    destruct (d + t - 53 - (t - k)) as [|sh|sh] eqn:E; try lia.
    - f_equal; [|lia]. f_equal. unfold m'. rewrite <- M. f_equal. f_equal. lia.
    - f_equal; [|lia]. rewrite iter_pos_nat.
      replace (Z.pos mx) with (m' * 2 ^ Z.of_nat (Pos.to_nat sh)).
      + now apply shr_exact.
      + rewrite <- M. unfold m'. rewrite <- Z.mul_assoc, <- Z.pow_add_r by lia.
        f_equal. f_equal. lia. }
  rewrite S1. cbn [shr_m loc_of_shr_record round_nearest_even].
  destruct m' as [|pm|pm] eqn:Em; try lia.
  cbn [Zdigits2].
  assert (Dp : Z.pos (digits2_pos pm) = 53).
  { rewrite digits2_log2, <- Em. unfold m'.
    rewrite Z.log2_mul_pow2 by lia. unfold d. lia. }
  rewrite Dp. replace (53 + (d - 53 + t)) with (d + t) by lia. rewrite fexp_mid by lia.
  replace (d + t - 53 - (d - 53 + t)) with 0 by lia. cbn [shr shr_record_of_loc shr_m].
  assert (L : (d - 53 + t <=? emax - prec) = true).
  { apply Z.leb_le. unfold emax, prec. lia. }
  rewrite L. reflexivity.
Qed.

(** Twice a whole with 53 bits is held exactly, with exponent 1. *)
Lemma whole_double b :
  2 ^ 52 <= b < 2 ^ 53 ->
  Prim2SF (whole (2 * b)) = S754_finite false (Z.to_pos b) 1.
Proof.
  intros H. unfold whole, JsNumber.roundQuotient.
  assert (Lb : Z.log2 b = 52).
  { apply Z.log2_unique; [lia|]. change (52 + 1) with 53. lia. }
  assert (La : Z.log2 (2 * b) = 53).
  { rewrite Z.log2_double by lia. lia. }
  replace (2 * b =? 0) with false by (symmetry; apply Z.eqb_neq; lia).
  change (Z.log2 1) with 0. rewrite La.
  change (Z.max 0 (64 + 0 - 53)) with 11.
  destruct (Z.div_eucl (Z.shiftl (2 * b) 11) 1) as [q m] eqn:D.
  assert (Q : q = 2 * b * 2 ^ 11).
  { change q with (fst (q, m)). rewrite <- D. change (fst (Z.div_eucl ?a ?b)) with (a / b).
    rewrite Z.div_1_r, Z.shiftl_mul_pow2; lia. }
  assert (R : m = 0).
  { change m with (snd (q, m)). rewrite <- D.
    change (snd (Z.div_eucl ?a ?b)) with (a mod b). apply Z.mod_1_r. }
  subst q m. cbn [Z.eqb].
  replace (2 * (2 * b * 2 ^ 11) + 0) with (b * 2 ^ 13) by lia.
  replace (- (11) - 1) with (1 - 13) by lia.
  destruct b as [|n|n]; try lia.
  rewrite normalize_shifted by lia. rewrite Lb.
  change (53 - (52 + 1)) with 0. change (52 + 1 - 53 + 1) with 1.
  rewrite Z.pow_0_r, Z.mul_1_r.
  apply Prim2SF_SF2Prim.
  cbn [valid_binary]. unfold bounded, canonical_mantissa.
  rewrite digits2_log2, Z2Pos.id, Lb by lia.
  reflexivity.
Qed.

(** Such a number is none of the wholes below 2^53. *)
Lemma whole_double_differs b r :
  2 ^ 52 <= b < 2 ^ 53 -> 0 <= r < 2 ^ 53 ->
  (whole (2 * b) =? whole r)%float = false.
Proof.
  intros Hb Hr. rewrite eqb_spec, whole_double, whole_SF by assumption.
  unfold wholeSF, SFeqb. destruct (r =? 0) eqn:E; cbn [SFcompare]; [reflexivity|].
  apply Z.eqb_neq in E.
  assert (L : Z.log2 r < 53) by (apply Z.log2_lt_pow2; lia).
  replace (1 ?= Z.log2 r - 52) with Gt; [reflexivity|].
  symmetry. apply Z.compare_gt_iff. lia.
Qed.

(** *** The decimal digits of an integer *)

Lemma natDigits_acc fuel :
  forall z acc, JsString.natDigits fuel z acc = JsString.natDigits fuel z [] ++ acc.
Proof.
  induction fuel as [|fuel IH]; intros z acc; [reflexivity|].
  cbn [JsString.natDigits]. cbv zeta. destruct (z <? 10); [reflexivity|].
  rewrite (IH _ (_ :: acc)), (IH _ [_]). now rewrite <- app_assoc.
Qed.

Lemma natDigits_fuel fuel :
  forall fuel' z,
    0 <= z < 10 ^ Z.of_nat (S fuel) -> z < 10 ^ Z.of_nat (S fuel') ->
    JsString.natDigits (S fuel) z [] = JsString.natDigits (S fuel') z [].
Proof.
  induction fuel as [|fuel IH]; intros fuel' z H H'.
  - change (10 ^ Z.of_nat 1) with 10 in H.
    cbn [JsString.natDigits]. cbv zeta.
    replace (z <? 10) with true by (symmetry; apply Z.ltb_lt; lia). reflexivity.
  - change (JsString.natDigits (S (S fuel)) z [])
      with (let acc' := [JsString.digitChar (z mod 10)] in
            if z <? 10 then acc' else JsString.natDigits (S fuel) (z / 10) acc').
    change (JsString.natDigits (S fuel') z [])
      with (let acc' := [JsString.digitChar (z mod 10)] in
            if z <? 10 then acc' else JsString.natDigits fuel' (z / 10) acc').
    cbv zeta. destruct (Z.ltb_spec z 10) as [L|L]; [reflexivity|].
    destruct fuel' as [|fuel'].
    { change (10 ^ Z.of_nat 1) with 10 in H'. lia. }
    rewrite (natDigits_acc (S fuel)), (natDigits_acc (S fuel')). f_equal.
    rewrite (Nat2Z.inj_succ (S fuel)), Z.pow_succ_r in H by lia.
    rewrite (Nat2Z.inj_succ (S fuel')), Z.pow_succ_r in H' by lia.
    apply IH.
    + split; [apply Z.div_pos; lia|]. apply Z.div_lt_upper_bound; lia.
    + apply Z.div_lt_upper_bound; lia.
Qed.

Lemma below_power z : 0 <= z -> z < 10 ^ Z.of_nat (S (Z.to_nat (Z.log2 z))).
Proof.
  intros H. rewrite Nat2Z.inj_succ, Z2Nat.id by apply Z.log2_nonneg.
  destruct (Z.eq_dec z 0) as [->|Nz]; [reflexivity|].
  pose proof (Z.log2_spec z ltac:(lia)) as [_ U].
  eapply Z.lt_le_trans; [exact U|]. apply Z.pow_le_mono_l. lia.
Qed.

Lemma decimalDigits_small z :
  0 <= z < 10 -> JsString.decimalDigits z = [JsString.digitChar z].
Proof.
  intros H. unfold JsString.decimalDigits. cbn [JsString.natDigits]. cbv zeta.
  replace (z <? 10) with true by (symmetry; apply Z.ltb_lt; lia).
  now rewrite Z.mod_small by lia.
Qed.

Lemma decimalDigits_step z :
  10 <= z ->
  JsString.decimalDigits z
  = JsString.decimalDigits (z / 10) ++ [JsString.digitChar (z mod 10)].
Proof.
  intros H. unfold JsString.decimalDigits.
  pose proof (below_power z ltac:(lia)) as B.
  assert (L : 3 <= Z.log2 z) by (apply Z.log2_le_pow2; lia).
  destruct (Z.to_nat (Z.log2 z)) as [|fuel] eqn:E; [lia|].
  change (JsString.natDigits (S (S fuel)) z [])
    with (let acc' := [JsString.digitChar (z mod 10)] in
          if z <? 10 then acc' else JsString.natDigits (S fuel) (z / 10) acc').
  cbv zeta. replace (z <? 10) with false by (symmetry; apply Z.ltb_ge; lia).
  rewrite natDigits_acc. f_equal.
  rewrite (Nat2Z.inj_succ (S fuel)), Z.pow_succ_r in B by lia.
  assert (Q : 0 <= z / 10) by (apply Z.div_pos; lia).
  apply natDigits_fuel.
  - split; [exact Q|]. apply Z.div_lt_upper_bound; lia.
  - now apply below_power.
Qed.

Lemma zeros_succ j : 0 <= j -> JsNumber.zeros (j + 1) = JsNumber.zeros j ++ ["0"%char].
Proof.
  intros H. unfold JsNumber.zeros.
  replace (Z.to_nat (j + 1)) with (S (Z.to_nat j)) by lia.
  cbn [repeat]. apply repeat_cons.
Qed.

(** Multiplying by a power of ten appends zeros. *)
Lemma decimalDigits_scale s j :
  0 < s -> 0 <= j ->
  JsString.decimalDigits (s * 10 ^ j) = JsString.decimalDigits s ++ JsNumber.zeros j.
Proof.
  intros Hs Hj. revert j Hj. apply natlike_ind.
  - rewrite Z.pow_0_r, Z.mul_1_r. unfold JsNumber.zeros. cbn. now rewrite app_nil_r.
  - intros j Hj IH. unfold Z.succ.
    assert (P : 0 < 10 ^ j) by (apply Z.pow_pos_nonneg; lia).
    rewrite decimalDigits_step by (rewrite Z.pow_add_r by lia; nia).
    replace (s * 10 ^ (j + 1)) with (s * 10 ^ j * 10)
      by (rewrite Z.pow_add_r by lia; ring).
    rewrite Z.div_mul, Z.mod_mul by lia. rewrite IH, zeros_succ by lia.
    now rewrite <- app_assoc.
Qed.

(** The number of digits of a positive integer. *)
Lemma decimalDigits_length z :
  0 < z ->
  let k := Z.of_nat (List.length (JsString.decimalDigits z)) in
  1 <= k /\ 10 ^ (k - 1) <= z < 10 ^ k.
Proof.
  intros H. assert (N : 0 <= z) by lia. revert H.
  pattern z. apply Z_lt_induction; [|exact N].
  clear z N. intros z IH H. cbv zeta.
  destruct (Z_lt_le_dec z 10) as [S|S].
  - rewrite decimalDigits_small by lia. cbn. lia.
  - rewrite decimalDigits_step by lia.
    rewrite length_app, Nat2Z.inj_add. cbn [List.length Z.of_nat Pos.of_succ_nat].
    assert (Q : 0 < z / 10) by (apply Z.div_str_pos; lia).
    destruct (IH (z / 10)) as [K [Lo Hi]].
    { split; [lia|]. apply Z.div_lt; lia. }
    { exact Q. }
    set (k := Z.of_nat (List.length (JsString.decimalDigits (z / 10)))) in *.
    replace (k + 1 - 1) with (k - 1 + 1) by lia.
    rewrite !Z.pow_add_r by lia. change (10 ^ 1) with 10.
    pose proof (Z.div_mod z 10 ltac:(lia)). pose proof (Z.mod_pos_bound z 10 ltac:(lia)).
    lia.
Qed.

(** *** The shortest digits of a whole *)

Section Shortest.

Variables r q k : Z.
Hypothesis r_small : 0 < r < 2 ^ 53.
Hypothesis q_positive : 0 < q.
Hypothesis k_digits : k = Z.of_nat (List.length (JsString.decimalDigits r)).

Lemma digits_bound : 1 <= k <= 16 /\ 10 ^ (k - 1) <= r < 10 ^ k.
Proof.
  destruct (decimalDigits_length r (proj1 r_small)) as [K [Lo Hi]].
  rewrite <- k_digits in *. split; [|auto]. split; [exact K|].
  destruct (Z_le_gt_dec k 16) as [L|L]; [exact L|]. exfalso.
  assert (10 ^ 16 <= 10 ^ (k - 1)) by (apply Z.pow_le_mono_r; lia). lia.
Qed.

(** With [n] digits, the candidate is the whole without its last [k - n]
    digits when those are zeros, and there is none otherwise. *)
Lemma candidate_whole n :
  1 <= n <= k ->
  JsNumber.candidate (whole r) (r * q) q k n
  = if r mod 10 ^ (k - n) =? 0 then Some (r / 10 ^ (k - n)) else None.
Proof.
  intros Hn. destruct digits_bound as [[K1 K16] [Lo Hi]].
  set (j := k - n). assert (Hj : 0 <= j) by (unfold j; lia).
  assert (P : 0 < 10 ^ j) by (apply Z.pow_pos_nonneg; lia).
  unfold JsNumber.candidate.
  set (num := if k <=? n then r * q * 10 ^ (n - k) else r * q).
  set (den := if k <=? n then q else q * 10 ^ (k - n)).
  assert (Q : num / den = r / 10 ^ j).
  { unfold num, den. destruct (Z.leb_spec k n) as [C|C].
    - replace (n - k) with 0 by lia. replace j with 0 by (unfold j; lia).
      rewrite Z.pow_0_r, Z.mul_1_r, Z.div_1_r. apply Z.div_mul. lia.
    - fold j. rewrite (Z.mul_comm q (10 ^ j)). apply Z.div_mul_cancel_r; lia. }
  rewrite Q. set (lo := r / 10 ^ j).
  pose proof (Z.div_mod r (10 ^ j) ltac:(lia)) as DM. fold lo in DM.
  pose proof (Z.mod_pos_bound r (10 ^ j) P) as MB.
  assert (L0 : 0 <= lo) by (apply Z.div_pos; lia).
  assert (Ln : lo < 10 ^ n).
  { apply Z.div_lt_upper_bound; [lia|]. rewrite <- Z.pow_add_r by lia.
    now replace (j + n) with k by (unfold j; lia). }
  unfold JsNumber.ofDecimal. fold j.
  replace (0 <=? j) with true by (symmetry; apply Z.leb_le; lia).
  fold (whole (lo * 10 ^ j)). fold (whole ((lo + 1) * 10 ^ j)).
  rewrite (whole_eqb (lo * 10 ^ j) r) by nia.
  assert (Hi' : (whole ((lo + 1) * 10 ^ j) =? whole r)%float = false).
  { destruct (Z_lt_le_dec ((lo + 1) * 10 ^ j) (2 ^ 53)) as [S|S].
    - rewrite whole_eqb by nia. apply Z.eqb_neq. nia.
    - assert (T : (lo + 1) * 10 ^ j <= 10 ^ k).
      { replace k with (n + j) by (unfold j; lia). rewrite Z.pow_add_r by lia.
        apply Z.mul_le_mono_nonneg_r; lia. }
      assert (T16 : 10 ^ k <= 10 ^ 16) by (apply Z.pow_le_mono_r; lia).
      assert (E : exists b, (lo + 1) * 10 ^ j = 2 * b).
      { destruct (Z.eq_dec j 0) as [J|J].
        - exists (2 ^ 52). rewrite J, Z.pow_0_r in *. lia.
        - exists ((lo + 1) * 5 * 10 ^ (j - 1)).
          replace j with (j - 1 + 1) at 1 by lia.
          rewrite Z.pow_add_r by lia. change (10 ^ 1) with 10. ring. }
      destruct E as [b E]. rewrite E. apply whole_double_differs; lia. }
  rewrite Hi'.
  replace (lo * 10 ^ j =? r) with (r mod 10 ^ j =? 0).
  2:{ destruct (Z.eqb_spec (r mod 10 ^ j) 0) as [C|C]; symmetry;
        [apply Z.eqb_eq|apply Z.eqb_neq]; lia. }
  now destruct (r mod 10 ^ j =? 0).
Qed.

Lemma shortest_whole fuel :
  forall n,
    1 <= n <= k -> (Z.to_nat (k - n) < fuel)%nat ->
    exists j,
      0 <= j <= k - n /\ r mod 10 ^ j = 0 /\
      JsNumber.shortest fuel (whole r) (r * q) q k n = (r / 10 ^ j, k - j).
Proof.
  induction fuel as [|fuel IH]; intros n Hn F; [lia|].
  cbn [JsNumber.shortest]. rewrite candidate_whole by assumption.
  destruct (Z.eqb_spec (r mod 10 ^ (k - n)) 0) as [C|C].
  - exists (k - n). split; [lia|]. split; [exact C|]. f_equal. lia.
  - assert (n < k).
    { destruct (Z.eq_dec n k) as [E|E]; [|lia]. exfalso. apply C.
      replace (k - n) with 0 by lia. apply Z.mod_1_r. }
    destruct (IH (n + 1)) as [j [Hj [M E]]]; [lia|lia|].
    exists j. split; [lia|]. auto.
Qed.

Lemma positiveToString_whole :
  forall s n,
    JsNumber.shortest 17 (whole r) (r * q) q k 1 = (s, n) ->
    (if s =? 10 ^ n then JsNumber.layout ["1"%char] (k + 1)
     else JsNumber.layout (JsString.decimalDigits s) k)
    = JsString.decimalDigits r.
Proof.
  intros s n E. destruct digits_bound as [[K1 K16] [Lo Hi]].
  destruct (shortest_whole 17 1) as [j [Hj [M E']]]; [lia|lia|].
  rewrite E in E'. inversion E'; subst s n. clear E E'.
  assert (P : 0 < 10 ^ j) by (apply Z.pow_pos_nonneg; lia).
  pose proof (Z.div_mod r (10 ^ j) ltac:(lia)) as DM. rewrite M, Z.add_0_r in DM.
  assert (Pj : 10 ^ j <= 10 ^ (k - 1)) by (apply Z.pow_le_mono_r; lia).
  set (s := r / 10 ^ j) in *.
  assert (S0 : 0 < s) by nia.
  assert (Sn : s < 10 ^ (k - j)).
  { apply Z.div_lt_upper_bound; [lia|]. rewrite <- Z.pow_add_r by lia.
    now replace (j + (k - j)) with k by lia. }
  replace (s =? 10 ^ (k - j)) with false by (symmetry; apply Z.eqb_neq; lia).
  assert (D : JsString.decimalDigits r = JsString.decimalDigits s ++ JsNumber.zeros j).
  { rewrite DM at 1. rewrite Z.mul_comm. apply decimalDigits_scale; lia. }
  assert (L : Z.of_nat (List.length (JsString.decimalDigits s)) = k - j).
  { rewrite k_digits, D, length_app. unfold JsNumber.zeros. rewrite repeat_length. lia. }
  unfold JsNumber.layout. rewrite L.
  replace ((k - j <=? k) && (k <=? 21)) with true.
  2:{ symmetry. apply andb_true_iff. split; apply Z.leb_le; lia. }
  rewrite D. now replace (k - (k - j)) with j by lia.
Qed.

End Shortest.

(** A whole below 2^53 prints as its decimal digits. *)
Lemma toString_whole r :
  0 <= r < 2 ^ 53 -> JsNumber.toString (whole r) = JsString.ofInteger r.
Proof.
  intros H. unfold JsNumber.toString, JsString.ofInteger.
  replace (r <? 0) with false by (symmetry; apply Z.ltb_ge; lia).
  rewrite whole_SF, whole_abs by assumption.
  destruct (Z.eq_dec r 0) as [->|N]; [reflexivity|].
  rewrite wholeSF_pos by lia. f_equal.
  assert (L : Z.log2 r < 53) by (apply Z.log2_lt_pow2; lia).
  pose proof (Z.log2_nonneg r) as L0.
  set (s := 52 - Z.log2 r). assert (Hs : 0 <= s) by (unfold s; lia).
  assert (P : 0 < 2 ^ s) by (apply Z.pow_pos_nonneg; lia).
  unfold JsNumber.positiveToString.
  rewrite Z2Pos.id by (apply Z.mul_pos_pos; lia).
  replace (Z.log2 r - 52) with (- s) by (unfold s; lia).
  set (p := if 0 <=? - s then r * 2 ^ s * 2 ^ (- s) else r * 2 ^ s).
  set (q := if 0 <=? - s then 1 else 2 ^ (- - s)).
  assert (Q : 0 < q /\ p = r * q).
  { unfold p, q. destruct (Z.leb_spec 0 (- s)) as [C|C].
    - replace s with 0 by lia. simpl. lia.
    - now replace (- - s) with s by lia. }
  destruct Q as [Q ->].
  unfold JsNumber.decimalExponent.
  replace (q <=? r * q) with true by (symmetry; apply Z.leb_le; nia).
  rewrite Z.div_mul by lia.
  set (k := Z.of_nat (List.length (JsString.decimalDigits r))).
  destruct (JsNumber.shortest 17 (whole r) (r * q) q k 1) as [d n] eqn:E.
  apply (positiveToString_whole r q k ltac:(lia) Q eq_refl d n E).
Qed.

(** ** The resolver on the numbers of the source agrees with the resolver
    on integers, for small references *)

Lemma getCellKey_whole r c :
  0 <= r < 2 ^ 53 -> 0 <= c < 2 ^ 53 ->
  Binary64.getCellKey (whole r) (whole c) = getCellKey r c.
Proof.
  intros Hr Hc. unfold Binary64.getCellKey, getCellKey.
  now rewrite !toString_whole by assumption.
Qed.

Lemma charCodeAt_index c :
  JsString.isAlpha c = true ->
  (Binary64.charCodeAt (JsString.upperChar c) - 64)%float
  = whole (JsString.code (JsString.upperChar c) - 64).
Proof.
  intros A. pose proof (letter_index c A) as I.
  unfold Binary64.charCodeAt. change 64%float with (whole 64).
  apply whole_sub; lia.
Qed.

Lemma columnNumber_whole letters :
  forallb JsString.isAlpha letters = true ->
  columnNumber letters < 2 ^ 53 ->
  Binary64.columnNumber letters = whole (columnNumber letters).
Proof.
  induction letters as [|c letters IH] using rev_ind; intros F B; [reflexivity|].
  rewrite forallb_app in F. apply andb_true_iff in F. destruct F as [F Fc].
  cbn [forallb] in Fc. rewrite andb_true_r in Fc.
  rewrite columnNumber_snoc in *.
  pose proof (letter_index c Fc) as I. pose proof (columnNumber_nonneg letters F) as N.
  unfold Binary64.columnNumber. rewrite fold_left_app. cbn [fold_left].
  fold (Binary64.columnNumber letters). rewrite IH by (auto; lia).
  rewrite charCodeAt_index by assumption. change 26%float with (whole 26).
  rewrite whole_mul by lia. apply whole_add; lia.
Qed.

Lemma smallReference_bounds ref :
  smallReference ref = true ->
  JsString.digitsValue (JsString.dropWhile JsString.isAlpha (JsString.chars ref)) < 2 ^ 53 /\
  columnNumber (JsString.takeWhile JsString.isAlpha (JsString.chars ref)) < 2 ^ 53.
Proof.
  unfold smallReference. intros H. apply andb_true_iff in H. destruct H as [H1 H2].
  apply Z.ltb_lt in H1, H2. auto.
Qed.

(** A small reference resolves in the source as it does on integers. *)
Lemma parseCellRef_whole ref :
  smallReference ref = true ->
  Binary64.parseCellRef ref
  = option_map (fun coords => Binary64.mkCoords (whole (row coords)) (whole (col coords)))
               (parseCellRef ref).
Proof.
  intros S. destruct (smallReference_bounds ref S) as [Bd Bc].
  unfold Binary64.parseCellRef, parseCellRef.
  set (cs := JsString.chars ref) in *.
  set (letters := JsString.takeWhile JsString.isAlpha cs) in *.
  set (digits := JsString.dropWhile JsString.isAlpha cs) in *.
  destruct (nonEmpty letters) eqn:Nl; [|reflexivity].
  destruct (nonEmpty digits) eqn:Nd; [|reflexivity].
  destruct (forallb JsString.isDigit digits) eqn:Fd; [|reflexivity].
  cbn [andb].
  assert (Fl : forallb JsString.isAlpha letters = true) by apply takeWhile_all.
  assert (L : letterRun letters).
  { split; [|exact Fl]. intros E. rewrite E in Nl. discriminate. }
  pose proof (columnNumber_positive letters L) as C.
  pose proof (digitsValue_nonneg digits Fd) as V.
  rewrite columnNumber_whole by assumption. unfold Binary64.parseInt.
  change 1%float with (whole 1).
  rewrite (whole_sub (columnNumber letters) 1) by lia.
  replace (columnNumber letters - 1 <? 0) with false by (symmetry; apply Z.ltb_ge; lia).
  rewrite orb_false_r.
  destruct (Z.eq_dec (JsString.digitsValue digits) 0) as [E|E].
  - rewrite E. reflexivity.
  - rewrite (whole_sub (JsString.digitsValue digits) 1) by lia.
    rewrite whole_finite by lia. change 0%float with (whole 0).
    rewrite !whole_ltb by lia.
    replace (JsString.digitsValue digits - 1 <? 0) with false
      by (symmetry; apply Z.ltb_ge; lia).
    replace (columnNumber letters - 1 <? 0) with false by (symmetry; apply Z.ltb_ge; lia).
    reflexivity.
Qed.

(** The coordinates of a small reference that resolves. *)
Lemma small_coords ref coords :
  smallReference ref = true -> parseCellRef ref = Some coords ->
  0 <= row coords < 2 ^ 53 - 1 /\ 0 <= col coords < 2 ^ 53 - 1.
Proof.
  intros S. destruct (smallReference_bounds ref S) as [Bd Bc].
  unfold parseCellRef.
  destruct (_ && _); [|discriminate].
  destruct (_ || _) eqn:E; [discriminate|].
  intros H. inversion H; subst coords. cbn [row col].
  apply orb_false_iff in E. destruct E as [E1 E2]. apply Z.ltb_ge in E1, E2. lia.
Qed.

(** A reference given by its letters and digits. *)
Lemma smallReference_parts letters digits :
  letterRun letters -> digitRun digits ->
  smallReference (JsString.text (letters ++ digits))
  = (JsString.digitsValue digits <? 2 ^ 53) && (columnNumber letters <? 2 ^ 53).
Proof.
  intros [Ln La] Dr. pose proof (run_stop_digit digits Dr) as Stop.
  unfold smallReference. rewrite chars_text.
  destruct (run_then_stop JsString.isAlpha letters digits La Stop) as [T D].
  now rewrite T, D.
Qed.

Lemma reference_resolves_source letters digits :
  letterRun letters -> digitRun digits ->
  JsString.digitsValue digits < 2 ^ 53 -> columnNumber letters < 2 ^ 53 ->
  Binary64.parseCellRef (JsString.text (letters ++ digits))
  = if JsString.digitsValue digits =? 0 then None
    else Some (Binary64.mkCoords (whole (JsString.digitsValue digits - 1))
                                 (whole (columnNumber letters - 1))).
Proof.
  intros L D Bd Bc. rewrite parseCellRef_whole.
  - rewrite (proj2 (reference_resolves letters digits L D)).
    now destruct (JsString.digitsValue digits =? 0).
  - rewrite smallReference_parts by assumption.
    apply andb_true_iff. split; now apply Z.ltb_lt.
Qed.

(** Two small references resolve to the same cell in the source exactly
    when they do on integers. *)
Lemma parseCellRef_same a b :
  smallReference a = true -> smallReference b = true ->
  (Binary64.parseCellRef a = Binary64.parseCellRef b <-> parseCellRef a = parseCellRef b).
Proof.
  intros Sa Sb. rewrite !parseCellRef_whole by assumption.
  destruct (parseCellRef a) as [ca|] eqn:Ea, (parseCellRef b) as [cb|] eqn:Eb;
    cbn [option_map]; split; intros H; try discriminate H; try reflexivity.
  - destruct (small_coords a ca Sa Ea) as [Ra Ca].
    destruct (small_coords b cb Sb Eb) as [Rb Cb].
    injection H as Hr Hc. apply whole_inj in Hr, Hc; try lia.
    destruct ca, cb. simpl in *. now subst.
  - now injection H as ->.
Qed.

(** *** The loops of [expandRange] *)

Lemma upto_empty lo hi : hi < lo -> upto lo hi = [].
Proof. intros H. unfold upto. now replace (Z.to_nat (hi - lo + 1)) with 0%nat by lia. Qed.

Lemma upto_first lo hi : lo <= hi -> upto lo hi = lo :: upto (lo + 1) hi.
Proof.
  intros H. unfold upto.
  replace (Z.to_nat (hi - lo + 1)) with (S (Z.to_nat (hi - (lo + 1) + 1))) by lia.
  cbn [seq map]. f_equal; [lia|].
  rewrite <- seq_shift, map_map. apply map_ext. intros i. lia.
Qed.

Lemma upto_length lo hi : Z.of_nat (List.length (upto lo hi)) = Z.max 0 (hi - lo + 1).
Proof. unfold upto. rewrite length_map, length_seq. lia. Qed.

(** The inner loop, with fuel for its turns, returns the array with the
    keys of the columns from [c] to [cEnd] pushed onto it, when the array
    has room for them. *)
Lemma expandCols_returns r cEnd n :
  forall c keys fuel,
    Z.of_nat n = cEnd + 1 - c ->
    0 <= r < 2 ^ 53 -> 0 <= c -> 0 <= cEnd -> cEnd + 1 < 2 ^ 53 ->
    Z.of_nat (List.length keys) + Z.of_nat n <= ARRAY_MAX ->
    (n < fuel)%nat ->
    Binary64.expandCols fuel (whole r) (whole cEnd) (whole c) keys
    = Binary64.Returned (keys ++ map (fun c => getCellKey r c) (upto c cEnd)).
Proof.
  induction n as [|n IH]; intros c keys fuel N Hr Hc He Hb Room F;
    (destruct fuel as [|fuel]; [lia|]); cbn [Binary64.expandCols];
    rewrite whole_leb by lia.
  - replace (c <=? cEnd) with false by (symmetry; apply Z.leb_gt; lia).
    rewrite upto_empty by lia. cbn [map]. now rewrite app_nil_r.
  - replace (c <=? cEnd) with true by (symmetry; apply Z.leb_le; lia).
    replace (ARRAY_MAX <=? Z.of_nat (List.length keys)) with false
      by (symmetry; apply Z.leb_gt; lia).
    change 1%float with (whole 1). rewrite whole_add by lia.
    rewrite getCellKey_whole by lia.
    rewrite IH; try lia.
    + rewrite (upto_first c cEnd) by lia. cbn [map]. now rewrite <- app_assoc.
    + rewrite length_app. cbn [List.length]. lia.
Qed.

(** The outer loop, likewise, for the rows from [r] to [rEnd]. *)
Lemma expandRows_returns rEnd cStart cEnd n :
  forall r keys fuel,
    Z.of_nat n = rEnd + 1 - r ->
    0 <= r -> 0 <= rEnd -> rEnd + 1 < 2 ^ 53 ->
    0 <= cStart <= cEnd -> cEnd + 1 < 2 ^ 53 ->
    Z.of_nat (List.length keys) + Z.of_nat n * (cEnd + 1 - cStart) <= ARRAY_MAX ->
    (n + Z.to_nat (cEnd + 1 - cStart) + 1 < fuel)%nat ->
    Binary64.expandRows fuel (whole rEnd) (whole cStart) (whole cEnd) (whole r) keys
    = Binary64.Returned
        (keys ++ flat_map (fun row => map (fun col => getCellKey row col) (upto cStart cEnd))
                          (upto r rEnd)).
Proof.
  induction n as [|n IH]; intros r keys fuel N Hr He Hb Hc Hcb Room F;
    (destruct fuel as [|fuel]; [lia|]); cbn [Binary64.expandRows];
    rewrite whole_leb by lia.
  - replace (r <=? rEnd) with false by (symmetry; apply Z.leb_gt; lia).
    rewrite (upto_empty r rEnd) by lia. cbn [flat_map]. now rewrite app_nil_r.
  - replace (r <=? rEnd) with true by (symmetry; apply Z.leb_le; lia).
    rewrite (expandCols_returns r cEnd (Z.to_nat (cEnd + 1 - cStart))); try lia; [|nia].
    cbn [Binary64.andThen].
    change 1%float with (whole 1). rewrite whole_add by lia.
    rewrite IH; try lia.
    + rewrite (upto_first r rEnd) by lia. cbn [flat_map]. now rewrite <- app_assoc.
    + rewrite length_app, length_map, Nat2Z.inj_add, upto_length. nia.
Qed.

(** The range of two small references with no more keys than an array
    holds: with fuel for its turns, [expandRange] returns the keys the
    resolver on integers lists. *)
Lemma expandRange_returns a b :
  smallReference a = true -> smallReference b = true ->
  rangeSize a b <= ARRAY_MAX ->
  exists fuel,
    forall fuel', (fuel <= fuel')%nat ->
    Binary64.expandRange fuel' a b = Binary64.Returned (expandRange a b).
Proof.
  intros Sa Sb Size. unfold Binary64.expandRange, expandRange, rangeSize in *.
  rewrite !parseCellRef_whole by assumption.
  destruct (parseCellRef a) as [ca|] eqn:Ea; [|exists 0%nat; reflexivity].
  destruct (parseCellRef b) as [cb|] eqn:Eb; [|exists 0%nat; reflexivity].
  destruct (small_coords a ca Sa Ea) as [Ra Ca].
  destruct (small_coords b cb Sb Eb) as [Rb Cb].
  cbn [option_map Binary64.row Binary64.col].
  rewrite !Math_min_whole, !Math_max_whole by lia.
  set (rowStart := Z.min (row ca) (row cb)) in *.
  set (rowEnd := Z.max (row ca) (row cb)) in *.
  set (colStart := Z.min (col ca) (col cb)) in *.
  set (colEnd := Z.max (col ca) (col cb)) in *.
  assert (Er : Z.abs (row ca - row cb) + 1 = rowEnd + 1 - rowStart)
    by (unfold rowEnd, rowStart; lia).
  assert (Ec : Z.abs (col ca - col cb) + 1 = colEnd + 1 - colStart)
    by (unfold colEnd, colStart; lia).
  rewrite Er, Ec in Size.
  exists (Z.to_nat (rowEnd + 1 - rowStart) + Z.to_nat (colEnd + 1 - colStart) + 2)%nat.
  intros fuel' F.
  rewrite (expandRows_returns rowEnd colStart colEnd (Z.to_nat (rowEnd + 1 - rowStart)));
    unfold rowEnd, rowStart, colEnd, colStart in *; try lia.
  - reflexivity.
  - cbn [List.length]. lia.
Qed.

(** *** The dependency collector *)

Lemma collect_arguments fuel args :
  Forall
    (fun arg =>
       forall deps,
         Binary64.collectDependencies fuel arg deps
         = Binary64.Returned (collectDependencies arg deps))
    args ->
  forall deps,
    fold_left (fun run arg => Binary64.andThen run (Binary64.collectDependencies fuel arg))
              args (Binary64.Returned deps)
    = Binary64.Returned (fold_left (fun deps arg => collectDependencies arg deps) args deps).
Proof.
  induction 1 as [|arg args Ha _ IH]; intros deps; [reflexivity|].
  cbn [fold_left Binary64.andThen]. rewrite Ha. apply IH.
Qed.

(** The collector of the source, with fuel for the loops of its ranges,
    returns for a small tree the set the collector on integers gives. *)
Lemma collectDependencies_returns tree :
  smallTree tree = true ->
  exists fuel,
    forall fuel', (fuel <= fuel')%nat ->
    forall deps,
      Binary64.collectDependencies fuel' tree deps
      = Binary64.Returned (collectDependencies tree deps).
Proof.
  induction tree as [value|ref|op lhs rhs IHl IHr|op operand IH|name args IH|start end_]
    using FormulaNode_induction; cbn [smallTree]; intros S.
  - exists 0%nat. reflexivity.
  - exists 0%nat. intros fuel' _ deps. cbn [Binary64.collectDependencies collectDependencies].
    rewrite parseCellRef_whole by assumption.
    destruct (parseCellRef ref) as [coords|] eqn:E; [|reflexivity].
    destruct (small_coords ref coords S E). cbn [option_map Binary64.row Binary64.col].
    now rewrite getCellKey_whole by lia.
  - apply andb_true_iff in S. destruct S as [Sl Sr].
    destruct (IHl Sl) as [fl Hl]. destruct (IHr Sr) as [fr Hr].
    exists (Nat.max fl fr). intros fuel' F deps.
    cbn [Binary64.collectDependencies collectDependencies].
    rewrite Hl by lia. cbn [Binary64.andThen]. apply Hr. lia.
  - destruct (IH S) as [fuel H]. exists fuel. intros fuel' F deps. now apply H.
  - apply andb_true_iff in S. destruct S as [S _].
    assert (G : exists fuel,
              forall fuel', (fuel <= fuel')%nat ->
              Forall
                (fun arg =>
                   forall deps,
                     Binary64.collectDependencies fuel' arg deps
                     = Binary64.Returned (collectDependencies arg deps))
                args).
    { induction IH as [|arg args Ha _ IHa]; [exists 0%nat; constructor|].
      cbn [forallb] in S. apply andb_true_iff in S. destruct S as [Sa Sr].
      destruct (Ha Sa) as [fa Hfa]. destruct (IHa Sr) as [fr Hfr].
      exists (Nat.max fa fr). intros fuel' F. constructor.
      - apply Hfa. lia.
      - apply Hfr. lia. }
    destruct G as [fuel G]. exists fuel. intros fuel' F deps.
    cbn [Binary64.collectDependencies collectDependencies].
    apply collect_arguments. now apply G.
  - apply andb_true_iff in S. destruct S as [S Size].
    apply andb_true_iff in S. destruct S as [Sa Sb]. apply Z.leb_le in Size.
    destruct (expandRange_returns start end_ Sa Sb Size) as [fuel H].
    exists fuel. intros fuel' F deps.
    cbn [Binary64.collectDependencies collectDependencies].
    now rewrite H.
Qed.

(** *** The evaluator *)

Lemma expandRange_length a b :
  Z.of_nat (List.length (expandRange a b)) = rangeSize a b.
Proof.
  unfold expandRange, rangeSize.
  destruct (parseCellRef a) as [ca|]; [|reflexivity].
  destruct (parseCellRef b) as [cb|]; [|reflexivity].
  rewrite flat_map_prod, length_map, length_prod, Nat2Z.inj_mul, !upto_length. lia.
Qed.

Lemma rangeSize_nonneg a b : 0 <= rangeSize a b.
Proof. rewrite <- expandRange_length. lia. Qed.

Lemma valueCount_nonneg arg : 0 <= valueCount arg.
Proof. destruct arg; cbn [valueCount]; try lia. apply rangeSize_nonneg. Qed.

(** The number of values an argument gives to its function. *)
Lemma argumentValues_length arg g :
  Z.of_nat (List.length (argumentValues (evaluateNode arg g))) = valueCount arg.
Proof.
  destruct arg as [value|ref|op lhs rhs|op operand|name args|start end_];
    cbn [evaluateNode valueCount argumentValues]; try reflexivity.
  - now destruct (parseCellRef ref).
  - now destruct op; try destruct (_ =? 0)%float.
  - rewrite length_map. apply expandRange_length.
Qed.

Lemma valueCount_total args :
  forall total, total <= fold_left (fun total arg => total + valueCount arg) args total.
Proof.
  induction args as [|arg args IH]; intros total; cbn [fold_left]; [lia|].
  pose proof (valueCount_nonneg arg). specialize (IH (total + valueCount arg)). lia.
Qed.

(** When the array has room for the values of all arguments, [flatMap]
    gathers them all. *)
Lemma flatMap_returns fuel g args :
  Forall
    (fun arg => Binary64.evaluateNode fuel arg g = Binary64.Returned (evaluateNode arg g))
    args ->
  fold_left (fun total arg => total + valueCount arg) args 0 <= ARRAY_MAX ->
  Binary64.flatMap (fun arg => Binary64.evaluateNode fuel arg g) args
  = Binary64.Returned (flat_map (fun arg => argumentValues (evaluateNode arg g)) args).
Proof.
  intros F. unfold Binary64.flatMap.
  assert (G : forall values total,
            Z.of_nat (List.length values) = total ->
            fold_left (fun total arg => total + valueCount arg) args total <= ARRAY_MAX ->
            fold_left
              (fun run arg =>
                 Binary64.andThen run (fun values =>
                 Binary64.andThen (Binary64.evaluateNode fuel arg g) (fun value =>
                 Binary64.Returned
                   (firstn (Z.to_nat ARRAY_MAX) (values ++ argumentValues value)))))
              args (Binary64.Returned values)
            = Binary64.Returned
                (values ++ flat_map (fun arg => argumentValues (evaluateNode arg g)) args)).
  { induction F as [|arg args Ha _ IH]; intros values total Len Room.
    - cbn [fold_left flat_map]. now rewrite app_nil_r.
    - cbn [fold_left flat_map Binary64.andThen] in *. rewrite Ha.
      cbn [Binary64.andThen].
      pose proof (valueCount_total args (total + valueCount arg)) as T.
      pose proof (argumentValues_length arg g) as L.
      rewrite firstn_all2 by (rewrite length_app; lia).
      rewrite (IH _ (total + valueCount arg)); [now rewrite <- app_assoc| |exact Room].
      rewrite length_app. lia. }
  intros Room. rewrite (G [] 0); [reflexivity|reflexivity|exact Room].
Qed.

(** The evaluator of the source, with fuel for the loops of its ranges,
    returns on a small tree the value the evaluator on integers gives,
    whatever the lookup. *)
Lemma evaluateNode_returns tree :
  smallTree tree = true ->
  exists fuel,
    forall fuel', (fuel <= fuel')%nat ->
    forall g,
      Binary64.evaluateNode fuel' tree g = Binary64.Returned (evaluateNode tree g).
Proof.
  induction tree as [value|ref|op lhs rhs IHl IHr|op operand IH|name args IH|start end_]
    using FormulaNode_induction; cbn [smallTree]; intros S.
  - exists 0%nat. reflexivity.
  - exists 0%nat. intros fuel' _ g. cbn [Binary64.evaluateNode evaluateNode].
    rewrite parseCellRef_whole by assumption.
    destruct (parseCellRef ref) as [coords|] eqn:E; [|reflexivity].
    destruct (small_coords ref coords S E). cbn [option_map Binary64.row Binary64.col].
    now rewrite getCellKey_whole by lia.
  - apply andb_true_iff in S. destruct S as [Sl Sr].
    destruct (IHl Sl) as [fl Hl]. destruct (IHr Sr) as [fr Hr].
    exists (Nat.max fl fr). intros fuel' F g.
    cbn [Binary64.evaluateNode evaluateNode].
    rewrite Hl, Hr by lia. reflexivity.
  - destruct (IH S) as [fuel H]. exists fuel. intros fuel' F g.
    cbn [Binary64.evaluateNode evaluateNode]. rewrite H by lia. reflexivity.
  - apply andb_true_iff in S. destruct S as [S Room]. apply Z.leb_le in Room.
    assert (G : exists fuel,
              forall fuel', (fuel <= fuel')%nat ->
              forall g,
                Forall
                  (fun arg =>
                     Binary64.evaluateNode fuel' arg g
                     = Binary64.Returned (evaluateNode arg g))
                  args).
    { clear Room. induction IH as [|arg args Ha _ IHa].
      - exists 0%nat. intros fuel' _ g. constructor.
      - cbn [forallb] in S. apply andb_true_iff in S. destruct S as [Sa Sr].
        destruct (Ha Sa) as [fa Hfa]. destruct (IHa Sr) as [fr Hfr].
        exists (Nat.max fa fr). intros fuel' F g. constructor.
        + apply Hfa. lia.
        + apply Hfr. lia. }
    destruct G as [fuel G]. exists fuel. intros fuel' F g.
    cbn [Binary64.evaluateNode evaluateNode].
    rewrite (flatMap_returns fuel' g args (G fuel' F g) Room). reflexivity.
  - apply andb_true_iff in S. destruct S as [S Size].
    apply andb_true_iff in S. destruct S as [Sa Sb]. apply Z.leb_le in Size.
    destruct (expandRange_returns start end_ Sa Sb Size) as [fuel H].
    exists fuel. intros fuel' F g.
    cbn [Binary64.evaluateNode evaluateNode]. now rewrite H.
Qed.

(** The trees of a small store are small. *)
Lemma smallStore_tree cells k v tree :
  smallStore cells = true -> JsMap.get k cells = Some v -> cellFormula v = Some tree ->
  smallTree tree = true.
Proof.
  unfold smallStore. intros S G C. rewrite forallb_forall in S.
  assert (I : In (k, v) cells).
  { clear S. induction cells as [|[k' v'] cells IH]; [discriminate|].
    cbn [JsMap.get] in G. destruct (String.eqb k' k) eqn:E.
    - apply String.eqb_eq in E. inversion G; subst. now left.
    - right. now apply IH. }
  specialize (S _ I). cbn [snd] in S. now rewrite C in S.
Qed.

(** *** Where the loops of the source do not return *)

Lemma andThen_stuck {A B : Type} (run : Binary64.Run A) (next : A -> Binary64.Run B) :
  (forall value, run <> Binary64.Returned value) ->
  forall result, Binary64.andThen run next <> Binary64.Returned result.
Proof. intros H result. destruct run; cbn; try discriminate. now destruct (H value). Qed.

Lemma andThen_stuck_next {A B : Type} (run : Binary64.Run A) (next : A -> Binary64.Run B) :
  (forall value result, next value <> Binary64.Returned result) ->
  forall result, Binary64.andThen run next <> Binary64.Returned result.
Proof. intros H result. destruct run; cbn; try discriminate. apply H. Qed.

(** From the row 2^53 on, [row += 1] leaves the row as it is: the loop over
    the rows never gets past it. *)
Lemma expandRows_stuck fuel :
  forall keys result,
    Binary64.expandRows fuel 9007199254740992 0 0 9007199254740992 keys
    <> Binary64.Returned result.
Proof.
  induction fuel as [|fuel IH]; intros keys result; [discriminate|].
  cbn [Binary64.expandRows].
  change (9007199254740992 <=? 9007199254740992)%float with true.
  change (9007199254740992 + 1)%float with 9007199254740992%float.
  cbv iota. apply andThen_stuck_next. exact IH.
Qed.

(** A column of 2^32 cells: the push of the last key throws. *)
Lemma expandRows_full fuel :
  forall r keys result,
    0 <= r <= ARRAY_MAX -> Z.of_nat (List.length keys) = r ->
    Binary64.expandRows fuel (whole ARRAY_MAX) (whole 0) (whole 0) (whole r) keys
    <> Binary64.Returned result.
Proof.
  assert (M : ARRAY_MAX < 2 ^ 53 - 1) by (unfold ARRAY_MAX; lia).
  induction fuel as [|fuel IH]; intros r keys result Hr Len; [discriminate|].
  cbn [Binary64.expandRows]. rewrite whole_leb by lia.
  replace (r <=? ARRAY_MAX) with true by (symmetry; apply Z.leb_le; lia).
  destruct fuel as [|fuel]; [discriminate|].
  cbn [Binary64.expandCols]. rewrite whole_leb by lia. cbn [Z.leb Z.compare].
  destruct (Z.leb_spec ARRAY_MAX (Z.of_nat (List.length keys))) as [Full|Room];
    [discriminate|].
  change 1%float with (whole 1). rewrite !whole_add by lia.
  destruct fuel as [|fuel]; [discriminate|].
  cbn [Binary64.expandCols]. rewrite whole_leb by lia. cbn [Z.add Z.leb Z.compare Pos.compare].
  cbn [Pos.compare_cont Binary64.andThen].
  apply IH; [lia|]. rewrite length_app. cbn [List.length]. lia.
Qed.

Lemma rangeSize_swap a b : rangeSize a b = rangeSize b a.
Proof.
  unfold rangeSize. destruct (parseCellRef a) as [ca|], (parseCellRef b) as [cb|]; auto.
  f_equal; lia.
Qed.

(** The range from row 2^53 to itself: the source does not return its
    keys. *)
Lemma expandRange_stuck fuel keys :
  Binary64.expandRange fuel "A9007199254740994" "A9007199254740994"
  <> Binary64.Returned keys.
Proof.
  unfold Binary64.expandRange.
  assert (P : Binary64.parseCellRef "A9007199254740994"
              = Some (Binary64.mkCoords 9007199254740992 0))
    by (vm_compute; reflexivity).
  rewrite P. cbn [Binary64.row Binary64.col].
  replace (Math_min [9007199254740992%float; 9007199254740992%float])
    with 9007199254740992%float by (vm_compute; reflexivity).
  replace (Math_max [9007199254740992%float; 9007199254740992%float])
    with 9007199254740992%float by (vm_compute; reflexivity).
  replace (Math_min [0%float; 0%float]) with 0%float by (vm_compute; reflexivity).
  replace (Math_max [0%float; 0%float]) with 0%float by (vm_compute; reflexivity).
  apply expandRows_stuck.
Qed.

(** The range of the first 2^32 rows of a column: the array is full before
    the last key. *)
Lemma expandRange_full fuel keys :
  Binary64.expandRange fuel "A1" "A4294967296" <> Binary64.Returned keys.
Proof.
  unfold Binary64.expandRange.
  assert (P : Binary64.parseCellRef "A1" = Some (Binary64.mkCoords (whole 0) (whole 0)))
    by (vm_compute; reflexivity).
  assert (Q : Binary64.parseCellRef "A4294967296"
              = Some (Binary64.mkCoords (whole ARRAY_MAX) (whole 0)))
    by (vm_compute; reflexivity).
  rewrite P, Q. cbn [Binary64.row Binary64.col].
  assert (M : 0 <= ARRAY_MAX < 2 ^ 53) by (unfold ARRAY_MAX; lia).
  rewrite !Math_min_whole, !Math_max_whole by lia.
  replace (Z.min 0 ARRAY_MAX) with 0 by lia.
  replace (Z.max 0 ARRAY_MAX) with ARRAY_MAX by lia.
  change (Z.min 0 0) with 0. change (Z.max 0 0) with 0.
  apply expandRows_full; [lia|reflexivity].
Qed.

Lemma collect_stuck name a b fuel deps :
  (forall fuel keys, Binary64.expandRange fuel a b <> Binary64.Returned keys) ->
  forall result,
    Binary64.collectDependencies fuel (NFunction name [NRange a b]) deps
    <> Binary64.Returned result.
Proof.
  intros H. cbn [Binary64.collectDependencies fold_left Binary64.andThen].
  apply andThen_stuck. intros keys. apply H.
Qed.

Lemma evaluate_stuck name a b fuel g :
  (forall fuel keys, Binary64.expandRange fuel a b <> Binary64.Returned keys) ->
  forall result,
    Binary64.evaluateNode fuel (NFunction name [NRange a b]) g
    <> Binary64.Returned result.
Proof.
  intros H. cbn [Binary64.evaluateNode]. unfold Binary64.flatMap.
  cbn [fold_left Binary64.andThen].
  apply andThen_stuck. intros values.
  apply andThen_stuck. intros value.
  apply andThen_stuck. intros keys. apply H.
Qed.

(** * The claims *)

(** C1, as the code has it.  A store is small when the references of its
    formulas have row and column numbers below 2^53, its ranges have at
    most 2^32 - 1 keys and its functions are given at most 2^32 - 1 values.
    For a small cell store (a map: distinct keys), the collector and the
    evaluator of the source return on the tree of every formula, and
    return what the collector and the evaluator on integers give.  The
    display map has every key of the store exactly once, and no other key.
    A literal cell maps to a string.  A formula cell maps to the formatted
    value of its tree, computed in the pass, or to one of the tokens
    #ERROR, #DIV/0!, #CYCLE. *)
Theorem C1_every_key_displayed cells :
  wellFormed cells ->
  smallStore cells = true ->
  let shown := calculateDisplayCells cells in
  (forall k v tree,
     JsMap.get k cells = Some v ->
     cellFormula v = Some tree ->
     exists fuel,
       forall fuel', (fuel <= fuel')%nat ->
       Binary64.collectDependencies fuel' tree []
       = Binary64.Returned (collectDependencies tree []) /\
       forall g,
         Binary64.evaluateNode fuel' tree g = Binary64.Returned (evaluateNode tree g)) /\
  NoDup (JsMap.keys shown) /\
  (forall k, In k (JsMap.keys cells) <-> In k (JsMap.keys shown)) /\
  (forall k v,
     JsMap.get k cells = Some v ->
     if isLiteral v then exists text, JsMap.get k shown = Some text
     else
       (exists tree,
          cellFormula v = Some tree /\ In k (schedule (scanCells cells)) /\
          JsMap.get k shown
          = Some (formatValue (asFormulaValue (evaluateNode tree (finalLookup cells)))))
       \/ JsMap.get k shown = Some "#ERROR"
       \/ JsMap.get k shown = Some "#DIV/0!"
       \/ JsMap.get k shown = Some "#CYCLE").
Proof.
  intros WF Small shown. split.
  { intros k v tree G C.
    pose proof (smallStore_tree cells k v tree Small G C) as S.
    destruct (collectDependencies_returns tree S) as [f1 H1].
    destruct (evaluateNode_returns tree S) as [f2 H2].
    exists (Nat.max f1 f2). intros fuel' F. split.
    - apply H1. lia.
    - apply H2. lia. }
  split; [now apply display_NoDup|].
  split; [intros k; now apply display_keys|].
  intros k v G. unfold shown. rewrite display_get, G by assumption.
  destruct (isLiteral v); [eauto|].
  destruct (cellFormula v) as [tree|]; [|auto].
  destruct (JsMap.mem k (schedule (scanCells cells))) eqn:M; [|auto].
  left. exists tree. apply mem_In in M. auto.
Qed.

Lemma C1_every_key_displayed_witness :
  let cells := [("0:0", "2"); ("1:0", "3"); ("2:0", "=A1+A2"); ("3:0", "=SUM(A1:A3)")] in
  wellFormed cells /\
  smallStore cells = true /\
  NoDup (JsMap.keys (calculateDisplayCells cells)) /\
  (In "2:0" (JsMap.keys cells) <-> In "2:0" (JsMap.keys (calculateDisplayCells cells))).
Proof.
  intros cells.
  assert (WF : wellFormed cells) by (apply distinct_NoDup; reflexivity).
  assert (Small : smallStore cells = true) by (vm_compute; reflexivity).
  split; [exact WF|]. split; [exact Small|].
  destruct (C1_every_key_displayed cells WF Small) as [_ [ND [K _]]].
  split; [exact ND | exact (K "2:0")].
Defined.

(** C1 fails as stated.  The store with the one formula
    =SUM(A9007199254740994:A9007199254740994) is a cell store, its formula
    parses, and both corners of its range resolve, to row 2^53; the
    collector of the source, whatever the fuel, does not return on the
    tree, so [calculateDisplayCells], which runs it on every formula, returns
    no display map.  The same holds of =SUM(A1:A4294967296), whose range
    has one key more than an array holds. *)
Lemma C1_counterexample :
  let formula := "=SUM(A9007199254740994:A9007199254740994)" in
  let tree := NFunction "SUM" [NRange "A9007199254740994" "A9007199254740994"] in
  let formula' := "=SUM(A1:A4294967296)" in
  let tree' := NFunction "SUM" [NRange "A1" "A4294967296"] in
  (wellFormed [("0:1", formula)] /\
   cellFormula formula = Some tree /\
   Binary64.parseCellRef "A9007199254740994"
   = Some (Binary64.mkCoords 9007199254740992 0) /\
   smallStore [("0:1", formula)] = false /\
   forall fuel deps,
     Binary64.collectDependencies fuel tree [] <> Binary64.Returned deps) /\
  (wellFormed [("0:1", formula')] /\
   cellFormula formula' = Some tree' /\
   smallStore [("0:1", formula')] = false /\
   forall fuel deps,
     Binary64.collectDependencies fuel tree' [] <> Binary64.Returned deps).
Proof.
  cbv zeta. split.
  - split; [apply distinct_NoDup; reflexivity|].
    split; [vm_compute; reflexivity|]. split; [vm_compute; reflexivity|].
    split; [vm_compute; reflexivity|].
    intros fuel deps. apply collect_stuck. intros fuel' keys. apply expandRange_stuck.
  - split; [apply distinct_NoDup; reflexivity|].
    split; [vm_compute; reflexivity|]. split; [vm_compute; reflexivity|].
    intros fuel deps. apply collect_stuck. intros fuel' keys. apply expandRange_full.
Qed.

(** C2, as the code has it.  The lookup returns the computed result when
    the key has one; otherwise the display entry of the key, which during
    the evaluation pass is the text of a literal cell; otherwise the raw
    stored text of the cell when the key is in the store at all; otherwise
    absence.  The third case is that of a formula cell with no computed
    value: a reference to a formula cell whose parse failed receives that
    cell's raw text, leading [=] included. *)
Theorem C2_lookup_tiers cells computed key :
  wellFormed cells ->
  let lookup := getCellValue computed (display (scanCells cells)) cells key in
  (forall value, JsMap.get key computed = Some value -> lookup = value) /\
  (JsMap.get key computed = None ->
   forall text, JsMap.get key cells = Some text ->
     lookup = VString text /\
     (isLiteral text = true ->
      JsMap.get key (display (scanCells cells)) = Some text) /\
     (isLiteral text = false ->
      JsMap.get key (display (scanCells cells)) = None /\
      JsString.startsWithEq text = true)) /\
  (JsMap.get key computed = None -> JsMap.get key cells = None -> lookup = VNull) /\
  (forall text,
     JsMap.get key cells = Some text ->
     parseFails text = true ->
     JsMap.get key (computedValues cells) = None /\
     finalLookup cells key = VString text).
Proof.
  intros WF lookup. unfold lookup, finalLookup, getCellValue.
  destruct (scan_formulas cells WF) as [_ [_ [-> _]]].
  rewrite literalCells_get by assumption.
  split; [|split; [|split]].
  - intros value ->. reflexivity.
  - intros -> text ->. unfold isLiteral.
    destruct (JsString.startsWithEq text); simpl; repeat split; auto; discriminate.
  - intros -> ->. reflexivity.
  - intros text G P.
    assert (N : JsMap.get key (computedValues cells) = None).
    { apply computed_unscheduled. now apply (failed_not_scheduled cells key text). }
    rewrite N, G. split; [reflexivity|].
    apply parseFails_spec in P. destruct P as [-> _]. reflexivity.
Qed.

Lemma C2_lookup_tiers_witness :
  let cells := [("0:0", "=1+"); ("0:1", "=A1"); ("0:2", "7")] in
  getCellValue [] (display (scanCells cells)) cells "0:0" = VString "=1+".
Proof.
  intros cells.
  assert (WF : wellFormed cells) by (apply distinct_NoDup; reflexivity).
  destruct (C2_lookup_tiers cells [] "0:0" WF) as [_ [H _]].
  exact (proj1 (H eq_refl "=1+" eq_refl)).
Defined.

(** C2, as stated, fails: [A1] holds [=1+], which does not parse, and [B1]
    holds [=A1].  No value is computed for [A1]; the lookup [B1] makes for
    it returns the raw text [=1+], not absence, and [B1] shows that text. *)
Lemma C2_counterexample :
  let cells := [("0:0", "=1+"); ("0:1", "=A1")] in
  parseFails "=1+" = true /\
  JsMap.get "0:0" (computedValues cells) = None /\
  finalLookup cells "0:0" = VString "=1+" /\
  finalLookup cells "0:0" <> VNull /\
  JsMap.get "0:1" (calculateDisplayCells cells) = Some "=1+".
Proof.
  vm_compute. repeat split; try reflexivity. discriminate.
Qed.






(** C5.  A division node whose right operand coerces to exactly 0 has the
    value #DIV/0!, and otherwise the quotient of the coerced operands.  The
    text #DIV/0! is not numeric and coerces to 0: a reference to a cell
    holding it is 0 as an operand and is dropped from the arguments of a
    function.  A tree that does not name the dividing cell has the same
    value whatever that cell holds.  In the example store A3 shows #DIV/0!
    and A4 shows 10; A5 = A3+1 and A6 = SUM(A3, 5), which read A3, show 1
    and 5; A7 = A3, which does no arithmetic, passes the text on. *)
Theorem C5_division_by_zero :
  (forall lhs rhs g,
     let leftNum := toNumber (operandValue (evaluateNode lhs g)) in
     let rightNum := toNumber (operandValue (evaluateNode rhs g)) in
     evaluateNode (NBinary OpDiv lhs rhs) g
     = if (rightNum =? 0)%float then One (VString "#DIV/0!")
       else One (VNumber (leftNum / rightNum)%float)) /\
  (isNumericValue (VString "#DIV/0!") = false /\
   toNumber (VString "#DIV/0!") = 0%float) /\
  (forall ref coords g,
     parseCellRef ref = Some coords ->
     g (getCellKey (row coords) (col coords)) = VString "#DIV/0!" ->
     toNumber (operandValue (evaluateNode (NCell ref) g)) = 0%float /\
     forall name rest,
       evaluateNode (NFunction name (NCell ref :: rest)) g
       = evaluateNode (NFunction name rest) g) /\
  (forall tree key g g',
     ~ In key (collectDependencies tree []) ->
     (forall d, d <> key -> g d = g' d) ->
     evaluateNode tree g = evaluateNode tree g') /\
  (let cells := [(getCellKey 0 0, "10"); (getCellKey 1 0, "0");
                 (getCellKey 2 0, "=A1/A2"); (getCellKey 3 0, "=A1+A2");
                 (getCellKey 4 0, "=A3+1"); (getCellKey 5 0, "=SUM(A3, 5)");
                 (getCellKey 6 0, "=A3")] in
   let shown := calculateDisplayCells cells in
   JsMap.get (getCellKey 2 0) shown = Some "#DIV/0!" /\
   JsMap.get (getCellKey 3 0) shown = Some "10" /\
   JsMap.get (getCellKey 4 0) shown = Some "1" /\
   JsMap.get (getCellKey 5 0) shown = Some "5" /\
   JsMap.get (getCellKey 6 0) shown = Some "#DIV/0!").
Proof.
  split; [reflexivity|]. split; [split; reflexivity|]. split; [|split].
  - intros ref coords g R H. split.
    + simpl. now rewrite R, H.
    + intros name rest. simpl. now rewrite R, H.
  - intros tree key g g' N H. apply evaluateNode_ext.
    intros d Hd. apply H. intros ->. contradiction.
  - vm_compute. repeat split; reflexivity.
Qed.

Lemma C5_division_by_zero_witness :
  toNumber (operandValue
              (evaluateNode (NCell "A3") (fun _ => VString "#DIV/0!"))) = 0%float.
Proof.
  refine (proj1 (proj1 (proj2 (proj2 C5_division_by_zero))
                   "A3" (mkCoords 2 0) (fun _ => VString "#DIV/0!") _ _)).
  - reflexivity.
  - reflexivity.
Defined.

(** C6, as the code has it.  For two references that resolve, with row and
    column numbers below 2^53 and at most 2^32 - 1 positions in the
    inclusive rectangle between the componentwise minimum and maximum of
    the two, the expansion returns the keys of the positions of that
    rectangle, every position once, in row-major order, and it returns the
    same list when the corners are swapped.  So the evaluator returns the
    same value for a function applied to such a range either way, and on
    every small store a cell holding the one formula shows the same as a
    cell holding the other, as SUM(A1:C3) and SUM(C3:A1). *)
Theorem C6_range_expansion :
  (forall a b ca cb,
     parseCellRef a = Some ca ->
     parseCellRef b = Some cb ->
     smallReference a = true ->
     smallReference b = true ->
     rangeSize a b <= ARRAY_MAX ->
     let positions :=
       rectangle (Z.min (row ca) (row cb)) (Z.max (row ca) (row cb))
                 (Z.min (col ca) (col cb)) (Z.max (col ca) (col cb)) in
     let keys := map (fun p => getCellKey (fst p) (snd p)) positions in
     (exists fuel,
        forall fuel', (fuel <= fuel')%nat ->
        Binary64.expandRange fuel' a b = Binary64.Returned keys /\
        Binary64.expandRange fuel' b a = Binary64.Returned keys) /\
     expandRange a b = keys /\
     expandRange b a = keys /\
     (forall r c,
        In (r, c) positions
        <-> Z.min (row ca) (row cb) <= r <= Z.max (row ca) (row cb) /\
            Z.min (col ca) (col cb) <= c <= Z.max (col ca) (col cb)) /\
     StronglySorted rowMajor positions) /\
  (forall name a b g,
     smallTree (NFunction name [NRange a b]) = true ->
     (exists fuel,
        forall fuel', (fuel <= fuel')%nat ->
        Binary64.evaluateNode fuel' (NFunction name [NRange a b]) g
        = Binary64.Returned (evaluateNode (NFunction name [NRange a b]) g) /\
        Binary64.evaluateNode fuel' (NFunction name [NRange b a]) g
        = Binary64.Returned (evaluateNode (NFunction name [NRange a b]) g)) /\
     evaluateNode (NFunction name [NRange a b]) g
     = evaluateNode (NFunction name [NRange b a]) g) /\
  (forall cells k1 k2 v1 v2 name a b,
     wellFormed cells ->
     ~ In "" (JsMap.keys cells) ->
     smallStore cells = true ->
     JsMap.get k1 cells = Some v1 ->
     cellFormula v1 = Some (NFunction name [NRange a b]) ->
     JsMap.get k2 cells = Some v2 ->
     cellFormula v2 = Some (NFunction name [NRange b a]) ->
     JsMap.get k1 (calculateDisplayCells cells)
     = JsMap.get k2 (calculateDisplayCells cells)) /\
  (cellFormula "=SUM(A1:C3)" = Some (NFunction "SUM" [NRange "A1" "C3"]) /\
   cellFormula "=SUM(C3:A1)" = Some (NFunction "SUM" [NRange "C3" "A1"]) /\
   expandRange "C3" "A1"
   = ["0:0"; "0:1"; "0:2"; "1:0"; "1:1"; "1:2"; "2:0"; "2:1"; "2:2"] /\
   Binary64.expandRange 12 "C3" "A1"
   = Binary64.Returned ["0:0"; "0:1"; "0:2"; "1:0"; "1:1"; "1:2"; "2:0"; "2:1"; "2:2"]).
Proof.
  assert (Both : forall a b,
            smallReference a = true -> smallReference b = true ->
            rangeSize a b <= ARRAY_MAX ->
            exists fuel,
              forall fuel', (fuel <= fuel')%nat ->
              Binary64.expandRange fuel' a b = Binary64.Returned (expandRange a b) /\
              Binary64.expandRange fuel' b a = Binary64.Returned (expandRange a b)).
  { intros a b Sa Sb Size.
    destruct (expandRange_returns a b Sa Sb Size) as [f1 H1].
    destruct (expandRange_returns b a Sb Sa) as [f2 H2]; [now rewrite rangeSize_swap|].
    exists (Nat.max f1 f2). intros fuel' F.
    rewrite H1, H2 by lia. now rewrite (expandRange_swap b a). }
  split; [|split; [|split]].
  - intros a b ca cb Ra Rb Sa Sb Size positions keys.
    assert (E : expandRange a b = keys).
    { unfold expandRange. rewrite Ra, Rb. apply flat_map_prod. }
    split; [|split; [|split; [|split]]].
    + rewrite <- E. now apply Both.
    + exact E.
    + now rewrite expandRange_swap.
    + intros r c. apply rectangle_In.
    + apply rectangle_sorted.
  - intros name a b g S.
    assert (E : evaluateNode (NFunction name [NRange a b]) g
                = evaluateNode (NFunction name [NRange b a]) g).
    { simpl. now rewrite (expandRange_swap a b). }
    assert (S' : smallTree (NFunction name [NRange b a]) = true).
    { cbn [smallTree forallb fold_left valueCount] in *.
      rewrite (rangeSize_swap b a), (andb_comm (smallReference b)). exact S. }
    split; [|exact E].
    destruct (evaluateNode_returns _ S) as [f1 H1].
    destruct (evaluateNode_returns _ S') as [f2 H2].
    exists (Nat.max f1 f2). intros fuel' F.
    rewrite H1, H2 by lia. now rewrite E.
  - intros cells k1 k2 v1 v2 name a b WF NE _ G1 C1 G2 C2.
    apply (same_tree_same_display cells k1 k2 v1 v2 _ _ WF NE G1 C1 G2 C2).
    + simpl. now rewrite (expandRange_swap a b).
    + intros g. simpl. now rewrite (expandRange_swap a b).
  - vm_compute. repeat split; reflexivity.
Qed.

Lemma C6_range_expansion_witness :
  expandRange "C3" "A1"
  = map (fun p => getCellKey (fst p) (snd p)) (rectangle 0 2 0 2).
Proof.
  assert (Size : rangeSize "C3" "A1" <= ARRAY_MAX) by (vm_compute; discriminate).
  destruct (proj1 C6_range_expansion "C3" "A1" (mkCoords 2 2) (mkCoords 0 0)
              eq_refl eq_refl eq_refl eq_refl Size) as [_ [E _]].
  exact E.
Defined.

(** C6 fails as stated.  The reference A9007199254740994 resolves, to row
    2^53, where adding 1 to the row leaves it as it is: the expansion from
    the reference to itself returns no keys, whatever the fuel, and a
    function applied to the range has no value.  The references A1 and
    A4294967296 resolve, and the rectangle between them has 2^32
    positions, one more than an array holds: the expansion returns no keys
    either. *)
Lemma C6_counterexample :
  (Binary64.parseCellRef "A9007199254740994"
   = Some (Binary64.mkCoords 9007199254740992 0) /\
   (forall fuel keys,
      Binary64.expandRange fuel "A9007199254740994" "A9007199254740994"
      <> Binary64.Returned keys) /\
   forall fuel g value,
     Binary64.evaluateNode
       fuel (NFunction "SUM" [NRange "A9007199254740994" "A9007199254740994"]) g
     <> Binary64.Returned value) /\
  (Binary64.parseCellRef "A1" = Some (Binary64.mkCoords 0 0) /\
   Binary64.parseCellRef "A4294967296" = Some (Binary64.mkCoords 4294967295 0) /\
   rangeSize "A1" "A4294967296" = 2 ^ 32 /\
   (forall fuel keys,
      Binary64.expandRange fuel "A1" "A4294967296" <> Binary64.Returned keys) /\
   forall fuel g value,
     Binary64.evaluateNode fuel (NFunction "SUM" [NRange "A1" "A4294967296"]) g
     <> Binary64.Returned value).
Proof.
  split.
  - split; [vm_compute; reflexivity|].
    split; [intros fuel keys; apply expandRange_stuck|].
    intros fuel g value. apply evaluate_stuck. intros fuel' keys. apply expandRange_stuck.
  - split; [vm_compute; reflexivity|]. split; [vm_compute; reflexivity|].
    split; [vm_compute; reflexivity|].
    split; [intros fuel keys; apply expandRange_full|].
    intros fuel g value. apply evaluate_stuck. intros fuel' keys. apply expandRange_full.
Qed.

(** C7, as the code has it.  A value is numeric exactly when it is a finite
    number, or a string whose trimmed text is a decimal with an optional
    minus sign: digits, optionally followed by a dot and digits; a plus sign
    is not part of the pattern.  A numeric string coerces to the number its
    trimmed text spells, absence and every other string coerce to 0, and a
    finite number coerces to itself.  Unary operators and binary arithmetic
    coerce their operands with this rule, and a function keeps the
    arguments that are numeric and coerces them with it. *)
Theorem C7_numeric_coercion :
  (forall n, isNumericValue (VNumber n) = JsNumber.isFinite n) /\
  (forall s,
     isNumericValue (VString s) = true
     <-> exists minus whole fraction,
           signedDecimal minus whole fraction (JsString.chars (JsString.trim s))) /\
  isNumericValue VNull = false /\
  (forall s minus whole fraction,
     signedDecimal minus whole fraction (JsString.chars (JsString.trim s)) ->
     toNumber (VString s) = JsNumber.parseFloat (JsString.trim s) /\
     toNumber (VString s)
     = JsNumber.roundQuotient minus
         (JsString.digitsValue
            (whole ++ match fraction with Some digits => digits | None => [] end))
         (10 ^ Z.of_nat
                 (List.length
                    match fraction with Some digits => digits | None => [] end))) /\
  (forall s, isNumericValue (VString s) = false -> toNumber (VString s) = 0%float) /\
  toNumber VNull = 0%float /\
  (forall n, JsNumber.isFinite n = true -> toNumber (VNumber n) = n) /\
  (forall op operand g,
     let numeric := toNumber (operandValue (evaluateNode operand g)) in
     evaluateNode (NUnary op operand) g
     = One (VNumber match op with OpMinus => (- numeric)%float | OpPlus => numeric end)) /\
  (forall op lhs rhs g,
     let leftNum := toNumber (operandValue (evaluateNode lhs g)) in
     let rightNum := toNumber (operandValue (evaluateNode rhs g)) in
     evaluateNode (NBinary op lhs rhs) g
     = match op with
       | OpAdd => One (VNumber (leftNum + rightNum)%float)
       | OpSub => One (VNumber (leftNum - rightNum)%float)
       | OpMul => One (VNumber (leftNum * rightNum)%float)
       | OpDiv =>
           if (rightNum =? 0)%float then One (VString "#DIV/0!")
           else One (VNumber (leftNum / rightNum)%float)
       end) /\
  (forall name args g,
     let rawArgs := flat_map (fun arg => argumentValues (evaluateNode arg g)) args in
     evaluateNode (NFunction name args) g
     = One (applyFunction (JsString.toUpperCase name)
              (map toNumber (filter isNumericValue rawArgs)))) /\
  (toNumber (VString " -12.50 ") = (-12.5)%float /\
   toNumber (VString "7") = 7%float /\
   toNumber (VString "1e3") = 0%float /\
   toNumber (VString "abc") = 0%float).
Proof.
  split; [reflexivity|]. split.
  { intros s. simpl. apply NUMBER_RE_test_spec. }
  split; [reflexivity|]. split.
  { intros s minus whole fraction D.
    assert (T : NUMBER_RE_test (JsString.trim s) = true).
    { apply NUMBER_RE_test_spec. eauto. }
    assert (E : toNumber (VString s) = JsNumber.parseFloat (JsString.trim s)).
    { simpl. now rewrite T. }
    split; [exact E|]. rewrite E. now apply parseFloat_signedDecimal. }
  split.
  { intros s H. simpl in *. now rewrite H. }
  split; [reflexivity|]. split; [reflexivity|].
  split; [reflexivity|]. split.
  { intros op lhs rhs g. simpl. now destruct op. }
  split; [reflexivity|].
  vm_compute. repeat split; reflexivity.
Qed.

Lemma C7_numeric_coercion_witness :
  toNumber (VString " -12.50 ") = JsNumber.parseFloat (JsString.trim " -12.50 ").
Proof.
  refine (proj1 (proj1 (proj2 (proj2 (proj2 C7_numeric_coercion)))
                   " -12.50 " true ["1"; "2"]%char (Some ["5"; "0"]%char) _)).
  vm_compute. repeat split; discriminate.
Defined.

(** C7, as stated, fails: the text [+5] is signed decimal text with a plus
    sign, yet it is not numeric and coerces to 0, not to 5; and the
    non-finite number infinity coerces to itself, not to 0. *)
Lemma C7_counterexample :
  isNumericValue (VString "+5") = false /\
  toNumber (VString "+5") = 0%float /\
  toNumber (VString "+5") <> JsNumber.parseFloat "+5" /\
  JsNumber.isFinite infinity = false /\
  toNumber (VNumber infinity) = infinity /\
  toNumber (VNumber infinity) <> 0%float.
Proof.
  vm_compute. repeat split; try reflexivity; discriminate.
Qed.



(** C9.  Two runs of the engine on the same store give the same display
    map, entry for entry: the engine is a function of the store alone, it
    keeps nothing between calls and reads no clock or random source.  The
    display entries depend on the mapping only: two stores that hold the
    same texts under the same keys, inserted in any order, give the same
    entry for every key (the order in which the Kahn pass dequeues cells
    does not show). *)
Theorem C9_deterministic :
  (forall cells first second,
     first = calculateDisplayCells cells ->
     second = calculateDisplayCells cells ->
     first = second /\ forall k, JsMap.get k first = JsMap.get k second) /\
  (forall cells cells',
     wellFormed cells ->
     wellFormed cells' ->
     ~ In "" (JsMap.keys cells) ->
     sameMapping cells cells' ->
     forall k, JsMap.get k (calculateDisplayCells cells)
               = JsMap.get k (calculateDisplayCells cells')).
Proof.
  split.
  - intros cells first second -> ->. split; reflexivity.
  - intros cells cells' WF WF' NE S k. now apply same_display.
Qed.

Lemma C9_deterministic_witness :
  let cells := [("0:0", "1"); ("0:1", "=A1+C1"); ("0:2", "=A1*2")] in
  let cells' := [("0:2", "=A1*2"); ("0:1", "=A1+C1"); ("0:0", "1")] in
  JsMap.get "0:1" (calculateDisplayCells cells)
  = JsMap.get "0:1" (calculateDisplayCells cells').
Proof.
  intros cells cells'.
  refine (proj2 C9_deterministic cells cells' _ _ _ _ "0:1").
  - apply distinct_NoDup. reflexivity.
  - apply distinct_NoDup. reflexivity.
  - simpl. intuition discriminate.
  - intros k. unfold cells, cells'. cbn [JsMap.get].
    destruct (String.eqb "0:0" k) eqn:E0;
      destruct (String.eqb "0:1" k) eqn:E1;
      destruct (String.eqb "0:2" k) eqn:E2; try reflexivity;
      repeat match goal with
             | H : String.eqb _ _ = true |- _ => apply String.eqb_eq in H
             end;
      congruence.
Defined.



(** * Further properties *)

(* THMS *)

(** ** The cone of a cell *)

Lemma reads_names cells k d : wellFormed cells -> reads cells k d -> names cells k d.
Proof.
  intros WF R. unfold reads, precedents in R.
  destruct (JsMap.get k (parsedCells cells)) as [tree|] eqn:G; [|destruct R].
  apply filter_In in R. exists tree. tauto.
Qed.

Lemma dependsOn_names cells k m d :
  dependsOn cells k m -> names cells m d -> dependsOn cells k d.
Proof.
  intros D N. induction D as [k m H|k x m H D IH].
  - eapply dependsFurther; eauto. now apply dependsDirectly.
  - eapply dependsFurther; eauto.
Qed.

Lemma dependsOn_last cells k d : dependsOn cells k d -> exists m, names cells m d.
Proof. intros D. induction D as [k d H|k m d H D IH]; eauto. Qed.

Lemma cone_names cells k m d : cone cells k m -> names cells m d -> cone cells k d.
Proof.
  intros [->|D] N; right.
  - now apply dependsDirectly.
  - eapply dependsOn_names; eauto.
Qed.

Section Cone.

Variables cells cells' : list (string * string).
Variable k : string.
Hypothesis WF : wellFormed cells.
Hypothesis WF' : wellFormed cells'.
Hypothesis agree : forall d, cone cells k d -> JsMap.get d cells = JsMap.get d cells'.

Lemma cone_parsed d :
  cone cells k d ->
  JsMap.get d (parsedCells cells) = JsMap.get d (parsedCells cells').
Proof. intros C. now rewrite !parsedCells_get, agree. Qed.

Lemma cone_names_other m d : cone cells k m -> names cells' m d -> names cells m d.
Proof.
  intros C [tree [G H]]. exists tree. split; auto. now rewrite cone_parsed.
Qed.

Lemma cone_dependsOn m d : cone cells k m -> dependsOn cells' m d -> dependsOn cells m d.
Proof.
  intros C D. induction D as [m d H|m x d H D IH].
  - apply dependsDirectly. now apply cone_names_other.
  - pose proof (cone_names_other m x C H) as N.
    eapply dependsFurther; eauto. apply IH. eapply cone_names; eauto.
Qed.

Lemma cone_other d : cone cells' k d -> cone cells k d.
Proof.
  intros [->|D]; [now left|]. right. apply cone_dependsOn; auto. now left.
Qed.

Lemma cone_precedents d :
  cone cells k d ->
  precedents (parsedCells cells) d = precedents (parsedCells cells') d.
Proof.
  intros C. unfold precedents. rewrite <- cone_parsed by assumption.
  destruct (JsMap.get d (parsedCells cells)) as [tree|] eqn:G; auto.
  apply filter_ext_in. intros e He. unfold JsMap.has.
  rewrite cone_parsed; auto. apply (cone_names cells k d e C). now exists tree.
Qed.

Lemma cone_chain d x :
  cone cells k d -> readsThrough cells d x ->
  cone cells k x /\ readsThrough cells' d x.
Proof.
  intros C R. induction R as [v u H|v m u H R IH].
  - split.
    + eapply cone_names; eauto. now apply reads_names.
    + apply chain_one. now rewrite <- cone_precedents.
  - assert (Cm : cone cells k m).
    { eapply cone_names; eauto. now apply reads_names. }
    destruct (IH Cm) as [Cu Ru]. split; auto.
    eapply chain_more; eauto. now rewrite <- cone_precedents.
Qed.

Lemma cone_reachesCycle d : cone cells k d -> reachesCycle cells d -> reachesCycle cells' d.
Proof.
  intros C [R|[x [R Rx]]].
  - left. now apply cone_chain.
  - destruct (cone_chain d x C R) as [Cx R']. right. exists x. split; auto.
    now apply cone_chain.
Qed.

End Cone.

Section Local.

Variables cells cells' : list (string * string).
Variable k : string.
Hypothesis WF : wellFormed cells.
Hypothesis WF' : wellFormed cells'.
Hypothesis keyed : ~ In "" (JsMap.keys cells).
Hypothesis keyed' : ~ In "" (JsMap.keys cells').
Hypothesis agree : forall d, cone cells k d -> JsMap.get d cells = JsMap.get d cells'.

Lemma agree_back : forall d, cone cells' k d -> JsMap.get d cells' = JsMap.get d cells.
Proof.
  intros d C. symmetry. apply agree. now apply (cone_other cells cells' k WF WF' agree).
Qed.

Lemma local_scheduled d :
  cone cells k d ->
  (In d (schedule (scanCells cells)) <-> In d (schedule (scanCells cells'))).
Proof.
  intros C. rewrite !scheduled_iff, <- !get_In by assumption.
  rewrite (cone_parsed cells cells' k WF WF' agree d C).
  assert (C' : cone cells' k d).
  { apply (cone_other cells' cells k WF' WF agree_back). exact C. }
  split; intros [P N]; split; auto; intros R; apply N.
  - now apply (cone_reachesCycle cells' cells k WF' WF agree_back).
  - now apply (cone_reachesCycle cells cells' k WF WF' agree).
Qed.

Lemma local_lookup_tiers e :
  cone cells k e ->
  JsMap.get e (computedValues cells) = JsMap.get e (computedValues cells') ->
  finalLookup cells e = finalLookup cells' e.
Proof.
  intros C E. unfold finalLookup, getCellValue. rewrite <- E.
  destruct (scan_formulas cells WF) as [_ [_ [-> _]]].
  destruct (scan_formulas cells' WF') as [_ [_ [-> _]]].
  now rewrite !literalCells_get, (agree e C).
Qed.

Lemma local_computed l1 :
  forall l2, schedule (scanCells cells) = l1 ++ l2 ->
  forall d, In d l1 -> cone cells k d ->
  JsMap.get d (computedValues cells) = JsMap.get d (computedValues cells').
Proof.
  induction l1 as [|x l1 IH] using rev_ind; intros l2 E d Hd C; [destruct Hd|].
  rewrite <- app_assoc in E. simpl in E.
  apply in_app_iff in Hd. destruct Hd as [Hd|[<-|[]]].
  { now apply (IH (x :: l2)). }
  assert (Hx : In x (schedule (scanCells cells))).
  { rewrite E. apply in_app_iff. simpl. auto. }
  pose proof (schedule_nodes cells x WF Hx) as Px.
  apply get_In in Px. destruct Px as [tree G].
  rewrite (computed_at cells x tree WF Hx G).
  rewrite (computed_at cells' x tree WF').
  2:{ now apply local_scheduled. }
  2:{ now rewrite <- (cone_parsed cells cells' k WF WF' agree). }
  f_equal. f_equal. apply evaluateNode_ext. intros e He.
  assert (Ce : cone cells k e).
  { apply (cone_names cells k x e C). now exists tree. }
  apply local_lookup_tiers; auto.
  destruct (in_dec string_dec e (schedule (scanCells cells))) as [S|S].
  - apply (IH (x :: l2)); auto.
    apply (schedule_before cells l1 x l2 e WF E).
    unfold precedents. rewrite G. apply filter_In. split; auto.
    apply has_In. now apply schedule_nodes.
  - rewrite !computed_unscheduled; auto. now rewrite <- local_scheduled.
Qed.

Lemma local_lookup e : cone cells k e -> finalLookup cells e = finalLookup cells' e.
Proof.
  intros C. apply local_lookup_tiers; auto.
  destruct (in_dec string_dec e (schedule (scanCells cells))) as [S|S].
  - apply (local_computed (schedule (scanCells cells)) []); auto.
    now rewrite app_nil_r.
  - rewrite !computed_unscheduled; auto. now rewrite <- local_scheduled.
Qed.

Lemma local_display :
  JsMap.get k (calculateDisplayCells cells)
  = JsMap.get k (calculateDisplayCells cells').
Proof.
  assert (Ck : cone cells k k) by now left.
  rewrite !display_get, <- (agree k Ck) by assumption.
  destruct (JsMap.get k cells) as [v|] eqn:G; auto.
  destruct (isLiteral v); auto.
  destruct (cellFormula v) as [tree|] eqn:F; auto.
  assert (M : JsMap.mem k (schedule (scanCells cells))
              = JsMap.mem k (schedule (scanCells cells'))).
  { destruct (JsMap.mem k (schedule (scanCells cells'))) eqn:M'.
    - apply mem_In. apply local_scheduled; auto. now apply mem_In.
    - apply mem_false. rewrite local_scheduled; auto. now apply mem_false. }
  rewrite M. destruct (JsMap.mem k (schedule (scanCells cells'))); auto.
  f_equal. f_equal. f_equal. apply evaluateNode_ext. intros e He.
  apply local_lookup. apply (cone_names cells k k e Ck).
  exists tree. split; auto. now rewrite parsedCells_get, G.
Qed.

End Local.

(** X1.  The order in which the Kahn pass dequeues cells is topological:
    no cell is dequeued twice, every dequeued cell is a formula cell whose
    text parses, and every formula cell that a dequeued cell names was
    dequeued before it. *)
Theorem X1_schedule_topological cells :
  wellFormed cells ->
  let ordered := schedule (scanCells cells) in
  NoDup ordered /\
  (forall k, In k ordered ->
     exists v tree, JsMap.get k cells = Some v /\ cellFormula v = Some tree) /\
  (forall l1 k l2 d, ordered = l1 ++ k :: l2 -> reads cells k d -> In d l1).
Proof.
  intros WF ordered. split; [now apply schedule_NoDup|]. split.
  - intros k H. apply schedule_nodes in H; auto.
    apply get_In in H. destruct H as [tree G].
    rewrite parsedCells_get in G by assumption.
    destruct (JsMap.get k cells) as [v|]; [|discriminate]. eauto.
  - intros l1 k l2 d E R. now apply (schedule_before cells l1 k l2 d WF E).
Qed.

Lemma X1_schedule_topological_witness :
  let cells := [(getCellKey 0 2, "=B1+A1"); (getCellKey 0 1, "=A1+1");
                (getCellKey 0 0, "1")] in
  schedule (scanCells cells) = [getCellKey 0 1; getCellKey 0 2] /\
  NoDup (schedule (scanCells cells)).
Proof.
  intros cells. split; [reflexivity|].
  refine (proj1 (X1_schedule_topological cells _)).
  apply distinct_NoDup. reflexivity.
Defined.

(** X2.  The dependency graph the engine builds has the formula cells that
    parse as its nodes, in the order of the store.  The count it keeps for a
    cell is the number of distinct formula cells the cell names, and the set
    it keeps for a cell holds, each once, the formula cells that name it. *)
Theorem X2_graph_counts cells :
  wellFormed cells ->
  let s := scanCells cells in
  let g := buildGraph (formulas s) (dependencies s) in
  JsMap.keys (indegree g) = JsMap.keys (parsedCells cells) /\
  JsMap.keys (adjacency g) = JsMap.keys (parsedCells cells) /\
  (forall k, In k (JsMap.keys (parsedCells cells)) ->
     NoDup (precedents (parsedCells cells) k) /\
     JsMap.get k (indegree g)
     = Some (Z.of_nat (List.length (precedents (parsedCells cells) k)))) /\
  (forall d, In d (JsMap.keys (parsedCells cells)) ->
     exists readers,
       JsMap.get d (adjacency g) = Some readers /\ NoDup readers /\
       forall c, In c readers <-> reads cells c d).
Proof.
  intros WF s g. unfold g, s.
  destruct (scan_formulas cells WF) as [-> [-> _]].
  pose proof (parsedCells_NoDup cells WF) as ND.
  destruct (graph_invariant (parsedCells cells) ND) as [K [I A]].
  split; [exact K|]. split; [now apply graph_adjacency_keys|]. split.
  - intros k H. split; [apply precedents_NoDup | now apply I].
  - intros d H. destruct (A d H) as [readers [G [N R]]].
    exists readers. split; auto. split; auto. intros c. rewrite R. unfold reads.
    split; [tauto|]. intros P. split; auto. eapply precedents_reader; eauto.
Qed.

Lemma X2_graph_counts_witness :
  let cells := [(getCellKey 0 0, "1"); (getCellKey 0 1, "=A1+C1+C1");
                (getCellKey 0 2, "=A1*2")] in
  JsMap.keys (indegree (buildGraph (formulas (scanCells cells))
                                   (dependencies (scanCells cells))))
  = [getCellKey 0 1; getCellKey 0 2].
Proof.
  intros cells.
  refine (proj1 (X2_graph_counts cells _)).
  apply distinct_NoDup. reflexivity.
Defined.



(** ** The lexer, one token at a time *)

Lemma chars_length s : List.length (JsString.chars s) = String.length s.
Proof. unfold JsString.chars. induction s; simpl; auto. Qed.

Lemma tokenize_tokensOf input : tokenize input = tokensOf (JsString.chars input).
Proof. unfold tokenize, tokensOf. now rewrite chars_length. Qed.

Lemma tokensOf_fuel fuel input :
  (List.length input <= fuel)%nat -> tokenizeFrom fuel input = tokensOf input.
Proof. intros L. apply tokenizeFrom_any_fuel; auto. Qed.

Lemma tokensOf_nil : tokensOf [] = [eofToken].
Proof. reflexivity. Qed.

Lemma tokensOf_cons char rest :
  tokensOf (char :: rest)
  = if isBlank char then tokensOf rest
    else if isOperatorChar char then charToken TOperator char :: tokensOf rest
    else if isParenChar char then charToken TParen char :: tokensOf rest
    else if Ascii.eqb char "," then charToken TComma char :: tokensOf rest
    else if Ascii.eqb char ":" then charToken TColon char :: tokensOf rest
    else if JsString.isDigit char || (Ascii.eqb char "." && nextIsDigit rest) then
      mkToken TNumber (JsString.text (char :: JsString.takeWhile isDigitOrDot rest))
        :: tokensOf (JsString.dropWhile isDigitOrDot rest)
    else if JsString.isAlpha char then
      let letters := char :: JsString.takeWhile JsString.isAlpha rest in
      let rest1 := JsString.dropWhile JsString.isAlpha rest in
      let digits := JsString.takeWhile JsString.isDigit rest1 in
      let rest2 := JsString.dropWhile JsString.isDigit rest1 in
      match digits with
      | _ :: _ => mkToken TCell (JsString.text (letters ++ digits))
      | [] => mkToken TIdentifier (JsString.text letters)
      end :: tokensOf rest2
    else tokensOf rest.
Proof.
  unfold tokensOf at 1. cbn [List.length tokenizeFrom].
  pose proof (dropWhile_length isDigitOrDot rest).
  pose proof (dropWhile_length JsString.isAlpha rest).
  pose proof (dropWhile_length JsString.isDigit (JsString.dropWhile JsString.isAlpha rest)).
  rewrite !tokensOf_fuel by lia. reflexivity.
Qed.

Lemma takeWhile_forallb p cs : forallb p (JsString.takeWhile p cs) = true.
Proof. apply takeWhile_all. Qed.

Lemma charToken_operator c : isOperatorChar c = true -> tokenShape (charToken TOperator c).
Proof.
  unfold isOperatorChar, tokenShape, charToken. cbn [tokType tokValue]. intros H.
  repeat (apply orb_true_iff in H; destruct H as [H|H]);
    apply Ascii.eqb_eq in H; subst; simpl; auto.
Qed.

Lemma charToken_paren c : isParenChar c = true -> tokenShape (charToken TParen c).
Proof.
  unfold isParenChar, tokenShape, charToken. cbn [tokType tokValue]. intros H.
  apply orb_true_iff in H. destruct H as [H|H];
    apply Ascii.eqb_eq in H; subst; simpl; auto.
Qed.

Lemma tokensOf_shape n :
  forall input,
    (List.length input <= n)%nat ->
    exists body,
      tokensOf input = body ++ [eofToken] /\ Forall tokenShape body /\
      (List.length body <= List.length input)%nat.
Proof.
  induction n as [|n IH]; intros input L.
  - destruct input; [|simpl in L; lia]. exists []. repeat split; auto.
  - destruct input as [|char rest].
    { exists []. repeat split; auto. }
    simpl in L. rewrite tokensOf_cons.
    pose proof (dropWhile_length isDigitOrDot rest) as L1.
    pose proof (dropWhile_length JsString.isAlpha rest) as L2.
    pose proof (dropWhile_length JsString.isDigit
                  (JsString.dropWhile JsString.isAlpha rest)) as L3.
    assert (Skip : exists body,
               tokensOf rest = body ++ [eofToken] /\ Forall tokenShape body /\
               (List.length body <= List.length (char :: rest))%nat).
    { destruct (IH rest ltac:(lia)) as [body [E [F B]]].
      exists body. repeat split; auto. simpl. lia. }
    assert (Push : forall t rest',
               tokenShape t -> (List.length rest' <= List.length rest)%nat ->
               exists body,
                 t :: tokensOf rest' = body ++ [eofToken] /\ Forall tokenShape body /\
                 (List.length body <= List.length (char :: rest))%nat).
    { intros t rest' S Lr. destruct (IH rest' ltac:(lia)) as [body [E [F B]]].
      exists (t :: body). rewrite E. repeat split; auto. simpl. lia. }
    destruct (isBlank char); [exact Skip|].
    destruct (isOperatorChar char) eqn:Eo.
    { apply Push; auto. now apply charToken_operator. }
    destruct (isParenChar char) eqn:Ep.
    { apply Push; auto. now apply charToken_paren. }
    destruct (Ascii.eqb char ",") eqn:Ec.
    { apply Push; auto. apply Ascii.eqb_eq in Ec. now subst. }
    destruct (Ascii.eqb char ":") eqn:El.
    { apply Push; auto. apply Ascii.eqb_eq in El. now subst. }
    destruct (JsString.isDigit char || (Ascii.eqb char "." && nextIsDigit rest)) eqn:En.
    { apply Push; auto. unfold tokenShape. cbn [tokType tokValue].
      rewrite chars_text. eexists _, _. split; [reflexivity|]. split.
      - cbn [forallb]. rewrite takeWhile_all, andb_true_r. unfold isDigitOrDot.
        apply orb_true_iff in En. destruct En as [->|En]; [reflexivity|].
        apply andb_true_iff in En. destruct En as [-> _]. apply orb_true_r.
      - apply orb_true_iff in En. destruct En as [En|En]; [now left|].
        apply andb_true_iff in En. destruct En as [_ En]. right.
        destruct rest as [|d rest]; [discriminate|]. simpl in *.
        unfold isDigitOrDot. now rewrite En. }
    destruct (JsString.isAlpha char) eqn:Ea; [|exact Skip].
    cbv zeta.
    assert (LR : letterRun (char :: JsString.takeWhile JsString.isAlpha rest)).
    { split; [discriminate|]. cbn [forallb]. now rewrite Ea, takeWhile_all. }
    destruct (JsString.takeWhile JsString.isDigit
                (JsString.dropWhile JsString.isAlpha rest)) as [|d ds] eqn:Ed.
    + apply Push; [|lia]. unfold tokenShape. cbn [tokType tokValue].
      now rewrite chars_text.
    + apply Push; [|lia]. unfold tokenShape. cbn [tokType tokValue].
      rewrite chars_text. eexists _, _. split; [exact LR|]. split; [|reflexivity].
      split; [discriminate|]. rewrite <- Ed. apply takeWhile_all.
Qed.

(** ** A stray character ends a token as a blank does *)

Lemma stop_split p a c d b :
  p c = false -> p d = false ->
  JsString.takeWhile p (a ++ c :: b) = JsString.takeWhile p (a ++ d :: b) /\
  exists a',
    (List.length a' <= List.length a)%nat /\
    JsString.dropWhile p (a ++ c :: b) = a' ++ c :: b /\
    JsString.dropWhile p (a ++ d :: b) = a' ++ d :: b.
Proof.
  intros Pc Pd. induction a as [|x a IH].
  - simpl. rewrite Pc, Pd. split; auto. exists []. auto.
  - destruct IH as [T [a' [L [D1 D2]]]]. cbn [app JsString.takeWhile JsString.dropWhile].
    destruct (p x).
    + split; [now rewrite T|]. exists a'. simpl. repeat split; auto.
    + split; auto. exists (x :: a). auto.
Qed.

Lemma isStray_parts c :
  isStray c = true ->
  isBlank c = false /\ isOperatorChar c = false /\ isParenChar c = false /\
  Ascii.eqb c "," = false /\ Ascii.eqb c ":" = false /\ JsString.isDigit c = false /\
  Ascii.eqb c "." = false /\ JsString.isAlpha c = false.
Proof.
  unfold isStray. intros H. apply negb_true_iff in H.
  apply orb_false_iff in H. destruct H as [H H8].
  apply orb_false_iff in H. destruct H as [H H7].
  apply orb_false_iff in H. destruct H as [H H6].
  apply orb_false_iff in H. destruct H as [H H5].
  apply orb_false_iff in H. destruct H as [H H4].
  apply orb_false_iff in H. destruct H as [H H3].
  apply orb_false_iff in H. destruct H as [H1 H2].
  repeat split; assumption.
Qed.

Lemma tokensOf_stray c b n :
  isStray c = true ->
  forall a, (List.length a <= n)%nat ->
            tokensOf (a ++ c :: b) = tokensOf (a ++ " "%char :: b).
Proof.
  intros S. destruct (isStray_parts c S) as [S1 [S2 [S3 [S4 [S5 [S6 [S7 S8]]]]]]].
  assert (Dd : isDigitOrDot c = false) by (unfold isDigitOrDot; now rewrite S6, S7).
  induction n as [|n IH]; intros a L.
  - destruct a; [|simpl in L; lia]. cbn [app]. rewrite !tokensOf_cons.
    rewrite S1, S2, S3, S4, S5, S6, S7, S8. reflexivity.
  - destruct a as [|x a].
    { cbn [app]. rewrite !tokensOf_cons.
      rewrite S1, S2, S3, S4, S5, S6, S7, S8. reflexivity. }
    simpl in L. cbn [app]. rewrite !tokensOf_cons.
    assert (N : nextIsDigit (a ++ c :: b) = nextIsDigit (a ++ " "%char :: b)).
    { destruct a; simpl; auto. }
    rewrite N.
    destruct (stop_split isDigitOrDot a c " "%char b Dd eq_refl)
      as [T1 [a1 [L1 [D1 D1']]]].
    destruct (stop_split JsString.isAlpha a c " "%char b S8 eq_refl)
      as [T2 [a2 [L2 [D2 D2']]]].
    destruct (stop_split JsString.isDigit a2 c " "%char b S6 eq_refl)
      as [T3 [a3 [L3 [D3 D3']]]].
    rewrite (IH a) by lia.
    rewrite T1, D1, D1', (IH a1) by lia.
    cbv zeta. rewrite T2, D2, D2', T3, D3, D3', (IH a3) by lia.
    reflexivity.
Qed.

Lemma tokensOf_skipped cs :
  forallb (fun c => isBlank c || isStray c) cs = true -> tokensOf cs = [eofToken].
Proof.
  induction cs as [|c cs IH]; intros F; [reflexivity|].
  simpl in F. apply andb_true_iff in F. destruct F as [Fc F].
  rewrite tokensOf_cons. destruct (isBlank c) eqn:B; [auto|].
  simpl in Fc. destruct (isStray_parts c Fc) as [_ [-> [-> [-> [-> [-> [-> ->]]]]]]].
  cbn [orb andb]. auto.
Qed.

(** X4.  The lexer ends its output with the end-of-input token and puts it
    nowhere else; it makes at most one token per character.  A number token
    holds digits and dots and begins with a digit, or with a dot that a
    digit follows; a name holds letters; a reference holds letters and then
    digits, so it has the form the resolver asks for; the other tokens hold
    their one character. *)
Theorem X4_lexer_tokens input :
  exists body,
    tokenize input = body ++ [eofToken] /\
    Forall tokenShape body /\
    (List.length body <= String.length input)%nat.
Proof.
  rewrite tokenize_tokensOf, <- chars_length.
  now apply (tokensOf_shape (List.length (JsString.chars input))).
Qed.

(** X5.  A character that is no blank and belongs to none of the classes
    the lexer looks for is passed over, and it ends the token before it as a
    blank does: the text with the character gives the same tokens, and the
    formula the same tree, as the text with a space in its place.  A formula
    of blanks and such characters only has no token and does not parse. *)
Theorem X5_stray_characters :
  (forall a c b,
     isStray c = true ->
     tokenize (JsString.text (a ++ c :: b)) = tokenize (JsString.text (a ++ " "%char :: b)) /\
     cellFormula (String "=" (JsString.text (a ++ c :: b)))
     = cellFormula (String "=" (JsString.text (a ++ " "%char :: b)))) /\
  (forall body,
     forallb (fun c => isBlank c || isStray c) body = true ->
     tokenize (JsString.text body) = [eofToken] /\
     parseFails (String "=" (JsString.text body)) = true).
Proof.
  split.
  - intros a c b S.
    assert (T : tokenize (JsString.text (a ++ c :: b))
                = tokenize (JsString.text (a ++ " "%char :: b))).
    { rewrite !tokenize_tokensOf, !chars_text.
      now apply (tokensOf_stray c b (List.length a)). }
    split; [exact T|]. unfold cellFormula. cbn [JsString.startsWithEq JsString.slice1].
    now rewrite T.
  - intros body F.
    assert (T : tokenize (JsString.text body) = [eofToken]).
    { rewrite tokenize_tokensOf, chars_text. now apply tokensOf_skipped. }
    split; [exact T|]. unfold parseFails, cellFormula.
    cbn [JsString.startsWithEq JsString.slice1]. now rewrite T.
Qed.

Lemma X5_stray_characters_witness :
  tokenize "1$+ 2" = tokenize "1 + 2" /\ cellFormula "=10%" = cellFormula "=10 ".
Proof.
  split.
  - exact (proj1 (proj1 X5_stray_characters ["1"%char] "$"%char ["+"; " "; "2"]%char
                    eq_refl)).
  - exact (proj2 (proj1 X5_stray_characters ["1"; "0"]%char "%"%char [] eq_refl)).
Defined.

(** ** Number literals *)

Lemma digit_classes_lexer c :
  JsString.isDigit c = true ->
  isBlank c = false /\ isOperatorChar c = false /\ isParenChar c = false /\
  Ascii.eqb c "," = false /\ Ascii.eqb c ":" = false /\ Ascii.eqb c "." = false.
Proof.
  destruct c as [[] [] [] [] [] [] [] []]; intros H; try discriminate H;
    repeat split; reflexivity.
Qed.

Lemma tokensOf_number c more :
  JsString.isDigit c = true -> forallb isDigitOrDot more = true ->
  tokensOf (c :: more) = [mkToken TNumber (JsString.text (c :: more)); eofToken].
Proof.
  intros D F. rewrite tokensOf_cons.
  destruct (digit_classes_lexer c D) as [E1 [E2 [E3 [E4 [E5 _]]]]].
  rewrite E1, E2, E3, E4, E5, D. cbn [orb].
  destruct (run_then_stop isDigitOrDot more [] F Logic.I) as [T R].
  rewrite app_nil_r in T, R. now rewrite T, R, tokensOf_nil.
Qed.

Lemma parseFormula_number value :
  parseFormula [mkToken TNumber value; eofToken]
  = mkParseResult true (Some (NNumber (JsNumber.parseFloat value))).
Proof. reflexivity. Qed.

Lemma parseFloat_second_dot a b rest :
  digitRun a -> forallb JsString.isDigit b = true ->
  match rest with c :: _ => JsString.isDigit c = false | [] => True end ->
  JsNumber.parseFloat (JsString.text (a ++ "."%char :: b ++ rest))
  = JsNumber.roundQuotient false (JsString.digitsValue (a ++ b))
      (10 ^ Z.of_nat (List.length b)).
Proof.
  intros [Na Da] Db R. unfold JsNumber.parseFloat. rewrite chars_text.
  destruct a as [|c a]; [congruence|].
  pose proof Da as Da'. cbn [forallb] in Da'. apply andb_true_iff in Da'.
  destruct Da' as [Dc _].
  destruct (digit_not_sign c Dc) as [S1 [S2 S3]].
  cbn [app JsString.dropWhile]. rewrite S3, S1, S2.
  change (c :: a ++ "."%char :: b ++ rest) with ((c :: a) ++ "."%char :: b ++ rest).
  destruct (run_then_stop JsString.isDigit (c :: a) ("."%char :: b ++ rest) Da eq_refl)
    as [T1 D1].
  rewrite T1, D1. cbn [Ascii.eqb Bool.eqb].
  change (Ascii.eqb "." ".") with true. cbv iota.
  destruct (run_then_stop JsString.isDigit b rest Db R) as [T2 _].
  rewrite T2. reflexivity.
Qed.

(** X19.  A run of digits and dots that begins with a digit is one number
    literal, whatever the number of its dots, and the formula that consists
    of it parses, to the number that [Number.parseFloat] reads from it.
    That number is read up to the second dot: of the literal [a.b.rest] with
    digits [a] and [b], nothing from the second dot on counts.  So [=1.2.3]
    is the number 1.2 and [=1..5] is the number 1; neither fails to
    parse. *)
Theorem X19_number_literals :
  (forall c more,
     JsString.isDigit c = true -> forallb isDigitOrDot more = true ->
     tokenize (JsString.text (c :: more))
     = [mkToken TNumber (JsString.text (c :: more)); eofToken] /\
     cellFormula (String "=" (JsString.text (c :: more)))
     = Some (NNumber (JsNumber.parseFloat (JsString.text (c :: more))))) /\
  (forall a b rest,
     digitRun a -> forallb JsString.isDigit b = true ->
     JsNumber.parseFloat (JsString.text (a ++ "."%char :: b ++ "."%char :: rest))
     = JsNumber.parseFloat (JsString.text (a ++ "."%char :: b)) /\
     JsNumber.parseFloat (JsString.text (a ++ "."%char :: b))
     = JsNumber.roundQuotient false (JsString.digitsValue (a ++ b))
         (10 ^ Z.of_nat (List.length b))).
Proof.
  split.
  - intros c more D F.
    assert (T : tokenize (JsString.text (c :: more))
                = [mkToken TNumber (JsString.text (c :: more)); eofToken]).
    { rewrite tokenize_tokensOf, chars_text. now apply tokensOf_number. }
    split; [exact T|].
    unfold cellFormula. cbn [JsString.startsWithEq JsString.slice1].
    change (JsString.text ("="%char :: c :: more))
      with (String "=" (JsString.text (c :: more))).
    cbn [JsString.startsWithEq JsString.slice1 Ascii.eqb Bool.eqb].
    rewrite T, parseFormula_number. reflexivity.
  - intros a b rest A B.
    assert (E : JsNumber.parseFloat (JsString.text (a ++ "."%char :: b))
                = JsNumber.roundQuotient false (JsString.digitsValue (a ++ b))
                    (10 ^ Z.of_nat (List.length b))).
    { rewrite <- (app_nil_r b) at 1. now apply parseFloat_second_dot. }
    split; [|exact E]. rewrite E. now apply parseFloat_second_dot.
Qed.

Lemma X19_number_literals_witness :
  cellFormula "=1.2.3" = Some (NNumber (JsNumber.parseFloat "1.2.3")) /\
  JsNumber.parseFloat
    (JsString.text
       (JsString.chars "1" ++ "."%char :: JsString.chars "2" ++ "."%char
          :: JsString.chars "3"))
  = JsNumber.parseFloat
      (JsString.text (JsString.chars "1" ++ "."%char :: JsString.chars "2")).
Proof.
  split.
  - exact (proj2 (proj1 X19_number_literals "1"%char (JsString.chars ".2.3")
                    eq_refl eq_refl)).
  - assert (A : digitRun (JsString.chars "1")) by (split; [discriminate|reflexivity]).
    pose proof (proj2 X19_number_literals (JsString.chars "1") (JsString.chars "2")
                  (JsString.chars "3") A eq_refl) as H.
    exact (proj1 H).
Defined.

(** ** The trees the parser builds *)

Lemma good_eof : goodToken eofToken.
Proof. exact I. Qed.

Lemma good_peek ts : Forall goodToken ts -> goodToken (peek ts).
Proof. intros F. destruct ts; [exact I|]. now inversion F. Qed.

Lemma good_tl ts : Forall goodToken ts -> Forall goodToken (tl ts).
Proof. intros F. destruct ts; auto. now inversion F. Qed.

Lemma good_advance ts : Forall goodToken ts -> Forall goodToken (advance ts).
Proof. intros F. unfold advance. destruct (isAtEnd ts); auto using good_tl. Qed.

Lemma tokenTypeEqb_eq a b : tokenTypeEqb a b = true -> a = b.
Proof. destruct a, b; simpl; congruence. Qed.

Lemma matchType_good t ts prev ts' :
  Forall goodToken ts -> matchType t ts = Some (prev, ts') ->
  goodToken prev /\ tokType prev = t /\ Forall goodToken ts'.
Proof.
  unfold matchType, check. intros F H.
  destruct (tokenTypeEqb (tokType (peek ts)) t) eqn:E; [|discriminate].
  inversion H; subst. apply tokenTypeEqb_eq in E.
  auto using good_peek, good_advance.
Qed.

Lemma matchOperator_good ops ts prev ts' :
  Forall goodToken ts -> matchOperator ops ts = Some (prev, ts') -> Forall goodToken ts'.
Proof.
  unfold matchOperator. intros F H.
  destruct (negb _); [discriminate|]. destruct (negb _); [discriminate|].
  inversion H; subst. now apply good_advance.
Qed.

Lemma matchParen_good v ts ts' :
  Forall goodToken ts -> matchParen v ts = Some ts' -> Forall goodToken ts'.
Proof.
  unfold matchParen. intros F H.
  destruct (negb _); [discriminate|]. destruct (negb _); [discriminate|].
  inversion H; subst. now apply good_advance.
Qed.

Lemma exprFine_None : exprFine None.
Proof. intros n H. discriminate. Qed.

Lemma exprFine_Some n : rangesAsArguments n = true -> fine n -> exprFine (Some n).
Proof. intros R F m E. inversion E; subst. auto. Qed.

Lemma fine_binary op l r : fine l -> fine r -> fine (NBinary op l r).
Proof.
  intros [A B] [C D]. split; cbn [references functionNames]; apply Forall_app; auto.
Qed.

Lemma exprFine_binary op l r :
  exprFine (Some l) -> exprFine (Some r) -> exprFine (Some (NBinary op l r)).
Proof.
  intros L R. destruct (L l eq_refl) as [L1 L2]. destruct (R r eq_refl) as [R1 R2].
  apply exprFine_Some; [|now apply fine_binary]. cbn. now rewrite L1, R1.
Qed.

Lemma fine_call name args :
  letterRun (JsString.chars name) -> Forall argFine args ->
  rangesAsArguments (NFunction name args) = true /\ fine (NFunction name args).
Proof.
  intros N F. split; [|split].
  - cbn. apply forallb_forall. intros a Ha.
    rewrite Forall_forall in F. now apply F.
  - cbn [references]. induction F as [|a args [_ [Ra _]] F IH]; cbn [flat_map]; auto.
    apply Forall_app. auto.
  - cbn [functionNames]. constructor; auto.
    induction F as [|a args [_ [_ Na]] F IH]; cbn [flat_map]; auto.
    apply Forall_app. auto.
Qed.

Lemma exprFine_unary op o : exprFine (Some o) -> exprFine (Some (NUnary op o)).
Proof.
  intros H. destruct (H o eq_refl) as [R [A B]]. apply exprFine_Some; [exact R|].
  split; assumption.
Qed.

Lemma parser_shaped fuel : parserShaped fuel.
Proof.
  induction fuel as [|fuel IH].
  - unfold parserShaped. repeat apply conj; intros; discriminate.
  - destruct IH as (IHe & IHel & IHt & IHtl & IHu & IHp & IHas & IHa).
    unfold parserShaped. repeat apply conj.
    + intros ts node ts' F. simpl.
      destruct (parseTerm fuel ts) as [[n1 ts1]|] eqn:E; simpl; [|discriminate].
      intros H. destruct (IHt _ _ _ F E). eapply IHel; eauto.
    + intros node0 ts node ts' F N0. simpl.
      destruct (matchOperator ["+"; "-"] ts) as [[prev ts1]|] eqn:M.
      * apply matchOperator_good in M; auto.
        destruct (parseTerm fuel ts1) as [[rhs ts2]|] eqn:E; simpl; [|discriminate].
        destruct (IHt _ _ _ M E) as [G R].
        destruct node0 as [l|], rhs as [r|]; intros H;
          try solve [inversion H; subst; split; auto using exprFine_None].
        exact (IHel _ _ _ _ G (exprFine_binary _ l r N0 R) H).
      * intros H. inversion H; subst. auto.
    + intros ts node ts' F. simpl.
      destruct (parseUnary fuel ts) as [[n1 ts1]|] eqn:E; simpl; [|discriminate].
      intros H. destruct (IHu _ _ _ F E). eapply IHtl; eauto.
    + intros node0 ts node ts' F N0. simpl.
      destruct (matchOperator ["*"; "/"] ts) as [[prev ts1]|] eqn:M.
      * apply matchOperator_good in M; auto.
        destruct (parseUnary fuel ts1) as [[rhs ts2]|] eqn:E; simpl; [|discriminate].
        destruct (IHu _ _ _ M E) as [G R].
        destruct node0 as [l|], rhs as [r|]; intros H;
          try solve [inversion H; subst; split; auto using exprFine_None].
        exact (IHtl _ _ _ _ G (exprFine_binary _ l r N0 R) H).
      * intros H. inversion H; subst. auto.
    + intros ts node ts' F. simpl.
      destruct (matchOperator ["+"; "-"] ts) as [[prev ts1]|] eqn:M.
      * apply matchOperator_good in M; auto.
        destruct (parseUnary fuel ts1) as [[operand ts2]|] eqn:E; simpl; [|discriminate].
        destruct (IHu _ _ _ M E) as [G R].
        destruct operand; intros H; inversion H; subst; split;
          auto using exprFine_None, exprFine_unary.
      * now apply IHp.
    + intros ts node ts' F. simpl.
      destruct (matchType TNumber ts) as [[prev ts1]|] eqn:M1.
      { apply matchType_good in M1; auto. intros H. inversion H; subst.
        split; [tauto|]. apply exprFine_Some; [reflexivity|]. split; constructor. }
      destruct (matchType TCell ts) as [[prev ts1]|] eqn:M2.
      { apply matchType_good in M2; auto. destruct M2 as [G [T F1]].
        intros H. inversion H; subst. split; [assumption|].
        apply exprFine_Some; [reflexivity|]. unfold goodToken in G. rewrite T in G.
        split; cbn; auto. }
      destruct (matchType TIdentifier ts) as [[prev ts1]|] eqn:M3.
      { apply matchType_good in M3; auto. destruct M3 as [G [T F1]].
        unfold goodToken in G. rewrite T in G.
        destruct (matchParen "(" ts1) as [ts2|] eqn:M4.
        - apply matchParen_good in M4; auto.
          assert (A : forall args ts3,
                    (if checkParen ")" ts2 then Some (Some [], ts2)
                     else parseArguments fuel [] ts2) = Some (args, ts3) ->
                    Forall goodToken ts3 /\ forall l, args = Some l -> Forall argFine l).
          { intros args ts3. destruct (checkParen ")" ts2).
            - intros H. inversion H; subst. split; auto.
              intros l E. inversion E. constructor.
            - intros H. eapply IHas; eauto. }
          destruct (if checkParen ")" ts2 then Some (Some [], ts2)
                    else parseArguments fuel [] ts2) as [[args ts3]|];
            simpl; [|discriminate].
          destruct (A args ts3 eq_refl) as [G3 A3].
          destruct args as [args|].
          + destruct (matchParen ")" ts3) as [ts4|] eqn:M5; intros H; inversion H; subst.
            * apply matchParen_good in M5; auto. split; auto.
              destruct (fine_call (tokValue prev) args G (A3 args eq_refl)).
              now apply exprFine_Some.
            * split; auto using exprFine_None.
          + intros H. inversion H; subst. split; auto using exprFine_None.
        - intros H. inversion H; subst. split; auto using exprFine_None. }
      destruct (matchParen "(" ts) as [ts1|] eqn:M4.
      * apply matchParen_good in M4; auto.
        destruct (parseExpression fuel ts1) as [[expr ts2]|] eqn:E;
          simpl; [|discriminate].
        destruct (IHe _ _ _ M4 E) as [G R].
        destruct expr as [e|].
        -- destruct (matchParen ")" ts2) as [ts3|] eqn:M5; intros H; inversion H; subst.
           ++ apply matchParen_good in M5; auto.
           ++ split; auto using exprFine_None.
        -- intros H. inversion H; subst. split; auto using exprFine_None.
      * intros H. inversion H; subst. split; auto using exprFine_None.
    + intros args0 ts args ts' F A0. simpl.
      destruct (parseArgument fuel ts) as [[arg ts1]|] eqn:E; simpl; [|discriminate].
      destruct (IHa _ _ _ F E) as [G R].
      destruct arg as [a|].
      * assert (A1 : Forall argFine (args0 ++ [a])).
        { apply Forall_app. split; auto. }
        destruct (matchType TComma ts1) as [[prev ts2]|] eqn:M.
        -- apply matchType_good in M; auto. destruct M as [_ [_ F2]].
           intros H. exact (IHas _ _ _ _ F2 A1 H).
        -- intros H. inversion H; subst. split; auto.
           intros l El. now inversion El; subst.
      * intros H. inversion H; subst. split; auto. discriminate.
    + intros ts node ts' F. simpl.
      destruct (tokenTypeEqb (tokType (peek ts)) TCell
                && tokenTypeEqb (tokType (peekNext ts)) TColon) eqn:C.
      * apply andb_true_iff in C. destruct C as [C _]. apply tokenTypeEqb_eq in C.
        pose proof (good_peek ts F) as Gp. unfold goodToken in Gp. rewrite C in Gp.
        pose proof (good_advance _ (good_advance _ F)) as F2.
        destruct (matchType TCell (advance (advance ts))) as [[prev ts1]|] eqn:M;
          intros H; inversion H; subst.
        -- apply matchType_good in M; auto. destruct M as [G [T F1]].
           unfold goodToken in G. rewrite T in G. split; auto.
           intros n En. inversion En; subst. split; [reflexivity|].
           split; cbn; auto.
        -- split; auto. discriminate.
      * intros H. destruct (IHe _ _ _ F H) as [G R]. split; auto.
        intros n En. destruct (R n En) as [R1 R2]. split; auto.
        rewrite R1. apply orb_true_r.
Qed.

Lemma tokenShape_good t : tokenShape t -> goodToken t.
Proof.
  unfold tokenShape, goodToken. destruct (tokType t); auto.
Qed.

Lemma isReference_text ref :
  isReference ref ->
  exists letters digits,
    letterRun letters /\ digitRun digits /\ ref = JsString.text (letters ++ digits).
Proof.
  intros [letters [digits [L [D E]]]]. exists letters, digits.
  split; auto. split; auto. now rewrite <- E, text_chars.
Qed.

(** X6.  The tree of a formula cell has its ranges in argument position
    only: no operand of an operator or of a sign is a range, and the tree
    itself is none.  Its function names are letters, and each of its
    references is letters followed by digits, the form the resolver asks
    for.  When the letters and the digits denote numbers below 2^53, the
    reference resolves to the column of its letters and the row of its
    digits, and to nothing exactly when the digits denote 0: so the
    resolver of the source has it, and so the resolver on integers. *)
Theorem X6_parsed_trees v tree :
  cellFormula v = Some tree ->
  rangesAsArguments tree = true /\
  Forall (fun name => letterRun (JsString.chars name)) (functionNames tree) /\
  Forall
    (fun ref =>
       exists letters digits,
         letterRun letters /\ digitRun digits /\
         ref = JsString.text (letters ++ digits) /\
         0 <= columnNumber letters - 1 /\
         0 <= JsString.digitsValue digits /\
         (JsString.digitsValue digits < 2 ^ 53 ->
          columnNumber letters < 2 ^ 53 ->
          Binary64.parseCellRef ref
          = (if JsString.digitsValue digits =? 0 then None
             else Some (Binary64.mkCoords (whole (JsString.digitsValue digits - 1))
                                          (whole (columnNumber letters - 1)))) /\
          parseCellRef ref
          = (if JsString.digitsValue digits =? 0 then None
             else Some (mkCoords (JsString.digitsValue digits - 1)
                                 (columnNumber letters - 1)))))
    (references tree).
Proof.
  unfold cellFormula, parseFormula.
  destruct (JsString.startsWithEq v); [|discriminate].
  set (tokens := tokenize (JsString.slice1 v)).
  destruct (tokenTypeEqb (tokType (peek tokens)) TEof); simpl; [discriminate|].
  destruct (parseExpression _ _) as [[[n|] rest]|] eqn:E; simpl; try discriminate.
  destruct (negb _); simpl; [discriminate|].
  intros H. inversion H; subst n.
  assert (G : Forall goodToken tokens).
  { unfold tokens. rewrite tokenize_tokensOf.
    destruct (tokensOf_shape _ (JsString.chars (JsString.slice1 v)) (le_n _))
      as [body [-> [F _]]].
    apply Forall_app. split.
    - eapply Forall_impl; [|exact F]. apply tokenShape_good.
    - constructor; [exact I|constructor]. }
  destruct (parser_shaped (parseFuel tokens)) as (He & _).
  destruct (He _ _ _ G E) as [_ R]. destruct (R tree eq_refl) as [R1 [R2 R3]].
  split; [exact R1|]. split; [exact R3|].
  eapply Forall_impl; [|exact R2]. intros ref Hr.
  destruct (isReference_text ref Hr) as [letters [digits [L [D ->]]]].
  exists letters, digits. destruct (reference_resolves letters digits L D) as [C Z].
  split; [exact L|]. split; [exact D|]. split; [reflexivity|]. split; [exact C|].
  split; [apply digitsValue_nonneg; apply D|].
  intros Bd Bc. split; [now apply reference_resolves_source|exact Z].
Qed.

Lemma X6_parsed_trees_witness :
  rangesAsArguments (NBinary OpAdd (NFunction "sum" [NRange "A1" "b2"; NCell "C0"])
                             (NUnary OpMinus (NCell "d4")))
  = true.
Proof.
  exact (proj1 (X6_parsed_trees "=sum(A1:b2, C0) + -d4" _ eq_refl)).
Defined.

(** ** Reading back a formula in writing *)

Section Stable.

Variables fuel fuel' : nat.
Hypothesis enough : (fuel <= fuel')%nat.

Lemma stable_expression ts r :
  parseExpression fuel ts = Some r -> parseExpression fuel' ts = Some r.
Proof. destruct (parser_stable fuel fuel' enough) as (H & _). apply H. Qed.

Lemma stable_expressionLoop node ts r :
  expressionLoop fuel node ts = Some r -> expressionLoop fuel' node ts = Some r.
Proof. destruct (parser_stable fuel fuel' enough) as (_ & H & _). apply H. Qed.

Lemma stable_term ts r : parseTerm fuel ts = Some r -> parseTerm fuel' ts = Some r.
Proof. destruct (parser_stable fuel fuel' enough) as (_ & _ & H & _). apply H. Qed.

Lemma stable_termLoop node ts r :
  termLoop fuel node ts = Some r -> termLoop fuel' node ts = Some r.
Proof. destruct (parser_stable fuel fuel' enough) as (_ & _ & _ & H & _). apply H. Qed.

Lemma stable_unary ts r : parseUnary fuel ts = Some r -> parseUnary fuel' ts = Some r.
Proof. destruct (parser_stable fuel fuel' enough) as (_ & _ & _ & _ & H & _). apply H. Qed.

Lemma stable_primary ts r : parsePrimary fuel ts = Some r -> parsePrimary fuel' ts = Some r.
Proof.
  destruct (parser_stable fuel fuel' enough) as (_ & _ & _ & _ & _ & H & _). apply H.
Qed.

Lemma stable_arguments args ts r :
  parseArguments fuel args ts = Some r -> parseArguments fuel' args ts = Some r.
Proof.
  destruct (parser_stable fuel fuel' enough) as (_ & _ & _ & _ & _ & _ & H & _). apply H.
Qed.

Lemma stable_argument ts r :
  parseArgument fuel ts = Some r -> parseArgument fuel' ts = Some r.
Proof.
  destruct (parser_stable fuel fuel' enough) as (_ & _ & _ & _ & _ & _ & _ & H). apply H.
Qed.

End Stable.

Lemma ends_expression ts node ts1 r :
  Ends parseTerm ts (node, ts1) ->
  Ends (fun fuel => expressionLoop fuel node) ts1 r ->
  Ends parseExpression ts r.
Proof.
  intros [n1 H1] [n2 H2]. exists (S (Nat.max n1 n2)). simpl.
  rewrite (stable_term n1 _ (Nat.le_max_l n1 n2) _ _ H1). simpl.
  exact (stable_expressionLoop n2 _ (Nat.le_max_r n1 n2) _ _ _ H2).
Qed.

Lemma ends_expressionLoop_stop node ts :
  matchOperator ["+"; "-"] ts = None ->
  Ends (fun fuel => expressionLoop fuel node) ts (node, ts).
Proof. intros M. exists 1%nat. simpl. now rewrite M. Qed.

Lemma ends_expressionLoop_step l ts prev ts1 rhs ts2 r :
  matchOperator ["+"; "-"] ts = Some (prev, ts1) ->
  Ends parseTerm ts1 (Some rhs, ts2) ->
  Ends (fun fuel => expressionLoop fuel (Some (NBinary (binaryOpOf (tokValue prev)) l rhs)))
       ts2 r ->
  Ends (fun fuel => expressionLoop fuel (Some l)) ts r.
Proof.
  intros M [n1 H1] [n2 H2]. exists (S (Nat.max n1 n2)). simpl. rewrite M.
  rewrite (stable_term n1 _ (Nat.le_max_l n1 n2) _ _ H1). simpl.
  exact (stable_expressionLoop n2 _ (Nat.le_max_r n1 n2) _ _ _ H2).
Qed.

Lemma ends_term ts node ts1 r :
  Ends parseUnary ts (node, ts1) ->
  Ends (fun fuel => termLoop fuel node) ts1 r ->
  Ends parseTerm ts r.
Proof.
  intros [n1 H1] [n2 H2]. exists (S (Nat.max n1 n2)). simpl.
  rewrite (stable_unary n1 _ (Nat.le_max_l n1 n2) _ _ H1). simpl.
  exact (stable_termLoop n2 _ (Nat.le_max_r n1 n2) _ _ _ H2).
Qed.

Lemma ends_termLoop_stop node ts :
  matchOperator ["*"; "/"] ts = None ->
  Ends (fun fuel => termLoop fuel node) ts (node, ts).
Proof. intros M. exists 1%nat. simpl. now rewrite M. Qed.

Lemma ends_termLoop_step l ts prev ts1 rhs ts2 r :
  matchOperator ["*"; "/"] ts = Some (prev, ts1) ->
  Ends parseUnary ts1 (Some rhs, ts2) ->
  Ends (fun fuel => termLoop fuel (Some (NBinary (binaryOpOf (tokValue prev)) l rhs)))
       ts2 r ->
  Ends (fun fuel => termLoop fuel (Some l)) ts r.
Proof.
  intros M [n1 H1] [n2 H2]. exists (S (Nat.max n1 n2)). simpl. rewrite M.
  rewrite (stable_unary n1 _ (Nat.le_max_l n1 n2) _ _ H1). simpl.
  exact (stable_termLoop n2 _ (Nat.le_max_r n1 n2) _ _ _ H2).
Qed.

Lemma ends_unary_sign ts prev ts1 o ts2 :
  matchOperator ["+"; "-"] ts = Some (prev, ts1) ->
  Ends parseUnary ts1 (Some o, ts2) ->
  Ends parseUnary ts (Some (NUnary (unaryOpOf (tokValue prev)) o), ts2).
Proof.
  intros M [n H]. exists (S n). simpl. rewrite M, H. reflexivity.
Qed.

Lemma ends_unary_primary ts r :
  matchOperator ["+"; "-"] ts = None -> Ends parsePrimary ts r -> Ends parseUnary ts r.
Proof. intros M [n H]. exists (S n). simpl. now rewrite M. Qed.

Lemma ends_primary_number s rest :
  Ends parsePrimary (mkToken TNumber s :: rest)
       (Some (NNumber (JsNumber.parseFloat s)), rest).
Proof. exists 1%nat. reflexivity. Qed.

Lemma ends_primary_cell ref rest :
  Ends parsePrimary (mkToken TCell ref :: rest) (Some (NCell ref), rest).
Proof. exists 1%nat. reflexivity. Qed.

Lemma ends_primary_paren ts e rest :
  Ends parseExpression ts (Some e, mkToken TParen ")" :: rest) ->
  Ends parsePrimary (mkToken TParen "(" :: ts) (Some e, rest).
Proof.
  intros [n H]. exists (S n). cbn. rewrite H. reflexivity.
Qed.

Lemma ends_primary_empty_call name rest :
  Ends parsePrimary
       (mkToken TIdentifier name :: mkToken TParen "(" :: mkToken TParen ")" :: rest)
       (Some (NFunction name []), rest).
Proof. exists 1%nat. reflexivity. Qed.

Lemma ends_primary_call name ts args rest :
  checkParen ")" ts = false ->
  Ends (fun fuel => parseArguments fuel []) ts (Some args, mkToken TParen ")" :: rest) ->
  Ends parsePrimary (mkToken TIdentifier name :: mkToken TParen "(" :: ts)
       (Some (NFunction name args), rest).
Proof.
  intros C [n H]. exists (S n). cbn. rewrite C, H. reflexivity.
Qed.

Lemma ends_arguments_last acc ts a ts1 :
  Ends parseArgument ts (Some a, ts1) ->
  matchType TComma ts1 = None ->
  Ends (fun fuel => parseArguments fuel acc) ts (Some (acc ++ [a]), ts1).
Proof.
  intros [n H] M. exists (S n). simpl. rewrite H. simpl. now rewrite M.
Qed.

Lemma ends_arguments_more acc ts a ts1 r :
  Ends parseArgument ts (Some a, mkToken TComma "," :: ts1) ->
  Ends (fun fuel => parseArguments fuel (acc ++ [a])) ts1 r ->
  Ends (fun fuel => parseArguments fuel acc) ts r.
Proof.
  intros [n1 H1] [n2 H2]. exists (S (Nat.max n1 n2)). simpl.
  rewrite (stable_argument n1 _ (Nat.le_max_l n1 n2) _ _ H1). cbn.
  exact (stable_arguments n2 _ (Nat.le_max_r n1 n2) _ _ _ H2).
Qed.

Lemma ends_argument_range a b rest :
  Ends parseArgument
       (mkToken TCell a :: mkToken TColon ":" :: mkToken TCell b :: rest)
       (Some (NRange a b), rest).
Proof. exists 1%nat. reflexivity. Qed.

Lemma ends_argument_expression ts r :
  tokenTypeEqb (tokType (peek ts)) TCell && tokenTypeEqb (tokType (peekNext ts)) TColon
  = false ->
  Ends parseExpression ts r -> Ends parseArgument ts r.
Proof. intros C [n H]. exists (S n). simpl. now rewrite C. Qed.

Section Written.

Variable spell : float -> string.

Lemma written_eq p t :
  written spell p t
  = if (level t <? p)%nat
    then mkToken TParen "(" :: written spell 0 t ++ [mkToken TParen ")"]
    else written spell 0 t.
Proof. destruct t as [v|ref|op l r|op o|name args|a b]; try destruct op; reflexivity. Qed.

Lemma written_call name args :
  written spell 0 (NFunction name args)
  = mkToken TIdentifier name :: mkToken TParen "("
      :: writtenArgs spell args ++ [mkToken TParen ")"].
Proof.
  cbn [written level Nat.ltb Nat.leb]. do 2 f_equal. f_equal.
  induction args as [|a rest IH]; [reflexivity|].
  destruct rest as [|b rest]; [reflexivity|].
  rewrite IH. reflexivity.
Qed.

Lemma written_binary op l r :
  written spell 0 (NBinary op l r)
  = written spell (level (NBinary op l r)) l
    ++ opToken op :: written spell (S (level (NBinary op l r))) r.
Proof. destruct op; reflexivity. Qed.

Lemma written_opens t :
  forall p, exists tok more, written spell p t = tok :: more /\ opens tok = true.
Proof.
  induction t as [v|ref|op l r IHl IHr|op o IHo|name args IH|a b]
    using FormulaNode_induction; intros p; rewrite written_eq;
    destruct (level _ <? p)%nat; try (eexists _, _; split; [reflexivity|reflexivity]).
  - rewrite written_binary.
    destruct (IHl (level (NBinary op l r))) as [tok [more [-> O]]].
    eexists _, _. split; [reflexivity|exact O].
Qed.

Lemma opens_not_closing tok rest : opens tok = true -> checkParen ")" (tok :: rest) = false.
Proof.
  unfold opens, checkParen. cbn [peek hd]. destruct (tokType tok); try reflexivity;
    try discriminate. cbn. intros H. apply String.eqb_eq in H. now rewrite H.
Qed.

Lemma written_no_sign t rest :
  level t <> 2%nat -> matchOperator ["+"; "-"] (written spell 3 t ++ rest) = None.
Proof.
  destruct t as [v|ref|op l r|op o|name args|a b]; try destruct op; intros H;
    try reflexivity; try congruence.
Qed.

Lemma written_no_range t :
  rangesAsArguments t = true ->
  forall p rest,
    tokType (peek rest) <> TColon ->
    tokenTypeEqb (tokType (peek (written spell p t ++ rest))) TCell
    && tokenTypeEqb (tokType (peekNext (written spell p t ++ rest))) TColon
    = false.
Proof.
  induction t as [v|ref|op l r IHl IHr|op o IHo|name args IH|a b]
    using FormulaNode_induction; intros R p rest C; rewrite written_eq;
    destruct (level _ <? p)%nat; try reflexivity; try discriminate R.
  - cbn [written level Nat.ltb Nat.leb app peek hd tokType tokenTypeEqb andb].
    destruct rest as [|t rest]; [reflexivity|].
    cbn [peekNext]. cbn [peek hd] in C.
    destruct (tokType t); try reflexivity. congruence.
  - rewrite written_binary, <- app_assoc. cbn [app].
    cbn [rangesAsArguments] in R. apply andb_true_iff in R. destruct R as [Rl Rr].
    apply IHl; auto. destruct op; discriminate.
Qed.

Lemma same_above t p q :
  (level t <? p)%nat = (level t <? q)%nat -> written spell p t = written spell q t.
Proof. intros H. rewrite (written_eq p), (written_eq q), H. reflexivity. Qed.

Lemma unary_of_primary t :
  level t <> 2%nat ->
  (forall rest,
     Ends parsePrimary (written spell 3 t ++ rest) (Some (reread spell t), rest)) ->
  forall rest, Ends parseUnary (written spell 2 t ++ rest) (Some (reread spell t), rest).
Proof.
  intros L P rest. rewrite (same_above t 2 3).
  - apply ends_unary_primary; auto. now apply written_no_sign.
  - destruct (level t) as [|[|[|n]]]; try reflexivity. congruence.
Qed.

Lemma term_of_unary t :
  level t <> 1%nat ->
  (forall rest, Ends parseUnary (written spell 2 t ++ rest) (Some (reread spell t), rest)) ->
  forall rest r,
    Ends (fun fuel => termLoop fuel (Some (reread spell t))) rest r ->
    Ends parseTerm (written spell 1 t ++ rest) r.
Proof.
  intros L U rest r K. rewrite (same_above t 1 2).
  - eapply ends_term; eauto.
  - destruct (level t) as [|[|n]]; try reflexivity. congruence.
Qed.

Lemma expression_of_term t :
  level t <> 0%nat ->
  (forall rest r,
     Ends (fun fuel => termLoop fuel (Some (reread spell t))) rest r ->
     Ends parseTerm (written spell 1 t ++ rest) r) ->
  forall rest r,
    matchOperator ["*"; "/"] rest = None ->
    Ends (fun fuel => expressionLoop fuel (Some (reread spell t))) rest r ->
    Ends parseExpression (written spell 0 t ++ rest) r.
Proof.
  intros L T rest r M K. rewrite (same_above t 0 1).
  - eapply ends_expression; eauto. apply T. now apply ends_termLoop_stop.
  - destruct (level t) as [|n]; [congruence|reflexivity].
Qed.

Lemma primary_of_expression t :
  (level t < 3)%nat ->
  (forall rest r,
     matchOperator ["*"; "/"] rest = None ->
     Ends (fun fuel => expressionLoop fuel (Some (reread spell t))) rest r ->
     Ends parseExpression (written spell 0 t ++ rest) r) ->
  forall rest, Ends parsePrimary (written spell 3 t ++ rest) (Some (reread spell t), rest).
Proof.
  intros L E rest. rewrite written_eq.
  replace (level t <? 3)%nat with true by (symmetry; now apply Nat.ltb_lt).
  cbn [app]. rewrite <- app_assoc. cbn [app].
  apply ends_primary_paren. apply E; [reflexivity|].
  now apply ends_expressionLoop_stop.
Qed.

Lemma readArgument_range a b : ReadArgument spell (NRange a b).
Proof. intros rest _. apply ends_argument_range. Qed.

Lemma readArgument_expression t :
  rangesAsArguments t = true -> ReadBack spell t -> ReadArgument spell t.
Proof.
  intros R B rest [M1 [M2 C]]. apply ends_argument_expression.
  - now apply written_no_range.
  - apply (asExpression spell t B); auto. now apply ends_expressionLoop_stop.
Qed.

Lemma read_arguments args :
  args <> [] ->
  Forall (ReadArgument spell) args ->
  forall acc rest,
    Ends (fun fuel => parseArguments fuel acc)
         (writtenArgs spell args ++ mkToken TParen ")" :: rest)
         (Some (acc ++ map (reread spell) args), mkToken TParen ")" :: rest).
Proof.
  induction args as [|a [|b args] IH]; intros N F acc rest.
  - congruence.
  - inversion F; subst. cbn [writtenArgs map].
    apply ends_arguments_last; [|reflexivity].
    apply H1. repeat split; try reflexivity. discriminate.
  - inversion F; subst.
    change (writtenArgs spell (a :: b :: args))
      with (written spell 0 a ++ mkToken TComma "," :: writtenArgs spell (b :: args)).
    rewrite <- app_assoc. cbn [app].
    eapply ends_arguments_more.
    + apply H1. repeat split; try reflexivity. discriminate.
    + specialize (IH ltac:(discriminate) H2 (acc ++ [reread spell a]) rest).
      rewrite <- app_assoc in IH. exact IH.
Qed.

Lemma opToken_value op : binaryOpOf (tokValue (opToken op)) = op.
Proof. now destruct op. Qed.

Lemma signToken_value op : unaryOpOf (tokValue (signToken op)) = op.
Proof. now destruct op. Qed.

Lemma readBack_leaf t :
  level t = 3%nat ->
  (forall rest,
     Ends parsePrimary (written spell 3 t ++ rest) (Some (reread spell t), rest)) ->
  ReadBack spell t.
Proof.
  intros L P.
  assert (U := unary_of_primary t ltac:(lia) P).
  assert (T := term_of_unary t ltac:(lia) U).
  assert (E := expression_of_term t ltac:(lia) T).
  now constructor.
Qed.

Lemma readBack t : rangesAsArguments t = true -> ReadBack spell t.
Proof.
  induction t as [v|ref|op l r IHl IHr|op o IHo|name args IH|a b]
    using FormulaNode_induction; intros R.
  - apply readBack_leaf; [reflexivity|]. intros rest. apply ends_primary_number.
  - apply readBack_leaf; [reflexivity|]. intros rest. apply ends_primary_cell.
  - cbn [rangesAsArguments] in R. apply andb_true_iff in R. destruct R as [Rl Rr].
    specialize (IHl Rl). specialize (IHr Rr).
    destruct op.
    + assert (E : forall rest r0,
                matchOperator ["*"; "/"] rest = None ->
                Ends (fun fuel => expressionLoop fuel
                                    (Some (reread spell (NBinary OpAdd l r)))) rest r0 ->
                Ends parseExpression (written spell 0 (NBinary OpAdd l r) ++ rest) r0).
      { intros rest r0 M K. rewrite written_binary, <- app_assoc. cbn [app level].
        apply (asExpression spell l IHl); [reflexivity|].
        eapply ends_expressionLoop_step; [reflexivity| |exact K].
        apply (asTerm spell r IHr). now apply ends_termLoop_stop. }
      assert (P := primary_of_expression (NBinary OpAdd l r) ltac:(cbn; lia) E).
      assert (U := unary_of_primary (NBinary OpAdd l r) ltac:(cbn; lia) P).
      assert (T := term_of_unary (NBinary OpAdd l r) ltac:(cbn; lia) U).
      now constructor.
    + assert (E : forall rest r0,
                matchOperator ["*"; "/"] rest = None ->
                Ends (fun fuel => expressionLoop fuel
                                    (Some (reread spell (NBinary OpSub l r)))) rest r0 ->
                Ends parseExpression (written spell 0 (NBinary OpSub l r) ++ rest) r0).
      { intros rest r0 M K. rewrite written_binary, <- app_assoc. cbn [app level].
        apply (asExpression spell l IHl); [reflexivity|].
        eapply ends_expressionLoop_step; [reflexivity| |exact K].
        apply (asTerm spell r IHr). now apply ends_termLoop_stop. }
      assert (P := primary_of_expression (NBinary OpSub l r) ltac:(cbn; lia) E).
      assert (U := unary_of_primary (NBinary OpSub l r) ltac:(cbn; lia) P).
      assert (T := term_of_unary (NBinary OpSub l r) ltac:(cbn; lia) U).
      now constructor.
    + assert (T : forall rest r0,
                Ends (fun fuel => termLoop fuel
                                    (Some (reread spell (NBinary OpMul l r)))) rest r0 ->
                Ends parseTerm (written spell 1 (NBinary OpMul l r) ++ rest) r0).
      { intros rest r0 K. rewrite (same_above _ 1 0) by reflexivity.
        rewrite written_binary, <- app_assoc. cbn [app level].
        apply (asTerm spell l IHl).
        eapply ends_termLoop_step; [reflexivity| |exact K].
        apply (asUnary spell r IHr). }
      assert (E := expression_of_term (NBinary OpMul l r) ltac:(cbn; lia) T).
      assert (P := primary_of_expression (NBinary OpMul l r) ltac:(cbn; lia) E).
      assert (U := unary_of_primary (NBinary OpMul l r) ltac:(cbn; lia) P).
      now constructor.
    + assert (T : forall rest r0,
                Ends (fun fuel => termLoop fuel
                                    (Some (reread spell (NBinary OpDiv l r)))) rest r0 ->
                Ends parseTerm (written spell 1 (NBinary OpDiv l r) ++ rest) r0).
      { intros rest r0 K. rewrite (same_above _ 1 0) by reflexivity.
        rewrite written_binary, <- app_assoc. cbn [app level].
        apply (asTerm spell l IHl).
        eapply ends_termLoop_step; [reflexivity| |exact K].
        apply (asUnary spell r IHr). }
      assert (E := expression_of_term (NBinary OpDiv l r) ltac:(cbn; lia) T).
      assert (P := primary_of_expression (NBinary OpDiv l r) ltac:(cbn; lia) E).
      assert (U := unary_of_primary (NBinary OpDiv l r) ltac:(cbn; lia) P).
      now constructor.
  - cbn [rangesAsArguments] in R. specialize (IHo R).
    assert (U : forall rest,
              Ends parseUnary (written spell 2 (NUnary op o) ++ rest)
                   (Some (reread spell (NUnary op o)), rest)).
    { intros rest. rewrite (same_above _ 2 0) by reflexivity.
      cbn [written level Nat.ltb Nat.leb app reread].
      rewrite <- (signToken_value op) at 2.
      eapply ends_unary_sign; [destruct op; reflexivity|].
      apply (asUnary spell o IHo). }
    assert (T := term_of_unary (NUnary op o) ltac:(cbn; lia) U).
    assert (E := expression_of_term (NUnary op o) ltac:(cbn; lia) T).
    assert (P := primary_of_expression (NUnary op o) ltac:(cbn; lia) E).
    now constructor.
  - apply readBack_leaf; [reflexivity|]. intros rest.
    rewrite (same_above _ 3 0) by reflexivity. rewrite written_call.
    cbn [app reread]. rewrite <- app_assoc. cbn [app].
    destruct args as [|a args].
    + apply ends_primary_empty_call.
    + assert (A : Forall (ReadArgument spell) (a :: args)).
      { cbn [rangesAsArguments] in R. rewrite forallb_forall in R.
        rewrite Forall_forall in IH. apply Forall_forall. intros x Hx.
        specialize (R x Hx). specialize (IH x Hx).
        destruct x; try (apply readArgument_expression; auto; fail).
        apply readArgument_range. }
      apply ends_primary_call.
      * destruct (written_opens a 0) as [tok [more [W O]]].
        destruct args as [|b args]; cbn [writtenArgs]; rewrite W; cbn [app];
          now apply opens_not_closing.
      * apply (read_arguments (a :: args) ltac:(discriminate) A [] rest).
  - discriminate R.
Qed.

End Written.

Lemma opens_not_eof tok : opens tok = true -> tokenTypeEqb (tokType tok) TEof = false.
Proof. unfold opens. destruct (tokType tok); auto; discriminate. Qed.

(** X7.  The parser reads back every formula in writing.  Take a tree with
    its ranges in argument position, and write it with the usual rules:
    products and quotients bind tighter than sums and differences, signs
    tighter still, operators of one level group to the left, parentheses go
    around an operand only where it binds less tightly than its place asks,
    arguments stand between commas.  From these tokens the parser builds the
    tree, with each number as read from its text.  So [1-2-3] is [(1-2)-3],
    [1+2*3] is [1+(2*3)], [-2*3] is [(-2)*3], and parentheses override. *)
Theorem X7_written_formula_parses :
  (forall spell tree,
     rangesAsArguments tree = true ->
     parseFormula (written spell 0 tree ++ [eofToken])
     = mkParseResult true (Some (reread spell tree))) /\
  (cellFormula "=1-2-3"
   = Some (NBinary OpSub (NBinary OpSub (NNumber 1) (NNumber 2)) (NNumber 3)) /\
   cellFormula "=1+2*3"
   = Some (NBinary OpAdd (NNumber 1) (NBinary OpMul (NNumber 2) (NNumber 3))) /\
   cellFormula "=-2*3"
   = Some (NBinary OpMul (NUnary OpMinus (NNumber 2)) (NNumber 3)) /\
   cellFormula "=(1+2)*3"
   = Some (NBinary OpMul (NBinary OpAdd (NNumber 1) (NNumber 2)) (NNumber 3)) /\
   cellFormula "=8/4/2"
   = Some (NBinary OpDiv (NBinary OpDiv (NNumber 8) (NNumber 4)) (NNumber 2))).
Proof.
  split; [|repeat split; reflexivity].
  intros spell tree R. unfold parseFormula.
  set (tokens := written spell 0 tree ++ [eofToken]).
  destruct (written_opens spell tree 0) as [tok [more [W O]]].
  assert (P : tokenTypeEqb (tokType (peek tokens)) TEof = false).
  { unfold tokens. rewrite W. cbn [app peek hd]. now apply opens_not_eof. }
  rewrite P.
  assert (E : Ends parseExpression tokens (Some (reread spell tree), [eofToken])).
  { apply (asExpression spell tree (readBack spell tree R)); [reflexivity|].
    now apply ends_expressionLoop_stop. }
  destruct E as [n E].
  destruct (parseExpression_total tokens) as [node [rest T]].
  pose proof (stable_expression n _ (Nat.le_max_l n (parseFuel tokens)) _ _ E) as E1.
  pose proof (stable_expression _ _ (Nat.le_max_r n (parseFuel tokens)) _ _ T) as T1.
  rewrite E1 in T1. inversion T1; subst. rewrite T. reflexivity.
Qed.

Lemma X7_written_formula_parses_witness :
  let tree :=
    NBinary OpSub
      (NBinary OpSub (NCell "A1")
         (NBinary OpMul (NNumber 2)
            (NUnary OpMinus (NBinary OpAdd (NCell "B2") (NNumber 1)))))
      (NFunction "SUM" [NRange "A1" "B3"; NBinary OpAdd (NNumber 1) (NNumber 2);
                        NFunction "f" []]) in
  parseFormula (written JsNumber.toString 0 tree ++ [eofToken])
  = mkParseResult true (Some (reread JsNumber.toString tree)).
Proof.
  intros tree. exact (proj1 X7_written_formula_parses JsNumber.toString tree eq_refl).
Defined.

(** ** Capitals and small letters *)

Lemma upperChar_classes c :
  JsString.upperChar (JsString.upperChar c) = JsString.upperChar c /\
  JsString.isAlpha (JsString.upperChar c) = JsString.isAlpha c /\
  JsString.isDigit (JsString.upperChar c) = JsString.isDigit c /\
  (JsString.isDigit c = true -> JsString.upperChar c = c).
Proof.
  destruct c as [[] [] [] [] [] [] [] []];
    (split; [reflexivity|split; [reflexivity|split; [reflexivity|]]]);
    intros H; try reflexivity; discriminate H.
Qed.

Lemma toUpperCase_idem s :
  JsString.toUpperCase (JsString.toUpperCase s) = JsString.toUpperCase s.
Proof.
  unfold JsString.toUpperCase. rewrite chars_text, map_map.
  apply (f_equal JsString.text). apply map_ext. intros c. apply (proj1 (upperChar_classes c)).
Qed.

Lemma takeWhile_upper cs :
  JsString.takeWhile JsString.isAlpha (map JsString.upperChar cs)
  = map JsString.upperChar (JsString.takeWhile JsString.isAlpha cs).
Proof.
  induction cs as [|c cs IH]; [reflexivity|]. cbn [map JsString.takeWhile].
  rewrite (proj1 (proj2 (upperChar_classes c))).
  destruct (JsString.isAlpha c); [|reflexivity]. cbn [map]. now rewrite IH.
Qed.

Lemma dropWhile_upper cs :
  JsString.dropWhile JsString.isAlpha (map JsString.upperChar cs)
  = map JsString.upperChar (JsString.dropWhile JsString.isAlpha cs).
Proof.
  induction cs as [|c cs IH]; [reflexivity|]. cbn [map JsString.dropWhile].
  rewrite (proj1 (proj2 (upperChar_classes c))).
  destruct (JsString.isAlpha c); [exact IH|reflexivity].
Qed.

Lemma digits_upper ds :
  forallb JsString.isDigit (map JsString.upperChar ds) = forallb JsString.isDigit ds /\
  (forallb JsString.isDigit ds = true -> map JsString.upperChar ds = ds).
Proof.
  induction ds as [|d ds [IH1 IH2]]; [split; reflexivity|]. cbn [map forallb].
  rewrite (proj1 (proj2 (proj2 (upperChar_classes d)))), IH1. split; [reflexivity|].
  intros H. apply andb_true_iff in H. destruct H as [Hd H].
  now rewrite (proj2 (proj2 (proj2 (upperChar_classes d))) Hd), IH2.
Qed.

Lemma columnNumber_upper letters :
  columnNumber (map JsString.upperChar letters) = columnNumber letters.
Proof.
  unfold columnNumber. generalize 0 as acc.
  induction letters as [|c letters IH]; intros acc; [reflexivity|].
  cbn [map fold_left]. rewrite (proj1 (upperChar_classes c)). apply IH.
Qed.

Lemma nonEmpty_map {A B : Type} (f : A -> B) l : nonEmpty (map f l) = nonEmpty l.
Proof. now destruct l. Qed.

Lemma parseCellRef_upper ref :
  parseCellRef (JsString.toUpperCase ref) = parseCellRef ref.
Proof.
  unfold parseCellRef, JsString.toUpperCase. rewrite chars_text.
  rewrite takeWhile_upper, dropWhile_upper, !nonEmpty_map, columnNumber_upper.
  rewrite (proj1 (digits_upper _)).
  destruct (forallb JsString.isDigit
              (JsString.dropWhile JsString.isAlpha (JsString.chars ref))) eqn:D.
  - now rewrite (proj2 (digits_upper _) D).
  - now rewrite !andb_false_r.
Qed.

Lemma expandRange_upper a b :
  expandRange (JsString.toUpperCase a) (JsString.toUpperCase b) = expandRange a b.
Proof. unfold expandRange. now rewrite !parseCellRef_upper. Qed.

Lemma evaluateNode_capitals node :
  forall g, evaluateNode (capitals node) g = evaluateNode node g.
Proof.
  induction node as [v|r|op l r IHl IHr|op o IHo|name args IHa|s e]
    using FormulaNode_induction; intros g; cbn [capitals evaluateNode].
  - reflexivity.
  - now rewrite parseCellRef_upper.
  - now rewrite IHl, IHr.
  - now rewrite IHo.
  - rewrite toUpperCase_idem. do 4 f_equal.
    induction IHa as [|a rest Ha _ IH]; [reflexivity|].
    cbn [map flat_map]. now rewrite Ha, IH.
  - now rewrite expandRange_upper.
Qed.

Lemma collectDependencies_capitals node :
  forall deps, collectDependencies (capitals node) deps = collectDependencies node deps.
Proof.
  induction node as [v|r|op l r IHl IHr|op o IHo|name args IHa|s e]
    using FormulaNode_induction; intros deps; cbn [capitals collectDependencies].
  - reflexivity.
  - now rewrite parseCellRef_upper.
  - now rewrite IHl, IHr.
  - now rewrite IHo.
  - revert deps. induction IHa as [|a rest Ha _ IH]; intros deps; [reflexivity|].
    cbn [map fold_left]. now rewrite Ha, IH.
  - now rewrite expandRange_upper.
Qed.

(** ** Column labels *)

Lemma code_inj a b : JsString.code a = JsString.code b -> a = b.
Proof.
  unfold JsString.code. intros H. apply N2Z.inj in H.
  rewrite <- (ascii_N_embedding a), <- (ascii_N_embedding b). now rewrite H.
Qed.

Lemma columnNumber_inj a :
  forall b,
    forallb JsString.isAlpha a = true -> forallb JsString.isAlpha b = true ->
    columnNumber a = columnNumber b ->
    map JsString.upperChar a = map JsString.upperChar b.
Proof.
  induction a as [|x a IH] using rev_ind; intros b Fa Fb E.
  - destruct b as [|y b]; [reflexivity|]. exfalso.
    assert (L : letterRun (y :: b)) by (split; [discriminate|exact Fb]).
    pose proof (columnNumber_positive _ L). change (columnNumber []) with 0 in E. lia.
  - rewrite forallb_app in Fa. apply andb_true_iff in Fa. destruct Fa as [Fa Fx].
    cbn [forallb] in Fx. rewrite andb_true_r in Fx.
    destruct b as [|y b _] using rev_ind.
    + exfalso.
      assert (L : letterRun (a ++ [x])).
      { split; [now destruct a|]. rewrite forallb_app, Fa. cbn. now rewrite Fx. }
      pose proof (columnNumber_positive _ L). change (columnNumber []) with 0 in E. lia.
    + rewrite forallb_app in Fb. apply andb_true_iff in Fb. destruct Fb as [Fb Fy].
      cbn [forallb] in Fy. rewrite andb_true_r in Fy.
      rewrite !columnNumber_snoc in E.
      pose proof (letter_index x Fx). pose proof (letter_index y Fy).
      pose proof (columnNumber_nonneg a Fa). pose proof (columnNumber_nonneg b Fb).
      assert (E1 : JsString.code (JsString.upperChar x)
                   = JsString.code (JsString.upperChar y)) by lia.
      assert (E2 : columnNumber a = columnNumber b) by lia.
      rewrite !map_app. cbn [map]. rewrite (IH b Fa Fb E2).
      now rewrite (code_inj _ _ E1).
Qed.



(** X9.  A reference names one cell, and a cell has one name up to case and
    leading zeros.  Take two references, each letters followed by digits
    that denote numbers below 2^53, of which the first resolves.  They
    resolve to the same cell exactly when their letters are the same up to
    case and their digits denote the same number: so the resolver of the
    source has it, and so the resolver on integers.  So each column has a
    single label: the labels are the numerals of the bijective base 26, A
    to Z, then AA, AB and so on. *)
Theorem X9_reference_names_one_cell la da lb db :
  letterRun la -> digitRun da -> letterRun lb -> digitRun db ->
  columnNumber la < 2 ^ 53 -> JsString.digitsValue da < 2 ^ 53 ->
  columnNumber lb < 2 ^ 53 -> JsString.digitsValue db < 2 ^ 53 ->
  parseCellRef (JsString.text (la ++ da)) <> None ->
  Binary64.parseCellRef (JsString.text (la ++ da)) <> None /\
  (Binary64.parseCellRef (JsString.text (la ++ da))
   = Binary64.parseCellRef (JsString.text (lb ++ db))
   <-> map JsString.upperChar la = map JsString.upperChar lb /\
       JsString.digitsValue da = JsString.digitsValue db) /\
  (parseCellRef (JsString.text (la ++ da)) = parseCellRef (JsString.text (lb ++ db))
   <-> map JsString.upperChar la = map JsString.upperChar lb /\
       JsString.digitsValue da = JsString.digitsValue db).
Proof.
  intros La Da Lb Db Ca Va Cb Vb N.
  assert (Sa : smallReference (JsString.text (la ++ da)) = true).
  { rewrite smallReference_parts by assumption.
    apply andb_true_iff. split; now apply Z.ltb_lt. }
  assert (Sb : smallReference (JsString.text (lb ++ db)) = true).
  { rewrite smallReference_parts by assumption.
    apply andb_true_iff. split; now apply Z.ltb_lt. }
  assert (Z : parseCellRef (JsString.text (la ++ da))
              = parseCellRef (JsString.text (lb ++ db))
              <-> map JsString.upperChar la = map JsString.upperChar lb /\
                  JsString.digitsValue da = JsString.digitsValue db).
  { destruct (reference_resolves la da La Da) as [Pa Ra].
    destruct (reference_resolves lb db Lb Db) as [Pb Rb].
    rewrite Ra in N. rewrite Ra, Rb.
    destruct (Z.eqb_spec (JsString.digitsValue da) 0) as [Za|Za]; [now contradiction N|].
    split.
    - intros E.
      destruct (Z.eqb_spec (JsString.digitsValue db) 0) as [Zb|Zb]; [discriminate E|].
      injection E as E1 E2. split; [|lia].
      apply columnNumber_inj; [apply La|apply Lb|lia].
    - intros [E1 E2]. rewrite <- E2.
      destruct (Z.eqb_spec (JsString.digitsValue da) 0) as [Zb|Zb]; [contradiction|].
      do 3 f_equal.
      now rewrite <- (columnNumber_upper la), E1, columnNumber_upper. }
  split; [|split; [|exact Z]].
  - rewrite parseCellRef_whole by assumption.
    destruct (parseCellRef (JsString.text (la ++ da))); [discriminate|now contradiction N].
  - rewrite parseCellRef_same by assumption. exact Z.
Qed.

Lemma X9_reference_names_one_cell_witness :
  Binary64.parseCellRef "ab012" = Binary64.parseCellRef "AB12" /\
  parseCellRef "ab012" = parseCellRef "AB12".
Proof.
  assert (La : letterRun (JsString.chars "ab")) by (split; [discriminate|reflexivity]).
  assert (Da : digitRun (JsString.chars "012")) by (split; [discriminate|reflexivity]).
  assert (Lb : letterRun (JsString.chars "AB")) by (split; [discriminate|reflexivity]).
  assert (Db : digitRun (JsString.chars "12")) by (split; [discriminate|reflexivity]).
  assert (N : parseCellRef "ab012" <> None) by (vm_compute; discriminate).
  pose proof (X9_reference_names_one_cell
                (JsString.chars "ab") (JsString.chars "012")
                (JsString.chars "AB") (JsString.chars "12")
                La Da Lb Db ltac:(vm_compute; reflexivity) ltac:(vm_compute; reflexivity)
                ltac:(vm_compute; reflexivity) ltac:(vm_compute; reflexivity) N)
    as [_ [S Z]].
  split; [apply (proj2 S)|apply (proj2 Z)]; split; reflexivity.
Defined.

(** ** The text of a whole number and of a key *)

Lemma digitChar_digit d :
  0 <= d < 10 ->
  JsString.isDigit (JsString.digitChar d) = true /\
  JsString.digitValue (JsString.digitChar d) = d.
Proof.
  intros H.
  assert (C : d = 0 \/ d = 1 \/ d = 2 \/ d = 3 \/ d = 4 \/ d = 5 \/ d = 6 \/ d = 7
              \/ d = 8 \/ d = 9) by lia.
  repeat destruct C as [C|C]; subst; split; reflexivity.
Qed.

Lemma digitsValue_snoc ds d :
  JsString.digitsValue (ds ++ [d]) = JsString.digitsValue ds * 10 + JsString.digitValue d.
Proof. unfold JsString.digitsValue. now rewrite fold_left_app. Qed.

Lemma natDigits_spec fuel :
  forall z acc,
    0 <= z < 10 ^ Z.of_nat (S fuel) ->
    exists ds,
      JsString.natDigits (S fuel) z acc = ds ++ acc /\ ds <> [] /\
      forallb JsString.isDigit ds = true /\ JsString.digitsValue ds = z.
Proof.
  induction fuel as [|fuel IH]; intros z acc H.
  - change (10 ^ Z.of_nat 1) with 10 in H.
    assert (M : z mod 10 = z) by (apply Z.mod_small; lia).
    destruct (digitChar_digit z H) as [D V].
    exists [JsString.digitChar z]. cbn [JsString.natDigits]. rewrite M.
    assert (L : (z <? 10) = true) by (apply Z.ltb_lt; lia). rewrite L.
    split; [reflexivity|]. split; [discriminate|]. split.
    + simpl. now rewrite D.
    + unfold JsString.digitsValue. simpl. lia.
  - assert (Hm : 0 <= z mod 10 < 10) by (apply Z.mod_pos_bound; lia).
    destruct (digitChar_digit (z mod 10) Hm) as [D V].
    change (JsString.natDigits (S (S fuel)) z acc)
      with (let acc' := JsString.digitChar (z mod 10) :: acc in
            if z <? 10 then acc' else JsString.natDigits (S fuel) (z / 10) acc').
    cbv zeta. destruct (z <? 10) eqn:L.
    + apply Z.ltb_lt in L. rewrite Z.mod_small by lia.
      rewrite Z.mod_small in D, V by lia.
      exists [JsString.digitChar z].
      split; [reflexivity|]. split; [discriminate|]. split.
      * simpl. now rewrite D.
      * unfold JsString.digitsValue. simpl. lia.
    + apply Z.ltb_ge in L.
      assert (B : 0 <= z / 10 < 10 ^ Z.of_nat (S fuel)).
      { split; [apply Z.div_pos; lia|].
        apply Z.div_lt_upper_bound; [lia|].
        rewrite (Nat2Z.inj_succ (S fuel)), Z.pow_succ_r in H by lia. lia. }
      destruct (IH (z / 10) (JsString.digitChar (z mod 10) :: acc) B)
        as [ds [E [N [F W]]]].
      exists (ds ++ [JsString.digitChar (z mod 10)]).
      split; [rewrite E, <- app_assoc; reflexivity|].
      split; [destruct ds; discriminate|]. split.
      * rewrite forallb_app, F. simpl. now rewrite D.
      * rewrite digitsValue_snoc, W, V. pose proof (Z.div_mod z 10). lia.
Qed.

Lemma decimalDigits_spec z :
  0 <= z ->
  JsString.decimalDigits z <> [] /\
  forallb JsString.isDigit (JsString.decimalDigits z) = true /\
  JsString.digitsValue (JsString.decimalDigits z) = z.
Proof.
  intros H. unfold JsString.decimalDigits.
  destruct (natDigits_spec (Z.to_nat (Z.log2 z)) z []) as [ds [E [N [F W]]]].
  - split; auto. rewrite Nat2Z.inj_succ, Z2Nat.id by apply Z.log2_nonneg.
    destruct (Z.eq_dec z 0) as [->|Nz]; [reflexivity|].
    pose proof (Z.log2_spec z ltac:(lia)) as [_ U].
    eapply Z.lt_le_trans; [exact U|].
    apply Z.pow_le_mono_l. lia.
  - rewrite E, app_nil_r. auto.
Qed.

Lemma chars_app a b : JsString.chars (a ++ b)%string = JsString.chars a ++ JsString.chars b.
Proof.
  unfold JsString.chars. induction a as [|c a IH]; simpl; [reflexivity|]. now rewrite IH.
Qed.

Lemma text_app a b : JsString.text (a ++ b) = (JsString.text a ++ JsString.text b)%string.
Proof.
  unfold JsString.text. induction a as [|c a IH]; simpl; [reflexivity|]. now rewrite IH.
Qed.

Lemma chars_inj a b : JsString.chars a = JsString.chars b -> a = b.
Proof. intros H. rewrite <- (text_chars a), <- (text_chars b). now rewrite H. Qed.

Lemma ofInteger_chars z : JsString.chars (JsString.ofInteger z) = integerChars z.
Proof.
  unfold JsString.ofInteger, integerChars. destruct (z <? 0).
  - change (JsString.chars (String "-" ?s)) with ("-"%char :: JsString.chars s).
    now rewrite chars_text.
  - apply chars_text.
Qed.

Lemma digits_no c ds :
  JsString.isDigit c = false -> forallb JsString.isDigit ds = true -> ~ In c ds.
Proof.
  intros N F H. rewrite forallb_forall in F. apply F in H. congruence.
Qed.

Lemma integerChars_no_colon z : ~ In ":"%char (integerChars z).
Proof.
  unfold integerChars. destruct (z <? 0) eqn:E.
  - apply Z.ltb_lt in E. intros [H|H]; [discriminate|].
    revert H. apply digits_no; [reflexivity|]. apply decimalDigits_spec. lia.
  - apply Z.ltb_ge in E. apply digits_no; [reflexivity|]. now apply decimalDigits_spec.
Qed.

Lemma integerChars_inj a b : integerChars a = integerChars b -> a = b.
Proof.
  unfold integerChars. intros H.
  destruct (a <? 0) eqn:Ea; destruct (b <? 0) eqn:Eb;
    try apply Z.ltb_lt in Ea; try apply Z.ltb_lt in Eb;
    try apply Z.ltb_ge in Ea; try apply Z.ltb_ge in Eb.
  - injection H as H.
    destruct (decimalDigits_spec (- a)) as [_ [_ Va]]; [lia|].
    destruct (decimalDigits_spec (- b)) as [_ [_ Vb]]; [lia|].
    rewrite H in Va. lia.
  - exfalso. destruct (decimalDigits_spec b Eb) as [N [F _]].
    destruct (JsString.decimalDigits b) as [|d ds]; [congruence|].
    injection H as H _. subst d. discriminate.
  - exfalso. destruct (decimalDigits_spec a Ea) as [N [F _]].
    destruct (JsString.decimalDigits a) as [|d ds]; [congruence|].
    injection H as H _. subst d. discriminate.
  - destruct (decimalDigits_spec a Ea) as [_ [_ Va]].
    destruct (decimalDigits_spec b Eb) as [_ [_ Vb]].
    rewrite H in Va. lia.
Qed.

Lemma split_last sep cs : ~ In sep cs -> Csv.split sep cs = [JsString.text cs].
Proof.
  induction cs as [|c cs IH]; intros N; [reflexivity|].
  cbn [Csv.split]. destruct (Ascii.eqb_spec c sep) as [->|Nc].
  - exfalso. apply N. now left.
  - rewrite IH by (intros H; apply N; now right). reflexivity.
Qed.

Lemma split_first sep a b :
  ~ In sep a -> Csv.split sep (a ++ sep :: b) = JsString.text a :: Csv.split sep b.
Proof.
  induction a as [|c a IH]; intros N.
  - cbn [app Csv.split]. now rewrite Ascii.eqb_refl.
  - cbn [app Csv.split]. destruct (Ascii.eqb_spec c sep) as [->|Nc].
    + exfalso. apply N. now left.
    + rewrite IH by (intros H; apply N; now right). reflexivity.
Qed.

Lemma getCellKey_chars r c :
  JsString.chars (getCellKey r c) = integerChars r ++ ":"%char :: integerChars c.
Proof.
  unfold getCellKey. rewrite !chars_app, !ofInteger_chars. reflexivity.
Qed.

Lemma getCellKey_split r c :
  Csv.split ":" (JsString.chars (getCellKey r c))
  = [JsString.ofInteger r; JsString.ofInteger c].
Proof.
  rewrite getCellKey_chars, split_first, split_last by apply integerChars_no_colon.
  now rewrite <- !ofInteger_chars, !text_chars.
Qed.

Lemma getCellKey_inj r c r' c' : getCellKey r c = getCellKey r' c' -> r = r' /\ c = c'.
Proof.
  intros H.
  assert (S : [JsString.ofInteger r; JsString.ofInteger c]
              = [JsString.ofInteger r'; JsString.ofInteger c']).
  { rewrite <- !getCellKey_split. now rewrite H. }
  injection S as Hr Hc.
  split; apply integerChars_inj; rewrite <- !ofInteger_chars; congruence.
Qed.

Lemma dropWhile_head p (cs : list ascii) :
  match cs with c :: _ => p c = false | [] => True end -> JsString.dropWhile p cs = cs.
Proof. destruct cs as [|c cs]; simpl; auto. now intros ->. Qed.

Lemma trim_solid cs :
  forallb (fun c => negb (JsString.isWhiteSpace c)) cs = true ->
  JsString.trim (JsString.text cs) = JsString.text cs.
Proof.
  intros F. unfold JsString.trim. rewrite chars_text.
  assert (H : forall l, forallb (fun c => negb (JsString.isWhiteSpace c)) l = true ->
                        JsString.dropWhile JsString.isWhiteSpace l = l).
  { intros l Fl. apply dropWhile_head. destruct l as [|c l]; auto.
    simpl in Fl. apply andb_true_iff in Fl. destruct Fl as [Fl _].
    now apply negb_true_iff in Fl. }
  rewrite (H cs F). rewrite H, rev_involutive; auto.
  apply forallb_forall. intros c Hc. apply in_rev in Hc.
  now apply (proj1 (forallb_forall _ _) F).
Qed.

Lemma digits_solid ds :
  forallb JsString.isDigit ds = true ->
  forallb (fun c => negb (JsString.isWhiteSpace c)) ds = true.
Proof.
  intros F. apply forallb_forall. intros c Hc.
  apply (proj1 (forallb_forall _ _) F) in Hc.
  apply negb_true_iff. now apply digit_not_sign.
Qed.

Lemma digit_classes c :
  JsString.isDigit c = true ->
  Csv.isLetter "x" c = false /\ Csv.isLetter "o" c = false /\ Csv.isLetter "b" c = false /\
  Ascii.eqb c "I" = false.
Proof.
  unfold JsString.isDigit, JsString.between, JsString.code. intros H.
  apply andb_true_iff in H. destruct H as [H1 H2].
  apply Z.leb_le in H1, H2.
  repeat split; unfold Csv.isLetter; try apply orb_false_iff; repeat split;
    apply Ascii.eqb_neq; intros ->; simpl in *; lia.
Qed.

Lemma decimalLiteral_digits ds :
  digitRun ds -> Csv.decimalLiteral false ds = whole (JsString.digitsValue ds).
Proof.
  intros [N F]. unfold Csv.decimalLiteral.
  destruct ds as [|d ds]; [congruence|].
  assert (D : JsString.isDigit d = true) by (simpl in F; now apply andb_true_iff in F).
  assert (I : String.eqb (JsString.text (d :: ds)) "Infinity" = false).
  { apply String.eqb_neq. intros E. injection E as E _. subst d. discriminate. }
  rewrite I.
  destruct (run_then_stop JsString.isDigit (d :: ds) [] F Logic.I) as [T Dr].
  rewrite app_nil_r in T, Dr. rewrite T, Dr, app_nil_r.
  cbn [nonEmpty Csv.exponentPart List.length Z.of_nat].
  unfold JsNumber.ofDecimal, whole. change (0 <=? 0 - 0) with true.
  cbv iota. f_equal. change (10 ^ (0 - 0)) with 1. lia.
Qed.

Lemma stringToNumber_digits ds :
  digitRun ds -> Csv.stringToNumber (JsString.text ds) = whole (JsString.digitsValue ds).
Proof.
  intros [N F]. unfold Csv.stringToNumber.
  rewrite trim_solid, chars_text by now apply digits_solid.
  rewrite <- decimalLiteral_digits by (split; assumption).
  destruct ds as [|d ds]; [congruence|].
  assert (D : JsString.isDigit d = true) by (simpl in F; now apply andb_true_iff in F).
  assert (S : Csv.signedLiteral (d :: ds) = Csv.decimalLiteral false (d :: ds)).
  { unfold Csv.signedLiteral. destruct (digit_not_sign d D) as [-> [-> _]]. reflexivity. }
  destruct ds as [|x ds]; [exact S|].
  assert (X : JsString.isDigit x = true).
  { simpl in F. apply andb_true_iff in F. destruct F as [_ F].
    now apply andb_true_iff in F. }
  destruct (digit_classes x X) as [-> [-> [-> _]]].
  rewrite !andb_false_r. exact S.
Qed.

Lemma stringToNumber_whole r :
  0 <= r -> Csv.stringToNumber (JsString.ofInteger r) = whole r.
Proof.
  intros H. unfold JsString.ofInteger.
  assert (L : (r <? 0) = false) by (apply Z.ltb_ge; lia). rewrite L.
  destruct (decimalDigits_spec r H) as [N [F V]].
  rewrite stringToNumber_digits by (split; assumption). now rewrite V.
Qed.

Lemma keyNumbers_key r c :
  0 <= r -> 0 <= c -> Csv.keyNumbers (getCellKey r c) = (whole r, whole c).
Proof.
  intros Hr Hc. unfold Csv.keyNumbers.
  now rewrite getCellKey_split, !stringToNumber_whole.
Qed.

(** ** Reading back what [escapeCsvValue] and [join] wrote *)

Lemma append_assoc (a b c : string) : ((a ++ b) ++ c = a ++ (b ++ c))%string.
Proof. induction a as [|x a IH]; simpl; [reflexivity|]. now rewrite IH. Qed.

Lemma append_empty (a : string) : (a ++ "")%string = a.
Proof. induction a as [|x a IH]; simpl; [reflexivity|]. now rewrite IH. Qed.

Lemma eqb_empty s : String.eqb s "" = true <-> JsString.chars s = [].
Proof. destruct s; simpl; split; congruence. Qed.

Lemma needsQuotes_plain value :
  Csv.needsQuotes value = negb (forallb isPlain (JsString.chars value)).
Proof.
  unfold Csv.needsQuotes. induction (JsString.chars value) as [|c cs IH]; simpl; auto.
  rewrite IH. unfold isPlain.
  destruct (Ascii.eqb c Csv.quote || Ascii.eqb c "," || Ascii.eqb c Csv.LF
            || Ascii.eqb c Csv.CR); reflexivity.
Qed.

Lemma addText_addChar state c value :
  addText (Csv.addChar state c) value = addText state (String c value).
Proof.
  unfold addText, Csv.addChar, Csv.char. simpl. now rewrite append_assoc.
Qed.

Lemma addText_empty state : addText state "" = state.
Proof. destruct state. unfold addText. simpl. now rewrite append_empty. Qed.

Lemma parse_plain cs :
  forall state rest,
    Csv.inQuotes state = false ->
    forallb isPlain cs = true ->
    Csv.parseFrom "," state (cs ++ rest)
    = Csv.parseFrom "," (addText state (JsString.text cs)) rest.
Proof.
  induction cs as [|c cs IH]; intros state rest Q F.
  - simpl. now rewrite addText_empty.
  - simpl in F. apply andb_true_iff in F. destruct F as [Fc F].
    unfold isPlain in Fc. apply negb_true_iff in Fc.
    apply orb_false_iff in Fc. destruct Fc as [Fc Fr].
    apply orb_false_iff in Fc. destruct Fc as [Fc Fl].
    apply orb_false_iff in Fc. destruct Fc as [Fq Fc].
    cbn [app Csv.parseFrom]. rewrite Q, Fq, Fl, Fr.
    assert (D : String.eqb (Csv.char c) "," = false).
    { apply String.eqb_neq. unfold Csv.char. intros E. injection E as E.
      subst c. discriminate. }
    rewrite D, IH by auto. now rewrite addText_addChar.
Qed.

Lemma parse_quoted cs :
  forall state rest,
    Csv.inQuotes state = true ->
    match rest with c :: _ => c <> Csv.quote | [] => True end ->
    Csv.parseFrom "," state (Csv.doubleQuotes cs ++ Csv.quote :: rest)
    = Csv.parseFrom "," (Csv.setQuotes (addText state (JsString.text cs)) false) rest.
Proof.
  induction cs as [|c cs IH]; intros state rest Q R.
  - cbn [Csv.doubleQuotes flat_map app Csv.parseFrom]. rewrite Q, Ascii.eqb_refl.
    rewrite addText_empty.
    destruct rest as [|n rest]; [reflexivity|].
    now rewrite (proj2 (Ascii.eqb_neq n Csv.quote) R).
  - cbn [Csv.doubleQuotes flat_map]. fold (Csv.doubleQuotes cs).
    destruct (Ascii.eqb_spec c Csv.quote) as [->|N].
    + cbn [app Csv.parseFrom]. rewrite Q, !Ascii.eqb_refl.
      rewrite IH by auto. now rewrite addText_addChar.
    + cbn [app Csv.parseFrom]. rewrite Q, (proj2 (Ascii.eqb_neq c Csv.quote) N).
      rewrite IH by auto. now rewrite addText_addChar.
Qed.

Lemma fieldEnd_not_quote rest :
  fieldEnd rest -> match rest with c :: _ => c <> Csv.quote | [] => True end.
Proof. destruct rest as [|c rest]; auto. intros [->| ->]; discriminate. Qed.

Lemma parse_escaped value state rest :
  Csv.inQuotes state = false ->
  fieldEnd rest ->
  Csv.parseFrom "," state (JsString.chars (Csv.escapeCsvValue value) ++ rest)
  = Csv.parseFrom "," (addText state value) rest.
Proof.
  intros Q R. unfold Csv.escapeCsvValue.
  destruct (String.eqb value "") eqn:E.
  - apply String.eqb_eq in E. subst. simpl. now rewrite addText_empty.
  - rewrite needsQuotes_plain, negb_involutive.
    destruct (forallb isPlain (JsString.chars value)) eqn:F.
    + rewrite parse_plain by assumption. now rewrite text_chars.
    + rewrite chars_text. cbn [app Csv.parseFrom]. rewrite Q.
      change (Ascii.eqb Csv.quote Csv.quote) with true. cbv iota.
      rewrite <- app_assoc. cbn [app].
      rewrite parse_quoted; [|reflexivity|now apply fieldEnd_not_quote].
      rewrite text_chars. destruct state. simpl in Q. subst. reflexivity.
Qed.

Lemma join_cons sep piece next rest :
  JsString.chars (Csv.join sep (piece :: next :: rest))
  = JsString.chars piece ++ JsString.chars sep
    ++ JsString.chars (Csv.join sep (next :: rest)).
Proof. cbn [Csv.join]. now rewrite !chars_app. Qed.

Lemma afterLine_quotes values :
  forall state, Csv.inQuotes (afterLine state values) = Csv.inQuotes state.
Proof.
  induction values as [|v [|w values] IH]; intros state; auto.
  change (afterLine state (v :: w :: values))
    with (afterLine (Csv.finalizeField (addText state v)) (w :: values)).
  now rewrite IH.
Qed.

Lemma parse_line values :
  forall state rest,
    Csv.inQuotes state = false ->
    lineEnd rest ->
    Csv.parseFrom "," state (JsString.chars (csvLine values) ++ rest)
    = Csv.parseFrom "," (afterLine state values) rest.
Proof.
  unfold csvLine.
  induction values as [|v [|w values] IH]; intros state rest Q R.
  - reflexivity.
  - cbn [map Csv.join afterLine]. apply parse_escaped; auto.
    destruct rest; simpl in *; auto.
  - change (map Csv.escapeCsvValue (v :: w :: values))
      with (Csv.escapeCsvValue v :: Csv.escapeCsvValue w
              :: map Csv.escapeCsvValue values).
    rewrite join_cons, <- !app_assoc.
    rewrite parse_escaped; [|assumption|simpl; auto].
    change (JsString.chars ",") with [","%char]. cbn [app Csv.parseFrom].
    assert (Q' : Csv.inQuotes (addText state v) = false) by exact Q.
    rewrite Q'. change (Ascii.eqb "," Csv.quote) with false.
    change (String.eqb (Csv.char ",") ",") with true. cbv iota.
    change (afterLine state (v :: w :: values))
      with (afterLine (Csv.finalizeField (addText state v)) (w :: values)).
    apply (IH (Csv.finalizeField (addText state v)) rest); auto.
Qed.

Lemma parse_table table :
  forall state,
    Csv.inQuotes state = false ->
    Csv.parseFrom "," state (JsString.chars (csvText table))
    = afterTable state table.
Proof.
  unfold csvText.
  induction table as [|r [|r' table] IH]; intros state Q.
  - reflexivity.
  - cbn [map Csv.join afterTable].
    rewrite <- (app_nil_r (JsString.chars (csvLine r))).
    rewrite parse_line; simpl; auto.
  - change (map csvLine (r :: r' :: table))
      with (csvLine r :: csvLine r' :: map csvLine table).
    rewrite join_cons.
    rewrite parse_line; [|assumption|simpl; auto].
    change (JsString.chars (Csv.char Csv.LF)) with [Csv.LF]. cbn [app Csv.parseFrom].
    rewrite afterLine_quotes, Q.
    change (Ascii.eqb Csv.LF Csv.quote) with false.
    change (String.eqb (Csv.char Csv.LF) ",") with false.
    change (Ascii.eqb Csv.LF Csv.LF) with true. cbv iota.
    change (afterTable state (r :: r' :: table))
      with (afterTable (Csv.finalizeRow (afterLine state r)) (r' :: table)).
    apply (IH (Csv.finalizeRow (afterLine state r))).
    cbn. now rewrite afterLine_quotes.
Qed.

Lemma afterLine_fresh values :
  values <> [] ->
  forall rows row quotes,
    afterLine (Csv.mkState rows row "" quotes) values
    = Csv.mkState rows (row ++ removelast values) (last values "") quotes.
Proof.
  induction values as [|v [|w values] IH]; intros N rows row quotes.
  - congruence.
  - cbn. now rewrite app_nil_r.
  - change (afterLine (Csv.mkState rows row "" quotes) (v :: w :: values))
      with (afterLine (Csv.finalizeField (addText (Csv.mkState rows row "" quotes) v))
                      (w :: values)).
    unfold Csv.finalizeField, addText. cbn [Csv.rows Csv.row Csv.field Csv.inQuotes].
    rewrite IH by discriminate.
    change (removelast (v :: w :: values)) with (v :: removelast (w :: values)).
    change (last (v :: w :: values) "") with (last (w :: values) "").
    now rewrite <- app_assoc.
Qed.

Lemma afterTable_fresh table :
  table <> [] ->
  Forall (fun values => values <> []) table ->
  forall rows quotes,
    afterTable (Csv.mkState rows [] "" quotes) table
    = Csv.mkState (rows ++ removelast table) (removelast (last table []))
                  (last (last table []) "") quotes.
Proof.
  induction table as [|r [|r' table] IH]; intros N F rows quotes.
  - congruence.
  - cbn [afterTable removelast last]. inversion F; subst.
    rewrite afterLine_fresh by assumption. now rewrite app_nil_r.
  - change (afterTable (Csv.mkState rows [] "" quotes) (r :: r' :: table))
      with (afterTable (Csv.finalizeRow (afterLine (Csv.mkState rows [] "" quotes) r))
                       (r' :: table)).
    inversion F; subst.
    rewrite afterLine_fresh by assumption.
    unfold Csv.finalizeRow, Csv.finalizeField.
    cbn [Csv.rows Csv.row Csv.field Csv.inQuotes app].
    rewrite IH by (auto; discriminate).
    change (removelast (r :: r' :: table)) with (r :: removelast (r' :: table)).
    change (last (r :: r' :: table) []) with (last (r' :: table) []).
    rewrite <- app_assoc. cbn [app].
    now rewrite <- app_removelast_last by assumption.
Qed.

Lemma parseCsv_csvText table :
  Forall (fun values => values <> []) table ->
  Csv.parseCsv (csvText table) ","
  = if endsBlank table then removelast table else table.
Proof.
  intros F. unfold Csv.parseCsv. rewrite parse_table by reflexivity.
  destruct table as [|r table]; [reflexivity|].
  rewrite afterTable_fresh by (auto; discriminate).
  cbn [Csv.inQuotes Csv.field Csv.row Csv.rows app].
  set (l := last (r :: table) []).
  assert (Nl : l <> []).
  { unfold l. rewrite Forall_forall in F. apply F.
    destruct (exists_last (l := r :: table) ltac:(discriminate)) as [t [x E]].
    rewrite E, last_last. apply in_app_iff. simpl. auto. }
  assert (E : r :: table = removelast (r :: table) ++ [l]).
  { apply app_removelast_last. discriminate. }
  unfold endsBlank. fold l.
  destruct l as [|v [|w l']] eqn:El; [congruence| |].
  - cbn [removelast last List.length].
    destruct v as [|c v]; cbn [String.length String.eqb].
    + reflexivity.
    + unfold Csv.finalizeRow, Csv.finalizeField.
      cbn [Csv.rows Csv.row Csv.field Csv.inQuotes app].
      replace (0 <? Z.of_nat (S (String.length v))) with true
        by (symmetry; apply Z.ltb_lt; lia).
      cbn [orb Csv.rows]. symmetry. exact E.
  - assert (L : (0 <? Z.of_nat (List.length (removelast (v :: w :: l')))) = true).
    { apply Z.ltb_lt. change (removelast (v :: w :: l')) with (v :: removelast (w :: l')).
      simpl List.length. lia. }
    rewrite L, orb_true_r.
    unfold Csv.finalizeRow, Csv.finalizeField.
    cbn [Csv.rows Csv.row Csv.field Csv.inQuotes].
    rewrite <- app_removelast_last by discriminate. symmetry. exact E.
Qed.

(** ** The delimiter detected in what [cellsToCsv] wrote *)

Lemma pick_commaCounts n :
  0 <= n -> orElse (Csv.pickDelimiter (commaCounts n)) "," = ",".
Proof.
  intros H. unfold Csv.pickDelimiter, commaCounts, Csv.DELIMITER_CANDIDATES.
  assert (N : (n <? 0) = false) by (apply Z.ltb_ge; lia).
  cbn. destruct (0 <? n) eqn:E; cbn; rewrite ?N; cbn; rewrite ?N; cbn;
    rewrite ?E; reflexivity.
Qed.

Lemma pick_commaCounts_cases n :
  0 <= n ->
  Csv.pickDelimiter (commaCounts n) = Some "," \/ Csv.pickDelimiter (commaCounts n) = None.
Proof.
  intros H. unfold Csv.pickDelimiter, commaCounts, Csv.DELIMITER_CANDIDATES.
  assert (N : (n <? 0) = false) by (apply Z.ltb_ge; lia).
  cbn. destruct (0 <? n) eqn:E; cbn; rewrite ?N; cbn; rewrite ?N; cbn;
    rewrite ?E; auto.
Qed.

Lemma endsComma_nil : endsComma [].
Proof. intros quotes lineCount n _ H. cbn. now apply pick_commaCounts. Qed.

Lemma has_char c n :
  JsMap.has (Csv.char c) (commaCounts n)
  = Ascii.eqb c "," || Ascii.eqb c Csv.TAB || Ascii.eqb c ";" || Ascii.eqb c "|".
Proof.
  unfold JsMap.has, commaCounts, Csv.char, Csv.TAB. cbn [JsMap.get String.eqb].
  rewrite (Ascii.eqb_sym "," c), (Ascii.eqb_sym "009" c), (Ascii.eqb_sym ";" c),
    (Ascii.eqb_sym "|" c).
  destruct (Ascii.eqb c ","); [reflexivity|].
  destruct (Ascii.eqb c "009"); [reflexivity|].
  destruct (Ascii.eqb c ";"); [reflexivity|].
  destruct (Ascii.eqb c "|"); reflexivity.
Qed.

Lemma isPlain_parts c :
  isPlain c = true ->
  Ascii.eqb c Csv.quote = false /\ Ascii.eqb c "," = false /\
  Ascii.eqb c Csv.LF = false /\ Ascii.eqb c Csv.CR = false.
Proof.
  unfold isPlain. intros H. apply negb_true_iff in H.
  apply orb_false_iff in H. destruct H as [H H4].
  apply orb_false_iff in H. destruct H as [H H3].
  apply orb_false_iff in H. tauto.
Qed.

Lemma isQuiet_parts c :
  isQuiet c = true ->
  Ascii.eqb c Csv.TAB = false /\ Ascii.eqb c ";" = false /\ Ascii.eqb c "|" = false.
Proof.
  unfold isQuiet. intros H. apply negb_true_iff in H.
  apply orb_false_iff in H. destruct H as [H H3].
  apply orb_false_iff in H. tauto.
Qed.

Lemma detect_quiet cs rest :
  forallb isPlain cs = true -> forallb isQuiet cs = true ->
  endsComma rest -> endsComma (cs ++ rest).
Proof.
  intros P Q K. induction cs as [|c cs IH]; [exact K|].
  simpl in P, Q. apply andb_true_iff in P, Q.
  destruct P as [Pc P], Q as [Qc Q].
  destruct (isPlain_parts c Pc) as [E1 [E2 [E3 E4]]].
  destruct (isQuiet_parts c Qc) as [E5 [E6 E7]].
  intros quotes lineCount n -> Hn. cbn [app Csv.detectFrom].
  destruct (lineCount <? 5); cbn [negb]; [|now apply pick_commaCounts].
  rewrite E1, E3, E4, has_char, E2, E5, E6, E7. cbn [orb andb].
  now apply IH.
Qed.

Lemma detect_comma rest : endsComma rest -> endsComma (","%char :: rest).
Proof.
  intros K quotes lineCount n -> Hn. cbn [Csv.detectFrom].
  destruct (lineCount <? 5); cbn [negb]; [|now apply pick_commaCounts].
  change (Ascii.eqb "," Csv.quote) with false.
  change (Ascii.eqb "," Csv.LF) with false.
  change (Ascii.eqb "," Csv.CR) with false.
  rewrite has_char. cbn [orb andb Ascii.eqb Bool.eqb].
  change (JsMap.set (Csv.char ",") (orElse (JsMap.get (Csv.char ",") (commaCounts n)) 0 + 1)
                    (commaCounts n))
    with (commaCounts (n + 1)).
  apply K; [reflexivity|lia].
Qed.

Lemma detect_LF rest : endsComma rest -> endsComma (Csv.LF :: rest).
Proof.
  intros K quotes lineCount n -> Hn. cbn [Csv.detectFrom].
  destruct (lineCount <? 5); cbn [negb]; [|now apply pick_commaCounts].
  change (Ascii.eqb Csv.LF Csv.quote) with false.
  change (Ascii.eqb Csv.LF Csv.LF) with true.
  change (Ascii.eqb Csv.LF Csv.CR) with false. cbn [orb andb].
  destruct (pick_commaCounts_cases n Hn) as [-> | ->]; [reflexivity|].
  change Csv.resetCounts with (commaCounts 0).
  destruct rest as [|nextChar rest']; apply K; auto; lia.
Qed.

Lemma detect_inside cs rest :
  endsComma rest ->
  match rest with c :: _ => c <> Csv.quote | [] => True end ->
  forall lineCount n,
    0 <= n ->
    Csv.detectFrom true lineCount (commaCounts n) (Csv.doubleQuotes cs ++ Csv.quote :: rest)
    = ",".
Proof.
  intros K R. induction cs as [|c cs IH]; intros lineCount n Hn.
  - cbn [Csv.doubleQuotes flat_map app Csv.detectFrom].
    destruct (lineCount <? 5); cbn [negb]; [|now apply pick_commaCounts].
    rewrite Ascii.eqb_refl.
    destruct rest as [|nextChar rest'].
    + apply K; auto.
    + rewrite (proj2 (Ascii.eqb_neq nextChar Csv.quote) R). cbn [andb negb].
      apply K; auto.
  - cbn [Csv.doubleQuotes flat_map]. fold (Csv.doubleQuotes cs).
    destruct (Ascii.eqb_spec c Csv.quote) as [->|N].
    + cbn [app Csv.detectFrom].
      destruct (lineCount <? 5); cbn [negb]; [|now apply pick_commaCounts].
      rewrite !Ascii.eqb_refl. cbn [andb]. now apply IH.
    + cbn [app Csv.detectFrom].
      destruct (lineCount <? 5); cbn [negb]; [|now apply pick_commaCounts].
      rewrite (proj2 (Ascii.eqb_neq c Csv.quote) N). cbn [andb negb].
      now apply IH.
Qed.

Lemma detect_escaped value rest :
  isTame value = true -> fieldEnd rest ->
  endsComma rest -> endsComma (JsString.chars (Csv.escapeCsvValue value) ++ rest).
Proof.
  intros T R K. unfold Csv.escapeCsvValue.
  destruct (String.eqb value "") eqn:E.
  - apply String.eqb_eq in E. subst. exact K.
  - unfold isTame in T. rewrite needsQuotes_plain in *.
    destruct (forallb isPlain (JsString.chars value)) eqn:F; cbn [negb] in *.
    + now apply detect_quiet.
    + rewrite chars_text. intros quotes lineCount n -> Hn.
      cbn [app Csv.detectFrom].
      destruct (lineCount <? 5); cbn [negb]; [|now apply pick_commaCounts].
      rewrite Ascii.eqb_refl. rewrite <- app_assoc. cbn [app andb].
      assert (D : forall l,
                Csv.detectFrom true lineCount (commaCounts n) l = "," ->
                match l with
                | nextChar :: rest' => Csv.detectFrom true lineCount (commaCounts n) l
                | [] => Csv.detectFrom true lineCount (commaCounts n) l
                end = ",").
      { intros l H. now destruct l. }
      apply D. apply detect_inside; auto. now apply fieldEnd_not_quote.
Qed.

Lemma detect_line values :
  forall rest,
    forallb isTame values = true -> lineEnd rest ->
    endsComma rest -> endsComma (JsString.chars (csvLine values) ++ rest).
Proof.
  unfold csvLine.
  induction values as [|v [|w values] IH]; intros rest T R K.
  - exact K.
  - cbn [map Csv.join]. simpl in T. apply andb_true_iff in T.
    apply detect_escaped; try tauto. destruct rest; simpl in *; auto.
  - change (map Csv.escapeCsvValue (v :: w :: values))
      with (Csv.escapeCsvValue v :: Csv.escapeCsvValue w
              :: map Csv.escapeCsvValue values).
    rewrite join_cons, <- !app_assoc.
    change (forallb isTame (v :: w :: values))
      with (isTame v && forallb isTame (w :: values)) in T.
    apply andb_true_iff in T. destruct T as [Tv T].
    apply detect_escaped; [assumption|simpl; auto|].
    change (JsString.chars ",") with [","%char]. cbn [app].
    apply detect_comma. now apply IH.
Qed.

Lemma detect_table table :
  forallb (forallb isTame) table = true ->
  endsComma (JsString.chars (csvText table)).
Proof.
  unfold csvText.
  induction table as [|r [|r' table] IH]; intros T.
  - apply endsComma_nil.
  - cbn [map Csv.join]. simpl in T. apply andb_true_iff in T.
    rewrite <- (app_nil_r (JsString.chars (csvLine r))).
    apply detect_line; [tauto|exact I|apply endsComma_nil].
  - change (map csvLine (r :: r' :: table))
      with (csvLine r :: csvLine r' :: map csvLine table).
    rewrite join_cons.
    change (forallb (forallb isTame) (r :: r' :: table))
      with (forallb isTame r && forallb (forallb isTame) (r' :: table)) in T.
    apply andb_true_iff in T. destruct T as [Tr T].
    apply detect_line; [assumption|simpl; auto|].
    change (JsString.chars (Csv.char Csv.LF)) with [Csv.LF]. cbn [app].
    apply detect_LF. now apply IH.
Qed.

Lemma detectDelimiter_csvText table :
  forallb (forallb isTame) table = true -> Csv.detectDelimiter (csvText table) = ",".
Proof.
  intros T. unfold Csv.detectDelimiter.
  change Csv.resetCounts with (commaCounts 0).
  apply detect_table; auto. lia.
Qed.

(** ** The cells [csvToCells] makes of a table *)

Lemma setAll_app a b cells : setAll (a ++ b) cells = setAll b (setAll a cells).
Proof. unfold setAll. apply fold_left_app. Qed.

Lemma cellsOf_entries table maxRows maxCols :
  cellsOf table maxRows maxCols = setAll (tableEntries table maxRows maxCols) [].
Proof.
  unfold cellsOf, tableEntries. generalize (@nil (string * string)) as cells.
  induction (Csv.below maxRows table) as [|[row values] lines IH]; intros cells.
  - reflexivity.
  - cbn [fold_left flat_map fst snd]. rewrite setAll_app, IH. f_equal.
    clear IH. revert cells.
    induction (Csv.below maxCols values) as [|[col value] items IH]; intros cells.
    + reflexivity.
    + cbn [fold_left flat_map fst snd]. rewrite setAll_app, IH. f_equal.
      unfold valueEntry. destruct (negb (String.eqb value "")); reflexivity.
Qed.

Lemma setAll_get entries :
  forall cells k,
    JsMap.get k (setAll entries cells)
    = match JsMap.get k (rev entries) with
      | Some v => Some v
      | None => JsMap.get k cells
      end.
Proof.
  induction entries as [|[k0 v0] entries IH]; intros cells k.
  - reflexivity.
  - change (setAll ((k0, v0) :: entries) cells)
      with (setAll entries (JsMap.set k0 v0 cells)).
    rewrite IH. cbn [rev]. rewrite get_app.
    destruct (JsMap.get k (rev entries)); auto.
    cbn [JsMap.get]. destruct (String.eqb_spec k0 k) as [->|N].
    + apply get_set_same.
    + apply get_set_other. congruence.
Qed.

Lemma setAll_functional entries k v :
  (forall v1 v2, In (k, v1) entries -> In (k, v2) entries -> v1 = v2) ->
  (JsMap.get k (setAll entries []) = Some v <-> In (k, v) entries).
Proof.
  intros F. rewrite setAll_get. cbn [JsMap.get].
  destruct (JsMap.get k (rev entries)) as [v'|] eqn:G.
  - apply get_In_entry in G. apply in_rev in G. split.
    + intros E. injection E as <-. exact G.
    + intros H. f_equal. now apply F.
  - split; [discriminate|]. intros H. exfalso.
    apply get_None in G. apply G. unfold JsMap.keys.
    apply in_map_iff. exists (k, v). split; auto. now apply in_rev in H.
Qed.

Lemma indexed_In {A : Type} (l : list A) i x :
  In (i, x) (Csv.indexed l) <-> 0 <= i /\ nth_error l (Z.to_nat i) = Some x.
Proof.
  unfold Csv.indexed.
  assert (G : forall start,
            In (i, x) (combine (map Z.of_nat (seq start (List.length l))) l)
            <-> Z.of_nat start <= i /\ nth_error l (Z.to_nat i - start) = Some x).
  { induction l as [|a l IH]; intros start.
    - simpl. split; [tauto|]. intros [_ H]. now destruct (Z.to_nat i - start)%nat.
    - cbn [List.length seq map combine In]. rewrite IH. split.
      + intros [E|[H1 H2]].
        * injection E as <- <-. split; [lia|].
          replace (Z.to_nat (Z.of_nat start) - start)%nat with 0%nat by lia. reflexivity.
        * split; [lia|].
          replace (Z.to_nat i - start)%nat with (S (Z.to_nat i - S start)) by lia.
          exact H2.
      + intros [H1 H2].
        destruct (Z.eq_dec i (Z.of_nat start)) as [->|N].
        * left.
          replace (Z.to_nat (Z.of_nat start) - start)%nat with 0%nat in H2 by lia.
          simpl in H2. congruence.
        * right. split; [lia|].
          replace (Z.to_nat i - start)%nat with (S (Z.to_nat i - S start)) in H2 by lia.
          exact H2. }
  rewrite G. now rewrite Nat.sub_0_r.
Qed.

Lemma below_In {A : Type} limit (l : list A) i x :
  In (i, x) (Csv.below limit l)
  <-> 0 <= i < limit /\ nth_error l (Z.to_nat i) = Some x.
Proof.
  unfold Csv.below. rewrite indexed_In, nth_error_firstn.
  destruct (Nat.ltb_spec (Z.to_nat i) (Z.to_nat limit)) as [L|L].
  - split; intros [H N]; split; auto; lia.
  - split; intros [H N]; [discriminate|]. lia.
Qed.

Lemma tableEntries_In table maxRows maxCols k v :
  In (k, v) (tableEntries table maxRows maxCols)
  <-> exists row col values,
        0 <= row < maxRows /\ nth_error table (Z.to_nat row) = Some values /\
        0 <= col < maxCols /\ nth_error values (Z.to_nat col) = Some v /\
        v <> "" /\ k = getCellKey row col.
Proof.
  unfold tableEntries. rewrite in_flat_map. split.
  - intros [[row values] [Hl H]]. cbn [fst snd] in H.
    apply in_flat_map in H. destruct H as [[col value] [Hi H]].
    cbn [fst snd] in H. unfold valueEntry in H.
    destruct (String.eqb_spec value "") as [E|E]; cbn [negb] in H; [destruct H|].
    destruct H as [H|[]]. injection H as <- <-.
    apply below_In in Hl, Hi. exists row, col, values. tauto.
  - intros [row [col [values [Hr [Nr [Hc [Nc [E ->]]]]]]]].
    exists (row, values). split; [apply below_In; auto|].
    cbn [fst snd]. apply in_flat_map. exists (col, v).
    split; [apply below_In; auto|]. cbn [fst snd]. unfold valueEntry.
    destruct (String.eqb_spec v "") as [E'|E']; [contradiction|]. now left.
Qed.

Lemma tableEntries_functional table maxRows maxCols k v1 v2 :
  In (k, v1) (tableEntries table maxRows maxCols) ->
  In (k, v2) (tableEntries table maxRows maxCols) -> v1 = v2.
Proof.
  rewrite !tableEntries_In.
  intros [r1 [c1 [l1 [_ [N1 [_ [M1 [_ E1]]]]]]]] [r2 [c2 [l2 [_ [N2 [_ [M2 [_ E2]]]]]]]].
  subst k. apply getCellKey_inj in E2. destruct E2 as [-> ->]. congruence.
Qed.

Lemma cellsOf_get table maxRows maxCols k v :
  JsMap.get k (cellsOf table maxRows maxCols) = Some v
  <-> In (k, v) (tableEntries table maxRows maxCols).
Proof.
  rewrite cellsOf_entries. apply setAll_functional.
  intros v1 v2. apply tableEntries_functional.
Qed.

Lemma upto_nth last i :
  0 <= last -> 
  nth_error (upto 0 last) i = if Z.of_nat i <=? last then Some (Z.of_nat i) else None.
Proof.
  intros H. unfold upto. rewrite nth_error_map, nth_error_seq.
  destruct (Nat.ltb_spec i (Z.to_nat (last - 0 + 1))) as [L|L];
    destruct (Z.leb_spec (Z.of_nat i) last) as [L'|L']; try lia; reflexivity.
Qed.

Lemma grid_nth cells lastRow lastCol r c v :
  0 <= lastRow -> 0 <= lastCol -> 0 <= r -> 0 <= c ->
  ((exists values,
      nth_error (grid cells lastRow lastCol) (Z.to_nat r) = Some values /\
      nth_error values (Z.to_nat c) = Some v)
   <-> r <= lastRow /\ c <= lastCol /\ v = gridValue cells r c).
Proof.
  intros HR HC Hr Hc. unfold grid.
  rewrite nth_error_map, upto_nth, Z2Nat.id by assumption.
  destruct (Z.leb_spec r lastRow) as [L|L]; cbn [option_map].
  - split.
    + intros [values [E N]]. injection E as <-.
      rewrite nth_error_map, upto_nth, Z2Nat.id in N by assumption.
      destruct (Z.leb_spec c lastCol) as [L'|L']; cbn [option_map] in N;
        [|discriminate].
      injection N as <-. auto.
    + intros [_ [L' ->]]. eexists. split; [reflexivity|].
      rewrite nth_error_map, upto_nth, Z2Nat.id by assumption.
      destruct (Z.leb_spec c lastCol) as [L''|L'']; [reflexivity|lia].
  - split; [intros [values [E _]]; discriminate|lia].
Qed.

Lemma grid_rows cells lastRow lastCol :
  0 <= lastCol -> Forall (fun values => values <> []) (grid cells lastRow lastCol).
Proof.
  intros H. unfold grid. apply Forall_forall. intros values Hv.
  apply in_map_iff in Hv. destruct Hv as [row [<- _]].
  unfold upto. replace (Z.to_nat (lastCol - 0 + 1)) with (S (Z.to_nat lastCol)) by lia.
  discriminate.
Qed.

Lemma csvText_grid cells lastRow lastCol :
  Csv.join (Csv.char Csv.LF) (map (Csv.csvRow cells (upto 0 lastCol)) (upto 0 lastRow))
  = csvText (grid cells lastRow lastCol).
Proof.
  unfold csvText, grid. rewrite map_map. f_equal. apply map_ext. intros row.
  unfold Csv.csvRow, csvLine. now rewrite map_map.
Qed.

Lemma nth_error_last {A : Type} (l : list A) d :
  l <> [] -> nth_error l (Nat.pred (List.length l)) = Some (last l d).
Proof.
  intros N. destruct (exists_last N) as [t [x ->]].
  rewrite last_last, length_app. cbn [List.length].
  replace (Nat.pred (List.length t + 1)) with (List.length t) by lia.
  rewrite nth_error_app2 by lia. now rewrite Nat.sub_diag.
Qed.

Lemma trimmed_entries table maxRows maxCols k v :
  In (k, v) (tableEntries (if endsBlank table then removelast table else table)
                          maxRows maxCols)
  <-> In (k, v) (tableEntries table maxRows maxCols).
Proof.
  destruct (endsBlank table) eqn:B; [|tauto].
  rewrite !tableEntries_In. rewrite removelast_firstn_len.
  split; intros [row [col [values [Hr [Nr [Hc [Nc [E K]]]]]]]];
    exists row, col, values; repeat split; auto; try lia.
  - rewrite nth_error_firstn in Nr.
    now destruct (Nat.ltb (Z.to_nat row) (Nat.pred (List.length table))).
  - rewrite nth_error_firstn.
    destruct (Nat.ltb_spec (Z.to_nat row) (Nat.pred (List.length table))) as [L|L];
      [assumption|].
    exfalso.
    assert (Nt : table <> []) by (intros ->; now destruct (Z.to_nat row)).
    assert (Lt : (Z.to_nat row < List.length table)%nat).
    { apply nth_error_Some. congruence. }
    assert (Er : Z.to_nat row = Nat.pred (List.length table)) by lia.
    rewrite Er, (nth_error_last table []) in Nr by assumption.
    injection Nr as Nr. unfold endsBlank in B. rewrite Nr in B.
    destruct values as [|x [|y values]]; try discriminate.
    apply String.eqb_eq in B. subst x.
    destruct (Z.to_nat col) as [|n]; simpl in Nc; [congruence|].
    now destruct n.
Qed.

(** ** The extent [cellsToCsv] finds *)

Lemma widen_key a b r c :
  0 <= a < 2 ^ 53 -> 0 <= b < 2 ^ 53 -> 0 <= r < 2 ^ 53 -> 0 <= c < 2 ^ 53 ->
  Csv.widen (whole a, whole b) (getCellKey r c) = (whole (Z.max a r), whole (Z.max b c)).
Proof.
  intros Ha Hb Hr Hc. unfold Csv.widen.
  rewrite keyNumbers_key, !whole_finite, !whole_ltb by lia. cbn [andb].
  f_equal.
  - destruct (Z.ltb_spec a r); f_equal; lia.
  - destruct (Z.ltb_spec b c); f_equal; lia.
Qed.

Lemma maxima_fold maxRows maxCols keys :
  maxRows <= 2 ^ 53 -> maxCols <= 2 ^ 53 ->
  (forall k, In k keys ->
     exists r c, k = getCellKey r c /\ 0 <= r < maxRows /\ 0 <= c < maxCols) ->
  forall a b,
    0 <= a < maxRows -> 0 <= b < maxCols ->
    exists lastRow lastCol,
      fold_left Csv.widen keys (whole a, whole b) = (whole lastRow, whole lastCol) /\
      a <= lastRow < maxRows /\ b <= lastCol < maxCols /\
      (forall r c, In (getCellKey r c) keys -> r <= lastRow /\ c <= lastCol) /\
      (lastRow = a \/ exists c, In (getCellKey lastRow c) keys) /\
      (lastCol = b \/ exists r, In (getCellKey r lastCol) keys).
Proof.
  intros BR BC. induction keys as [|k keys IH]; intros G a b Ha Hb.
  - exists a, b. split; [reflexivity|]. split; [lia|]. split; [lia|].
    split; [intros r c []|]. split; now left.
  - destruct (G k (or_introl eq_refl)) as [r [c [-> [Hr Hc]]]].
    cbn [fold_left]. rewrite widen_key by lia.
    destruct (IH (fun k H => G k (or_intror H)) (Z.max a r) (Z.max b c))
      as [lastRow [lastCol [E [HR [HC [I [AR AC]]]]]]]; try lia.
    exists lastRow, lastCol. split; [exact E|]. split; [lia|]. split; [lia|].
    split; [|split].
    + intros r' c' [H|H]; [|now apply I].
      apply getCellKey_inj in H. lia.
    + destruct AR as [AR|[c' AR]]; [|right; exists c'; now right].
      destruct (Z.max_spec a r) as [[_ M]|[_ M]]; rewrite M in AR.
      * right. exists c. left. now rewrite AR.
      * now left.
    + destruct AC as [AC|[r' AC]]; [|right; exists r'; now right].
      destruct (Z.max_spec b c) as [[_ M]|[_ M]]; rewrite M in AC.
      * right. exists r. left. now rewrite AC.
      * now left.
Qed.

Lemma grid_tame maxRows maxCols cells lastRow lastCol :
  exportable maxRows maxCols cells ->
  forallb (forallb isTame) (grid cells lastRow lastCol) = true.
Proof.
  intros X. unfold grid. apply forallb_forall. intros values Hv.
  apply in_map_iff in Hv. destruct Hv as [row [<- _]].
  apply forallb_forall. intros v Hv.
  apply in_map_iff in Hv. destruct Hv as [col [<- _]].
  unfold gridValue.
  destruct (JsMap.get (getCellKey row col) cells) as [v|] eqn:G; [|reflexivity].
  apply get_In_entry in G. now apply X in G.
Qed.

Lemma exportable_positioned maxRows maxCols cells :
  exportable maxRows maxCols cells -> positioned maxRows maxCols cells.
Proof.
  intros X k H. apply in_map_iff in H. destruct H as [[k' v] [<- H]].
  now apply X in H.
Qed.

Lemma cellsToCsv_outcome maxRows maxCols cells :
  maxRows <= 2 ^ 53 -> maxCols <= 2 ^ 53 ->
  positioned maxRows maxCols cells ->
  cells <> [] ->
  exists lastRow lastCol,
    Csv.cellsToCsv cells
    = (if (lastRow <? ARRAY_MAX) && (lastCol <? ARRAY_MAX)
       then Some (csvText (grid cells lastRow lastCol)) else None) /\
    0 <= lastRow < maxRows /\ 0 <= lastCol < maxCols /\
    (forall r c, In (getCellKey r c) (JsMap.keys cells) -> r <= lastRow /\ c <= lastCol) /\
    (exists c, In (getCellKey lastRow c) (JsMap.keys cells)) /\
    (exists r, In (getCellKey r lastCol) (JsMap.keys cells)).
Proof.
  intros BR BC K N.
  assert (F : exists r c, In (getCellKey r c) (JsMap.keys cells) /\ 0 <= r /\ 0 <= c).
  { destruct cells as [|[k v] cells]; [congruence|].
    destruct (K k (or_introl eq_refl)) as [r [c [E H]]].
    exists r, c. split; [left; now rewrite E|lia]. }
  destruct F as [r0 [c0 [F [Pr Pc]]]].
  assert (P : 0 < maxRows /\ 0 < maxCols).
  { destruct cells as [|[k v] cells]; [congruence|].
    destruct (K k (or_introl eq_refl)) as [r [c [_ H]]]. lia. }
  destruct (maxima_fold maxRows maxCols (JsMap.keys cells) BR BC K 0 0)
    as [lastRow [lastCol [E [HR [HC [I [AR AC]]]]]]]; try lia.
  exists lastRow, lastCol. split; [|split; [lia|split; [lia|split; [exact I|]]]].
  - unfold Csv.cellsToCsv. destruct cells as [|e cells]; [congruence|].
    unfold Csv.maxima. change (0%float, 0%float) with (whole 0, whole 0).
    rewrite E, !countTo_whole by lia.
    destruct (lastRow <? ARRAY_MAX); [|reflexivity].
    destruct (lastCol <? ARRAY_MAX); [|reflexivity].
    cbn [andb]. now rewrite csvText_grid.
  - destruct (I r0 c0 F) as [Ir Ic]. split.
    + destruct AR as [AR|AR]; [|exact AR]. exists c0.
      replace lastRow with r0 by lia. exact F.
    + destruct AC as [AC|AC]; [|exact AC]. exists r0.
      replace lastCol with c0 by lia. exact F.
Qed.

Lemma cellsToCsv_extent maxRows maxCols cells :
  maxRows <= ARRAY_MAX -> maxCols <= ARRAY_MAX ->
  positioned maxRows maxCols cells ->
  cells <> [] ->
  exists lastRow lastCol,
    Csv.cellsToCsv cells = Some (csvText (grid cells lastRow lastCol)) /\
    0 <= lastRow < maxRows /\ 0 <= lastCol < maxCols /\
    (forall r c, In (getCellKey r c) (JsMap.keys cells) -> r <= lastRow /\ c <= lastCol) /\
    (exists c, In (getCellKey lastRow c) (JsMap.keys cells)) /\
    (exists r, In (getCellKey r lastCol) (JsMap.keys cells)).
Proof.
  intros BR BC K N.
  assert (B : ARRAY_MAX <= 2 ^ 53) by (unfold ARRAY_MAX; lia).
  destruct (cellsToCsv_outcome maxRows maxCols cells ltac:(lia) ltac:(lia) K N)
    as [lastRow [lastCol [E [HR [HC R]]]]].
  exists lastRow, lastCol. split; [|auto].
  rewrite E.
  rewrite (proj2 (Z.ltb_lt lastRow ARRAY_MAX)) by lia.
  now rewrite (proj2 (Z.ltb_lt lastCol ARRAY_MAX)) by lia.
Qed.

Lemma cellsToCsv_grid maxRows maxCols cells :
  maxRows <= ARRAY_MAX -> maxCols <= ARRAY_MAX ->
  exportable maxRows maxCols cells ->
  cells <> [] ->
  exists lastRow lastCol,
    Csv.cellsToCsv cells = Some (csvText (grid cells lastRow lastCol)) /\
    0 <= lastRow < maxRows /\ 0 <= lastCol < maxCols /\
    forall r c, In (getCellKey r c) (JsMap.keys cells) -> r <= lastRow /\ c <= lastCol.
Proof.
  intros BR BC X N.
  destruct (cellsToCsv_extent maxRows maxCols cells BR BC
              (exportable_positioned _ _ _ X) N)
    as [lastRow [lastCol [E [HR [HC [I _]]]]]].
  exists lastRow, lastCol. auto.
Qed.



(** ** The delimiter is one of the candidates *)

Lemma pick_candidate counts d :
  Csv.pickDelimiter counts = Some d -> In d Csv.DELIMITER_CANDIDATES.
Proof.
  unfold Csv.pickDelimiter, Csv.DELIMITER_CANDIDATES. cbn [fold_left].
  repeat match goal with
         | |- context [if ?b then _ else _] => destruct b
         end; intros H; inversion H; subst; cbn; auto.
Qed.

Lemma pick_or_comma counts :
  In (orElse (Csv.pickDelimiter counts) ",") Csv.DELIMITER_CANDIDATES.
Proof.
  destruct (Csv.pickDelimiter counts) as [d|] eqn:E; cbn [orElse].
  - now apply pick_candidate in E.
  - cbn. auto.
Qed.

Lemma detect_candidate n :
  forall text, (List.length text <= n)%nat ->
  forall quotes lineCount counts,
    In (Csv.detectFrom quotes lineCount counts text) Csv.DELIMITER_CANDIDATES.
Proof.
  induction n as [|n IH]; intros text L quotes lineCount counts.
  - destruct text; [|simpl in L; lia]. apply pick_or_comma.
  - destruct text as [|c rest]; [apply pick_or_comma|]. simpl in L.
    cbn [Csv.detectFrom].
    destruct (negb (lineCount <? 5)); [apply pick_or_comma|].
    destruct (Ascii.eqb c Csv.quote).
    { destruct rest as [|nextChar rest']; [apply IH; simpl; lia|].
      destruct (quotes && Ascii.eqb nextChar Csv.quote); apply IH; simpl in *; lia. }
    destruct (negb quotes && (Ascii.eqb c Csv.LF || Ascii.eqb c Csv.CR)).
    { destruct (Csv.pickDelimiter counts) as [best|] eqn:E.
      - now apply pick_candidate in E.
      - destruct rest as [|nextChar rest']; [apply IH; simpl; lia|].
        destruct (Ascii.eqb c Csv.CR && Ascii.eqb nextChar Csv.LF);
          apply IH; simpl in *; lia. }
    destruct (negb quotes); apply IH; lia.
Qed.

(** ** Line breaks *)

Lemma candidate_not_break d :
  In d Csv.DELIMITER_CANDIDATES ->
  String.eqb (Csv.char Csv.LF) d = false /\ String.eqb (Csv.char Csv.CR) d = false.
Proof.
  intros H. cbn in H.
  repeat destruct H as [H|H]; try contradiction; subst; split; reflexivity.
Qed.

Section Breaks.

Variable d : string.
Hypothesis candidate : In d Csv.DELIMITER_CANDIDATES.

Variable state : Csv.CsvParseState.
Hypothesis outside : Csv.inQuotes state = false.

Lemma parse_LF rest :
  Csv.parseFrom d state (Csv.LF :: rest) = Csv.parseFrom d (Csv.finalizeRow state) rest.
Proof.
  destruct (candidate_not_break d candidate) as [DL DC].
  cbn [Csv.parseFrom]. rewrite outside, DL. reflexivity.
Qed.

Lemma parse_CRLF rest :
  Csv.parseFrom d state (Csv.CR :: Csv.LF :: rest)
  = Csv.parseFrom d (Csv.finalizeRow state) rest.
Proof.
  destruct (candidate_not_break d candidate) as [DL DC].
  change (Csv.parseFrom d state (Csv.CR :: Csv.LF :: rest))
    with (if Csv.inQuotes state
          then Csv.parseFrom d (Csv.addChar state Csv.CR) (Csv.LF :: rest)
          else if String.eqb (Csv.char Csv.CR) d
               then Csv.parseFrom d (Csv.finalizeField state) (Csv.LF :: rest)
               else Csv.parseFrom d (Csv.finalizeRow state) rest).
  now rewrite outside, DC.
Qed.

Lemma parse_CR nextChar rest :
  nextChar <> Csv.LF ->
  Csv.parseFrom d state (Csv.CR :: nextChar :: rest)
  = Csv.parseFrom d (Csv.finalizeRow state) (nextChar :: rest).
Proof.
  destruct (candidate_not_break d candidate) as [DL DC]. intros N.
  change (Csv.parseFrom d state (Csv.CR :: nextChar :: rest))
    with (if Csv.inQuotes state
          then Csv.parseFrom d (Csv.addChar state Csv.CR) (nextChar :: rest)
          else if String.eqb (Csv.char Csv.CR) d
               then Csv.parseFrom d (Csv.finalizeField state) (nextChar :: rest)
               else if Ascii.eqb nextChar Csv.LF
                    then Csv.parseFrom d (Csv.finalizeRow state) rest
                    else Csv.parseFrom d (Csv.finalizeRow state) (nextChar :: rest)).
  now rewrite outside, DC, (proj2 (Ascii.eqb_neq nextChar Csv.LF) N).
Qed.

Lemma parse_CR_end : Csv.parseFrom d state [Csv.CR] = Csv.finalizeRow state.
Proof.
  destruct (candidate_not_break d candidate) as [DL DC].
  cbn [Csv.parseFrom]. now rewrite outside, DC.
Qed.

Lemma parse_other c :
  c <> Csv.quote -> c <> Csv.CR ->
  exists state',
    Csv.inQuotes state' = false /\
    forall rest, Csv.parseFrom d state (c :: rest) = Csv.parseFrom d state' rest.
Proof.
  intros Nq Nc.
  destruct (String.eqb (Csv.char c) d) eqn:E1; [|destruct (Ascii.eqb c Csv.LF) eqn:E2].
  - exists (Csv.finalizeField state). split; [exact outside|]. intros r.
    cbn [Csv.parseFrom].
    now rewrite outside, (proj2 (Ascii.eqb_neq c Csv.quote) Nq), E1.
  - exists (Csv.finalizeRow state). split; [exact outside|]. intros r.
    cbn [Csv.parseFrom].
    now rewrite outside, (proj2 (Ascii.eqb_neq c Csv.quote) Nq), E1, E2.
  - exists (Csv.addChar state c). split; [exact outside|]. intros r.
    cbn [Csv.parseFrom].
    now rewrite outside, (proj2 (Ascii.eqb_neq c Csv.quote) Nq), E1, E2,
      (proj2 (Ascii.eqb_neq c Csv.CR) Nc).
Qed.

End Breaks.

Lemma quoteFree_cons c rest :
  quoteFree (c :: rest) = true -> c <> Csv.quote /\ quoteFree rest = true.
Proof.
  cbn [quoteFree forallb]. intros Q. apply andb_true_iff in Q. destruct Q as [Qc Q].
  split; [|exact Q]. apply negb_true_iff in Qc. now apply Ascii.eqb_neq.
Qed.

Lemma parse_unixLines d n :
  In d Csv.DELIMITER_CANDIDATES ->
  forall cs, (List.length cs <= n)%nat -> quoteFree cs = true ->
  forall state, Csv.inQuotes state = false ->
    Csv.parseFrom d state (unixLines cs) = Csv.parseFrom d state cs.
Proof.
  intros D. induction n as [|n IH]; intros cs L Q state S.
  - destruct cs; [reflexivity|simpl in L; lia].
  - destruct cs as [|c rest]; [reflexivity|]. simpl in L.
    destruct (quoteFree_cons c rest Q) as [Nq Qr].
    cbn [unixLines]. destruct (Ascii.eqb_spec c Csv.CR) as [->|N].
    + destruct rest as [|nextChar rest'].
      * cbn [unixLines]. rewrite parse_CR_end, parse_LF by assumption. reflexivity.
      * destruct (quoteFree_cons nextChar rest' Qr) as [Nn Qr'].
        destruct (Ascii.eqb_spec nextChar Csv.LF) as [->|Nl].
        -- rewrite parse_LF, parse_CRLF by assumption.
           apply IH; auto. simpl in L. lia.
        -- rewrite parse_LF, parse_CR by assumption. apply IH; auto. lia.
    + destruct (parse_other d state S c Nq N) as [state' [S' E]].
      rewrite !E. apply IH; auto. lia.
Qed.

Section DetectBreaks.

Variable lineCount : Z.
Variable counts : list (string * Z).

Lemma detect_LF_step rest :
  Csv.detectFrom false lineCount counts (Csv.LF :: rest)
  = atBreak lineCount counts (Csv.detectFrom false (lineCount + 1) Csv.resetCounts rest).
Proof.
  unfold atBreak. cbn [Csv.detectFrom]. destruct (negb (lineCount <? 5)); [reflexivity|].
  change (Ascii.eqb Csv.LF Csv.quote) with false.
  change (Ascii.eqb Csv.LF Csv.LF) with true.
  change (Ascii.eqb Csv.LF Csv.CR) with false. cbn [negb andb orb].
  destruct (Csv.pickDelimiter counts); [reflexivity|]. now destruct rest.
Qed.

Lemma detect_CRLF_step rest :
  Csv.detectFrom false lineCount counts (Csv.CR :: Csv.LF :: rest)
  = atBreak lineCount counts (Csv.detectFrom false (lineCount + 1) Csv.resetCounts rest).
Proof.
  unfold atBreak.
  change (Csv.detectFrom false lineCount counts (Csv.CR :: Csv.LF :: rest))
    with (if negb (lineCount <? 5) then orElse (Csv.pickDelimiter counts) ","
          else match Csv.pickDelimiter counts with
               | Some best => best
               | None => Csv.detectFrom false (lineCount + 1) Csv.resetCounts rest
               end).
  reflexivity.
Qed.

Lemma detect_CR_step nextChar rest :
  nextChar <> Csv.LF ->
  Csv.detectFrom false lineCount counts (Csv.CR :: nextChar :: rest)
  = atBreak lineCount counts
      (Csv.detectFrom false (lineCount + 1) Csv.resetCounts (nextChar :: rest)).
Proof.
  intros N. unfold atBreak.
  change (Csv.detectFrom false lineCount counts (Csv.CR :: nextChar :: rest))
    with (if negb (lineCount <? 5) then orElse (Csv.pickDelimiter counts) ","
          else match Csv.pickDelimiter counts with
               | Some best => best
               | None =>
                   if true && Ascii.eqb nextChar Csv.LF
                   then Csv.detectFrom false (lineCount + 1) Csv.resetCounts rest
                   else Csv.detectFrom false (lineCount + 1) Csv.resetCounts
                                       (nextChar :: rest)
               end).
  now rewrite (proj2 (Ascii.eqb_neq nextChar Csv.LF) N).
Qed.

Lemma detect_CR_end :
  Csv.detectFrom false lineCount counts [Csv.CR]
  = atBreak lineCount counts (Csv.detectFrom false (lineCount + 1) Csv.resetCounts []).
Proof.
  unfold atBreak. cbn [Csv.detectFrom]. destruct (negb (lineCount <? 5)); reflexivity.
Qed.

End DetectBreaks.

Lemma detect_unixLines n :
  forall cs, (List.length cs <= n)%nat -> quoteFree cs = true ->
  forall lineCount counts,
    Csv.detectFrom false lineCount counts (unixLines cs)
    = Csv.detectFrom false lineCount counts cs.
Proof.
  induction n as [|n IH]; intros cs L Q lineCount counts.
  - destruct cs; [reflexivity|simpl in L; lia].
  - destruct cs as [|c rest]; [reflexivity|]. simpl in L.
    destruct (quoteFree_cons c rest Q) as [Nq Qr].
    cbn [unixLines]. destruct (Ascii.eqb_spec c Csv.CR) as [->|N].
    + destruct rest as [|nextChar rest'].
      * cbn [unixLines]. now rewrite detect_LF_step, detect_CR_end.
      * destruct (quoteFree_cons nextChar rest' Qr) as [Nn Qr'].
        destruct (Ascii.eqb_spec nextChar Csv.LF) as [->|Nl].
        -- rewrite detect_LF_step, detect_CRLF_step. f_equal.
           apply IH; auto. simpl in L. lia.
        -- rewrite detect_LF_step, detect_CR_step by assumption. f_equal.
           apply IH; auto. lia.
    + destruct (Ascii.eqb_spec c Csv.LF) as [->|Nl].
      * rewrite !detect_LF_step. f_equal. apply IH; auto. lia.
      * cbn [Csv.detectFrom]. destruct (negb (lineCount <? 5)); [reflexivity|].
        rewrite (proj2 (Ascii.eqb_neq c Csv.quote) Nq),
          (proj2 (Ascii.eqb_neq c Csv.CR) N), (proj2 (Ascii.eqb_neq c Csv.LF) Nl).
        cbn [negb andb orb]. apply IH; auto. lia.
Qed.

(** ** Texts without a tab, a semicolon or a bar *)

Lemma detect_all_quiet n :
  forall cs, (List.length cs <= n)%nat -> forallb isQuiet cs = true ->
  forall quotes lineCount count,
    0 <= count -> Csv.detectFrom quotes lineCount (commaCounts count) cs = ",".
Proof.
  induction n as [|n IH]; intros cs L Q quotes lineCount count Hn.
  - destruct cs; [|simpl in L; lia]. now apply pick_commaCounts.
  - destruct cs as [|c rest]; [now apply pick_commaCounts|]. simpl in L.
    cbn [forallb] in Q. apply andb_true_iff in Q. destruct Q as [Qc Q].
    destruct (isQuiet_parts c Qc) as [E5 [E6 E7]].
    cbn [Csv.detectFrom].
    destruct (negb (lineCount <? 5)); [now apply pick_commaCounts|].
    destruct (Ascii.eqb c Csv.quote).
    { destruct rest as [|nextChar rest']; [apply IH; auto; simpl; lia|].
      cbn [forallb] in Q. apply andb_true_iff in Q. destruct Q as [Qn Q'].
      destruct (quotes && Ascii.eqb nextChar Csv.quote); apply IH; auto;
        try (simpl in *; lia).
      cbn [forallb]. now rewrite Qn. }
    destruct (negb quotes && (Ascii.eqb c Csv.LF || Ascii.eqb c Csv.CR)).
    { destruct (pick_commaCounts_cases count Hn) as [-> | ->]; [reflexivity|].
      change Csv.resetCounts with (commaCounts 0).
      destruct rest as [|nextChar rest']; [apply IH; auto; simpl; lia|].
      cbn [forallb] in Q. apply andb_true_iff in Q. destruct Q as [Qn Q'].
      destruct (Ascii.eqb c Csv.CR && Ascii.eqb nextChar Csv.LF); apply IH; auto;
        try (simpl in *; lia).
      cbn [forallb]. now rewrite Qn. }
    destruct (negb quotes); [|apply IH; auto; lia].
    rewrite has_char, E5, E6, E7.
    destruct (Ascii.eqb_spec c ",") as [->|N]; cbn [orb].
    + change (JsMap.set (Csv.char ",")
                        (orElse (JsMap.get (Csv.char ",") (commaCounts count)) 0 + 1)
                        (commaCounts count))
        with (commaCounts (count + 1)).
      apply IH; auto; lia.
    + apply IH; auto; lia.
Qed.

(** ** The cells of an import *)

Lemma csvToCells_cellsOf text maxRows maxCols :
  Csv.csvToCells text maxRows maxCols
  = cellsOf (Csv.parseCsv text (Csv.detectDelimiter text)) maxRows maxCols.
Proof. reflexivity. Qed.

Lemma setAll_NoDup entries :
  forall cells, NoDup (JsMap.keys cells) -> NoDup (JsMap.keys (setAll entries cells)).
Proof.
  unfold setAll. induction entries as [|[k v] entries IH]; intros cells ND; [exact ND|].
  cbn [fold_left fst snd]. apply IH. now apply keys_set_NoDup.
Qed.

(** ** The parts of the parse that line breaks do not touch *)

Lemma parseCsv_unixLines cs d :
  In d Csv.DELIMITER_CANDIDATES -> quoteFree cs = true ->
  Csv.parseCsv (JsString.text (unixLines cs)) d = Csv.parseCsv (JsString.text cs) d.
Proof.
  intros D Q. unfold Csv.parseCsv. rewrite !chars_text.
  now rewrite (parse_unixLines d (List.length cs) D cs (le_n _) Q).
Qed.

Lemma detectDelimiter_unixLines cs :
  quoteFree cs = true ->
  Csv.detectDelimiter (JsString.text (unixLines cs))
  = Csv.detectDelimiter (JsString.text cs).
Proof.
  intros Q. unfold Csv.detectDelimiter. rewrite !chars_text.
  exact (detect_unixLines (List.length cs) cs (le_n _) Q 0 Csv.resetCounts).
Qed.

(** X11.  Reading gives back what escaping wrote.  Take any table whose
    lines each have at least one value; the values may hold commas, double
    quotes and line breaks.  Write each value escaped, the values of a line
    between commas and the lines between line feeds: [parseCsv] with the
    comma reads the table back, value for value.  The one exception is a
    last line that is a single empty value: it is written as nothing and is
    not read back. *)
Theorem X11_escaped_values_read_back table :
  Forall (fun values => values <> []) table ->
  Csv.parseCsv
    (Csv.join (Csv.char Csv.LF)
       (map (fun values => Csv.join "," (map Csv.escapeCsvValue values)) table))
    ","
  = if endsBlank table then removelast table else table.
Proof. exact (parseCsv_csvText table). Qed.

Lemma X11_escaped_values_read_back_witness :
  let table := [["a,b"; ""; Csv.char Csv.quote ++ "hi" ++ Csv.char Csv.quote];
     ["two" ++ Csv.char Csv.LF ++ "lines"; "c;d"]; [""]]%string in
  Forall (fun values => values <> []) table /\
  Csv.parseCsv
    (Csv.join (Csv.char Csv.LF)
       (map (fun values => Csv.join "," (map Csv.escapeCsvValue values)) table))
    ","
  = removelast table.
Proof.
  intros table.
  assert (F : Forall (fun values : list string => values <> []) table)
    by (repeat constructor; discriminate).
  split; [exact F|]. exact (X11_escaped_values_read_back table F).
Defined.

(** X12.  The delimiter [detectDelimiter] finds is always one of the four
    candidates: the comma, the tab, the semicolon or the bar.  For a text
    that has no tab, no semicolon and no bar it is the comma, also when the
    text has no comma either and when it is empty. *)
Theorem X12_delimiter_is_candidate :
  (forall text, In (Csv.detectDelimiter text) Csv.DELIMITER_CANDIDATES) /\
  (forall text,
     forallb isQuiet (JsString.chars text) = true -> Csv.detectDelimiter text = ",").
Proof.
  split.
  - intros text. unfold Csv.detectDelimiter.
    exact (detect_candidate _ _ (le_n _) false 0 Csv.resetCounts).
  - intros text Q. unfold Csv.detectDelimiter.
    change Csv.resetCounts with (commaCounts 0).
    apply (detect_all_quiet _ _ (le_n _) Q). lia.
Qed.

Lemma X12_delimiter_is_candidate_witness :
  Csv.detectDelimiter "name age" = ",".
Proof. apply (proj2 X12_delimiter_is_candidate). reflexivity. Defined.

(** X13.  The cells of an import are the non-empty values of the parsed
    rows within the limits, each under the key of its row and column: a key
    holds a text exactly when the text is the non-empty value at a row below
    [maxRows] and a column below [maxCols].  Empty values and values beyond
    the limits give no cell, and no key is held twice. *)
Theorem X13_imported_cells text maxRows maxCols :
  let table := Csv.parseCsv text (Csv.detectDelimiter text) in
  let cells := Csv.csvToCells text maxRows maxCols in
  wellFormed cells /\
  (forall k v,
     JsMap.get k cells = Some v
     <-> exists row col values,
           0 <= row < maxRows /\ nth_error table (Z.to_nat row) = Some values /\
           0 <= col < maxCols /\ nth_error values (Z.to_nat col) = Some v /\
           v <> "" /\ k = getCellKey row col) /\
  (maxRows <= 0 \/ maxCols <= 0 -> cells = []).
Proof.
  intros table cells. subst table cells. rewrite csvToCells_cellsOf.
  split; [|split].
  - unfold wellFormed. rewrite cellsOf_entries. apply setAll_NoDup. constructor.
  - intros k v. now rewrite cellsOf_get, tableEntries_In.
  - intros L. rewrite cellsOf_entries.
    destruct (tableEntries (Csv.parseCsv text (Csv.detectDelimiter text)) maxRows maxCols)
      as [|[k v] entries] eqn:E; [reflexivity|].
    exfalso.
    assert (H : In (k, v) (tableEntries (Csv.parseCsv text (Csv.detectDelimiter text))
                                        maxRows maxCols))
      by (rewrite E; now left).
    apply tableEntries_In in H. destruct H as [row [col [values H]]]. lia.
Qed.

Lemma X13_imported_cells_witness :
  Csv.csvToCells "a,b" 0 200 = [].
Proof. apply (proj2 (proj2 (X13_imported_cells "a,b" 0 200))). left. lia. Defined.

(** X14.  The key of a position names the position.  Two positions with the
    same key are the same position.  The export reads the row and the
    column back from the key: for a row and a column from 0 to below 2^53,
    splitting the key at the colon and converting the two parts with
    [Number] gives the numbers of the row and the column, which are finite
    and compare as the row and the column do. *)
Theorem X14_key_names_position :
  (forall r c r' c', getCellKey r c = getCellKey r' c' -> r = r' /\ c = c') /\
  (forall r c,
     0 <= r < 2 ^ 53 -> 0 <= c < 2 ^ 53 ->
     Csv.keyNumbers (getCellKey r c) = (whole r, whole c) /\
     Prim2SF (whole r) = wholeSF r /\ Prim2SF (whole c) = wholeSF c /\
     JsNumber.isFinite (whole r) = true /\ JsNumber.isFinite (whole c) = true) /\
  (forall a b,
     0 <= a < 2 ^ 53 -> 0 <= b < 2 ^ 53 -> (whole a <? whole b)%float = (a <? b)).
Proof.
  split; [exact getCellKey_inj|]. split.
  - intros r c Hr Hc. split; [now apply keyNumbers_key|].
    split; [now apply whole_SF|]. split; [now apply whole_SF|].
    split; now apply whole_finite.
  - intros a b Ha Hb. now apply whole_ltb.
Qed.

Lemma X14_key_names_position_witness :
  Csv.keyNumbers (getCellKey 999 199) = (whole 999, whole 199).
Proof. apply (proj1 (proj2 X14_key_names_position)); lia. Defined.

(** X15.  Outside quotes the three ways to end a line are read alike: in a
    text without a double quote, writing each carriage return, with the line
    feed after it if there is one, as a single line feed changes neither the
    delimiter that is found, nor the rows that are parsed, nor the cells of
    the import. *)
Theorem X15_line_breaks cs :
  quoteFree cs = true ->
  let text := JsString.text cs in
  let unix := JsString.text (unixLines cs) in
  Csv.detectDelimiter unix = Csv.detectDelimiter text /\
  Csv.parseCsv unix (Csv.detectDelimiter unix)
  = Csv.parseCsv text (Csv.detectDelimiter text) /\
  forall maxRows maxCols,
    Csv.csvToCells unix maxRows maxCols = Csv.csvToCells text maxRows maxCols.
Proof.
  intros Q text unix. subst text unix.
  pose proof (detectDelimiter_unixLines cs Q) as D.
  assert (P : Csv.parseCsv (JsString.text (unixLines cs))
                (Csv.detectDelimiter (JsString.text (unixLines cs)))
              = Csv.parseCsv (JsString.text cs) (Csv.detectDelimiter (JsString.text cs))).
  { rewrite D. apply parseCsv_unixLines; [|exact Q].
    unfold Csv.detectDelimiter.
    exact (detect_candidate _ _ (le_n _) false 0 Csv.resetCounts). }
  split; [exact D|]. split; [exact P|].
  intros maxRows maxCols. rewrite !csvToCells_cellsOf. now rewrite P.
Qed.

Lemma X15_line_breaks_witness :
  let cs := JsString.chars ("a;b" ++ Csv.char Csv.CR ++ Csv.char Csv.LF ++ "c;d"
                            ++ Csv.char Csv.CR ++ "e;f")%string in
  quoteFree cs = true /\
  Csv.csvToCells (JsString.text (unixLines cs)) 1000 200
  = Csv.csvToCells (JsString.text cs) 1000 200.
Proof.
  intros cs.
  assert (Q : quoteFree cs = true) by reflexivity.
  split; [exact Q|]. exact (proj2 (proj2 (X15_line_breaks cs Q)) 1000 200).
Defined.

(** ** The end of the text *)

Lemma parseCsv_closeRows cs d :
  Csv.parseCsv (JsString.text cs) d
  = closeRows (Csv.parseFrom d (Csv.mkState [] [] "" false) cs).
Proof. unfold Csv.parseCsv, closeRows. now rewrite chars_text. Qed.

Lemma quoteFree_app a b : quoteFree (a ++ b) = quoteFree a && quoteFree b.
Proof. apply forallb_app. Qed.

Lemma parse_prefix d n :
  In d Csv.DELIMITER_CANDIDATES ->
  forall cs, (List.length cs <= n)%nat -> quoteFree cs = true ->
  forall state c,
    Csv.inQuotes state = false -> c <> Csv.LF ->
    exists state',
      Csv.inQuotes state' = false /\
      forall rest,
        Csv.parseFrom d state (cs ++ c :: rest) = Csv.parseFrom d state' (c :: rest).
Proof.
  intros D. induction n as [|n IH]; intros cs L Q state c S N.
  - destruct cs; [|simpl in L; lia]. exists state. auto.
  - destruct cs as [|x cs]; [exists state; auto|]. simpl in L.
    destruct (quoteFree_cons x cs Q) as [Nq Qr].
    destruct (Ascii.eqb_spec x Csv.CR) as [->|Nx].
    + destruct cs as [|y cs].
      * exists (Csv.finalizeRow state). split; [exact S|]. intros rest.
        cbn [app]. now rewrite parse_CR.
      * destruct (quoteFree_cons y cs Qr) as [Ny Qr'].
        destruct (Ascii.eqb_spec y Csv.LF) as [->|Nl].
        -- destruct (IH cs ltac:(simpl in L; lia) Qr' (Csv.finalizeRow state) c S N)
             as [state' [S' E]].
           exists state'. split; [exact S'|]. intros rest.
           cbn [app]. rewrite parse_CRLF by assumption. apply E.
        -- destruct (IH (y :: cs) ltac:(lia) Qr (Csv.finalizeRow state) c S N)
             as [state' [S' E]].
           exists state'. split; [exact S'|]. intros rest.
           change ((Csv.CR :: y :: cs) ++ c :: rest)
             with (Csv.CR :: y :: (cs ++ c :: rest)).
           rewrite parse_CR by assumption. apply E.
    + destruct (parse_other d state S x Nq Nx) as [state1 [S1 E1]].
      destruct (IH cs ltac:(lia) Qr state1 c S1 N) as [state' [S' E]].
      exists state'. split; [exact S'|]. intros rest.
      cbn [app]. rewrite E1. apply E.
Qed.

Lemma parse_value_char d state c :
  Csv.inQuotes state = false ->
  c <> Csv.quote -> c <> Csv.LF -> c <> Csv.CR ->
  exists state',
    Csv.inQuotes state' = false /\
    (Csv.field state' <> "" \/ Csv.row state' <> []) /\
    forall rest, Csv.parseFrom d state (c :: rest) = Csv.parseFrom d state' rest.
Proof.
  intros S Nq Nl Nc.
  destruct (String.eqb (Csv.char c) d) eqn:E1.
  - exists (Csv.finalizeField state). split; [exact S|]. split.
    + right. cbn. now destruct (Csv.row state).
    + intros r. cbn [Csv.parseFrom].
      now rewrite S, (proj2 (Ascii.eqb_neq c Csv.quote) Nq), E1.
  - exists (Csv.addChar state c). split; [exact S|]. split.
    + left. cbn. unfold Csv.char. now destruct (Csv.field state).
    + intros r. cbn [Csv.parseFrom].
      now rewrite S, (proj2 (Ascii.eqb_neq c Csv.quote) Nq), E1,
        (proj2 (Ascii.eqb_neq c Csv.LF) Nl), (proj2 (Ascii.eqb_neq c Csv.CR) Nc).
Qed.

Lemma closeRows_pending state :
  Csv.inQuotes state = false ->
  Csv.field state <> "" \/ Csv.row state <> [] ->
  closeRows state = Csv.rows state ++ [Csv.row state ++ [Csv.field state]].
Proof.
  intros S P. unfold closeRows. rewrite S.
  assert (T : (0 <? Z.of_nat (String.length (Csv.field state)))
              || (0 <? Z.of_nat (List.length (Csv.row state))) = true).
  { apply orb_true_iff. destruct P as [P|P].
    - left. destruct (Csv.field state); [congruence|]. cbn [String.length].
      apply Z.ltb_lt. lia.
    - right. destruct (Csv.row state); [congruence|]. cbn [List.length].
      apply Z.ltb_lt. lia. }
  now rewrite T.
Qed.

Lemma closeRows_finalizeRow state :
  Csv.inQuotes state = false ->
  closeRows (Csv.finalizeRow state)
  = Csv.rows state ++ [Csv.row state ++ [Csv.field state]].
Proof. intros S. unfold closeRows. cbn. now rewrite S. Qed.

Lemma parse_inside d cs :
  forall state,
    Csv.inQuotes state = true -> quoteFree cs = true ->
    Csv.parseFrom d state cs = addText state (JsString.text cs).
Proof.
  induction cs as [|c cs IH]; intros state S Q.
  - cbn. now rewrite addText_empty.
  - destruct (quoteFree_cons c cs Q) as [Nq Qr].
    cbn [Csv.parseFrom]. rewrite S, (proj2 (Ascii.eqb_neq c Csv.quote) Nq).
    rewrite IH by auto. apply addText_addChar.
Qed.



(** X17.  A line break at the end of the text adds no row.  In a text
    without a double quote whose last character is no line break, a line
    feed, a carriage return or the two of them added at the end leave the
    parsed rows unchanged; a second line break after it adds the row of one
    empty value. *)
Theorem X17_final_line_break cs c d :
  In d Csv.DELIMITER_CANDIDATES ->
  quoteFree (cs ++ [c]) = true -> c <> Csv.LF -> c <> Csv.CR ->
  let rows := Csv.parseCsv (JsString.text (cs ++ [c])) d in
  Csv.parseCsv (JsString.text (cs ++ [c; Csv.LF])) d = rows /\
  Csv.parseCsv (JsString.text (cs ++ [c; Csv.CR])) d = rows /\
  Csv.parseCsv (JsString.text (cs ++ [c; Csv.CR; Csv.LF])) d = rows /\
  Csv.parseCsv (JsString.text (cs ++ [c; Csv.LF; Csv.LF])) d = rows ++ [[""]].
Proof.
  intros D Q Nl Nc rows. subst rows.
  rewrite quoteFree_app in Q. apply andb_true_iff in Q. destruct Q as [Q Qc].
  destruct (quoteFree_cons c [] Qc) as [Nq _].
  destruct (parse_prefix d (List.length cs) D cs (le_n _) Q
              (Csv.mkState [] [] "" false) c eq_refl Nl) as [state1 [S1 E1]].
  destruct (parse_value_char d state1 c S1 Nq Nl Nc) as [state2 [S2 [P E2]]].
  rewrite !parseCsv_closeRows, !E1, !E2.
  change (Csv.parseFrom d state2 []) with state2.
  rewrite (closeRows_pending state2 S2 P).
  assert (F : forall state, Csv.parseFrom d state [] = state) by reflexivity.
  split; [|split; [|split]].
  - rewrite parse_LF, F by assumption. now apply closeRows_finalizeRow.
  - rewrite parse_CR_end by assumption. now apply closeRows_finalizeRow.
  - rewrite parse_CRLF, F by assumption. now apply closeRows_finalizeRow.
  - rewrite parse_LF by assumption. rewrite parse_LF, F by (assumption || exact S2).
    unfold closeRows. cbn. rewrite S2. cbn. now rewrite <- app_assoc.
Qed.

Lemma X17_final_line_break_witness :
  Csv.parseCsv (JsString.text (JsString.chars "a,b" ++ ["c"%char; Csv.LF])) ","
  = Csv.parseCsv (JsString.text (JsString.chars "a,b" ++ ["c"%char])) ",".
Proof.
  apply (X17_final_line_break (JsString.chars "a,b") "c"%char ",").
  - left. reflexivity.
  - reflexivity.
  - discriminate.
  - discriminate.
Defined.

(** X18.  A double quote that is opened and never closed takes the rest of
    the text as one value: delimiters and line breaks after it separate
    nothing, and the end of the text closes it.  With nothing after the
    quote there is no row. *)
Theorem X18_unclosed_quote cs d :
  quoteFree cs = true ->
  Csv.parseCsv (JsString.text (Csv.quote :: cs)) d
  = if nonEmpty cs then [[JsString.text cs]] else [].
Proof.
  intros Q. rewrite parseCsv_closeRows. cbn [Csv.parseFrom Csv.inQuotes].
  rewrite Ascii.eqb_refl. rewrite parse_inside by (auto || reflexivity).
  unfold closeRows. cbn.
  destruct cs as [|c cs]; reflexivity.
Qed.

Lemma X18_unclosed_quote_witness :
  Csv.parseCsv (JsString.text (Csv.quote :: JsString.chars "a,b;c")) ";" = [["a,b;c"]].
Proof. apply (X18_unclosed_quote (JsString.chars "a,b;c") ";"). reflexivity. Defined.

(** ** Paste, undo and redo *)

Lemma removeKey_get_same k cells : JsMap.get k (removeKey k cells) = None.
Proof.
  unfold removeKey. induction cells as [|[k0 v0] cells IH]; [reflexivity|].
  cbn [filter fst]. destruct (String.eqb k0 k) eqn:E; cbn [negb]; [exact IH|].
  cbn [JsMap.get]. now rewrite E.
Qed.

Lemma write_get_same k value cells : JsMap.get k (Grid.write k value cells) = value.
Proof.
  destruct value as [text|]; cbn [Grid.write].
  - apply get_set_same.
  - apply removeKey_get_same.
Qed.

Lemma write_get_other k k' value cells :
  k' <> k -> JsMap.get k' (Grid.write k value cells) = JsMap.get k' cells.
Proof.
  intros N. destruct value as [text|]; cbn [Grid.write].
  - now apply get_set_other.
  - now apply removeKey_get.
Qed.

Lemma sameValue_eq a b : Grid.sameValue a b = true <-> a = b.
Proof.
  destruct a as [x|], b as [y|]; cbn [Grid.sameValue]; try (split; congruence).
  rewrite String.eqb_eq. split; congruence.
Qed.

Lemma applyHistoryBatch_get mode batch :
  forall cells,
    NoDup (map Grid.key batch) ->
    (forall entry, In entry batch ->
       JsMap.get (Grid.key entry) (Grid.applyHistoryBatch batch mode cells)
       = Grid.entryValue mode entry) /\
    (forall k, ~ In k (map Grid.key batch) ->
       JsMap.get k (Grid.applyHistoryBatch batch mode cells) = JsMap.get k cells).
Proof.
  unfold Grid.applyHistoryBatch.
  induction batch as [|e batch IH]; intros cells ND.
  - split; [intros entry []|reflexivity].
  - cbn [map] in ND. inversion ND as [|? ? Fresh ND']; subst.
    destruct (IH (Grid.write (Grid.key e) (Grid.entryValue mode e) cells) ND')
      as [I1 I2].
    cbn [fold_left]. split.
    + intros entry [<-|H]; [|now apply I1].
      rewrite (I2 _ Fresh). apply write_get_same.
    + intros k N. cbn [map In] in N.
      rewrite I2 by tauto. apply write_get_other. intros ->. tauto.
Qed.

Lemma madeBefore_later row col row' col' entry :
  row < row' \/ (row = row' /\ col <= col') ->
  madeBefore row col entry -> madeBefore row' col' entry.
Proof. intros L [r [c [E H]]]. exists r, c. split; [exact E|lia]. Qed.

Lemma pasteKeeps_later cells row col row' col' state :
  row < row' \/ (row = row' /\ col <= col') ->
  pasteKeeps cells row col state -> pasteKeeps cells row' col' state.
Proof.
  intros L [ND [F U]]. split; [exact ND|split; [|exact U]].
  eapply Forall_impl; [|exact F]. cbn beta. intros entry [P [N [D M]]].
  repeat split; auto. eapply madeBefore_later; eauto.
Qed.

Lemma madeBefore_fresh row col entries :
  Forall (madeBefore row col) entries ->
  ~ In (getCellKey row col) (map Grid.key entries).
Proof.
  intros F H. apply in_map_iff in H. destruct H as [entry [E H]].
  rewrite Forall_forall in F. destruct (F entry H) as [r [c [K L]]].
  rewrite K in E. apply getCellKey_inj in E. lia.
Qed.

Lemma pasteValues_keeps cells row focusCol values :
  forall colIndex state,
    pasteKeeps cells row (focusCol + colIndex) state ->
    exists col,
      pasteKeeps cells row col (Grid.pasteValues row focusCol colIndex values state).
Proof.
  induction values as [|value rest IH]; intros colIndex state K.
  - exists (focusCol + colIndex). exact K.
  - cbn [Grid.pasteValues].
    destruct (Grid.GRID_cols <=? focusCol + colIndex);
      [exists (focusCol + colIndex); exact K|].
    apply IH. replace (focusCol + (colIndex + 1)) with (focusCol + colIndex + 1) by lia.
    set (col := focusCol + colIndex) in *.
    set (nextValue := if String.eqb value "" then None else Some value).
    destruct (Grid.sameValue (JsMap.get (getCellKey row col) (fst state)) nextValue)
      eqn:S.
    { apply (pasteKeeps_later cells row col); [lia|exact K]. }
    destruct K as [ND [F U]].
    assert (Fresh : ~ In (getCellKey row col) (map Grid.key (snd state))).
    { apply madeBefore_fresh. eapply Forall_impl; [|exact F]. cbn beta. tauto. }
    assert (D : JsMap.get (getCellKey row col) (fst state) <> nextValue).
    { intros E. apply sameValue_eq in E. congruence. }
    unfold pasteKeeps. cbn [fst snd].
    split; [|split].
    + rewrite map_app. cbn [map Grid.key]. apply NoDup_app; [exact ND| |].
      * repeat constructor. intros [].
      * intros k Hk [<-|[]]. contradiction.
    + apply Forall_app. split.
      * rewrite Forall_forall in F. apply Forall_forall. intros entry H.
        destruct (F entry H) as [P [N [Dn M]]].
        assert (Nk : Grid.key entry <> getCellKey row col).
        { intros E. apply Fresh. rewrite <- E. now apply in_map. }
        repeat split; auto.
        -- now rewrite write_get_other.
        -- apply (madeBefore_later row col); [lia|exact M].
      * repeat constructor; cbn [Grid.key Grid.prev Grid.next].
        -- now apply U.
        -- now rewrite write_get_same.
        -- exact D.
        -- exists row, col. split; [reflexivity|lia].
    + intros k N. rewrite map_app, in_app_iff in N. cbn [map Grid.key In] in N.
      rewrite write_get_other by (intros ->; tauto). apply U. tauto.
Qed.

Lemma pasteRows_keeps cells focusRow focusCol rows :
  forall rowIndex state,
    pasteKeeps cells (focusRow + rowIndex) focusCol state ->
    exists row col,
      pasteKeeps cells row col (Grid.pasteRows focusRow focusCol rowIndex rows state).
Proof.
  induction rows as [|values rest IH]; intros rowIndex state K.
  - exists (focusRow + rowIndex), focusCol. exact K.
  - cbn [Grid.pasteRows].
    destruct (Grid.GRID_rows <=? focusRow + rowIndex);
      [exists (focusRow + rowIndex), focusCol; exact K|].
    replace focusCol with (focusCol + 0) in K by lia.
    destruct (pasteValues_keeps cells _ focusCol values 0 state K) as [col K'].
    apply IH. apply (pasteKeeps_later cells (focusRow + rowIndex) col); [lia|exact K'].
Qed.

Lemma pasteText_keeps rows focusRow focusCol cells :
  exists row col,
    pasteKeeps cells row col (Grid.pasteText rows focusRow focusCol cells).
Proof.
  unfold Grid.pasteText. apply pasteRows_keeps.
  split; [constructor|split; [constructor|reflexivity]].
Qed.

(** X20.  Undo takes back a paste, and redo makes it again.  The history
    entries of a paste have distinct keys, one for each cell the paste
    changed, with the text the cell held before and the text it holds
    after; no other cell is changed.  Writing back the earlier texts of the
    entries to the pasted store gives the store as it was, key for key, and
    writing their later texts to that store gives the pasted store. *)
Theorem X20_paste_undo_redo rows focusRow focusCol cells :
  let pasted := fst (Grid.pasteText rows focusRow focusCol cells) in
  let entries := snd (Grid.pasteText rows focusRow focusCol cells) in
  NoDup (map Grid.key entries) /\
  Forall (fun entry =>
            Grid.prev entry = JsMap.get (Grid.key entry) cells /\
            Grid.next entry = JsMap.get (Grid.key entry) pasted /\
            Grid.prev entry <> Grid.next entry)
         entries /\
  (forall k, ~ In k (map Grid.key entries) -> JsMap.get k pasted = JsMap.get k cells) /\
  sameMapping (Grid.applyHistoryBatch entries Grid.ModePrev pasted) cells /\
  sameMapping (Grid.applyHistoryBatch entries Grid.ModeNext cells) pasted.
Proof.
  intros pasted entries.
  destruct (pasteText_keeps rows focusRow focusCol cells) as [row [col [ND [F U]]]].
  fold pasted entries in ND, F, U.
  assert (F' : forall entry, In entry entries ->
                 Grid.prev entry = JsMap.get (Grid.key entry) cells /\
                 Grid.next entry = JsMap.get (Grid.key entry) pasted /\
                 Grid.prev entry <> Grid.next entry).
  { rewrite Forall_forall in F. intros entry H. destruct (F entry H). tauto. }
  assert (dec : forall k, In k (map Grid.key entries) \/ ~ In k (map Grid.key entries)).
  { intros k. destruct (in_dec string_dec k (map Grid.key entries)); auto. }
  split; [exact ND|]. split; [now apply Forall_forall|]. split; [exact U|]. split.
  - intros k.
    destruct (applyHistoryBatch_get Grid.ModePrev entries pasted ND) as [A1 A2].
    destruct (dec k) as [H|H].
    + apply in_map_iff in H. destruct H as [entry [<- H]].
      rewrite (A1 entry H). cbn [Grid.entryValue]. apply (F' entry H).
    + rewrite (A2 k H). now apply U.
  - intros k.
    destruct (applyHistoryBatch_get Grid.ModeNext entries cells ND) as [A1 A2].
    destruct (dec k) as [H|H].
    + apply in_map_iff in H. destruct H as [entry [<- H]].
      rewrite (A1 entry H). cbn [Grid.entryValue]. apply (F' entry H).
    + rewrite (A2 k H). symmetry. now apply U.
Qed.
